(** * MergedBlockOutputStream: the MergeTree part writer

    A shallow embedding of
    [dbms/src/Storages/MergeTree/MergedBlockOutputStream.cpp]:
    the column streams, the stream table built by [addStream], the
    granularity loops of [writeData], the full assembler
    ([MergedBlockOutputStream]) and the append-only assembler
    ([MergedColumnOnlyOutputStream]).

    Conventions.
    - [size_t] values are integers in [Z]; every C++ operation that can wrap
      is written with [wrap] (reduction modulo 2^64).
    - C++ methods that mutate the object are computations in the monad
      [M S A := S -> Res A * S]: the state reached is kept also when the call
      throws, so that "nothing was written before the throw" can be stated.
    - Undefined behaviour of the C++ code (null dereference, [% 0], bad
      [static_cast], out-of-range access) is an explicit failure.
    - Classes that the file only uses (buffers, codecs, data types, columns'
      serializers, file-name escaping) are the fields of [Collaborators]. *)

From Stdlib Require Import ZArith Lia Ascii.
From stdpp Require Import base gmap sets list strings sorting pretty.

Local Open Scope Z_scope.

(** ** Machine integers *)

Definition wrap (z : Z) : Z := z mod 2 ^ 64.

Definition byte_of_Z (z : Z) : Byte.byte :=
  match Byte.of_N (Z.to_N (z mod 256)) with
  | Some b => b
  | None => Byte.x00
  end.

(** [writeIntBinary] of a 64-bit value: eight bytes, least significant first. *)
Fixpoint le_bytes (n : nat) (z : Z) : list Byte.byte :=
  match n with
  | O => []
  | S n' => byte_of_Z z :: le_bytes n' (z / 256)
  end.

Definition writeIntBinary (x : Z) : list Byte.byte := le_bytes 8 (wrap x).

(** ** Outcomes *)

Inductive ErrorCode :=
| NOT_IMPLEMENTED
| BAD_ARGUMENTS
| NOT_FOUND_COLUMN_IN_BLOCK
| POSITION_OUT_OF_BOUND
| SIZES_OF_COLUMNS_DOESNT_MATCH.

Inductive Undefined :=
| NullDereference
| DivisionByZero
| BadStaticCast
| OutOfRange.

Inductive Failure :=
| Exception (code : ErrorCode) (message : string)
| UndefinedBehaviour (what : Undefined)
| OutOfFuel.

Inductive Res (A : Type) :=
| Ok (a : A)
| Fail (f : Failure).
Arguments Ok {A} a.
Arguments Fail {A} f.

Definition is_ok {A} (r : Res A) : bool :=
  match r with Ok _ => true | Fail _ => false end.

(** The state-and-failure monad of the writers. *)
Definition M (S A : Type) : Type := S -> Res A * S.

Definition ret {S A} (a : A) : M S A := fun s => (Ok a, s).
Definition bind {S A B} (m : M S A) (k : A -> M S B) : M S B :=
  fun s => match m s with
           | (Ok a, s') => k a s'
           | (Fail f, s') => (Fail f, s')
           end.
Definition throw {S A} (code : ErrorCode) (message : string) : M S A :=
  fun s => (Fail (Exception code message), s).
Definition undefined {S A} (what : Undefined) : M S A :=
  fun s => (Fail (UndefinedBehaviour what), s).
Definition fail {S A} (f : Failure) : M S A := fun s => (Fail f, s).
Definition get {S} : M S S := fun s => (Ok s, s).
Definition modify {S} (f : S -> S) : M S unit := fun s => (Ok tt, f s).
Definition lift_res {S A} (r : Res A) : M S A := fun s => (r, s).

Declare Scope writer_scope.
Delimit Scope writer_scope with writer.
Notation "x <- m ;; k" := (bind m (fun x => k))
  (at level 100, m at next level, right associativity) : writer_scope.
Notation "m ;;; k" := (bind m (fun _ => k))
  (at level 100, right associativity) : writer_scope.

(** Run a computation on a component [get_c] of a larger state. *)
Definition zoom {S C A} (get_c : S -> C) (set_c : C -> S -> S) (m : M C A) : M S A :=
  fun s => match m (get_c s) with (r, c) => (r, set_c c s) end.

(** A [for] loop over a container. *)
Fixpoint for_each {S A} (l : list A) (body : A -> M S unit) : M S unit :=
  match l with
  | [] => ret tt
  | x :: l' => bind (body x) (fun _ => for_each l' body)
  end.

(** ** Data types, columns, blocks *)

Inductive IDataType :=
| DataTypePrimitive (type_name : string)
| DataTypeNullable (nested_type : IDataType)
| DataTypeArray (nested_type : IDataType).

Definition DataTypeUInt8 : IDataType := DataTypePrimitive "UInt8".

(** Modelled from the spec: [IColumn] and its subclasses are declared
    outside these sources; the writer uses [size], [permute], [insertFrom]
    and the two parts of a nullable column.  A column holds its rows:
    [ColumnArray] keeps one element column per row (the flat data of the
    source cut at its cumulative offsets); [ColumnNullable] pairs the nested
    column with the byte-per-row null map. *)
#[warnings="-register-all"]
Inductive IColumn :=
| ColumnVector (data : list Z)
| ColumnNullable (nested_column : IColumn) (null_map : IColumn)
| ColumnArray (rows : list IColumn).

Fixpoint column_size (c : IColumn) : Z :=
  match c with
  | ColumnVector data => Z.of_nat (length data)
  | ColumnNullable nested _ => column_size nested
  | ColumnArray rows => Z.of_nat (length rows)
  end.

Definition Permutation := list Z.

Definition select {A} (l : list A) (perm : Permutation) : Res (list A) :=
  if (length perm <? length l)%nat
  then Fail (Exception SIZES_OF_COLUMNS_DOESNT_MATCH "Size of permutation is less than required.")
  else
    match mapM (fun i => l !! Z.to_nat i) (take (length l) perm) with
    | Some l' => Ok l'
    | None => Fail (UndefinedBehaviour OutOfRange)
    end.

(** Modelled from the spec: [IColumn::permute(perm, 0)], declared outside
    these sources; row [i] of the result is row [perm[i]] (the precomputed
    permutation of the block). *)
Fixpoint permute (c : IColumn) (perm : Permutation) : Res IColumn :=
  match c with
  | ColumnVector data =>
      match select data perm with Ok d => Ok (ColumnVector d) | Fail f => Fail f end
  | ColumnNullable nested null_map =>
      match permute nested perm with
      | Ok n' =>
          match permute null_map perm with
          | Ok m' => Ok (ColumnNullable n' m')
          | Fail f => Fail f
          end
      | Fail f => Fail f
      end
  | ColumnArray rows =>
      match select rows perm with Ok r => Ok (ColumnArray r) | Fail f => Fail f end
  end.

(** Modelled from the spec: [IColumn::insertFrom(column, i)], declared
    outside these sources, appends row [i] of [column]; this is the one-row
    column holding that row. *)
Fixpoint column_row (c : IColumn) (i : Z) : option IColumn :=
  match c with
  | ColumnVector data => (fun v => ColumnVector [v]) <$> data !! Z.to_nat i
  | ColumnNullable nested null_map =>
      match column_row nested i, column_row null_map i with
      | Some n, Some m => Some (ColumnNullable n m)
      | _, _ => None
      end
  | ColumnArray rows => (fun r => ColumnArray [r]) <$> rows !! Z.to_nat i
  end.

Record ColumnWithTypeAndName := {
  column : IColumn;
  type : IDataType;
  name : string;
}.

Definition Block := list ColumnWithTypeAndName.

Record NameAndTypePair := {
  nt_name : string;
  nt_type : IDataType;
}.
Definition NamesAndTypesList := list NameAndTypePair.

(** Modelled from the spec: [Block] is declared outside these sources; a
    block is a batch of columns with their names and types.  [Block::rows]
    is the size of the first column, 0 for a block without columns;
    [getByPosition] and [getByName] throw when the column is missing. *)
Definition block_rows (block : Block) : Z :=
  match block with
  | [] => 0
  | c :: _ => column_size (column c)
  end.

Definition getByPosition (block : Block) (position : Z) : Res ColumnWithTypeAndName :=
  match block !! Z.to_nat position with
  | Some c => Ok c
  | None => Fail (Exception POSITION_OUT_OF_BOUND "Position is out of bound in Block::getByPosition()")
  end.

Definition getByName (block : Block) (n : string) : Res ColumnWithTypeAndName :=
  match List.find (fun c => String.eqb (name c) n) block with
  | Some c => Ok c
  | None => Fail (Exception NOT_FOUND_COLUMN_IN_BLOCK "Not found column in block")
  end.

Record SortColumnDescription := {
  column_name : string;
  column_number : Z;
}.
Definition SortDescription := list SortColumnDescription.

(** ** Storage and settings

    Modelled from the spec: [MergeTreeData] and [Settings] are declared
    outside these sources; these are the members the writer reads
    ([index_granularity], [merging_params.mode], [getSortDescription()] and
    three settings of the context). *)

Inductive MergingMode :=
| Ordinary
| Collapsing
| Summing
| Aggregating
| Unsorted
| Replacing.

Definition is_unsorted (m : MergingMode) : bool :=
  match m with Unsorted => true | _ => false end.

Inductive CompressionMethod := LZ4 | ZSTD.

Record Settings := {
  settings_min_compress_block_size : Z;
  settings_max_compress_block_size : Z;
  settings_min_bytes_to_use_direct_io : Z;
}.

Record MergeTreeData := {
  index_granularity : Z;
  merging_mode : MergingMode;
  sort_description : SortDescription;
  context_settings : Settings;
}.

(** ** File system *)

Record FileSystem := {
  directories : gset string;
  files : gmap string (list Byte.byte);
  opened : list string;
  synced : list string;
}.

Definition empty_fs : FileSystem :=
  {| directories := ∅; files := ∅; opened := []; synced := [] |}.

Definition createDirectories (path : string) (fs : FileSystem) : FileSystem :=
  {| directories := {[path]} ∪ directories fs; files := files fs;
     opened := opened fs; synced := synced fs |}.

(** [open] with [O_TRUNC | O_CREAT | O_WRONLY]; [opened] is the trace of
    these calls. *)
Definition open_truncate (path : string) (fs : FileSystem) : FileSystem :=
  {| directories := directories fs; files := <[path := []]> (files fs);
     opened := opened fs ++ [path]; synced := synced fs |}.

Definition store (path : string) (content : list Byte.byte) (fs : FileSystem) : FileSystem :=
  {| directories := directories fs; files := <[path := content]> (files fs);
     opened := opened fs; synced := synced fs |}.

Definition fsync (path : string) (fs : FileSystem) : FileSystem :=
  {| directories := directories fs; files := files fs;
     opened := opened fs; synced := synced fs ++ [path] |}.

Definition outside (dir : string) (path : string) : Prop := String.prefix dir path = false.

#[global] Instance outside_dec dir path : Decision (outside dir path).
Proof. unfold outside. apply _. Defined.

(** [Poco::File(path).remove(true)]: the directory and everything below. *)
Definition remove_recursive (path : string) (fs : FileSystem) : FileSystem :=
  {| directories := filter (outside path) (directories fs);
     files := filter (fun kv : string * list Byte.byte => outside path kv.1) (files fs);
     opened := opened fs; synced := synced fs |}.

Definition exists_on_disk (path : string) (fs : FileSystem) : Prop :=
  path ∈ directories fs \/ is_Some (files fs !! path).

(** ** Checksums

    Modelled from the spec: [MergeTreeData::DataPart::Checksums] is declared
    outside these sources; the manifest records, per file, its size and hash
    and, for a compressed file, the uncompressed size and hash. *)

Record Checksum := {
  file_size : Z;
  file_hash : Z;
  is_compressed : bool;
  uncompressed_size : Z;
  uncompressed_hash : Z;
}.

Definition default_checksum : Checksum :=
  {| file_size := 0; file_hash := 0; is_compressed := false;
     uncompressed_size := 0; uncompressed_hash := 0 |}.

(** [checksums.files]. *)
Definition Checksums := gmap string Checksum.

(** [files[key]]: the entry, default-constructed when absent. *)
Definition entry (files : gmap string Checksum) (key : string) : Checksum :=
  default default_checksum (files !! key).

(** ** Collaborators

    Everything below is implemented outside this translation unit and used
    here through its interface only. *)

Class Collaborators := {
  (** [CompressedWriteBuffer]: one frame of compressed output for one
      working buffer of input. *)
  compress : CompressionMethod -> list Byte.byte -> list Byte.byte;
  (** Size of the working buffer of [CompressedWriteBuffer]. *)
  buffer_capacity : Z;
  (** [HashingWriteBuffer::getHash]. *)
  getHash : list Byte.byte -> Z;
  (** [IDataType::serializeBinary(column, ostr, offset, limit)]. *)
  serializeBinary : IDataType -> IColumn -> Z -> Z -> list Byte.byte;
  (** [IDataType::serializeBinary(column, row_num, ostr)]. *)
  serializeBinaryValue : IDataType -> IColumn -> Z -> list Byte.byte;
  (** [DataTypeArray::serializeOffsets(column, ostr, offset, limit)]. *)
  serializeOffsets : IColumn -> Z -> Z -> list Byte.byte;
  escapeForFileName : string -> string;
  (** [DataTypeNested::extractNestedTableName]. *)
  extractNestedTableName : string -> string;
  (** [NamesAndTypesList::writeText]. *)
  writeText : NamesAndTypesList -> list Byte.byte;
  (** [MergeTreeData::DataPart::Checksums::write]. *)
  writeChecksums : gmap string Checksum -> list Byte.byte;
}.

(** Modelled from the spec: the macro [ARRAY_SIZES_COLUMN_NAME_SUFFIX] is
    defined in a header outside these sources; the spec names the shared
    sizes stream [nested_root(name) + "%size" + L]. *)
Definition ARRAY_SIZES_COLUMN_NAME_SUFFIX : string := "%size".

Definition DATA_FILE_EXTENSION : string := ".bin".
Definition NULL_MAP_EXTENSION : string := ".null".
Definition MARKS_FILE_EXTENSION : string := ".mrk".
Definition NULL_MARKS_FILE_EXTENSION : string := ".null_mrk".

Definition toString (z : Z) : string := pretty z.

(** ** ColumnStream *)

Record ColumnStream := {
  escaped_column_name : string;
  data_file_extension : string;
  marks_file_extension : string;
  (** [plain_file]: path of the data file. *)
  plain_file : string;
  (** Bytes that went through [plain_hashing], the content of the data
      file; [plain_hashing.count()] is its length. *)
  plain_hashing : list Byte.byte;
  (** [compressed_buf]'s codec. *)
  compressed_method : CompressionMethod;
  (** [compressed]: uncompressed bytes of the frames already closed, and
      the working buffer of the open frame; [compressed.offset()] is the
      length of the latter. *)
  compressed_closed : list Byte.byte;
  compressed_buffer : list Byte.byte;
  (** [marks_file]: path of the marks file. *)
  marks_file : string;
  (** [marks]: the integers written by [writeIntBinary], in order. *)
  marks : list Z;
}.

Section Writer.
Context `{Collaborators}.

(** The object built by the constructor; the two files are opened by
    [ColumnStream_open].  [max_compress_block_size], [estimated_size] and
    [aio_threshold] only choose the kind of buffer for the data file. *)
Definition ColumnStream_new (escaped_column_name_ data_path data_file_extension_
    marks_path marks_file_extension_ : string) (max_compress_block_size : Z)
    (compression_method : CompressionMethod) (estimated_size aio_threshold : Z)
    : ColumnStream :=
  {| escaped_column_name := escaped_column_name_;
     data_file_extension := data_file_extension_;
     marks_file_extension := marks_file_extension_;
     plain_file := data_path +:+ data_file_extension_;
     plain_hashing := [];
     compressed_method := compression_method;
     compressed_closed := [];
     compressed_buffer := [];
     marks_file := marks_path +:+ marks_file_extension_;
     marks := [] |}.

Definition set_compressed (s : ColumnStream) (plain closed buffer : list Byte.byte)
    : ColumnStream :=
  {| escaped_column_name := escaped_column_name s;
     data_file_extension := data_file_extension s;
     marks_file_extension := marks_file_extension s;
     plain_file := plain_file s;
     plain_hashing := plain;
     compressed_method := compressed_method s;
     compressed_closed := closed;
     compressed_buffer := buffer;
     marks_file := marks_file s;
     marks := marks s |}.

Definition set_marks (s : ColumnStream) (m : list Z) : ColumnStream :=
  {| escaped_column_name := escaped_column_name s;
     data_file_extension := data_file_extension s;
     marks_file_extension := marks_file_extension s;
     plain_file := plain_file s;
     plain_hashing := plain_hashing s;
     compressed_method := compressed_method s;
     compressed_closed := compressed_closed s;
     compressed_buffer := compressed_buffer s;
     marks_file := marks_file s;
     marks := m |}.

(** Modelled from the spec: the buffers of a stream ([WriteBuffer],
    [HashingWriteBuffer], [CompressedWriteBuffer]) are implemented outside
    these sources.  After 4.1: uncompressed bytes gather in the working
    buffer of the current frame; [next] closes the frame, which sends its
    compressed form to the data file; [nextIfAtEnd] does so if the frame is
    exactly full; [offset] is the number of bytes buffered in the current
    frame and [count] the number of bytes written so far. *)

(** [stream.compressed.offset()]. *)
Definition compressed_offset (s : ColumnStream) : Z :=
  Z.of_nat (length (compressed_buffer s)).

(** [stream.compressed.count()]. *)
Definition compressed_count (s : ColumnStream) : Z :=
  Z.of_nat (length (compressed_closed s)) + compressed_offset s.

(** [stream.plain_hashing.count()]. *)
Definition plain_count (s : ColumnStream) : Z :=
  Z.of_nat (length (plain_hashing s)).


(** [stream.compressed.next()]: closes the open frame; nothing happens when
    the working buffer is empty. *)
Definition compressed_next (s : ColumnStream) : ColumnStream :=
  match compressed_buffer s with
  | [] => s
  | _ =>
      set_compressed s
        (plain_hashing s ++ compress (compressed_method s) (compressed_buffer s))
        (compressed_closed s ++ compressed_buffer s)
        []
  end.

(** [stream.compressed.nextIfAtEnd()]. *)
Definition compressed_nextIfAtEnd (s : ColumnStream) : ColumnStream :=
  if compressed_offset s =? buffer_capacity then compressed_next s else s.

(** [WriteBuffer::write]: a full working buffer is flushed before the next
    byte is copied into it. *)
Fixpoint compressed_write (bs : list Byte.byte) (s : ColumnStream) : ColumnStream :=
  match bs with
  | [] => s
  | b :: bs' =>
      let s1 := compressed_nextIfAtEnd s in
      compressed_write bs'
        (set_compressed s1 (plain_hashing s1) (compressed_closed s1)
           (compressed_buffer s1 ++ [b]))
  end.

(** [writeIntBinary(x, stream.marks)]. *)
Definition marks_write (x : Z) (s : ColumnStream) : ColumnStream :=
  set_marks s (marks s ++ [wrap x]).

(** Content of the marks file. *)
Definition marks_bytes (s : ColumnStream) : list Byte.byte :=
  flat_map writeIntBinary (marks s).

(** [ColumnStream::finalize]. *)
Definition ColumnStream_finalize (s : ColumnStream) (fs : FileSystem)
    : ColumnStream * FileSystem :=
  let s1 := compressed_next s in
  (s1, store (marks_file s1) (marks_bytes s1) (store (plain_file s1) (plain_hashing s1) fs)).

(** [ColumnStream::sync]. *)
Definition ColumnStream_sync (s : ColumnStream) (fs : FileSystem) : FileSystem :=
  fsync (marks_file s) (fsync (plain_file s) fs).

(** [ColumnStream::addToChecksums]. *)
Definition ColumnStream_addToChecksums (s : ColumnStream) (checksums : Checksums)
    (name_ : string) : Checksums :=
  let name_ := if String.eqb name_ "" then escaped_column_name s else name_ in
  let bin := name_ +:+ data_file_extension s in
  let checksums :=
    <[bin := {| file_size := plain_count s;
                file_hash := getHash (plain_hashing s);
                is_compressed := true;
                uncompressed_size := compressed_count s;
                uncompressed_hash := getHash (compressed_closed s ++ compressed_buffer s) |}]>
      checksums in
  let mrk := name_ +:+ marks_file_extension s in
  let old := entry checksums mrk in
  <[mrk := {| file_size := Z.of_nat (length (marks_bytes s));
              file_hash := getHash (marks_bytes s);
              is_compressed := is_compressed old;
              uncompressed_size := uncompressed_size old;
              uncompressed_hash := uncompressed_hash old |}]> checksums.

Definition ColumnStream_open (s : ColumnStream) (fs : FileSystem) : FileSystem :=
  open_truncate (marks_file s) (open_truncate (plain_file s) fs).

(** [std::map] is traversed in the order of its keys. *)
Definition key_le {A} (a b : string * A) : Prop := String.leb a.1 b.1.

Definition in_key_order {A} (m : gmap string A) : list (string * A) :=
  merge_sort key_le (map_to_list m).

(** ** IMergedBlockOutputStream *)

Record IMergedBlockOutputStream := {
  storage : MergeTreeData;
  min_compress_block_size : Z;
  max_compress_block_size : Z;
  aio_threshold : Z;
  compression_method : CompressionMethod;
  column_streams : gmap string ColumnStream;
  null_streams : gmap string ColumnStream;
  index_offset : Z;
  (** The file system the writer acts on. *)
  disk : FileSystem;
}.

(** Modelled from the spec: the member initialisers of the header
    [MergedBlockOutputStream.h], which is outside these sources.  Every part
    starts at [index_offset = 0] with [marks_count = 0] (P1, scenario 6),
    and the append-only assembler initialises its streams in the first
    [write]. *)
Definition initial_index_offset : Z := 0.
Definition initial_marks_count : Z := 0.
Definition initial_initialized : bool := false.

(** The constructor of [IMergedBlockOutputStream]; the stream tables start
    empty. *)
Definition IMergedBlockOutputStream_new (storage_ : MergeTreeData)
    (min_compress_block_size_ max_compress_block_size_ : Z)
    (compression_method_ : CompressionMethod) (aio_threshold_ : Z) (fs : FileSystem)
    : IMergedBlockOutputStream :=
  {| storage := storage_;
     min_compress_block_size := min_compress_block_size_;
     max_compress_block_size := max_compress_block_size_;
     aio_threshold := aio_threshold_;
     compression_method := compression_method_;
     column_streams := ∅;
     null_streams := ∅;
     index_offset := initial_index_offset;
     disk := fs |}.

Definition set_column_streams (t : gmap string ColumnStream) (w : IMergedBlockOutputStream)
    : IMergedBlockOutputStream :=
  {| storage := storage w; min_compress_block_size := min_compress_block_size w;
     max_compress_block_size := max_compress_block_size w; aio_threshold := aio_threshold w;
     compression_method := compression_method w; column_streams := t;
     null_streams := null_streams w; index_offset := index_offset w; disk := disk w |}.

Definition set_null_streams (t : gmap string ColumnStream) (w : IMergedBlockOutputStream)
    : IMergedBlockOutputStream :=
  {| storage := storage w; min_compress_block_size := min_compress_block_size w;
     max_compress_block_size := max_compress_block_size w; aio_threshold := aio_threshold w;
     compression_method := compression_method w; column_streams := column_streams w;
     null_streams := t; index_offset := index_offset w; disk := disk w |}.

Definition set_index_offset (o : Z) (w : IMergedBlockOutputStream) : IMergedBlockOutputStream :=
  {| storage := storage w; min_compress_block_size := min_compress_block_size w;
     max_compress_block_size := max_compress_block_size w; aio_threshold := aio_threshold w;
     compression_method := compression_method w; column_streams := column_streams w;
     null_streams := null_streams w; index_offset := o; disk := disk w |}.

Definition set_disk (fs : FileSystem) (w : IMergedBlockOutputStream) : IMergedBlockOutputStream :=
  {| storage := storage w; min_compress_block_size := min_compress_block_size w;
     max_compress_block_size := max_compress_block_size w; aio_threshold := aio_threshold w;
     compression_method := compression_method w; column_streams := column_streams w;
     null_streams := null_streams w; index_offset := index_offset w; disk := fs |}.

Local Open Scope writer_scope.

(** [column_streams[key] = std::make_unique<ColumnStream>(...)]. *)
Definition put_column_stream (key : string) (s : ColumnStream) : M IMergedBlockOutputStream unit :=
  modify (fun w =>
    set_column_streams (<[key := s]> (column_streams w)) (set_disk (ColumnStream_open s (disk w)) w)).

(** [null_streams[key] = std::make_unique<ColumnStream>(...)]. *)
Definition put_null_stream (key : string) (s : ColumnStream) : M IMergedBlockOutputStream unit :=
  modify (fun w =>
    set_null_streams (<[key := s]> (null_streams w)) (set_disk (ColumnStream_open s (disk w)) w)).

Definition nonempty (s : string) : bool := negb (String.eqb s "").

(** [IMergedBlockOutputStream::addNullStream]. *)
Definition addNullStream (path name_ : string) (estimated_size : Z) (filename : string)
    : M IMergedBlockOutputStream unit :=
  let escaped_column_name :=
    if nonempty filename then escapeForFileName filename else escapeForFileName name_ in
  w <- get ;;
  put_null_stream name_
    (ColumnStream_new escaped_column_name
       (path +:+ escaped_column_name) NULL_MAP_EXTENSION
       (path +:+ escaped_column_name) NULL_MARKS_FILE_EXTENSION
       (max_compress_block_size w) (compression_method w) estimated_size (aio_threshold w)).

Definition size_stream_name (name_ : string) (level : Z) : string :=
  extractNestedTableName name_ +:+ ARRAY_SIZES_COLUMN_NAME_SUFFIX +:+ toString level.

(** [IMergedBlockOutputStream::addStream]. *)
Fixpoint addStream (path name_ : string) (type_ : IDataType) (estimated_size level : Z)
    (filename : string) : M IMergedBlockOutputStream unit :=
  let escaped_column_name :=
    if nonempty filename then escapeForFileName filename else escapeForFileName name_ in
  match type_ with
  | DataTypeNullable nested_type_ =>
      addNullStream path name_ estimated_size filename ;;;
      addStream path name_ nested_type_ estimated_size level filename
  | DataTypeArray nested_type_ =>
      let size_name := size_stream_name name_ level in
      let escaped_size_name :=
        escapeForFileName (extractNestedTableName name_)
          +:+ ARRAY_SIZES_COLUMN_NAME_SUFFIX +:+ toString level in
      w <- get ;;
      put_column_stream size_name
        (ColumnStream_new escaped_size_name
           (path +:+ escaped_size_name) DATA_FILE_EXTENSION
           (path +:+ escaped_size_name) MARKS_FILE_EXTENSION
           (max_compress_block_size w) (compression_method w) estimated_size (aio_threshold w)) ;;;
      addStream path name_ nested_type_ estimated_size (wrap (level + 1)) ""
  | DataTypePrimitive _ =>
      w <- get ;;
      put_column_stream name_
        (ColumnStream_new escaped_column_name
           (path +:+ escaped_column_name) DATA_FILE_EXTENSION
           (path +:+ escaped_column_name) MARKS_FILE_EXTENSION
           (max_compress_block_size w) (compression_method w) estimated_size (aio_threshold w))
  end.

(** The part of an iteration that writes a mark: the frame is closed first
    when enough data has accumulated in it. *)
Definition write_mark (min_compress_block_size_ : Z) (stream : ColumnStream) : ColumnStream :=
  let stream :=
    if min_compress_block_size_ <=? compressed_offset stream
    then compressed_next stream else stream in
  marks_write (compressed_offset stream) (marks_write (plain_count stream) stream).

(** The [while (prev_mark < size)] loop.  [writeData] has three copies of it,
    which differ in the serializer call only; [serialize prev_mark limit] is
    that call. *)
Fixpoint write_granules (fuel : nat) (serialize : Z -> Z -> list Byte.byte)
    (index_granularity_ index_offset_ min_compress_block_size_ size prev_mark : Z)
    (stream : ColumnStream) : Res ColumnStream :=
  if prev_mark <? size then
    match fuel with
    | O => Fail OutOfFuel
    | S fuel' =>
        let '(limit, stream) :=
          if (prev_mark =? 0) && negb (index_offset_ =? 0)
          then (index_offset_, stream)
          else (index_granularity_, write_mark min_compress_block_size_ stream) in
        let stream := compressed_write (serialize prev_mark limit) stream in
        let stream := compressed_nextIfAtEnd stream in
        write_granules fuel' serialize index_granularity_ index_offset_
          min_compress_block_size_ size (wrap (prev_mark + limit)) stream
    end
  else Ok stream.

(** [ColumnStream & stream = *column_streams[key]] followed by the loop. *)
Definition write_column_stream (fuel : nat) (key : string)
    (serialize : Z -> Z -> list Byte.byte) (size : Z) : M IMergedBlockOutputStream unit :=
  fun w =>
    match column_streams w !! key with
    | None => (Fail (UndefinedBehaviour NullDereference), w)
    | Some stream =>
        match write_granules fuel serialize (index_granularity (storage w)) (index_offset w)
                (min_compress_block_size w) size 0 stream with
        | Ok stream' => (Ok tt, set_column_streams (<[key := stream']> (column_streams w)) w)
        | Fail f => (Fail f, w)
        end
    end.

(** [ColumnStream & stream = *null_streams[key]] followed by the loop. *)
Definition write_null_stream (fuel : nat) (key : string)
    (serialize : Z -> Z -> list Byte.byte) (size : Z) : M IMergedBlockOutputStream unit :=
  fun w =>
    match null_streams w !! key with
    | None => (Fail (UndefinedBehaviour NullDereference), w)
    | Some stream =>
        match write_granules fuel serialize (index_granularity (storage w)) (index_offset w)
                (min_compress_block_size w) size 0 stream with
        | Ok stream' => (Ok tt, set_null_streams (<[key := stream']> (null_streams w)) w)
        | Fail f => (Fail f, w)
        end
    end.

Definition OffsetColumns := gset string.

(** [IMergedBlockOutputStream::writeData].  The null-map loop calls
    [DataTypeUInt8{}.serializeBinary(null_map, stream.compressed)] with the
    defaulted [offset = 0, limit = 0]. *)
Fixpoint writeData (fuel : nat) (name_ : string) (type_ : IDataType) (column_ : IColumn)
    (offset_columns : OffsetColumns) (level : Z) : M IMergedBlockOutputStream OffsetColumns :=
  let size := column_size column_ in
  match type_ with
  | DataTypeNullable nested_type_ =>
      match column_ with
      | ColumnNullable nested_col null_map_ =>
          write_null_stream fuel name_
            (fun prev_mark limit => serializeBinary DataTypeUInt8 null_map_ 0 0) size ;;;
          writeData fuel name_ nested_type_ nested_col offset_columns level
      | _ => undefined BadStaticCast
      end
  | DataTypeArray _ =>
      let size_name := size_stream_name name_ level in
      offset_columns <-
        (if decide (size_name ∈ offset_columns) then ret offset_columns
         else
           write_column_stream fuel size_name (serializeOffsets column_) size ;;;
           ret ({[size_name]} ∪ offset_columns)) ;;
      write_column_stream fuel name_ (serializeBinary type_ column_) size ;;;
      ret offset_columns
  | DataTypePrimitive _ =>
      write_column_stream fuel name_ (serializeBinary type_ column_) size ;;;
      ret offset_columns
  end.

(** ** MergedBlockOutputStream: the full assembler *)

Record MergedBlockOutputStream := {
  base : IMergedBlockOutputStream;
  columns_list : NamesAndTypesList;
  part_path : string;
  marks_count : Z;
  (** [index_stream]: [None] is the null pointer, otherwise the bytes
      written to [primary.idx] through it. *)
  index_stream : option (list Byte.byte);
  (** [index_columns]: for every sort-key column the rows inserted so far. *)
  index_columns : list (list IColumn);
}.

Definition set_base (b : IMergedBlockOutputStream) (w : MergedBlockOutputStream)
    : MergedBlockOutputStream :=
  {| base := b; columns_list := columns_list w; part_path := part_path w;
     marks_count := marks_count w; index_stream := index_stream w;
     index_columns := index_columns w |}.

Definition set_marks_count (n : Z) (w : MergedBlockOutputStream) : MergedBlockOutputStream :=
  {| base := base w; columns_list := columns_list w; part_path := part_path w;
     marks_count := n; index_stream := index_stream w;
     index_columns := index_columns w |}.

Definition set_index_stream (i : option (list Byte.byte)) (w : MergedBlockOutputStream)
    : MergedBlockOutputStream :=
  {| base := base w; columns_list := columns_list w; part_path := part_path w;
     marks_count := marks_count w; index_stream := i;
     index_columns := index_columns w |}.

Definition set_index_columns (c : list (list IColumn)) (w : MergedBlockOutputStream)
    : MergedBlockOutputStream :=
  {| base := base w; columns_list := columns_list w; part_path := part_path w;
     marks_count := marks_count w; index_stream := index_stream w;
     index_columns := c |}.

Definition in_base {A} (m : M IMergedBlockOutputStream A) : M MergedBlockOutputStream A :=
  zoom base set_base m.

Definition on_disk (f : FileSystem -> FileSystem) : M MergedBlockOutputStream unit :=
  in_base (modify (fun b => set_disk (f (disk b)) b)).

(** [MergedBlockOutputStream::init]. *)
Definition init : M MergedBlockOutputStream unit :=
  w <- get ;;
  on_disk (createDirectories (part_path w)) ;;;
  if negb (is_unsorted (merging_mode (storage (base w)))) then
    on_disk (open_truncate (part_path w +:+ "primary.idx")) ;;;
    modify (set_index_stream (Some []))
  else ret tt.

Definition constructed {S} (r : Res unit * S) : Res S :=
  match r with
  | (Ok _, w) => Ok w
  | (Fail f, _) => Fail f
  end.

(** The members before the body of a constructor runs: [index_stream] is
    null and [index_columns] empty. *)
Definition MergedBlockOutputStream_fields (b : IMergedBlockOutputStream)
    (columns_list_ : NamesAndTypesList) (part_path_ : string) : MergedBlockOutputStream :=
  {| base := b; columns_list := columns_list_; part_path := part_path_;
     marks_count := initial_marks_count; index_stream := None; index_columns := [] |}.

(** The constructor [(storage_, part_path_, columns_list_, compression_method)]. *)
Definition MergedBlockOutputStream_new (storage_ : MergeTreeData) (part_path_ : string)
    (columns_list_ : NamesAndTypesList) (compression_method_ : CompressionMethod)
    (fs : FileSystem) : Res MergedBlockOutputStream :=
  let settings := context_settings storage_ in
  constructed
    ((init ;;;
      for_each columns_list_ (fun it =>
        in_base (addStream part_path_ (nt_name it) (nt_type it) 0 0 "")))
       (MergedBlockOutputStream_fields
          (IMergedBlockOutputStream_new storage_
             (settings_min_compress_block_size settings)
             (settings_max_compress_block_size settings)
             compression_method_
             (settings_min_bytes_to_use_direct_io settings) fs)
          columns_list_ part_path_)).

(** The constructor with [merged_column_to_size_] and [aio_threshold_]. *)
Definition MergedBlockOutputStream_new_sized (storage_ : MergeTreeData) (part_path_ : string)
    (columns_list_ : NamesAndTypesList) (compression_method_ : CompressionMethod)
    (merged_column_to_size_ : gmap string Z) (aio_threshold_ : Z)
    (fs : FileSystem) : Res MergedBlockOutputStream :=
  let settings := context_settings storage_ in
  constructed
    ((init ;;;
      for_each columns_list_ (fun it =>
        let estimated_size :=
          if 0 <? aio_threshold_
          then default 0 (merged_column_to_size_ !! nt_name it)
          else 0 in
        in_base (addStream part_path_ (nt_name it) (nt_type it) estimated_size 0 "")))
       (MergedBlockOutputStream_fields
          (IMergedBlockOutputStream_new storage_
             (settings_min_compress_block_size settings)
             (settings_max_compress_block_size settings)
             compression_method_ aio_threshold_ fs)
          columns_list_ part_path_)).

Definition res_bind {A B} (r : Res A) (k : A -> Res B) : Res B :=
  match r with
  | Ok a => k a
  | Fail f => Fail f
  end.

Definition with_column (c : ColumnWithTypeAndName) (col : IColumn) : ColumnWithTypeAndName :=
  {| column := col; type := type c; name := name c |}.

(** [!descr.column_name.empty() ? descr.column_name
       : block.getByPosition(descr.column_number).name]. *)
Definition descr_name (block : Block) (descr : SortColumnDescription) : Res string :=
  if nonempty (column_name descr) then Ok (column_name descr)
  else res_bind (getByPosition block (column_number descr)) (fun c => Ok (name c)).

(** [primary_columns[i]] as the loop body leaves it: the column of the
    block under [descr], permuted when there is a permutation. *)
Definition primary_column (block : Block) (permutation : option Permutation)
    (descr : SortColumnDescription) : Res ColumnWithTypeAndName :=
  res_bind
    (if nonempty (column_name descr) then getByName block (column_name descr)
     else getByPosition block (column_number descr))
    (fun c =>
       match permutation with
       | Some perm => res_bind (permute (column c) perm) (fun col => Ok (with_column c col))
       | None => Ok c
       end).

(** The first loop of [writeImpl]: the sort-key columns of the block.  [i]
    is the loop counter, [primary_columns] the entries filled so far and
    [primary_columns_name_to_position] the map of the same name. *)
Fixpoint resolve_primary_columns (descrs : SortDescription) (block : Block)
    (permutation : option Permutation) (i : Z)
    (primary_columns : list ColumnWithTypeAndName)
    (primary_columns_name_to_position : gmap string Z)
    : Res (list ColumnWithTypeAndName * gmap string Z) :=
  match descrs with
  | [] => Ok (primary_columns, primary_columns_name_to_position)
  | descr :: rest =>
      res_bind (descr_name block descr)
        (fun name_ =>
           match primary_columns_name_to_position !! name_ with
           | Some _ =>
               Fail (Exception BAD_ARGUMENTS "Primary key contains duplicate columns")
           | None =>
               res_bind (primary_column block permutation descr)
                 (fun c =>
                    resolve_primary_columns rest block permutation (wrap (i + 1))
                      (primary_columns ++ [c])
                      (<[name_ := i]> primary_columns_name_to_position))
           end)
  end.

(** The second loop of [writeImpl]: the data of every listed column. *)
Fixpoint write_columns (fuel : nat) (columns : NamesAndTypesList) (block : Block)
    (permutation : option Permutation) (primary_columns : list ColumnWithTypeAndName)
    (primary_columns_name_to_position : gmap string Z) (offset_columns : OffsetColumns)
    : M IMergedBlockOutputStream OffsetColumns :=
  match columns with
  | [] => ret offset_columns
  | it :: rest =>
      column_ <- lift_res (getByName block (nt_name it)) ;;
      data <-
        match permutation with
        | Some perm =>
            match primary_columns_name_to_position !! nt_name it with
            | Some position =>
                match primary_columns !! Z.to_nat position with
                | Some pc => ret (column pc)
                | None => undefined OutOfRange
                end
            | None => lift_res (permute (column column_) perm)
            end
        | None => ret (column column_)
        end ;;
      offset_columns <- writeData fuel (name column_) (type column_) data offset_columns 0 ;;
      write_columns fuel rest block permutation primary_columns
        primary_columns_name_to_position offset_columns
  end.

(** The body of the index loop for one sort-key column [j]. *)
Definition write_index_entry (i : Z) (j : nat) (pc : ColumnWithTypeAndName)
    : M MergedBlockOutputStream unit :=
  w <- get ;;
  match index_columns w !! j, column_row (column pc) i with
  | Some rows_, Some row =>
      modify (set_index_columns (<[j := rows_ ++ [row]]> (index_columns w))) ;;;
      match index_stream w with
      | Some bytes =>
          modify (set_index_stream (Some (bytes ++ serializeBinaryValue (type pc) (column pc) i)))
      | None => undefined NullDereference
      end
  | _, _ => undefined OutOfRange
  end.

Fixpoint write_index_entries (i : Z) (j : nat) (primary_columns : list ColumnWithTypeAndName)
    : M MergedBlockOutputStream unit :=
  match primary_columns with
  | [] => ret tt
  | pc :: rest =>
      write_index_entry i j pc ;;;
      write_index_entries i (S j) rest
  end.

(** The index loop [for (i = index_offset; i < rows; i += index_granularity)]. *)
Fixpoint write_index (fuel : nat) (index_granularity_ rows_ : Z)
    (primary_columns : list ColumnWithTypeAndName) (i : Z) : M MergedBlockOutputStream unit :=
  if i <? rows_ then
    match fuel with
    | O => fail OutOfFuel
    | S fuel' =>
        w <- get ;;
        (if negb (is_unsorted (merging_mode (storage (base w))))
         then write_index_entries i 0 primary_columns
         else ret tt) ;;;
        modify (fun w => set_marks_count (wrap (marks_count w + 1)) w) ;;;
        write_index fuel' index_granularity_ rows_ primary_columns
          (wrap (i + index_granularity_))
    end
  else ret tt.

(** [a % b] on [size_t]. *)
Definition size_mod {S} (a b : Z) : M S Z :=
  if b =? 0 then undefined DivisionByZero else ret (a mod b).

(** The last two statements of both [write] methods. *)
Definition advance_index_offset (rows_ : Z) : M IMergedBlockOutputStream unit :=
  w <- get ;;
  let g := index_granularity (storage w) in
  written_for_last_mark <- size_mod (wrap (wrap (g - index_offset w) + rows_)) g ;;
  index_offset_ <- size_mod (wrap (g - written_for_last_mark)) g ;;
  modify (set_index_offset index_offset_).

(** [MergedBlockOutputStream::writeImpl]. *)
Definition writeImpl (fuel : nat) (block : Block) (permutation : option Permutation)
    : M MergedBlockOutputStream unit :=
  let rows_ := block_rows block in
  w <- get ;;
  let sort_description_ := sort_description (storage (base w)) in
  primary <- lift_res (resolve_primary_columns sort_description_ block permutation 0 [] ∅) ;;
  let '(primary_columns, primary_columns_name_to_position) := primary in
  (match index_columns w with
   | [] => modify (set_index_columns (map (fun _ => []) primary_columns))
   | _ => ret tt
   end) ;;;
  in_base (write_columns fuel (columns_list w) block permutation primary_columns
             primary_columns_name_to_position ∅) ;;;
  write_index fuel (index_granularity (storage (base w))) rows_ primary_columns
    (index_offset (base w)) ;;;
  in_base (advance_index_offset rows_).

(** [MergedBlockOutputStream::write]. *)
Definition write (fuel : nat) (block : Block) : M MergedBlockOutputStream unit :=
  writeImpl fuel block None.

(** [MergedBlockOutputStream::writeWithPermutation]; a null [permutation]
    pointer is [None]. *)
Definition writeWithPermutation (fuel : nat) (block : Block) (permutation : option Permutation)
    : M MergedBlockOutputStream unit :=
  writeImpl fuel block permutation.

(** [MergedBlockOutputStream::writeSuffix]. *)
Definition writeSuffix : M MergedBlockOutputStream unit :=
  throw NOT_IMPLEMENTED "Method writeSuffix is not supported by MergedBlockOutputStream".

(** [it->second->finalize(); it->second->addToChecksums(checksums);] over a
    stream table. *)
Fixpoint finalize_streams (streams : list (string * ColumnStream)) (checksums : Checksums)
    (fs : FileSystem) : Checksums * FileSystem :=
  match streams with
  | [] => (checksums, fs)
  | (_, stream) :: rest =>
      let '(stream, fs) := ColumnStream_finalize stream fs in
      finalize_streams rest (ColumnStream_addToChecksums stream checksums "") fs
  end.

(** [MergedBlockOutputStream::writeSuffixAndGetChecksums]. *)
Definition writeSuffixAndGetChecksums : M MergedBlockOutputStream Checksums :=
  w <- get ;;
  checksums <-
    (if negb (is_unsorted (merging_mode (storage (base w)))) then
       match index_stream w with
       | None => undefined NullDereference
       | Some bytes =>
           on_disk (store (part_path w +:+ "primary.idx") bytes) ;;;
           modify (set_index_stream None) ;;;
           ret (<["primary.idx" :=
                    {| file_size := Z.of_nat (length bytes);
                       file_hash := getHash bytes;
                       is_compressed := false;
                       uncompressed_size := 0;
                       uncompressed_hash := 0 |}]> (∅ : Checksums))
       end
     else ret ∅) ;;
  w <- get ;;
  let '(checksums, fs) :=
    finalize_streams (in_key_order (column_streams (base w))) checksums (disk (base w)) in
  in_base (modify (fun b => set_column_streams ∅ (set_disk fs b))) ;;;
  w <- get ;;
  let '(checksums, fs) :=
    finalize_streams (in_key_order (null_streams (base w))) checksums (disk (base w)) in
  in_base (modify (fun b => set_null_streams ∅ (set_disk fs b))) ;;;
  w <- get ;;
  if marks_count w =? 0 then
    on_disk (remove_recursive (part_path w)) ;;;
    ret ∅
  else
    on_disk (fun fs =>
      store (part_path w +:+ "columns.txt") (writeText (columns_list w))
        (open_truncate (part_path w +:+ "columns.txt") fs)) ;;;
    on_disk (fun fs =>
      store (part_path w +:+ "checksums.txt") (writeChecksums checksums)
        (open_truncate (part_path w +:+ "checksums.txt") fs)) ;;;
    ret checksums.

(** [MergedBlockOutputStream::getIndex]. *)
Definition getIndex (w : MergedBlockOutputStream) : list (list IColumn) := index_columns w.

(** [MergedBlockOutputStream::marksCount]. *)
Definition marksCount (w : MergedBlockOutputStream) : Z := marks_count w.

(** ** MergedColumnOnlyOutputStream: the append-only assembler *)

Record MergedColumnOnlyOutputStream := {
  only_base : IMergedBlockOutputStream;
  only_part_path : string;
  initialized : bool;
  sync : bool;
}.

Definition set_only_base (b : IMergedBlockOutputStream) (w : MergedColumnOnlyOutputStream)
    : MergedColumnOnlyOutputStream :=
  {| only_base := b; only_part_path := only_part_path w;
     initialized := initialized w; sync := sync w |}.

Definition set_initialized (i : bool) (w : MergedColumnOnlyOutputStream)
    : MergedColumnOnlyOutputStream :=
  {| only_base := only_base w; only_part_path := only_part_path w;
     initialized := i; sync := sync w |}.

Definition in_only_base {A} (m : M IMergedBlockOutputStream A)
    : M MergedColumnOnlyOutputStream A :=
  zoom only_base set_only_base m.

(** The constructor. *)
Definition MergedColumnOnlyOutputStream_new (storage_ : MergeTreeData) (part_path_ : string)
    (sync_ : bool) (compression_method_ : CompressionMethod) (fs : FileSystem)
    : MergedColumnOnlyOutputStream :=
  let settings := context_settings storage_ in
  {| only_base :=
       IMergedBlockOutputStream_new storage_
         (settings_min_compress_block_size settings)
         (settings_max_compress_block_size settings)
         compression_method_
         (settings_min_bytes_to_use_direct_io settings) fs;
     only_part_path := part_path_;
     initialized := initial_initialized;
     sync := sync_ |}.

Fixpoint write_block_columns (fuel : nat) (columns : list ColumnWithTypeAndName)
    (offset_columns : OffsetColumns) : M IMergedBlockOutputStream OffsetColumns :=
  match columns with
  | [] => ret offset_columns
  | column_ :: rest =>
      offset_columns <-
        writeData fuel (name column_) (type column_) (column column_) offset_columns 0 ;;
      write_block_columns fuel rest offset_columns
  end.

(** [MergedColumnOnlyOutputStream::write]. *)
Definition only_write (fuel : nat) (block : Block) : M MergedColumnOnlyOutputStream unit :=
  w <- get ;;
  (if negb (initialized w) then
     in_only_base (modify (fun b => set_column_streams ∅ (set_null_streams ∅ b))) ;;;
     for_each block (fun c =>
       in_only_base (addStream (only_part_path w) (name c) (type c) 0 0 (name c))) ;;;
     modify (set_initialized true)
   else ret tt) ;;;
  let rows_ := block_rows block in
  in_only_base (write_block_columns fuel block ∅) ;;;
  in_only_base (advance_index_offset rows_).

(** [MergedColumnOnlyOutputStream::writeSuffix]. *)
Definition only_writeSuffix : M MergedColumnOnlyOutputStream unit :=
  throw NOT_IMPLEMENTED "Method writeSuffix is not supported by MergedColumnOnlyOutputStream".

Fixpoint finalize_streams_only (sync_ : bool) (streams : list (string * ColumnStream))
    (checksums : Checksums) (fs : FileSystem) : Checksums * FileSystem :=
  match streams with
  | [] => (checksums, fs)
  | (key, stream) :: rest =>
      let '(stream, fs) := ColumnStream_finalize stream fs in
      let fs := if sync_ then ColumnStream_sync stream fs else fs in
      let column_ := escapeForFileName key in
      finalize_streams_only sync_ rest (ColumnStream_addToChecksums stream checksums column_) fs
  end.

(** [MergedColumnOnlyOutputStream::writeSuffixAndGetChecksums]. *)
Definition only_writeSuffixAndGetChecksums : M MergedColumnOnlyOutputStream Checksums :=
  w <- get ;;
  let b := only_base w in
  let '(checksums, fs) :=
    finalize_streams_only (sync w) (in_key_order (null_streams b)) ∅ (disk b) in
  let '(checksums, fs) :=
    finalize_streams_only (sync w) (in_key_order (column_streams b)) checksums fs in
  in_only_base (modify (fun b => set_null_streams ∅ (set_column_streams ∅ (set_disk fs b)))) ;;;
  modify (set_initialized false) ;;;
  ret checksums.

End Writer.

(** ** A reference instance of the collaborators

    Used to run the writer on concrete inputs. *)

Module Reference.

(** A stored (uncompressed) frame: a one-byte tag, then the payload. *)
Definition stored_frame (method : CompressionMethod) (payload : list Byte.byte)
    : list Byte.byte :=
  (match method with LZ4 => Byte.x82 | ZSTD => Byte.x90 end) :: payload.

Definition byte_sum (bs : list Byte.byte) : Z :=
  wrap (foldr (fun b acc => Z.of_N (Byte.to_N b) + acc) 0 bs).

Definition width_of (type_name : string) : nat :=
  if String.eqb type_name "UInt8" then 1%nat
  else if String.eqb type_name "UInt16" then 2%nat
  else if String.eqb type_name "UInt32" then 4%nat
  else 8%nat.

(** Rows [offset, offset + limit) of a list; [limit = 0] and ranges that
    pass the end are cut at the end. *)
Definition range {A} (l : list A) (offset limit : Z) : list A :=
  let rest := drop (Z.to_nat offset) l in
  if limit =? 0 then rest else take (Z.to_nat limit) rest.

Fixpoint encode_rows (width : nat) (c : IColumn) : list Byte.byte :=
  match c with
  | ColumnVector data => flat_map (le_bytes width) data
  | ColumnNullable nested _ => encode_rows width nested
  | ColumnArray rows => flat_map (encode_rows width) rows
  end.

Definition column_range (c : IColumn) (offset limit : Z) : IColumn :=
  match c with
  | ColumnVector data => ColumnVector (range data offset limit)
  | ColumnNullable nested null_map => ColumnNullable nested null_map
  | ColumnArray rows => ColumnArray (range rows offset limit)
  end.

Fixpoint value_width (t : IDataType) : nat :=
  match t with
  | DataTypePrimitive n => width_of n
  | DataTypeNullable t' => value_width t'
  | DataTypeArray t' => value_width t'
  end.

(** Modelled from the spec: [write_range(column, cursor, limit)] writes the
    binary form of the rows from [cursor] on, [limit] of them at most
    ([IDataType::serializeBinary] is implemented outside these sources;
    its defaulted [limit = 0] means no limit). *)
Definition write_range (t : IDataType) (c : IColumn) (offset limit : Z) : list Byte.byte :=
  encode_rows (value_width t) (column_range c offset limit).

Definition write_value (t : IDataType) (c : IColumn) (i : Z) : list Byte.byte :=
  match column_row c i with
  | Some row => encode_rows (value_width t) row
  | None => []
  end.

Fixpoint cumulative (acc : Z) (sizes : list Z) : list Z :=
  match sizes with
  | [] => []
  | n :: rest => (acc + n) :: cumulative (acc + n) rest
  end.

Definition write_offsets (c : IColumn) (offset limit : Z) : list Byte.byte :=
  match c with
  | ColumnArray rows =>
      flat_map (le_bytes 8) (range (cumulative 0 (map column_size rows)) offset limit)
  | _ => []
  end.

Definition hex_digit (n : N) : Ascii.ascii :=
  Ascii.ascii_of_N (if (n <? 10)%N then 48 + n else 55 + n).

Definition file_safe (a : Ascii.ascii) : bool :=
  let n := Ascii.N_of_ascii a in
  ((48 <=? n) && (n <=? 57) || (65 <=? n) && (n <=? 90)
   || (97 <=? n) && (n <=? 122) || (n =? 95))%N.

(** Modelled from the spec: file-unsafe characters become a percent-style
    code, the others stay. *)
Fixpoint escape (s : string) : string :=
  match s with
  | EmptyString => EmptyString
  | String a rest =>
      if file_safe a then String a (escape rest)
      else
        let n := Ascii.N_of_ascii a in
        String "%"%char (String (hex_digit (n / 16)) (String (hex_digit (n mod 16)) (escape rest)))
  end.

Fixpoint has_dot (s : string) : bool :=
  match s with
  | EmptyString => false
  | String a rest => Ascii.eqb a "."%char || has_dot rest
  end.

(** Modelled from the spec: [nested_root] strips the final dotted suffix
    (a column [a.b.c] has nested root [a.b]). *)
Fixpoint nested_root (s : string) : string :=
  match s with
  | EmptyString => EmptyString
  | String a rest =>
      if Ascii.eqb a "."%char && negb (has_dot rest) then EmptyString
      else String a (nested_root rest)
  end.

Fixpoint type_text (t : IDataType) : string :=
  match t with
  | DataTypePrimitive n => n
  | DataTypeNullable t' => "Nullable(" +:+ type_text t' +:+ ")"
  | DataTypeArray t' => "Array(" +:+ type_text t' +:+ ")"
  end.

Definition newline : string := String (Ascii.ascii_of_nat 10) EmptyString.

Definition columns_text (l : NamesAndTypesList) : list Byte.byte :=
  flat_map
    (fun c => String.list_byte_of_string (nt_name c +:+ " " +:+ type_text (nt_type c) +:+ newline))
    l.

Definition checksums_text (c : gmap string Checksum) : list Byte.byte :=
  flat_map (fun kv : string * Checksum =>
              String.list_byte_of_string (kv.1 +:+ " " +:+ pretty (file_size kv.2) +:+ " "
                                     +:+ pretty (file_hash kv.2) +:+ newline))
    (in_key_order c).

Definition collaborators : Collaborators := {|
  compress := stored_frame;
  buffer_capacity := 1048576;
  getHash := byte_sum;
  serializeBinary := write_range;
  serializeBinaryValue := write_value;
  serializeOffsets := write_offsets;
  escapeForFileName := escape;
  extractNestedTableName := nested_root;
  writeText := columns_text;
  writeChecksums := checksums_text;
|}.

End Reference.

(** ** Mark arithmetic *)

(** The carried offset after a block of [rows] rows (invariant I5). *)
Definition next_index_offset (g io rows_ : Z) : Z :=
  (g - ((g - io + rows_) mod g)) mod g.

(** The number of row indices [io, io + g, io + 2g, ...] below [rows]. *)
Definition count_of_marks_in_block (rows_ io g : Z) : Z :=
  if io <? rows_ then (rows_ - io + g - 1) / g else 0.

(** The row indices that carry a mark. *)
Definition mark_rows (g io rows_ : Z) : list Z :=
  map (fun k => io + k * g) (seqZ 0 (count_of_marks_in_block rows_ io g)).

Fixpoint carried_index_offset (g io : Z) (rs : list Z) : Z :=
  match rs with
  | [] => io
  | r :: rs' => carried_index_offset g (next_index_offset g io r) rs'
  end.

Fixpoint total_marks (g io : Z) (rs : list Z) : Z :=
  match rs with
  | [] => 0
  | r :: rs' => count_of_marks_in_block r io g + total_marks g (next_index_offset g io r) rs'
  end.

Definition total_rows (rs : list Z) : Z := foldr Z.add 0 rs.

(** Sequences of calls. *)
Section Runs.
Context `{Collaborators}.

Definition writes (fuel : nat) (blocks : list (Block * option Permutation))
    : M MergedBlockOutputStream unit :=
  for_each blocks (fun bp => writeWithPermutation fuel bp.1 bp.2).

Definition only_writes (fuel : nat) (blocks : list Block)
    : M MergedColumnOnlyOutputStream unit :=
  for_each blocks (only_write fuel).

End Runs.

(** The loop of [writeData], iteration by iteration: an iteration is the
    cursor it starts at, the limit it passes to the serializer and whether
    it writes a mark first. *)
Section Iterations.
Context `{Collaborators}.

Definition granule_iteration (serialize : Z -> Z -> list Byte.byte)
    (min_compress_block_size_ : Z) (stream : ColumnStream) (it : Z * Z * bool)
    : ColumnStream :=
  let '(cursor, limit, with_mark) := it in
  compressed_nextIfAtEnd
    (compressed_write (serialize cursor limit)
       (if with_mark then write_mark min_compress_block_size_ stream else stream)).

Definition granule_iterations (g io size : Z) : list (Z * Z * bool) :=
  (if io =? 0 then [] else [(0, io, false)])
    ++ map (fun i => (i, g, true)) (mark_rows g io size).

(** The state of the stream when the mark is written: the frame is closed
    first when it holds at least [min_compress_block_size] bytes. *)
Definition at_mark (min_compress_block_size_ : Z) (stream : ColumnStream) : ColumnStream :=
  if min_compress_block_size_ <=? compressed_offset stream
  then compressed_next stream else stream.

End Iterations.

(** [preserves R m]: every run of [m], failed or not, relates the state it
    starts from to the state it ends in. *)
Definition preserves {S A} (R : relation S) (m : M S A) : Prop :=
  forall s r s', m s = (r, s') -> R s s'.

(** What [addStream] and [writeData] leave alone. *)
Record same_settings (b b' : IMergedBlockOutputStream) : Prop := {
  same_storage : storage b' = storage b;
  same_index_offset : index_offset b' = index_offset b;
  same_min_compress_block_size : min_compress_block_size b' = min_compress_block_size b;
  same_max_compress_block_size : max_compress_block_size b' = max_compress_block_size b;
  same_directories : directories (disk b') = directories (disk b);
}.

(** What the index loop leaves alone. *)
Record same_marks (w w' : MergedBlockOutputStream) : Prop := {
  same_marks_base : base w' = base w;
  same_marks_count : marks_count w' = marks_count w;
  same_marks_path : part_path w' = part_path w;
  same_marks_columns : columns_list w' = columns_list w;
  same_marks_index : is_Some (index_stream w') <-> is_Some (index_stream w);
}.

(** What a whole [write] leaves alone. *)
Record same_part (w w' : MergedBlockOutputStream) : Prop := {
  same_part_storage : storage (base w') = storage (base w);
  same_part_directories : directories (disk (base w')) = directories (disk (base w));
  same_part_path : part_path w' = part_path w;
  same_part_columns : columns_list w' = columns_list w;
  same_part_index : is_Some (index_stream w') <-> is_Some (index_stream w);
}.

(** What every operation on the base object leaves alone. *)
Record same_place (b b' : IMergedBlockOutputStream) : Prop := {
  same_place_storage : storage b' = storage b;
  same_place_directories : directories (disk b') = directories (disk b);
}.

(** The base object of the append-only assembler keeps its settings. *)
Definition only_settings (w w' : MergedColumnOnlyOutputStream) : Prop :=
  same_settings (only_base w) (only_base w').

Section FrameClosed.
Context `{Collaborators}.

(** The frame that was open is closed by the time the mark is written: the
    working buffer held data, it is empty after [write_mark], and the mark
    records offset 0 in the new frame. *)
Definition frame_closed_before_mark (m : Z) (s : ColumnStream) : Prop :=
  compressed_buffer s <> []
  /\ compressed_buffer (write_mark m s) = []
  /\ last (marks (write_mark m s)) = Some 0.

End FrameClosed.

(** [total m]: [m] returns from every state. *)
Definition total {S A} (m : M S A) : Prop :=
  forall s, exists a s', m s = (Ok a, s').

(** What building the stream table leaves alone in the full assembler. *)
Record same_but_streams (w w' : MergedBlockOutputStream) : Prop := {
  same_but_streams_settings : same_settings (base w) (base w');
  same_but_streams_path : part_path w' = part_path w;
  same_but_streams_columns : columns_list w' = columns_list w;
  same_but_streams_marks : marks_count w' = marks_count w;
  same_but_streams_index : index_stream w' = index_stream w;
  same_but_streams_index_columns : index_columns w' = index_columns w;
}.

Section CommitStates.
Context `{Collaborators}.

(** The state in which [writeSuffixAndGetChecksums] tests [marks_count]:
    the index and every stream are flushed, the stream tables are empty. *)
Definition flushed (w : MergedBlockOutputStream) (indexed : option (list Byte.byte))
    : Checksums * FileSystem :=
  let '(checksums, fs) :=
    match indexed with
    | Some bytes =>
        (<["primary.idx" :=
             {| file_size := Z.of_nat (length bytes); file_hash := getHash bytes;
                is_compressed := false; uncompressed_size := 0; uncompressed_hash := 0 |}]>
           (∅ : Checksums),
         store (part_path w +:+ "primary.idx") bytes (disk (base w)))
    | None => (∅, disk (base w))
    end in
  let '(checksums, fs) :=
    finalize_streams (in_key_order (column_streams (base w))) checksums fs in
  finalize_streams (in_key_order (null_streams (base w))) checksums fs.

Definition committed (w : MergedBlockOutputStream) (fs : FileSystem) : MergedBlockOutputStream :=
  set_base (set_disk fs (set_null_streams ∅ (set_column_streams ∅ (base w))))
    (set_index_stream
       (if is_unsorted (merging_mode (storage (base w))) then index_stream w else None) w).

End CommitStates.

Section SizesStreams.
Context `{Collaborators}.



End SizesStreams.

(** The outcome of a run that stopped for want of fuel. *)
Definition starved {A} (r : Res A) : Prop :=
  match r with
  | Fail OutOfFuel => True
  | _ => False
  end.

(** [fed P m]: from a state in [P], [m] does not run out of fuel, and it
    ends in [P]. *)
Definition fed {S A} (P : S -> Prop) (m : M S A) : Prop :=
  forall s r s', P s -> m s = (r, s') -> ~ starved r /\ P s'.

(** The states of a writer with granularity [g] whose carried offset is
    below it. *)
Definition within_granule (g : Z) (b : IMergedBlockOutputStream) : Prop :=
  index_granularity (storage b) = g /\ 0 <= index_offset b < g.

Definition within_granule_full (g : Z) (w : MergedBlockOutputStream) : Prop :=
  within_granule g (base w).

Definition within_granule_only (g : Z) (w : MergedColumnOnlyOutputStream) : Prop :=
  within_granule g (only_base w).

(** A column that a loop with [fuel] iterations and granularity [g] can
    walk through without wrap-around. *)
Definition walkable (fuel : nat) (g : Z) (c : IColumn) : Prop :=
  column_size c + g < 2 ^ 64 /\ column_size c < Z.of_nat fuel.

(** ** Sample inputs *)

Module Sample.
Import Reference.
#[local] Existing Instance Reference.collaborators.

Definition settings : Settings :=
  {| settings_min_compress_block_size := 65536;
     settings_max_compress_block_size := 1048576;
     settings_min_bytes_to_use_direct_io := 0 |}.

Definition table (g : Z) (mode : MergingMode) (key : list string) : MergeTreeData :=
  {| index_granularity := g;
     merging_mode := mode;
     sort_description := map (fun n => {| column_name := n; column_number := 0 |}) key;
     context_settings := settings |}.

Definition uint8 (n : string) (values : list Z) : ColumnWithTypeAndName :=
  {| column := ColumnVector values; type := DataTypeUInt8; name := n |}.

Definition from_ok {A} (r : Res A) (d : A) : A :=
  match r with Ok a => a | Fail _ => d end.

Definition blank (t : MergeTreeData) : MergedBlockOutputStream :=
  MergedBlockOutputStream_fields (IMergedBlockOutputStream_new t 0 0 LZ4 0 empty_fs) [] "".

(** A table with granularity 8 and two blocks of five rows. *)
Definition t8 : MergeTreeData := table 8 Ordinary ["n"].
Definition n_columns : NamesAndTypesList := [ {| nt_name := "n"; nt_type := DataTypeUInt8 |} ].
Definition five_rows : Block := [uint8 "n" [1; 2; 3; 4; 5]].
Definition full8 : MergedBlockOutputStream :=
  from_ok (MergedBlockOutputStream_new t8 "part/" n_columns LZ4 empty_fs) (blank t8).
Definition only8 : MergedColumnOnlyOutputStream :=
  MergedColumnOnlyOutputStream_new t8 "part/" false LZ4 empty_fs.
Definition n_stream : ColumnStream :=
  ColumnStream_new "n" "part/n" ".bin" "part/n" ".mrk" 1048576 LZ4 0 0.

(** A stream whose open frame holds four bytes. *)
Definition four_buffered : ColumnStream :=
  compressed_write [Byte.x01; Byte.x02; Byte.x03; Byte.x04] n_stream.

(** A table with zero granularity and a minimum frame size above the
    maximum. *)
Definition misconfigured : MergeTreeData :=
  {| index_granularity := 0;
     merging_mode := Ordinary;
     sort_description := [ {| column_name := "n"; column_number := 0 |} ];
     context_settings :=
       {| settings_min_compress_block_size := 1048576;
          settings_max_compress_block_size := 65536;
          settings_min_bytes_to_use_direct_io := 0 |} |}.

Definition no_rows : Block := [uint8 "n" []].
Definition unsorted8 : MergeTreeData := table 8 Unsorted [].
Definition unsorted_full8 : MergedBlockOutputStream :=
  from_ok (MergedBlockOutputStream_new unsorted8 "part/" n_columns LZ4 empty_fs) (blank unsorted8).

(** A table whose sort key names [n] twice, around [k]. *)
Definition repeated_key : MergeTreeData := table 8 Ordinary ["n"; "k"; "n"].
Definition two_columns : NamesAndTypesList :=
  [ {| nt_name := "n"; nt_type := DataTypeUInt8 |};
    {| nt_name := "k"; nt_type := DataTypeUInt8 |} ].
Definition two_columns_block : Block := [uint8 "n" [1; 2; 3]; uint8 "k" [4; 5; 6]].
Definition repeated_key_full : MergedBlockOutputStream :=
  from_ok (MergedBlockOutputStream_new repeated_key "part/" two_columns LZ4 empty_fs)
    (blank repeated_key).

(** A nullable column of three rows in a table with granularity 2. *)
Definition t2 : MergeTreeData := table 2 Ordinary [].
Definition nullable_columns : NamesAndTypesList :=
  [ {| nt_name := "a"; nt_type := DataTypeNullable DataTypeUInt8 |} ].
Definition nullable_block : Block :=
  [ {| column := ColumnNullable (ColumnVector [7; 8; 9]) (ColumnVector [0; 1; 0]);
       type := DataTypeNullable DataTypeUInt8;
       name := "a" |} ].
Definition nullable_full : MergedBlockOutputStream :=
  from_ok (MergedBlockOutputStream_new t2 "part/" nullable_columns LZ4 empty_fs) (blank t2).

(** Two sibling columns of the nested table [t]. *)
Definition array_uint8 : IDataType := DataTypeArray DataTypeUInt8.
Definition siblings : NamesAndTypesList :=
  [ {| nt_name := "t.x"; nt_type := array_uint8 |};
    {| nt_name := "t.y"; nt_type := array_uint8 |} ].
Definition siblings_block : Block :=
  [ {| column := ColumnArray [ColumnVector [1; 2]; ColumnVector [3]];
       type := array_uint8; name := "t.x" |};
    {| column := ColumnArray [ColumnVector [4; 5]; ColumnVector [6]];
       type := array_uint8; name := "t.y" |} ].
Definition siblings_full : MergedBlockOutputStream :=
  from_ok (MergedBlockOutputStream_new (table 8 Unsorted []) "part/" siblings LZ4 empty_fs)
    (blank t8).

End Sample.

(** ** Invariants of the writers *)

(** [stays_within g]: a step that keeps the carried offset below the
    granularity [g]. *)
Definition stays_within (g : Z) : relation IMergedBlockOutputStream :=
  fun b b' => within_granule g b -> within_granule g b'.

Definition stays_within_full (g : Z) : relation MergedBlockOutputStream :=
  fun w w' => within_granule_full g w -> within_granule_full g w'.

Definition stays_within_only (g : Z) : relation MergedColumnOnlyOutputStream :=
  fun w w' => within_granule_only g w -> within_granule_only g w'.

(** The full assembler keeps its base object. *)
Definition same_base : relation MergedBlockOutputStream :=
  fun w w' => base w' = base w.


(** The outcome of a run that dereferenced a null stream pointer. *)
Definition null_dereferenced {A} (r : Res A) : Prop :=
  match r with
  | Fail (UndefinedBehaviour NullDereference) => True
  | _ => False
  end.

(** [guarded P m]: from a state in [P], [m] dereferences no null pointer,
    and it ends in [P]. *)
Definition guarded {S A} (P : S -> Prop) (m : M S A) : Prop :=
  forall s r s', P s -> m s = (r, s') -> ~ null_dereferenced r /\ P s'.

(** The keys of the two stream tables. *)
Definition tabled (st : MergeTreeData) (cs ns : gset string) (b : IMergedBlockOutputStream)
    : Prop :=
  storage b = st /\ dom (column_streams b) = cs /\ dom (null_streams b) = ns.

(** The full assembler writes the listed columns through these streams, and
    in a sorted mode its index stream is open. *)
Definition full_tabled (st : MergeTreeData) (columns : NamesAndTypesList)
    (cs ns : gset string) (w : MergedBlockOutputStream) : Prop :=
  tabled st cs ns (base w)
  /\ columns_list w = columns
  /\ (is_unsorted (merging_mode st) = false -> is_Some (index_stream w)).

(** The append-only assembler after its first [write]. *)
Definition only_tabled (st : MergeTreeData) (cs ns : gset string)
    (w : MergedColumnOnlyOutputStream) : Prop :=
  tabled st cs ns (only_base w) /\ initialized w = true.

Section Covered.
Context `{Collaborators}.

(** The streams that [writeData] looks up for a column [name_] of type
    [type_] are among the keys [cs] and [ns]. *)
Fixpoint covered (cs ns : gset string) (name_ : string) (type_ : IDataType) (level : Z)
    : Prop :=
  match type_ with
  | DataTypeNullable nested_type_ => name_ ∈ ns /\ covered cs ns name_ nested_type_ level
  | DataTypeArray _ => size_stream_name name_ level ∈ cs /\ name_ ∈ cs
  | DataTypePrimitive _ => name_ ∈ cs
  end.

End Covered.

(** The columns that a block holds under the listed names have the listed
    types. *)
Definition typed_as (columns : NamesAndTypesList) (block : Block) : Prop :=
  forall it c, it ∈ columns -> getByName block (nt_name it) = Ok c -> type c = nt_type it.

Section IndexEntries.
Context `{Collaborators}.

(** The bytes that the index loop sends to [primary.idx] for the mark at
    row [i]: the values of the sort-key columns at that row, in the order of
    the sort key. *)
Definition index_entry_bytes (primary_columns : list ColumnWithTypeAndName) (i : Z)
    : list Byte.byte :=
  flat_map (fun pc => serializeBinaryValue (type pc) (column pc) i) primary_columns.

End IndexEntries.

(** [index_columns] as the next [write] sizes it: one column per sort-key
    column once the first block has been seen. *)
Definition sized_index_columns (w : MergedBlockOutputStream) : list (list IColumn) :=
  match index_columns w with
  | [] => map (fun _ => []) (sort_description (storage (base w)))
  | index_columns_ => index_columns_
  end.

(** The index holds one column per sort-key column, each with one row per
    mark counted so far. *)
Definition index_rows_match_marks (w : MergedBlockOutputStream) : Prop :=
  length (sized_index_columns w) = length (sort_description (storage (base w)))
  /\ Forall (fun c => Z.of_nat (length c) = marks_count w) (sized_index_columns w).

Module Scenario.
Import Reference Sample.
#[local] Existing Instance Reference.collaborators.

(** A table with granularity 2 sorted by [(k, n)]. *)
Definition keyed : MergeTreeData := table 2 Ordinary ["k"; "n"].
Definition keyed_full : MergedBlockOutputStream :=
  from_ok (MergedBlockOutputStream_new keyed "part/" two_columns LZ4 empty_fs) (blank keyed).

End Scenario.

(** [keeps P]: a step that stays in [P]. *)
Definition keeps {S} (P : S -> Prop) : relation S := fun s s' => P s -> P s'.

Fixpoint last_char (s : string) : option Ascii.ascii :=
  match s with
  | EmptyString => None
  | String a EmptyString => Some a
  | String _ s' => last_char s'
  end.

(** The naming of a stream built by [addStream] or [addNullStream] under
    [path]: both files carry the escaped name of the stream, with the
    extensions of a data stream or those of a null map. *)
Definition placed (path : string) (s : ColumnStream) : Prop :=
  plain_file s = (path +:+ escaped_column_name s) +:+ data_file_extension s
  /\ marks_file s = (path +:+ escaped_column_name s) +:+ marks_file_extension s
  /\ ((data_file_extension s = DATA_FILE_EXTENSION
       /\ marks_file_extension s = MARKS_FILE_EXTENSION)
      \/ (data_file_extension s = NULL_MAP_EXTENSION
          /\ marks_file_extension s = NULL_MARKS_FILE_EXTENSION)).

(** The members of a stream that name its files. *)
Definition same_files (s s' : ColumnStream) : Prop :=
  escaped_column_name s' = escaped_column_name s
  /\ data_file_extension s' = data_file_extension s
  /\ marks_file_extension s' = marks_file_extension s
  /\ plain_file s' = plain_file s
  /\ marks_file s' = marks_file s.

Definition all_placed (path : string) (b : IMergedBlockOutputStream) : Prop :=
  map_Forall (fun _ s => placed path s) (column_streams b)
  /\ map_Forall (fun _ s => placed path s) (null_streams b).

Definition part_placed (path : string) (w : MergedBlockOutputStream) : Prop :=
  part_path w = path /\ all_placed path (base w).

Section Described.
Context `{Collaborators}.

(** Every entry of the manifest gives the size and the hash of the file of
    that name under [path]; no entry is named like one of the two text
    files of the part. *)
Definition described (path : string) (checksums : Checksums) (fs : FileSystem) : Prop :=
  forall key c, checksums !! key = Some c ->
    last_char key <> Some "t"%char
    /\ exists content,
         files fs !! (path +:+ key) = Some content
         /\ file_size c = Z.of_nat (length content)
         /\ file_hash c = getHash content.

End Described.

Section Untouched.
Context `{Collaborators}.

(** Between [b] and [b'] only the streams of the column [name_] may have
    changed: the data stream and the null map under [name_], and the sizes
    stream of [name_] at [level]. *)
Definition only_streams_of (name_ : string) (level : Z) (b b' : IMergedBlockOutputStream)
    : Prop :=
  (forall key, key <> name_ -> key <> size_stream_name name_ level ->
     column_streams b' !! key = column_streams b !! key)
  /\ (forall key, key <> name_ -> null_streams b' !! key = null_streams b !! key).

End Untouched.

Module Scenario2.
Import Reference Sample.
#[local] Existing Instance Reference.collaborators.

(** A column [m] of arrays of arrays. *)
Definition matrix_type : IDataType := DataTypeArray (DataTypeArray DataTypeUInt8).
Definition matrix_columns : NamesAndTypesList := [ {| nt_name := "m"; nt_type := matrix_type |} ].
Definition matrix_block : Block :=
  [ {| column := ColumnArray [ColumnArray [ColumnVector [1; 2]; ColumnVector [3]];
                              ColumnArray [ColumnVector [4]]];
       type := matrix_type; name := "m" |} ].
Definition matrix_full : MergedBlockOutputStream :=
  from_ok (MergedBlockOutputStream_new (table 8 Unsorted []) "part/" matrix_columns LZ4 empty_fs)
    (blank t8).

End Scenario2.

(** The block whose columns are those of [block], each permuted by [perm]:
    the sorted block that [writeWithPermutation] does not materialise. *)
Fixpoint permute_block (block : Block) (perm : Permutation) : Res Block :=
  match block with
  | [] => Ok []
  | c :: rest =>
      res_bind (permute (column c) perm) (fun col =>
        res_bind (permute_block rest perm) (fun rest' =>
          Ok (with_column c col :: rest')))
  end.

(** A column of the block and its permuted counterpart. *)
Definition permuted_as (perm : Permutation) (c c' : ColumnWithTypeAndName) : Prop :=
  exists col, permute (column c) perm = Ok col /\ c' = with_column c col.

(** A lookup in the block followed by the permutation of the column found. *)
Definition then_permuted (perm : Permutation) (r : Res ColumnWithTypeAndName)
    : Res ColumnWithTypeAndName :=
  res_bind r (fun c => res_bind (permute (column c) perm) (fun col => Ok (with_column c col))).

(** The entries that the first loop of [writeImpl] records: a name maps to
    the position of the sort-key column of that name, which is the column of
    that name in the block, permuted. *)
Definition positions_resolved (perm : Permutation) (block : Block)
    (pcs : list ColumnWithTypeAndName) (pos : gmap string Z) : Prop :=
  forall n k, pos !! n = Some k ->
    exists pc, pcs !! Z.to_nat k = Some pc
      /\ then_permuted perm (getByName block n) = Ok pc.

Section OnlyCommit.
Context `{Collaborators}.

(** The name under which the commit of the append-only assembler lists the
    files of the stream [s] kept under [key]:
    [addToChecksums(checksums, escapeForFileName(key))], where an empty name
    stands for [escaped_column_name]. *)
Definition manifest_name (key : string) (s : ColumnStream) : string :=
  if String.eqb (escapeForFileName key) "" then escaped_column_name s
  else escapeForFileName key.

End OnlyCommit.

(** The two files of a stream, in the order in which [sync] reaches them. *)
Definition files_of (ks : string * ColumnStream) : list string :=
  [plain_file ks.2; marks_file ks.2].

Module Scenario3.
Import Reference Sample.
#[local] Existing Instance Reference.collaborators.

(** The append-only assembler after a block with the array column [t.x]. *)
Definition array_block : Block :=
  [ {| column := ColumnArray [ColumnVector [1; 2]; ColumnVector [3]];
       type := array_uint8; name := "t.x" |} ].
Definition only_synced : MergedColumnOnlyOutputStream :=
  MergedColumnOnlyOutputStream_new t8 "part/" true LZ4 empty_fs.

End Scenario3.

(** * StorageSystemNumbers: the tables [system.numbers] and [numbers_mt]

    A shallow embedding of
    [dbms/src/Storages/System/StorageSystemNumbers.cpp]: the two sources
    and [readWithProcessors].  [UInt64] and [size_t] values are integers
    reduced by [wrap]; [unsigned] values are reduced modulo 2^32 by the
    caller.  A chunk is its single column of numbers and its row count. *)

Module Numbers.

Record Chunk := {
  chunk_columns : list (list Z);
  num_rows : Z;
}.

(** [return {}]: the chunk without columns that ends a stream. *)
Definition empty_chunk : Chunk := {| chunk_columns := []; num_rows := 0 |}.

(** [while (pos < end) *pos++ = curr++;] over a vector of [n] elements. *)
Fixpoint fill (n : nat) (curr : Z) : list Z :=
  match n with
  | O => []
  | S n' => curr :: fill n' (wrap (curr + 1))
  end.

(** [NumbersSource]; [progress_calls] is the trace of the calls of
    [progress], each with the rows and the bytes of the column (eight bytes
    per row of a [ColumnUInt64]). *)
Record NumbersSource := {
  block_size : Z;
  next : Z;
  step : Z;
  progress_calls : list (Z * Z);
}.

Definition NumbersSource_new (block_size_ offset_ step_ : Z) : NumbersSource :=
  {| block_size := block_size_; next := offset_; step := step_; progress_calls := [] |}.

(** [NumbersSource::generate]. *)
Definition generate (s : NumbersSource) : Chunk * NumbersSource :=
  let column := fill (Z.to_nat (block_size s)) (next s) in
  let size := Z.of_nat (length column) in
  ({| chunk_columns := [column]; num_rows := block_size s |},
   {| block_size := block_size s;
      next := wrap (next s + step s);
      step := step s;
      progress_calls := progress_calls s ++ [(size, wrap (size * 8))] |}).

(** [NumbersMultiThreadedSource]: the members of one source; the
    [counter] of the shared [NumbersMultiThreadedState] is passed along. *)
Record NumbersMultiThreadedSource := {
  mt_block_size : Z;
  max_counter : Z;
  mt_progress_calls : list (Z * Z);
}.

Definition NumbersMultiThreadedSource_new (block_size_ max_counter_ : Z)
    : NumbersMultiThreadedSource :=
  {| mt_block_size := block_size_; max_counter := max_counter_; mt_progress_calls := [] |}.

(** [NumbersMultiThreadedSource::generate]: the result, the source and the
    shared counter after the call. *)
Definition mt_generate (s : NumbersMultiThreadedSource) (counter : Z)
    : Chunk * NumbersMultiThreadedSource * Z :=
  if mt_block_size s =? 0 then (empty_chunk, s, counter)
  else
    (* [state->counter.fetch_add(block_size)] *)
    let curr := counter in
    let counter := wrap (counter + mt_block_size s) in
    if max_counter s <=? curr then (empty_chunk, s, counter)
    else
      let block_size_ :=
        if max_counter s <? wrap (curr + mt_block_size s)
        then wrap (max_counter s - curr) else mt_block_size s in
      let column := fill (Z.to_nat block_size_) curr in
      let size := Z.of_nat (length column) in
      ({| chunk_columns := [column]; num_rows := block_size_ |},
       {| mt_block_size := block_size_;
          max_counter := max_counter s;
          mt_progress_calls := mt_progress_calls s ++ [(size, wrap (size * 8))] |},
       counter).

(** The sources that share one [NumbersMultiThreadedState]. *)
Record Pool := {
  counter : Z;
  sources : list NumbersMultiThreadedSource;
}.

(** One call of [generate] on the source [i] of the pool; [None] when the
    pool has no such source. *)
Definition pool_generate (i : nat) (p : Pool) : option (Chunk * Pool) :=
  match sources p !! i with
  | None => None
  | Some s =>
      let '(chunk, s', counter') := mt_generate s (counter p) in
      Some (chunk, {| counter := counter'; sources := <[i := s']> (sources p) |})
  end.

(** The calls of [generate] in the order [schedule] of the sources that
    make them, and the chunks they return. *)
Fixpoint pool_run (schedule : list nat) (p : Pool) : option (list Chunk * Pool) :=
  match schedule with
  | [] => Some ([], p)
  | i :: rest =>
      match pool_generate i p with
      | None => None
      | Some (chunk, p') =>
          match pool_run rest p' with
          | None => None
          | Some (chunks, p'') => Some (chunk :: chunks, p'')
          end
      end
  end.

(** [StorageSystemNumbers]. *)
Record StorageSystemNumbers := {
  multithreaded : bool;
  even_distribution : bool;
  limit : option Z;
  offset : Z;
}.

(** A pipe of [system.numbers]: the source, the approximate total that
    [addTotalRowsApprox] announces and the limit of the [LimitTransform]
    put after the source, when there are any. *)
Record Pipe := {
  source : NumbersSource;
  total_rows_approx : option Z;
  limit_transform : option Z;
}.

(** What [readWithProcessors] returns: plain pipes, or the pipes of the
    sources of one shared state. *)
Inductive Pipes :=
| Plain (pipes : list Pipe)
| Shared (pool : Pool).

Definition pipes_count (p : Pipes) : nat :=
  match p with
  | Plain pipes => length pipes
  | Shared pool => length (sources pool)
  end.

(** A call returns, throws, or has undefined behaviour. *)
Inductive Outcome (A : Type) :=
| Returned (a : A)
| Thrown (message : string)
| UndefinedCall (what : string).
Arguments Returned {A} a.
Arguments Thrown {A} message.
Arguments UndefinedCall {A} what.

(** The body of the last loop of [readWithProcessors] for the stream [i]. *)
Definition plain_pipe (limit_ : option Z) (offset_ max_block_size num_streams i : Z) : Pipe :=
  {| source :=
       NumbersSource_new max_block_size
         (wrap (offset_ + wrap (i * max_block_size)))
         (wrap (num_streams * max_block_size));
     total_rows_approx :=
       match limit_ with
       | Some l => if i =? 0 then Some l else None
       | None => None
       end;
     limit_transform :=
       match limit_ with
       | Some l =>
           Some (wrap (wrap (l * wrap (i + 1)) / num_streams - wrap (l * i) / num_streams))
       | None => None
       end |}.

Section Read.
(** [IStorage::check(column_names)], which throws when a name is not a
    column of the table; it is implemented outside this file. *)
Variable check : list string -> option string.

(** [StorageSystemNumbers::readWithProcessors]: the pipes and the storage
    after the call (the method clears [multithreaded] when the limit is
    below the block size). *)
Definition readWithProcessors (column_names : list string)
    (max_block_size num_streams : Z) (storage : StorageSystemNumbers)
    : Outcome Pipes * StorageSystemNumbers :=
  match check column_names with
  | Some message => (Thrown message, storage)
  | None =>
      let small :=
        match limit storage with
        | Some l => l <? max_block_size
        | None => false
        end in
      let max_block_size :=
        match limit storage with
        | Some l => if small then l else max_block_size
        | None => max_block_size
        end in
      let storage :=
        if small
        then {| multithreaded := false; even_distribution := even_distribution storage;
                limit := limit storage; offset := offset storage |}
        else storage in
      let num_streams := if multithreaded storage then num_streams else 1 in
      if (1 <? num_streams) && negb (even_distribution storage) then
        match limit storage with
        | None => (UndefinedCall "operator* of an empty optional", storage)
        | Some l =>
            if negb (l =? 0) then
              let max_counter_ := wrap (offset storage + l) in
              (Returned
                 (Shared
                    {| counter := offset storage;
                       sources :=
                         map (fun _ => NumbersMultiThreadedSource_new max_block_size max_counter_)
                           (seqZ 0 num_streams) |}),
               storage)
            else
              (Returned
                 (Plain (map (plain_pipe (limit storage) (offset storage) max_block_size num_streams)
                           (seqZ 0 num_streams))),
               storage)
        end
      else
        (Returned
           (Plain (map (plain_pipe (limit storage) (offset storage) max_block_size num_streams)
                     (seqZ 0 num_streams))),
         storage)
  end.

End Read.

(** The chunk that the call number [k] (from 0) of [generate] returns. *)
Fixpoint nth_chunk (k : nat) (s : NumbersSource) : Chunk :=
  match k with
  | O => (generate s).1
  | S k' => nth_chunk k' (generate s).2
  end.

(** The numbers of a chunk. *)
Definition numbers (c : Chunk) : list Z := concat (chunk_columns c).

(** The limits of the [LimitTransform]s of the pipes, 0 for a pipe without
    one. *)
Definition shares (pipes : list Pipe) : list Z :=
  map (fun p => default 0 (limit_transform p)) pipes.

(** The state of a pool of sources with block size [b] that hand out the
    numbers below [max]: after [t] calls the counter has advanced by [b] per
    call as long as it is below [max], and every source still has the block
    size [b] until then. *)
Definition handing_out (b max offset_ : Z) (t : Z) (p : Pool) : Prop :=
  Forall (fun s => max_counter s = max /\ 0 < mt_block_size s <= b) (sources p)
  /\ offset_ <= counter p <= offset_ + b * t
  /\ (counter p < max ->
      counter p = offset_ + b * t /\ Forall (fun s => mt_block_size s = b) (sources p))
  /\ (max <= counter p -> max - offset_ <= b * t).

End Numbers.

(** * StorageFile: the table engine [File]

    A shallow embedding of the second part of
    [dbms/src/Storages/MergeTree/MergedBlockOutputStream.cpp], which holds
    [StorageFile.cpp].  A method is a function of the table object and of
    the world outside the process (the file system and the descriptors) to
    an outcome, the object and the world after it.  The [rwlock] of the
    table is the count of the locks that hold it: a source and an output
    stream hold one while they live, [truncate] and [rename] during the
    call.  The members of [IStorage] other than the storage id and the
    columns are not read by these methods and are left out. *)

Module File.

(** [namespace ErrorCodes]. *)
Inductive ErrorCodes :=
| BAD_ARGUMENTS
| NOT_IMPLEMENTED
| CANNOT_SEEK_THROUGH_FILE
| CANNOT_TRUNCATE_FILE
| DATABASE_ACCESS_DENIED
| NUMBER_OF_ARGUMENTS_DOESNT_MATCH
| UNKNOWN_IDENTIFIER
| INCORRECT_FILE_NAME
| FILE_DOESNT_EXIST.

(** A call returns, throws an [Exception] with one of the codes, lets an
    exception of a library it calls pass, has undefined behaviour, or waits
    for the [rwlock] of the table, which another lock holds: it goes on when
    the holder lets go, and when the holder is of the same thread the
    behaviour is undefined (the standard library may throw
    [std::system_error]). *)
Inductive Result (A : Type) :=
| Returns (a : A)
| Throws (code : ErrorCodes) (message : string)
| Passes (exception : string)
| Undefined (what : string)
| Waits.
Arguments Returns {A} a.
Arguments Throws {A} code message.
Arguments Passes {A} exception.
Arguments Undefined {A} what.
Arguments Waits {A}.

(** [std::shared_mutex]: the number of [std::shared_lock]s that hold it and
    whether a [std::unique_lock] does. *)
Record SharedMutex := {
  shared_holders : nat;
  unique_holder : bool;
}.

(** A mutex as its constructor leaves it. *)
Definition unlocked : SharedMutex := {| shared_holders := 0; unique_holder := false |}.

(** [std::unique_lock(mutex)]: the mutex with the lock on it, when no lock
    holds it. *)
Definition lock_unique (m : SharedMutex) : option SharedMutex :=
  if unique_holder m || negb (Nat.eqb (shared_holders m) 0) then None
  else Some {| shared_holders := shared_holders m; unique_holder := true |}.

(** [std::shared_lock(mutex)]: the mutex with the lock on it, when no
    unique lock holds it. *)
Definition lock_shared (m : SharedMutex) : option SharedMutex :=
  if unique_holder m then None
  else Some {| shared_holders := S (shared_holders m); unique_holder := unique_holder m |}.

(** The destructors of the two locks. *)
Definition unlock_unique (m : SharedMutex) : SharedMutex :=
  {| shared_holders := shared_holders m; unique_holder := false |}.

Definition unlock_shared (m : SharedMutex) : SharedMutex :=
  {| shared_holders := Nat.pred (shared_holders m); unique_holder := unique_holder m |}.

Record StorageID := {
  database_name : string;
  table_name : string;
}.

(** What these methods ask a [Context]: whether the application is the
    server ([getApplicationType() == Context::ApplicationType::SERVER]),
    [getPath] and [getUserFilesPath]. *)
Record Context := {
  server : bool;
  getPath : string;
  getUserFilesPath : string;
}.

(** [StorageFile::CommonArguments], without the constraints. *)
Record CommonArguments := {
  table_id : StorageID;
  args_format_name : string;
  args_compression_method : string;
  args_columns : NamesAndTypesList;
  context : Context;
}.

(** The table object: the storage id and the columns of [IStorage] and the
    members of [StorageFile]. *)
Record StorageFile := {
  storage_id : StorageID;
  virtuals : NamesAndTypesList;
  columns : NamesAndTypesList;
  format_name : string;
  compression_method : string;
  base_path : string;
  paths : list string;
  is_db_table : bool;
  use_table_fd : bool;
  table_fd : Z;
  table_fd_was_used : bool;
  table_fd_init_offset : Z;
  rwlock : SharedMutex;
}.

(** The values that the member initialisers of [StorageFile.h], which is
    not part of these sources, give to the members that
    [StorageFile(CommonArguments)] does not set.  [paths] is a vector that
    no initialiser list mentions ("when use fd, paths are empty"). *)
Record Defaults := {
  default_is_db_table : bool;
  default_use_table_fd : bool;
  default_table_fd : Z;
  default_table_fd_was_used : bool;
  default_table_fd_init_offset : Z;
}.

Inductive Whence := SEEK_SET | SEEK_CUR.

(** The world outside and the libraries that the file calls, through
    their interfaces.  A call of [Poco::File] that throws gives [None]. *)
Class Environment (World Method : Type) := {
  (** [Poco::File(path).exists()] and [isDirectory()]. *)
  poco_exists : string -> World -> bool;
  poco_isDirectory : string -> World -> bool;
  (** [Poco::File(path).createDirectories()] and [renameTo]. *)
  poco_createDirectories : string -> World -> option World;
  poco_renameTo : string -> string -> World -> option World;
  (** [lseek], [ftruncate] and [truncate] of [unistd.h]: the value returned
      and the world after the call. *)
  lseek : Z -> Z -> Whence -> World -> Z * World;
  ftruncate : Z -> Z -> World -> Z * World;
  truncate_path : string -> Z -> World -> Z * World;
  (** The constructor of [WriteBufferFromFile] with
      [O_WRONLY | O_APPEND | O_CREAT], which makes the file when it is
      missing; [None] when it throws. *)
  open_for_append : string -> World -> option World;
  (** [Poco::Path(path).makeAbsolute().makeDirectory().toString()]. *)
  makeAbsoluteDirectory : string -> string;
  (** [Poco::Path(path).isRelative()], [Poco::Path(parent, path)],
      [absolute().toString()] and [parent()]. *)
  isRelative : string -> bool;
  path_in : string -> string -> string;
  absolute : string -> string;
  parent : string -> string;
  (** [listFilesWithRegexpMatching]: the paths below a directory that match
      a pattern with globs; it lists directories and matches with [re2]. *)
  listFilesWithRegexpMatching : string -> string -> World -> list string;
  (** [chooseCompressionMethod(path, hint)]. *)
  chooseCompressionMethod : string -> string -> Method;
  (** Whether [wrapWriteBufferWithCompressionMethod(buffer, method, 3)]
      returns, and whether [FormatFactory::getOutput] does for the name of a
      format; they throw otherwise. *)
  wrapWriteBufferWithCompressionMethod : Method -> bool;
  getOutput : string -> bool;
  (** [IStorage::getName] and [StorageID::getNameForLogs]. *)
  getName : string;
  getNameForLogs : StorageID -> string;
  (** The header of [StorageDistributedDirectoryMonitor::createStreamFromFile]
      and the blocks that its [read] returns before the one that ends it. *)
  distributed_header : string -> World -> NamesAndTypesList;
  distributed_blocks : string -> World -> list Block;
  (** The blocks that the input stream of the table's format, with the
      defaults of the columns added, reads from the file at a path (from
      [table_fd] without one) before the block that ends it. *)
  input_blocks : StorageFile -> option string -> World -> list Block;
}.

Section Table.
Context `{Collaborators} {World Method : Type} `{!Environment World Method}.

(** [getTablePath]. *)
Definition getTablePath (table_dir_path format_name_ : string) : string :=
  table_dir_path +:+ "/data." +:+ escapeForFileName format_name_.

(** [checkCreationIsAllowed]. *)
Definition checkCreationIsAllowed (context_global : Context) (db_dir_path table_path : string)
    (w : World) : Result unit :=
  if negb (server context_global) then Returns tt
  else if negb (String.prefix db_dir_path table_path) && negb (String.eqb table_path "/dev/null")
  then Throws DATABASE_ACCESS_DENIED ("File is not inside " +:+ db_dir_path)
  else if poco_exists table_path w && poco_isDirectory table_path w
  then Throws INCORRECT_FILE_NAME "File must not be a directory"
  else Returns tt.

(** [StorageFile::StorageFile(CommonArguments)]. *)
Definition StorageFile_common (d : Defaults) (args : CommonArguments) : StorageFile :=
  {| storage_id := table_id args;
     virtuals := [ {| nt_name := "_path"; nt_type := DataTypePrimitive "String" |};
                   {| nt_name := "_file"; nt_type := DataTypePrimitive "String" |} ];
     columns := if String.eqb (args_format_name args) "Distributed" then [] else args_columns args;
     format_name := args_format_name args;
     compression_method := args_compression_method args;
     base_path := getPath (context args);
     paths := [];
     is_db_table := default_is_db_table d;
     use_table_fd := default_use_table_fd d;
     table_fd := default_table_fd d;
     table_fd_was_used := default_table_fd_was_used d;
     table_fd_init_offset := default_table_fd_init_offset d;
     rwlock := unlocked |}.

Definition set_paths (p : list string) (s : StorageFile) : StorageFile :=
  {| storage_id := storage_id s; virtuals := virtuals s; columns := columns s;
     format_name := format_name s; compression_method := compression_method s;
     base_path := base_path s; paths := p; is_db_table := is_db_table s;
     use_table_fd := use_table_fd s; table_fd := table_fd s;
     table_fd_was_used := table_fd_was_used s;
     table_fd_init_offset := table_fd_init_offset s; rwlock := rwlock s |}.

Definition set_is_db_table (v : bool) (s : StorageFile) : StorageFile :=
  {| storage_id := storage_id s; virtuals := virtuals s; columns := columns s;
     format_name := format_name s; compression_method := compression_method s;
     base_path := base_path s; paths := paths s; is_db_table := v;
     use_table_fd := use_table_fd s; table_fd := table_fd s;
     table_fd_was_used := table_fd_was_used s;
     table_fd_init_offset := table_fd_init_offset s; rwlock := rwlock s |}.

Definition set_table_fd_was_used (v : bool) (s : StorageFile) : StorageFile :=
  {| storage_id := storage_id s; virtuals := virtuals s; columns := columns s;
     format_name := format_name s; compression_method := compression_method s;
     base_path := base_path s; paths := paths s; is_db_table := is_db_table s;
     use_table_fd := use_table_fd s; table_fd := table_fd s;
     table_fd_was_used := v;
     table_fd_init_offset := table_fd_init_offset s; rwlock := rwlock s |}.

Definition set_rwlock (m : SharedMutex) (s : StorageFile) : StorageFile :=
  {| storage_id := storage_id s; virtuals := virtuals s; columns := columns s;
     format_name := format_name s; compression_method := compression_method s;
     base_path := base_path s; paths := paths s; is_db_table := is_db_table s;
     use_table_fd := use_table_fd s; table_fd := table_fd s;
     table_fd_was_used := table_fd_was_used s;
     table_fd_init_offset := table_fd_init_offset s; rwlock := m |}.

Definition setColumns (c : NamesAndTypesList) (s : StorageFile) : StorageFile :=
  {| storage_id := storage_id s; virtuals := virtuals s; columns := c;
     format_name := format_name s; compression_method := compression_method s;
     base_path := base_path s; paths := paths s; is_db_table := is_db_table s;
     use_table_fd := use_table_fd s; table_fd := table_fd s;
     table_fd_was_used := table_fd_was_used s;
     table_fd_init_offset := table_fd_init_offset s; rwlock := rwlock s |}.

(** [StorageFile::StorageFile(int table_fd_, CommonArguments)]. *)
Definition StorageFile_fd (d : Defaults) (table_fd_ : Z) (args : CommonArguments) (w : World)
    : Result StorageFile * World :=
  let s := StorageFile_common d args in
  if server (context args)
  then (Throws DATABASE_ACCESS_DENIED
          "Using file descriptor as source of storage isn't allowed for server daemons", w)
  else
    let '(position, w) := lseek table_fd_ 0 SEEK_CUR w in
    (Returns
       {| storage_id := storage_id s; virtuals := virtuals s; columns := columns s;
          format_name := format_name s; compression_method := compression_method s;
          base_path := base_path s; paths := paths s; is_db_table := false;
          use_table_fd := true; table_fd := table_fd_;
          table_fd_was_used := table_fd_was_used s;
          table_fd_init_offset := position; rwlock := rwlock s |}, w).

(** [s.find_first_of(chars)]. *)
Fixpoint find_first_of (chars : list ascii) (s : string) : option nat :=
  match s with
  | EmptyString => None
  | String c rest =>
      if bool_decide (c ∈ chars) then Some O else S <$> find_first_of chars rest
  end.

Definition globs : list ascii := ["*"%char; "?"%char; "{"%char].

(** The loop over [paths] that calls [checkCreationIsAllowed]. *)
Fixpoint check_paths (context_global : Context) (db_dir_path : string) (l : list string)
    (w : World) : Result unit :=
  match l with
  | [] => Returns tt
  | cur_path :: rest =>
      match checkCreationIsAllowed context_global db_dir_path cur_path w with
      | Returns _ => check_paths context_global db_dir_path rest w
      | failure => failure
      end
  end.

(** [StorageFile::StorageFile(table_path_, user_files_path, CommonArguments)]. *)
Definition StorageFile_path (d : Defaults) (table_path_ user_files_path : string)
    (args : CommonArguments) (w : World) : Result StorageFile :=
  let s := set_is_db_table false (StorageFile_common d args) in
  let user_files_absolute_path := makeAbsoluteDirectory user_files_path in
  let poco_path :=
    if isRelative table_path_ then path_in user_files_absolute_path table_path_
    else table_path_ in
  let path := absolute poco_path in
  let s :=
    match find_first_of globs path with
    | None => set_paths (paths s ++ [path]) s
    | Some _ => set_paths (listFilesWithRegexpMatching "/" path w) s
    end in
  match check_paths (context args) user_files_absolute_path (paths s) w with
  | Returns _ =>
      if String.eqb (args_format_name args) "Distributed" then
        match paths s with
        | first_path :: _ => Returns (setColumns (distributed_header first_path w) s)
        | [] => Returns s
        end
      else Returns s
  | Throws code message => Throws code message
  | Passes exception => Passes exception
  | Undefined what => Undefined what
  | Waits => Waits
  end.

(** [StorageFile::StorageFile(relative_table_dir_path, CommonArguments)]. *)
Definition StorageFile_db (d : Defaults) (relative_table_dir_path : string)
    (args : CommonArguments) (w : World) : Result StorageFile * World :=
  let s := StorageFile_common d args in
  if String.eqb relative_table_dir_path ""
  then (Throws INCORRECT_FILE_NAME ("Storage " +:+ getName +:+ " requires data path"), w)
  else
    let table_dir_path := base_path s +:+ relative_table_dir_path +:+ "/" in
    match poco_createDirectories table_dir_path w with
    | None => (Passes "Poco::File::createDirectories", w)
    | Some w => (Returns (set_paths [getTablePath table_dir_path (format_name s)] s), w)
    end.

(** ** Reading *)

(** [StorageFileSource::FilesInfo], shared by the sources of one read. *)
Record FilesInfo := {
  files : list string;
  next_file_to_read : Z;
  need_path_column : bool;
  need_file_column : bool;
}.

(** The members of a [StorageFileSource] that change: the reader is the
    blocks that it has still to return, when there is one; [shared_lock]
    and [unique_lock] say whether the member holds the [rwlock] of the
    table. *)
Record StorageFileSource := {
  current_path : string;
  reader : option (list Block);
  max_block_size : Z;
  finished_generate : bool;
  shared_lock : bool;
  unique_lock : bool;
}.

(** The constructor of [StorageFileSource].  On a descriptor it takes the
    [rwlock] for itself, marks the descriptor as used and seeks it back for
    a repeated read; when it throws, the lock is let go.  On files it takes
    the [rwlock] shared. *)
Definition StorageFileSource_new (max_block_size_ : Z) (s : StorageFile) (w : World)
    : Result StorageFileSource * StorageFile * World :=
  let source (shared_ unique_ : bool) :=
    {| current_path := ""; reader := None; max_block_size := max_block_size_;
       finished_generate := false; shared_lock := shared_; unique_lock := unique_ |} in
  if use_table_fd s then
    match lock_unique (rwlock s) with
    | None => (Waits, s, w)
    | Some m =>
        let s := set_rwlock m s in
        let unlocked_ := set_rwlock (unlock_unique (rwlock s)) s in
        if table_fd_was_used s then
          if table_fd_init_offset s <? 0
          then (Throws CANNOT_SEEK_THROUGH_FILE
                  ("File descriptor isn't seekable, inside " +:+ getName), unlocked_, w)
          else
            let '(position, w) := lseek (table_fd s) (table_fd_init_offset s) SEEK_SET w in
            if position <? 0
            then (Throws CANNOT_SEEK_THROUGH_FILE
                    ("Cannot seek file descriptor, inside " +:+ getName), unlocked_, w)
            else (Returns (source false true), set_table_fd_was_used true s, w)
        else (Returns (source false true), set_table_fd_was_used true s, w)
    end
  else
    match lock_shared (rwlock s) with
    | None => (Waits, s, w)
    | Some m => (Returns (source true false), set_rwlock m s, w)
    end.

(** The destructor of a [StorageFileSource], which lets go the lock that
    the source holds. *)
Definition StorageFileSource_destroy (src : StorageFileSource) (s : StorageFile)
    : StorageFile :=
  let s := if unique_lock src then set_rwlock (unlock_unique (rwlock s)) s else s in
  if shared_lock src then set_rwlock (unlock_shared (rwlock s)) s else s.

(** The destruction of sources, the last one made first. *)
Definition destroy_sources (l : list StorageFileSource) (s : StorageFile) : StorageFile :=
  foldr StorageFileSource_destroy s l.

(** What [read] returns: the sources of the pipes and the [FilesInfo] that
    they share. *)
Record Pipes := {
  files_info : FilesInfo;
  sources : list StorageFileSource;
}.

(** The last loop of [read], which makes [n] sources; when a constructor
    throws, the sources made before it are destroyed with [pipes]. *)
Fixpoint make_sources (n : nat) (max_block_size_ : Z) (made : list StorageFileSource)
    (s : StorageFile) (w : World) : Result (list StorageFileSource) * StorageFile * World :=
  match n with
  | O => (Returns made, s, w)
  | S n' =>
      match StorageFileSource_new max_block_size_ s w with
      | (Returns source, s, w) => make_sources n' max_block_size_ (made ++ [source]) s w
      | (Throws code message, s, w) => (Throws code message, destroy_sources made s, w)
      | (Passes exception, s, w) => (Passes exception, destroy_sources made s, w)
      | (Undefined what, s, w) => (Undefined what, s, w)
      | (Waits, s, w) => (Waits, s, w)
      end
  end.

(** [StorageFile::read]; [num_streams] is an [unsigned]. *)
Definition read (column_names : list string) (max_block_size_ num_streams : Z)
    (s : StorageFile) (w : World) : Result Pipes * StorageFile * World :=
  let s := if use_table_fd s then set_paths [""] s else s in
  if negb (use_table_fd s) && (Z.of_nat (length (paths s)) =? 1)
     && negb (poco_exists (default "" (paths s !! 0%nat)) w)
  then (Throws FILE_DOESNT_EXIST
          ("File " +:+ default "" (paths s !! 0%nat) +:+ " doesn't exist"), s, w)
  else
    let info :=
      {| files := paths s; next_file_to_read := 0;
         need_path_column := existsb (String.eqb "_path") column_names;
         need_file_column := existsb (String.eqb "_file") column_names |} in
    let num_streams :=
      if Z.of_nat (length (paths s)) <? num_streams then Z.of_nat (length (paths s))
      else num_streams in
    match make_sources (Z.to_nat num_streams) max_block_size_ [] s w with
    | (Returns made, s, w) => (Returns {| files_info := info; sources := made |}, s, w)
    | (Throws code message, s, w) => (Throws code message, s, w)
    | (Passes exception, s, w) => (Passes exception, s, w)
    | (Undefined what, s, w) => (Undefined what, s, w)
    | (Waits, s, w) => (Waits, s, w)
    end.

(** The destruction of the pipes of a read. *)
Definition Pipes_destroy (p : Pipes) (s : StorageFile) : StorageFile :=
  destroy_sources (sources p) s.

(** A column of a chunk: a column of the block read, or the column of
    strings that [createColumnConst(num_rows, value)] and
    [convertToFullColumnIfConst] make. *)
Inductive ChunkColumn :=
| FromBlock (c : IColumn)
| ColumnString (rows : list string).

Record Chunk := {
  chunk_columns : list ChunkColumn;
  num_rows : Z;
}.

(** [return {}]. *)
Definition empty_chunk : Chunk := {| chunk_columns := []; num_rows := 0 |}.

Fixpoint has_slash (s : string) : bool :=
  match s with
  | EmptyString => false
  | String c rest => Ascii.eqb c "/"%char || has_slash rest
  end.

(** [path.substr(path.find_last_of('/') + 1)]: the whole path when it has no
    slash. *)
Fixpoint after_last_slash (path : string) : string :=
  match path with
  | EmptyString => EmptyString
  | String c rest =>
      if has_slash rest then after_last_slash rest
      else if Ascii.eqb c "/"%char then rest else path
  end.

(** The chunk made of a block read, with the virtual columns asked for. *)
Definition enrich (info : FilesInfo) (current_path_ : string) (res : Block) : Chunk :=
  let columns_ := map (fun c => FromBlock (column c)) res in
  let num_rows_ := block_rows res in
  let columns_ :=
    if need_path_column info
    then columns_ ++ [ColumnString (replicate (Z.to_nat num_rows_) current_path_)]
    else columns_ in
  let columns_ :=
    if need_file_column info
    then columns_ ++ [ColumnString (replicate (Z.to_nat num_rows_)
                                      (after_last_slash current_path_))]
    else columns_ in
  {| chunk_columns := columns_; num_rows := num_rows_ |}.

Definition set_next_file_to_read (n : Z) (info : FilesInfo) : FilesInfo :=
  {| files := files info; next_file_to_read := n;
     need_path_column := need_path_column info;
     need_file_column := need_file_column info |}.

Definition set_reader (r : option (list Block)) (src : StorageFileSource) : StorageFileSource :=
  {| current_path := current_path src; reader := r; max_block_size := max_block_size src;
     finished_generate := finished_generate src;
     shared_lock := shared_lock src; unique_lock := unique_lock src |}.

Definition set_current_path (p : string) (src : StorageFileSource) : StorageFileSource :=
  {| current_path := p; reader := reader src; max_block_size := max_block_size src;
     finished_generate := finished_generate src;
     shared_lock := shared_lock src; unique_lock := unique_lock src |}.

Definition set_finished_generate (v : bool) (src : StorageFileSource) : StorageFileSource :=
  {| current_path := current_path src; reader := reader src;
     max_block_size := max_block_size src; finished_generate := v;
     shared_lock := shared_lock src; unique_lock := unique_lock src |}.

(** The part [if (!reader) ...] of an iteration of [generate]: there is no
    file left, the iteration ends with [continue], or there is a reader to
    read from. *)
Inductive Opened :=
| NoFileLeft (info : FilesInfo)
| Continue (info : FilesInfo) (src : StorageFileSource)
| Ready (info : FilesInfo) (src : StorageFileSource).

Definition open_reader (storage : StorageFile) (w : World) (info : FilesInfo)
    (src : StorageFileSource) : Opened :=
  match reader src with
  | Some _ => Ready info src
  | None =>
      if negb (use_table_fd storage) then
        (* [files_info->next_file_to_read.fetch_add(1)] *)
        let current_file := next_file_to_read info in
        let info := set_next_file_to_read (wrap (current_file + 1)) info in
        if Z.of_nat (length (files info)) <=? current_file then NoFileLeft info
        else
          let src :=
            set_current_path (default "" (files info !! Z.to_nat current_file)) src in
          if String.eqb (format_name storage) "Distributed"
          then Continue info (set_reader (Some (distributed_blocks (current_path src) w)) src)
          else Ready info
                 (set_reader (Some (input_blocks storage (Some (current_path src)) w)) src)
      else Ready info (set_reader (Some (input_blocks storage None w)) src)
  end.

(** [StorageFileSource::generate]: the chunk, the shared [FilesInfo] and
    the source after the call; [fuel] bounds the iterations of the loop. *)
Fixpoint generate (fuel : nat) (storage : StorageFile) (w : World) (info : FilesInfo)
    (src : StorageFileSource) : option (Chunk * FilesInfo * StorageFileSource) :=
  match fuel with
  | O => None
  | S fuel' =>
      if finished_generate src then Some (empty_chunk, info, src)
      else
        match open_reader storage w info src with
        | NoFileLeft info => Some (empty_chunk, info, src)
        | Continue info src => generate fuel' storage w info src
        | Ready info src =>
            match reader src with
            | Some (res :: rest) =>
                Some (enrich info (current_path src) res, info, set_reader (Some rest) src)
            | _ =>
                (* the reader has ended: [reader.reset()] *)
                let src :=
                  if use_table_fd storage then set_finished_generate true src else src in
                generate fuel' storage w info (set_reader None src)
            end
        end
  end.

(** The calls of [generate] in the order [schedule] of the sources of one
    read that make them, and the chunks that they return. *)
Fixpoint generate_all (fuel : nat) (storage : StorageFile) (w : World)
    (schedule : list nat) (p : Pipes) : option (list Chunk * Pipes) :=
  match schedule with
  | [] => Some ([], p)
  | i :: rest =>
      match sources p !! i with
      | None => None
      | Some src =>
          match generate fuel storage w (files_info p) src with
          | None => None
          | Some (chunk, info, src) =>
              match generate_all fuel storage w rest
                      {| files_info := info; sources := <[i := src]> (sources p) |} with
              | None => None
              | Some (chunks, p) => Some (chunk :: chunks, p)
              end
          end
      end
  end.

(** ** Writing *)

(** Where a [StorageFileBlockOutputStream] writes: to the descriptor of the
    table, or to the end of a file, made when it is missing
    ([O_WRONLY | O_APPEND | O_CREAT]).  The stream holds the [rwlock] of the
    table for itself while it lives. *)
Inductive Target :=
| ToDescriptor (fd : Z)
| ToFile (path : string).

Record StorageFileBlockOutputStream := {
  target : Target;
  method : Method;
  writer_format : string;
}.

(** The end of the constructor of [StorageFileBlockOutputStream], once the
    buffer of the target is made: the buffer is wrapped and the writer of
    the format made; when one of the two throws, the lock is let go. *)
Definition make_writer (target_ : Target) (s : StorageFile) (compression_method_ : Method)
    (w : World) : Result StorageFileBlockOutputStream * StorageFile * World :=
  let unlocked_ := set_rwlock (unlock_unique (rwlock s)) s in
  if negb (wrapWriteBufferWithCompressionMethod compression_method_)
  then (Passes "wrapWriteBufferWithCompressionMethod", unlocked_, w)
  else if negb (getOutput (format_name s))
  then (Passes "FormatFactory::getOutput", unlocked_, w)
  else
    (Returns {| target := target_; method := compression_method_;
                writer_format := format_name s |}, s, w).

(** The constructor of [StorageFileBlockOutputStream], which first takes
    the [rwlock] for itself. *)
Definition StorageFileBlockOutputStream_new (s : StorageFile) (compression_method_ : Method)
    (w : World) : Result StorageFileBlockOutputStream * StorageFile * World :=
  match lock_unique (rwlock s) with
  | None => (Waits, s, w)
  | Some m =>
      let s := set_rwlock m s in
      if use_table_fd s then
        make_writer (ToDescriptor (table_fd s)) (set_table_fd_was_used true s)
          compression_method_ w
      else
        match paths s with
        | [path] =>
            match open_for_append path w with
            | None => (Passes "WriteBufferFromFile", set_rwlock (unlock_unique (rwlock s)) s, w)
            | Some w => make_writer (ToFile path) s compression_method_ w
            end
        | _ =>
            (Throws DATABASE_ACCESS_DENIED
               ("Table '" +:+ getNameForLogs (storage_id s)
                +:+ "' is in readonly mode because of globs in filepath"),
             set_rwlock (unlock_unique (rwlock s)) s, w)
        end
  end.

(** The destructor of a [StorageFileBlockOutputStream], which lets go the
    lock. *)
Definition StorageFileBlockOutputStream_destroy (s : StorageFile) : StorageFile :=
  set_rwlock (unlock_unique (rwlock s)) s.

(** [StorageFile::write]. *)
Definition write (s : StorageFile) (w : World)
    : Result StorageFileBlockOutputStream * StorageFile * World :=
  if String.eqb (format_name s) "Distributed"
  then (Throws NOT_IMPLEMENTED "Method write is not implemented for Distributed format", s, w)
  else
    match paths s with
    | [] => (Undefined "paths[0] of an empty vector", s, w)
    | path :: _ =>
        StorageFileBlockOutputStream_new s
          (chooseCompressionMethod path (compression_method s)) w
    end.


(** [StorageFile::rename]; the lock that it takes after the two checks is
    let go when it returns or an exception passes. *)
Definition rename (new_path_to_table_data new_database_name new_table_name : string)
    (s : StorageFile) (w : World) : Result unit * StorageFile * World :=
  if negb (is_db_table s)
  then (Throws DATABASE_ACCESS_DENIED
          ("Can't rename table " +:+ getNameForLogs (storage_id s)
           +:+ " binded to user-defined file (or FD)"), s, w)
  else
    match paths s with
    | [path] =>
        match lock_unique (rwlock s) with
        | None => (Waits, s, w)
        | Some _ =>
            let path_new :=
              getTablePath (base_path s +:+ new_path_to_table_data) (format_name s) in
            match poco_createDirectories (parent path_new) w with
            | None => (Passes "Poco::File::createDirectories", s, w)
            | Some w =>
                match poco_renameTo path path_new w with
                | None => (Passes "Poco::File::renameTo", s, w)
                | Some w =>
                    let s := set_paths [path_new] s in
                    (* [renameInMemory] *)
                    (Returns tt,
                     {| storage_id :=
                          {| database_name := new_database_name;
                             table_name := new_table_name |};
                        virtuals := virtuals s; columns := columns s;
                        format_name := format_name s;
                        compression_method := compression_method s;
                        base_path := base_path s; paths := paths s;
                        is_db_table := is_db_table s;
                        use_table_fd := use_table_fd s; table_fd := table_fd s;
                        table_fd_was_used := table_fd_was_used s;
                        table_fd_init_offset := table_fd_init_offset s;
                        rwlock := rwlock s |}, w)
                end
            end
        end
    | _ =>
        (Throws DATABASE_ACCESS_DENIED
           ("Can't rename table " +:+ getNameForLogs (storage_id s) +:+ " in readonly mode"),
         s, w)
    end.

(** [StorageFile::truncate]; the lock that it takes after the check is let
    go when it returns or throws. *)
Definition truncate (s : StorageFile) (w : World) : Result unit * World :=
  match paths s with
  | [path] =>
      match lock_unique (rwlock s) with
      | None => (Waits, w)
      | Some _ =>
          if use_table_fd s then
            let '(r, w) := ftruncate (table_fd s) 0 w in
            if negb (r =? 0)
            then (Throws CANNOT_TRUNCATE_FILE
                    ("Cannot truncate file at fd " +:+ toString (table_fd s)), w)
            else (Returns tt, w)
          else if negb (poco_exists path w) then (Returns tt, w)
          else
            let '(r, w) := truncate_path path 0 w in
            if negb (r =? 0)
            then (Throws CANNOT_TRUNCATE_FILE ("Cannot truncate file " +:+ path), w)
            else (Returns tt, w)
      end
  | _ =>
      (Throws DATABASE_ACCESS_DENIED
         ("Can't truncate table '" +:+ getNameForLogs (storage_id s)
          +:+ "' in readonly mode"), w)
  end.

(** ** What a read has still to deliver *)

(** The blocks that a source reads from the file at [path]. *)
Definition file_blocks (storage : StorageFile) (w : World) (path : string) : list Block :=
  if String.eqb (format_name storage) "Distributed" then distributed_blocks path w
  else input_blocks storage (Some path) w.

(** The chunks of the blocks of the files [l]. *)
Definition chunks_of_files (storage : StorageFile) (w : World) (info : FilesInfo)
    (l : list string) : list Chunk :=
  flat_map (fun path => map (enrich info path) (file_blocks storage w path)) l.

(** The chunks that the reader of a source has still to return. *)
Definition unread_of (info : FilesInfo) (src : StorageFileSource) : list Chunk :=
  match reader src with
  | Some blocks => map (enrich info (current_path src)) blocks
  | None => []
  end.

(** The chunks that the sources and the files that no source has opened
    have still to deliver. *)
Definition unread (storage : StorageFile) (w : World) (p : Pipes) : list Chunk :=
  flat_map (unread_of (files_info p)) (sources p)
  ++ chunks_of_files storage w (files_info p)
       (drop (Z.to_nat (next_file_to_read (files_info p))) (files (files_info p))).

(** Every block that a reader returns before its end has columns: a block
    without columns is what ends a stream. *)
Definition blocks_have_columns (blocks : list Block) : Prop :=
  Forall (fun block : Block => block <> []) blocks.

(** A source in the course of its read. *)
Definition reading (src : StorageFileSource) : Prop :=
  finished_generate src = false
  /\ forall blocks, reader src = Some blocks -> blocks_have_columns blocks.

(** The source [i] has no reader and there is no file left to open. *)
Definition settled (i : nat) (p : Pipes) : Prop :=
  Z.of_nat (length (files (files_info p))) <= next_file_to_read (files_info p)
  /\ exists src, sources p !! i = Some src /\ reader src = None.

(** ** Calls in a row *)

(** A call of a method that can change the table or the world. *)
Inductive Call :=
| CallRead (column_names : list string) (max_block_size_ num_streams : Z)
| CallWrite
| CallTruncate
| CallRename (new_path_to_table_data new_database_name new_table_name : string).

(** The table and the world after a call, whether it returned, threw or
    waits, and after the destruction of what it returned (the pipes of a
    read, the stream of a write); nothing is known after undefined
    behaviour. *)
Definition call (c : Call) (s : StorageFile) (w : World) : option (StorageFile * World) :=
  match c with
  | CallRead column_names max_block_size_ num_streams =>
      match read column_names max_block_size_ num_streams s w with
      | (Undefined _, _, _) => None
      | (Returns pipes, s, w) => Some (Pipes_destroy pipes s, w)
      | (_, s, w) => Some (s, w)
      end
  | CallWrite =>
      match write s w with
      | (Undefined _, _, _) => None
      | (Returns _, s, w) => Some (StorageFileBlockOutputStream_destroy s, w)
      | (_, s, w) => Some (s, w)
      end
  | CallTruncate =>
      match truncate s w with
      | (Undefined _, _) => None
      | (_, w) => Some (s, w)
      end
  | CallRename new_path_to_table_data new_database_name new_table_name =>
      match rename new_path_to_table_data new_database_name new_table_name s w with
      | (Undefined _, _, _) => None
      | (_, s, w) => Some (s, w)
      end
  end.

Fixpoint calls (l : list Call) (s : StorageFile) (w : World) : option (StorageFile * World) :=
  match l with
  | [] => Some (s, w)
  | c :: rest =>
      match call c s w with
      | Some (s, w) => calls rest s w
      | None => None
      end
  end.

End Table.

(** A chunk with columns, unlike the empty chunk that ends a stream. *)
Definition is_data (c : Chunk) : bool :=
  match chunk_columns c with
  | [] => false
  | _ => true
  end.

(** The chunks with columns among those that the calls returned. *)
Definition delivered (chunks : list Chunk) : list Chunk := List.filter is_data chunks.

End File.

(** A world for the examples: the files are named lists of blocks, there
    is no directory, and no descriptor can be sought. *)
Module FileScenario.
Import File.

Definition World := list (string * list Block).

Definition named (path : string) (f : string * list Block) : bool := String.eqb f.1 path.

Definition world_blocks (path : string) (w : World) : list Block :=
  match List.find (named path) w with
  | Some f => f.2
  | None => []
  end.

Definition environment : Environment World string := {|
  poco_exists path w := existsb (named path) w;
  poco_isDirectory _ _ := false;
  poco_createDirectories _ w := Some w;
  poco_renameTo from to w :=
    Some (map (fun f => if named from f then (to, f.2) else f) w);
  lseek _ _ _ w := (-1, w);
  ftruncate _ _ w := (0, w);
  truncate_path path _ w :=
    (0, map (fun f => if named path f then (path, []) else f) w);
  open_for_append path w :=
    Some (if existsb (named path) w then w else w ++ [(path, [])]);
  makeAbsoluteDirectory dir := dir;
  isRelative path := negb (String.prefix "/" path);
  path_in dir path := dir +:+ path;
  absolute path := path;
  parent path := path;
  listFilesWithRegexpMatching _ _ w := map fst w;
  chooseCompressionMethod _ hint := hint;
  wrapWriteBufferWithCompressionMethod _ := true;
  getOutput format := negb (String.eqb format "Null");
  getName := "File";
  getNameForLogs id := database_name id +:+ "." +:+ table_name id;
  distributed_header _ _ := [];
  distributed_blocks path w := world_blocks path w;
  input_blocks _ path w :=
    match path with
    | Some path => world_blocks path w
    | None => []
    end;
|}.

Definition numbers_block (l : list Z) : Block :=
  [ {| column := ColumnVector l; type := DataTypePrimitive "UInt64"; name := "x" |} ].

Definition two_files : World :=
  [ ("/user_files/a.tsv", [numbers_block [1; 2]; numbers_block [3]]);
    ("/user_files/b.tsv", [numbers_block [4]]) ].

Definition defaults : Defaults :=
  {| default_is_db_table := true; default_use_table_fd := false; default_table_fd := -1;
     default_table_fd_was_used := false; default_table_fd_init_offset := -1 |}.

Definition arguments (server_ : bool) : CommonArguments :=
  {| table_id := {| database_name := "db"; table_name := "t" |};
     args_format_name := "TSV"; args_compression_method := "auto";
     args_columns := [ {| nt_name := "x"; nt_type := DataTypePrimitive "UInt64" |} ];
     context := {| server := server_; getPath := "/var/lib/clickhouse/";
                   getUserFilesPath := "/user_files/" |} |}.

(** The table of the two files, as a pattern with a glob makes it. *)
Definition table_of_two_files : StorageFile :=
  {| storage_id := {| database_name := "db"; table_name := "t" |};
     virtuals := [ {| nt_name := "_path"; nt_type := DataTypePrimitive "String" |};
                   {| nt_name := "_file"; nt_type := DataTypePrimitive "String" |} ];
     columns := [ {| nt_name := "x"; nt_type := DataTypePrimitive "UInt64" |} ];
     format_name := "TSV"; compression_method := "auto";
     base_path := "/var/lib/clickhouse/";
     paths := ["/user_files/a.tsv"; "/user_files/b.tsv"];
     is_db_table := false; use_table_fd := false; table_fd := -1;
     table_fd_was_used := false; table_fd_init_offset := -1; rwlock := unlocked |}.

(** The table that [File(TSV, 1)] makes in a program that is not the
    server. *)
Definition table_on_descriptor : StorageFile :=
  {| storage_id := {| database_name := "db"; table_name := "t" |};
     virtuals := [ {| nt_name := "_path"; nt_type := DataTypePrimitive "String" |};
                   {| nt_name := "_file"; nt_type := DataTypePrimitive "String" |} ];
     columns := [ {| nt_name := "x"; nt_type := DataTypePrimitive "UInt64" |} ];
     format_name := "TSV"; compression_method := "auto";
     base_path := "/var/lib/clickhouse/";
     paths := [];
     is_db_table := false; use_table_fd := true; table_fd := 1;
     table_fd_was_used := false; table_fd_init_offset := -1; rwlock := unlocked |}.

(** The table that [File(TSV, 'a.tsv')] makes on the server. *)
Definition table_of_one_file : StorageFile :=
  {| storage_id := {| database_name := "db"; table_name := "t" |};
     virtuals := [ {| nt_name := "_path"; nt_type := DataTypePrimitive "String" |};
                   {| nt_name := "_file"; nt_type := DataTypePrimitive "String" |} ];
     columns := [ {| nt_name := "x"; nt_type := DataTypePrimitive "UInt64" |} ];
     format_name := "TSV"; compression_method := "auto";
     base_path := "/var/lib/clickhouse/";
     paths := ["/user_files/a.tsv"];
     is_db_table := false; use_table_fd := false; table_fd := -1;
     table_fd_was_used := false; table_fd_init_offset := -1; rwlock := unlocked |}.

End FileScenario.

(** * Properties *)

(** ** The monad *)

Lemma bind_ok {S A B} (m : M S A) (k : A -> M S B) s b s' :
  bind m k s = (Ok b, s') ->
  exists a s1, m s = (Ok a, s1) /\ k a s1 = (Ok b, s').
Proof.
  unfold bind. destruct (m s) as [[a|f] s1]; [eauto | discriminate].
Qed.

Lemma zoom_run {S C A} (get_c : S -> C) (set_c : C -> S -> S) (m : M C A) s r s' :
  zoom get_c set_c m s = (r, s') ->
  exists c, m (get_c s) = (r, c) /\ s' = set_c c s.
Proof.
  unfold zoom. destruct (m (get_c s)) as [r1 c]. intros E. inversion E; subst. eauto.
Qed.

Section Preserves.
Context {S : Type} (R : relation S) `{!Reflexive R} `{!Transitive R}.

Lemma preserves_bind {A B} (m : M S A) (k : A -> M S B) :
  preserves R m -> (forall a, preserves R (k a)) -> preserves R (bind m k).
Proof.
  intros Hm Hk s r s'. unfold bind.
  destruct (m s) as [[a|f] s1] eqn:E; intros E'.
  - etransitivity; [exact (Hm _ _ _ E) | exact (Hk _ _ _ _ E')].
  - inversion E'; subst. exact (Hm _ _ _ E).
Qed.

Lemma preserves_ret {A} (a : A) : preserves R (ret a).
Proof. intros s r s' E. inversion E. reflexivity. Qed.

Lemma preserves_get : preserves R get.
Proof. intros s r s' E. inversion E. reflexivity. Qed.

Lemma preserves_throw {A} c msg : preserves R (@throw S A c msg).
Proof. intros s r s' E. inversion E. reflexivity. Qed.

Lemma preserves_undefined {A} u : preserves R (@undefined S A u).
Proof. intros s r s' E. inversion E. reflexivity. Qed.

Lemma preserves_fail {A} f : preserves R (@fail S A f).
Proof. intros s r s' E. inversion E. reflexivity. Qed.

Lemma preserves_lift_res {A} (x : Res A) : preserves R (lift_res x).
Proof. intros s r s' E. inversion E. reflexivity. Qed.

Lemma preserves_modify (f : S -> S) : (forall s, R s (f s)) -> preserves R (modify f).
Proof. intros Hf s r s' E. inversion E. apply Hf. Qed.

Lemma preserves_for_each {A} (l : list A) (body : A -> M S unit) :
  (forall x, preserves R (body x)) -> preserves R (for_each l body).
Proof.
  intros Hb. induction l as [|x l IH]; simpl.
  - apply preserves_ret.
  - apply preserves_bind; auto.
Qed.

End Preserves.

Lemma preserves_zoom {S C A} (R : relation S) (RC : relation C)
    (get_c : S -> C) (set_c : C -> S -> S) (m : M C A) :
  (forall s c, RC (get_c s) c -> R s (set_c c s)) ->
  preserves RC m -> preserves R (zoom get_c set_c m).
Proof.
  intros Hset Hm s r s'. unfold zoom.
  destruct (m (get_c s)) as [r1 c] eqn:E. intros E'. inversion E'; subst.
  apply Hset. exact (Hm _ _ _ E).
Qed.

Lemma preserves_weaken {S A} (R R' : relation S) (m : M S A) :
  (forall s s', R s s' -> R' s s') -> preserves R m -> preserves R' m.
Proof. intros HR Hm s r s' E. apply HR. exact (Hm _ _ _ E). Qed.

Lemma total_bind {S A B} (m : M S A) (k : A -> M S B) :
  total m -> (forall a, total (k a)) -> total (bind m k).
Proof.
  intros Hm Hk s. destruct (Hm s) as (a & s1 & E). destruct (Hk a s1) as (b & s2 & E2).
  exists b, s2. unfold bind. rewrite E. exact E2.
Qed.

Lemma total_ret {S A} (a : A) : total (@ret S A a).
Proof. intros s. eexists _, _. reflexivity. Qed.

Lemma total_get {S} : total (@get S).
Proof. intros s. eexists _, _. reflexivity. Qed.

Lemma total_modify {S} (f : S -> S) : total (modify f).
Proof. intros s. eexists _, _. reflexivity. Qed.

Lemma total_zoom {S C A} (get_c : S -> C) (set_c : C -> S -> S) (m : M C A) :
  total m -> total (zoom get_c set_c m).
Proof.
  intros Hm s. destruct (Hm (get_c s)) as (a & c & E). exists a, (set_c c s).
  unfold zoom. rewrite E. reflexivity.
Qed.

Lemma total_for_each {S A} (l : list A) (body : A -> M S unit) :
  (forall x, total (body x)) -> total (for_each l body).
Proof.
  intros Hb. induction l as [|x l IH]; simpl; [apply total_ret|].
  apply total_bind; [apply Hb | intros _; exact IH].
Qed.

Section Fed.
Context {S : Type} (P : S -> Prop).

Lemma fed_bind {A B} (m : M S A) (k : A -> M S B) :
  fed P m -> (forall a, fed P (k a)) -> fed P (bind m k).
Proof.
  intros Hm Hk s r s' HP. unfold bind.
  destruct (m s) as [[a|f] s1] eqn:E; intros E'.
  - destruct (Hm _ _ _ HP E) as [_ HP1]. exact (Hk a _ _ _ HP1 E').
  - inversion E'; subst. exact (Hm _ _ _ HP E).
Qed.

Lemma fed_ret {A} (a : A) : fed P (ret a).
Proof. intros s r s' HP E. inversion E; subst. split; [intros [] | exact HP]. Qed.

Lemma fed_get : fed P get.
Proof. intros s r s' HP E. inversion E; subst. split; [intros [] | exact HP]. Qed.

Lemma fed_undefined {A} u : fed P (@undefined S A u).
Proof. intros s r s' HP E. inversion E; subst. split; [intros [] | exact HP]. Qed.

Lemma fed_modify (f : S -> S) : (forall s, P s -> P (f s)) -> fed P (modify f).
Proof. intros Hf s r s' HP E. inversion E; subst. split; [intros [] | auto]. Qed.

Lemma fed_for_each {A} (l : list A) (body : A -> M S unit) :
  (forall x, x ∈ l -> fed P (body x)) -> fed P (for_each l body).
Proof.
  induction l as [|x l IH]; intros Hb; simpl; [apply fed_ret|].
  apply fed_bind; [apply Hb; left | intros _; apply IH; intros y Hy; apply Hb; by right].
Qed.

End Fed.

Lemma fed_zoom {S C A} (P : S -> Prop) (PC : C -> Prop)
    (get_c : S -> C) (set_c : C -> S -> S) (m : M C A) :
  (forall s, P s -> PC (get_c s)) ->
  (forall s c, P s -> PC c -> P (set_c c s)) ->
  fed PC m -> fed P (zoom get_c set_c m).
Proof.
  intros Hget Hset Hm s r s' HP. unfold zoom.
  destruct (m (get_c s)) as [r1 c] eqn:E. intros E'. inversion E'; subst.
  destruct (Hm _ _ _ (Hget _ HP) E) as [Hr HPC]. split; [exact Hr | auto].
Qed.

(** ** Mark arithmetic *)

Lemma wrap_small z : 0 <= z < 2 ^ 64 -> wrap z = z.
Proof. intros Hz. unfold wrap. apply Z.mod_small. exact Hz. Qed.

Lemma next_index_offset_range g io r : 0 < g -> 0 <= next_index_offset g io r < g.
Proof. intros Hg. unfold next_index_offset. apply Z.mod_pos_bound. exact Hg. Qed.

Lemma next_index_offset_zero g : 0 < g -> next_index_offset g 0 0 = 0.
Proof.
  intros Hg. unfold next_index_offset. rewrite Z.sub_0_r, Z.add_0_r, Z.mod_same by lia.
  rewrite Z.sub_0_r. apply Z.mod_same. lia.
Qed.

Lemma count_of_marks_nonneg r io g : 0 < g -> 0 <= count_of_marks_in_block r io g.
Proof.
  intros Hg. unfold count_of_marks_in_block.
  destruct (Z.ltb_spec io r); [|lia].
  apply Z.div_pos; lia.
Qed.

Lemma count_of_marks_le_rows r io g :
  0 < g -> 0 <= io -> 0 <= r -> count_of_marks_in_block r io g <= r.
Proof.
  intros Hg Hio Hr. unfold count_of_marks_in_block.
  destruct (Z.ltb_spec io r); [|lia].
  assert ((r - io + g - 1) / g < r + 1); [|lia].
  apply Z.div_lt_upper_bound; nia.
Qed.

Lemma count_of_marks_zero r io g : r <= io -> count_of_marks_in_block r io g = 0.
Proof. intros Hr. unfold count_of_marks_in_block. destruct (Z.ltb_spec io r); lia. Qed.

Lemma count_of_marks_step r io g :
  0 < g -> io < r ->
  count_of_marks_in_block r io g = 1 + count_of_marks_in_block r (io + g) g.
Proof.
  intros Hg Hlt. unfold count_of_marks_in_block.
  destruct (Z.ltb_spec io r); [|lia].
  destruct (Z.ltb_spec (io + g) r).
  - replace (r - io + g - 1) with (1 * g + (r - (io + g) + g - 1)) by lia.
    rewrite Z.div_add_l by lia. lia.
  - replace (r - io + g - 1) with (1 * g + (r - io - 1)) by lia.
    rewrite Z.div_add_l by lia. rewrite (Z.div_small (r - io - 1) g) by lia. lia.
Qed.

Lemma mark_rows_nil g io r : r <= io -> mark_rows g io r = [].
Proof. intros Hr. unfold mark_rows. rewrite count_of_marks_zero by exact Hr. reflexivity. Qed.

Lemma mark_rows_cons g io r :
  0 < g -> io < r -> mark_rows g io r = io :: mark_rows g (io + g) r.
Proof.
  intros Hg Hlt. unfold mark_rows.
  rewrite (count_of_marks_step r io g Hg Hlt).
  pose proof (count_of_marks_nonneg r (io + g) g Hg) as Hn.
  rewrite seqZ_cons by lia. simpl.
  f_equal; [lia|].
  replace (Z.pred (1 + count_of_marks_in_block r (io + g) g))
    with (count_of_marks_in_block r (io + g) g) by lia.
  replace (Z.succ 0) with (1 + 0) by lia.
  rewrite <- fmap_add_seqZ.
  rewrite <- list_fmap_compose. apply list_fmap_ext. intros ? k ?. simpl. lia.
Qed.

Lemma mark_rows_length g io r :
  0 < g -> Z.of_nat (length (mark_rows g io r)) = count_of_marks_in_block r io g.
Proof.
  intros Hg. unfold mark_rows. rewrite length_fmap, length_seqZ.
  pose proof (count_of_marks_nonneg r io g Hg). lia.
Qed.


Lemma total_marks_bounds g : 0 < g -> forall rs io,
  0 <= io -> Forall (fun r => 0 <= r) rs ->
  0 <= total_marks g io rs <= total_rows rs.
Proof.
  intros Hg. unfold total_rows. induction rs as [|r rs IH]; intros io Hio Hrs; simpl; [lia|].
  inversion Hrs; subst.
  pose proof (count_of_marks_nonneg r io g Hg).
  pose proof (count_of_marks_le_rows r io g Hg Hio ltac:(assumption)).
  pose proof (next_index_offset_range g io r Hg).
  specialize (IH (next_index_offset g io r) ltac:(lia) ltac:(assumption)). lia.
Qed.

Lemma total_marks_positive g : 0 < g -> forall rs,
  Forall (fun r => 0 <= r) rs -> 1 <= total_rows rs -> 1 <= total_marks g 0 rs.
Proof.
  intros Hg. unfold total_rows. induction rs as [|r rs IH]; intros Hrs Hsum; simpl in *; [lia|].
  inversion Hrs; subst.
  destruct (Z.eq_dec r 0) as [->|Hne].
  - rewrite next_index_offset_zero by exact Hg. rewrite count_of_marks_zero by lia.
    specialize (IH ltac:(assumption) ltac:(lia)). lia.
  - pose proof (next_index_offset_range g 0 r Hg).
    pose proof (total_marks_bounds g Hg rs (next_index_offset g 0 r) ltac:(lia) ltac:(assumption)).
    assert (1 <= count_of_marks_in_block r 0 g); [|lia].
    unfold count_of_marks_in_block. destruct (Z.ltb_spec 0 r); [|lia].
    apply Z.div_le_lower_bound; lia.
Qed.

(** ** Columns, blocks and the sort key *)

Lemma column_size_nonneg c : 0 <= column_size c.
Proof. induction c; simpl; lia. Qed.

Lemma block_rows_nonneg block : 0 <= block_rows block.
Proof. destruct block; simpl; [lia | apply column_size_nonneg]. Qed.

Lemma total_rows_nonneg blocks : 0 <= total_rows (map block_rows blocks).
Proof.
  unfold total_rows. induction blocks as [|b bs IH]; simpl; [lia|].
  pose proof (block_rows_nonneg b). lia.
Qed.

Lemma rows_nonneg (blocks : list (Block * option Permutation)) :
  Forall (fun r => 0 <= r) (map (fun bp : Block * option Permutation => block_rows bp.1) blocks).
Proof.
  induction blocks as [|[b p] bs IH]; simpl; constructor; [apply block_rows_nonneg | exact IH].
Qed.

Lemma select_length {A} (l : list A) perm l' : select l perm = Ok l' -> length l' = length l.
Proof.
  unfold select. destruct (Nat.ltb_spec (length perm) (length l)); [discriminate|].
  destruct (mapM _ _) as [x|] eqn:E; [|discriminate]. intros E'. inversion E'; subst.
  apply length_mapM in E. rewrite <- E, length_take. lia.
Qed.

Lemma select_fed {A} (l : list A) perm : ~ starved (select l perm).
Proof.
  unfold select. destruct (_ <? _)%nat; [intros []|]. destruct (mapM _ _); intros [].
Qed.

Lemma permute_size c : forall perm c', permute c perm = Ok c' -> column_size c' = column_size c.
Proof.
  induction c as [data|nested IHn null_map_ IHm|rows_]; intros perm c'; simpl.
  - destruct (select data perm) eqn:E; [|discriminate]. intros E'; inversion E'; subst. simpl.
    by rewrite (select_length _ _ _ E).
  - destruct (permute nested perm) eqn:En; [|discriminate].
    destruct (permute null_map_ perm); [|discriminate].
    intros E'; inversion E'; subst. simpl. eauto.
  - destruct (select rows_ perm) eqn:E; [|discriminate]. intros E'; inversion E'; subst. simpl.
    by rewrite (select_length _ _ _ E).
Qed.

Lemma permute_fed c : forall perm, ~ starved (permute c perm).
Proof.
  induction c as [data|nested IHn null_map_ IHm|rows_]; intros perm; simpl.
  - pose proof (select_fed data perm). destruct (select data perm); [intros [] | assumption].
  - specialize (IHn perm). specialize (IHm perm).
    destruct (permute nested perm); [|assumption].
    destruct (permute null_map_ perm); [intros [] | assumption].
  - pose proof (select_fed rows_ perm). destruct (select rows_ perm); [intros [] | assumption].
Qed.

Lemma getByName_name block n c : getByName block n = Ok c -> name c = n.
Proof.
  unfold getByName. destruct (find _ block) as [x|] eqn:E; [|discriminate].
  intros Ec. inversion Ec; subst. apply find_some in E as [_ E].
  by apply String.eqb_eq in E.
Qed.

Lemma getByName_elem block n c : getByName block n = Ok c -> c ∈ block.
Proof.
  unfold getByName. destruct (find _ block) as [x|] eqn:E; [|discriminate].
  intros Ec. inversion Ec; subst. apply find_some in E as [E _]. by apply list_elem_of_In.
Qed.

Lemma getByName_fed block n : ~ starved (getByName block n).
Proof. unfold getByName. destruct (find _ _); intros []. Qed.

Lemma getByPosition_elem block i c : getByPosition block i = Ok c -> c ∈ block.
Proof.
  unfold getByPosition. destruct (block !! Z.to_nat i) as [x|] eqn:E; [|discriminate].
  intros Ec. inversion Ec; subst. eapply list_elem_of_lookup_2. exact E.
Qed.

Lemma getByPosition_fed block i : ~ starved (getByPosition block i).
Proof. unfold getByPosition. destruct (_ !! _); intros []. Qed.

Lemma primary_column_walkable fuel g block perm d :
  Forall (fun c => walkable fuel g (column c)) block ->
  ~ starved (primary_column block perm d)
  /\ forall c, primary_column block perm d = Ok c -> walkable fuel g (column c).
Proof.
  intros Hblock. rewrite Forall_forall in Hblock. unfold primary_column.
  set (k := fun c : ColumnWithTypeAndName =>
              match perm with
              | Some p => res_bind (permute (column c) p) (fun col => Ok (with_column c col))
              | None => Ok c
              end).
  assert (forall r, (forall c, r = Ok c -> c ∈ block) -> ~ starved r ->
          ~ starved (res_bind r k)
          /\ forall c', res_bind r k = Ok c' -> walkable fuel g (column c')) as Hgen.
  { intros [c|f] Hc Hf; simpl; [|split; [exact Hf | discriminate]].
    specialize (Hc c eq_refl). unfold k. destruct perm as [p|].
    - pose proof (permute_fed (column c) p) as Hp.
      destruct (permute (column c) p) as [col|f] eqn:E; simpl; [|split; [exact Hp|discriminate]].
      split; [intros []|]. intros c' Ec'. inversion Ec'; subst. simpl.
      unfold walkable. rewrite (permute_size _ _ _ E). apply Hblock, Hc.
    - split; [intros []|]. intros c' Ec'. inversion Ec'; subst. apply Hblock, Hc. }
  destruct (nonempty (column_name d)).
  - apply Hgen; [apply getByName_elem | apply getByName_fed].
  - apply Hgen; [apply getByPosition_elem | apply getByPosition_fed].
Qed.

Lemma resolve_primary_columns_walkable fuel g block perm : forall descrs i pcs pos,
  Forall (fun c => walkable fuel g (column c)) block ->
  Forall (fun c => walkable fuel g (column c)) pcs ->
  ~ starved (resolve_primary_columns descrs block perm i pcs pos)
  /\ forall pcs' pos', resolve_primary_columns descrs block perm i pcs pos = Ok (pcs', pos') ->
       Forall (fun c => walkable fuel g (column c)) pcs'.
Proof.
  induction descrs as [|d descrs IH]; intros i pcs pos Hblock Hpcs; simpl.
  - split; [intros []|]. intros pcs' pos' E. inversion E; subst. exact Hpcs.
  - assert (~ starved (descr_name block d)) as Hn.
    { unfold descr_name. destruct (nonempty _); [intros []|].
      pose proof (getByPosition_fed block (column_number d)).
      destruct (getByPosition _ _); [intros [] | assumption]. }
    destruct (descr_name block d) as [n|f]; simpl; [|split; [exact Hn|discriminate]].
    destruct (pos !! n); [split; [intros [] | discriminate]|].
    destruct (primary_column_walkable fuel g block perm d Hblock) as [Hf Hw].
    destruct (primary_column block perm d) as [c|f]; simpl; [|split; [exact Hf|discriminate]].
    apply IH; [exact Hblock|]. apply Forall_app. split; [exact Hpcs|].
    constructor; [apply Hw; reflexivity | constructor].
Qed.

Lemma resolve_duplicate block perm n d post : forall pre i pcs (pos : gmap string Z),
  (forall a, a ∈ pre ->
     is_ok (descr_name block a) = true /\ is_ok (primary_column block perm a) = true) ->
  descr_name block d = Ok n ->
  (exists d', d' ∈ pre /\ descr_name block d' = Ok n) \/ is_Some (pos !! n) ->
  resolve_primary_columns (pre ++ d :: post) block perm i pcs pos
  = Fail (Exception BAD_ARGUMENTS "Primary key contains duplicate columns").
Proof.
  induction pre as [|a pre IH]; intros i pcs pos Hpre Hd Hseen.
  - destruct Hseen as [(d' & Hin & _)|[x Hx]]; [by apply elem_of_nil in Hin|].
    simpl. rewrite Hd. simpl. rewrite Hx. reflexivity.
  - simpl. destruct (Hpre a ltac:(left)) as [Hname Hcol].
    destruct (descr_name block a) as [m|] eqn:Em; [|discriminate]. simpl.
    destruct (pos !! m) eqn:Epos; [reflexivity|].
    destruct (primary_column block perm a) as [c|] eqn:Ec; [|discriminate]. simpl.
    apply IH; [intros x Hx; apply Hpre; by right | exact Hd |].
    destruct Hseen as [(d' & Hin & Hn)|Hs].
    + apply elem_of_cons in Hin as [->|Hin].
      * right. rewrite Hn in Em. inversion Em; subst. rewrite lookup_insert_eq. eauto.
      * left. eauto.
    + right. destruct (decide (m = n)) as [->|Hne].
      * rewrite lookup_insert_eq. eauto.
      * rewrite lookup_insert_ne by exact Hne. exact Hs.
Qed.

(** ** Paths and the file system *)

Lemma prefix_append (p s : string) : String.prefix p (p +:+ s) = true.
Proof.
  induction p as [|a p IH]; [by destruct s|].
  change (String a p +:+ s) with (String a (p +:+ s)). simpl.
  destruct (Ascii.ascii_dec a a); [exact IH | contradiction].
Qed.

Lemma append_empty_r (p : string) : p +:+ "" = p.
Proof.
  induction p as [|a p IH]; [reflexivity|].
  change (String a p +:+ "") with (String a (p +:+ "")). by rewrite IH.
Qed.

Lemma prefix_refl (p : string) : String.prefix p p = true.
Proof. rewrite <- (append_empty_r p) at 2. apply prefix_append. Qed.

Lemma append_inj_r (p s t : string) : p +:+ s = p +:+ t -> s = t.
Proof.
  induction p as [|a p IH]; intros E; [exact E|].
  change (String a (p +:+ s) = String a (p +:+ t)) in E. inversion E; auto.
Qed.

Lemma remove_recursive_directory path fs :
  path ∉ directories (remove_recursive path fs).
Proof.
  simpl. rewrite elem_of_filter. intros [Hout _]. unfold outside in Hout.
  rewrite prefix_refl in Hout. discriminate.
Qed.

Lemma remove_recursive_files path fs p :
  String.prefix path p = true -> files (remove_recursive path fs) !! p = None.
Proof.
  intros Hp. simpl. apply map_lookup_filter_None. right. intros x _ Hout.
  unfold outside in Hout. simpl in Hout. congruence.
Qed.

Lemma remove_recursive_erases path fs :
  ~ exists_on_disk path (remove_recursive path fs)
  /\ forall name_, ~ exists_on_disk (path +:+ name_) (remove_recursive path fs).
Proof.
  split.
  - intros [Hd|Hf]; [exact (remove_recursive_directory _ _ Hd)|].
    rewrite remove_recursive_files in Hf by apply prefix_refl. by destruct Hf.
  - intros name_ [Hd|Hf].
    + simpl in Hd. apply elem_of_filter in Hd as [Hout _]. unfold outside in Hout.
      rewrite prefix_append in Hout. discriminate.
    + rewrite remove_recursive_files in Hf by apply prefix_append. by destruct Hf.
Qed.

(** ** The stream of a column *)

Section StreamOfColumn.
Context `{Collaborators}.

Lemma marks_compressed_next s : marks (compressed_next s) = marks s.
Proof. unfold compressed_next. destruct (compressed_buffer s); reflexivity. Qed.

Lemma marks_compressed_nextIfAtEnd s : marks (compressed_nextIfAtEnd s) = marks s.
Proof.
  unfold compressed_nextIfAtEnd.
  destruct (compressed_offset s =? buffer_capacity); [apply marks_compressed_next | reflexivity].
Qed.

Lemma marks_compressed_write bs s : marks (compressed_write bs s) = marks s.
Proof.
  revert s. induction bs as [|b bs IH]; intros s; simpl; [reflexivity|].
  rewrite IH. simpl. apply marks_compressed_nextIfAtEnd.
Qed.

Lemma write_mark_at_mark m s :
  write_mark m s =
  marks_write (compressed_offset (at_mark m s)) (marks_write (plain_count (at_mark m s)) (at_mark m s)).
Proof. reflexivity. Qed.

Lemma marks_write_mark m s :
  marks (write_mark m s) =
  marks s ++ [wrap (plain_count (at_mark m s)); wrap (compressed_offset (at_mark m s))].
Proof.
  rewrite write_mark_at_mark. simpl. rewrite <- app_assoc. simpl.
  f_equal. unfold at_mark. destruct (m <=? compressed_offset s); [apply marks_compressed_next | reflexivity].
Qed.

Lemma compressed_offset_nonempty s : compressed_buffer s <> [] <-> 0 < compressed_offset s.
Proof.
  unfold compressed_offset. destruct (compressed_buffer s); simpl; split; (done || lia).
Qed.

Lemma compressed_buffer_next s : compressed_buffer (compressed_next s) = [].
Proof. unfold compressed_next. destruct (compressed_buffer s) eqn:E; [exact E|reflexivity]. Qed.

Lemma compressed_count_next s : compressed_count (compressed_next s) = compressed_count s.
Proof.
  unfold compressed_next, compressed_count, compressed_offset.
  destruct (compressed_buffer s) eqn:E; [rewrite E; reflexivity|]. simpl.
  rewrite length_app. simpl. lia.
Qed.

Lemma compressed_count_nextIfAtEnd s :
  compressed_count (compressed_nextIfAtEnd s) = compressed_count s.
Proof.
  unfold compressed_nextIfAtEnd. destruct (_ =? _); [apply compressed_count_next|reflexivity].
Qed.

Lemma compressed_count_write bs : forall s,
  compressed_count (compressed_write bs s) = compressed_count s + Z.of_nat (length bs).
Proof.
  induction bs as [|b bs IH]; intros s; [simpl; lia|].
  cbn [compressed_write]. cbn zeta. rewrite IH.
  pose proof (compressed_count_nextIfAtEnd s) as Hn.
  unfold compressed_count, compressed_offset in *. cbn [compressed_closed compressed_buffer set_compressed].
  rewrite length_app. cbn [length]. lia.
Qed.

Lemma compressed_count_write_mark m s : compressed_count (write_mark m s) = compressed_count s.
Proof.
  unfold write_mark. destruct (m <=? compressed_offset s); [|reflexivity].
  exact (compressed_count_next s).
Qed.





End StreamOfColumn.

(** ** The granularity loop *)

Section GranularityLoop.
Context `{Collaborators}.

Lemma marks_granule_iteration ser m s cursor limit with_mark :
  marks (granule_iteration ser m s (cursor, limit, with_mark)) =
  marks s ++ (if with_mark
              then [wrap (plain_count (at_mark m s)); wrap (compressed_offset (at_mark m s))]
              else []).
Proof.
  unfold granule_iteration.
  rewrite marks_compressed_nextIfAtEnd, marks_compressed_write.
  destruct with_mark; [apply marks_write_mark | by rewrite app_nil_r].
Qed.

Lemma compressed_count_iteration ser m s c l b :
  compressed_count (granule_iteration ser m s (c, l, b))
  = compressed_count s + Z.of_nat (length (ser c l)).
Proof.
  unfold granule_iteration. rewrite compressed_count_nextIfAtEnd, compressed_count_write.
  destruct b; [rewrite compressed_count_write_mark|]; reflexivity.
Qed.



Lemma marks_foldl_iterations ser m its : forall s,
  length (marks (foldl (granule_iteration ser m) s its))
  = (length (marks s) + 2 * length (filter (fun it : Z * Z * bool => it.2 = true) its))%nat.
Proof.
  induction its as [|[[c l] b] its IH]; intros s; [simpl; lia|].
  cbn [foldl]. rewrite IH, marks_granule_iteration, length_app.
  rewrite filter_cons. destruct b.
  - rewrite decide_True by done. simpl. lia.
  - rewrite decide_False by done. simpl. lia.
Qed.

(** The null-map loop hands the whole map to the stream in every iteration:
    the stream receives as many copies of it as the loop has iterations. *)
Lemma null_map_bytes (whole : list Byte.byte) m its : forall s,
  compressed_count (foldl (granule_iteration (fun _ _ => whole) m) s its)
  = compressed_count s + Z.of_nat (length its) * Z.of_nat (length whole).
Proof.
  induction its as [|[[c l] b] its IH]; intros s; [simpl; lia|].
  cbn [foldl]. rewrite IH, compressed_count_iteration. simpl length. lia.
Qed.

Lemma write_granules_done fuel ser g io m size p s :
  size <= p -> write_granules fuel ser g io m size p s = Ok s.
Proof.
  intros Hp. destruct fuel; simpl; destruct (Z.ltb_spec p size); (lia || reflexivity).
Qed.

Lemma write_granules_step fuel ser g io m size p s :
  p < size ->
  write_granules (S fuel) ser g io m size p s =
  let first := (p =? 0) && negb (io =? 0) in
  write_granules fuel ser g io m size
    (wrap (p + (if first then io else g)))
    (granule_iteration ser m s (p, (if first then io else g), negb first)).
Proof.
  intros Hp. simpl. destruct (Z.ltb_spec p size); [|lia].
  destruct ((p =? 0) && negb (io =? 0)); reflexivity.
Qed.

Lemma write_granules_marked ser g io m size :
  0 < g -> size + g < 2 ^ 64 ->
  forall n p s fuel,
    0 <= p -> (p <> 0 \/ io = 0) ->
    length (mark_rows g p size) = n -> (n <= fuel)%nat ->
    write_granules fuel ser g io m size p s =
    Ok (foldl (granule_iteration ser m) s (map (fun i => (i, g, true)) (mark_rows g p size))).
Proof.
  intros Hg Hsize. induction n as [|n IH]; intros p s fuel Hp Hfirst Hlen Hfuel.
  - destruct (Z.lt_ge_cases p size) as [Hlt|Hge].
    + rewrite mark_rows_cons in Hlen by lia. discriminate.
    + rewrite mark_rows_nil by lia. apply write_granules_done. lia.
  - destruct (Z.lt_ge_cases p size) as [Hlt|Hge].
    2:{ rewrite mark_rows_nil in Hlen by lia. discriminate. }
    rewrite mark_rows_cons in Hlen |- * by lia. simpl in Hlen.
    destruct fuel as [|fuel]; [lia|].
    rewrite write_granules_step by lia.
    assert ((p =? 0) && negb (io =? 0) = false) as ->.
    { destruct Hfirst as [Hne| ->]; [|by rewrite andb_false_r].
      destruct (Z.eqb_spec p 0); [lia|reflexivity]. }
    cbn zeta. simpl negb. rewrite wrap_small by lia.
    rewrite (IH (p + g)); [reflexivity|lia|lia|lia|lia].
Qed.

Lemma write_granules_iterations ser g io m size s fuel :
  0 < g -> 0 <= io < 2 ^ 64 -> 0 < size -> size + g < 2 ^ 64 ->
  (length (granule_iterations g io size) <= fuel)%nat ->
  write_granules fuel ser g io m size 0 s =
  Ok (foldl (granule_iteration ser m) s (granule_iterations g io size)).
Proof.
  intros Hg Hio Hsize Hbound Hfuel. unfold granule_iterations in *.
  destruct (Z.eqb_spec io 0) as [->|Hne].
  - simpl in *. rewrite length_fmap in Hfuel.
    apply (write_granules_marked ser g 0 m size Hg Hbound (length (mark_rows g 0 size)));
      [lia | by right | reflexivity | exact Hfuel].
  - simpl in Hfuel. rewrite length_fmap in Hfuel. destruct fuel as [|fuel]; [lia|].
    rewrite write_granules_step by lia.
    assert ((0 =? 0) && negb (io =? 0) = true) as ->.
    { destruct (Z.eqb_spec io 0); [lia|reflexivity]. }
    cbn zeta. simpl negb. rewrite Z.add_0_l, wrap_small by lia.
    simpl app. simpl foldl.
    apply (write_granules_marked ser g io m size Hg Hbound (length (mark_rows g io size)));
      [lia | by left | reflexivity | lia].
Qed.

Lemma write_granules_marked_ok ser g io m size :
  0 < g -> size + g < 2 ^ 64 ->
  forall fuel p s s',
    0 <= p -> (p <> 0 \/ io = 0) ->
    write_granules fuel ser g io m size p s = Ok s' ->
    s' = foldl (granule_iteration ser m) s (map (fun i => (i, g, true)) (mark_rows g p size)).
Proof.
  intros Hg Hbound. induction fuel as [|fuel IH]; intros p s s' Hp Hfirst E.
  - simpl in E. destruct (Z.ltb_spec p size); [discriminate|].
    inversion E; subst. by rewrite mark_rows_nil by lia.
  - destruct (Z.lt_ge_cases p size) as [Hlt|Hge].
    2:{ rewrite write_granules_done in E by lia. inversion E; subst.
        by rewrite mark_rows_nil by lia. }
    rewrite write_granules_step in E by lia.
    assert ((p =? 0) && negb (io =? 0) = false) as Hf.
    { destruct Hfirst as [Hne| ->]; [|by rewrite andb_false_r].
      destruct (Z.eqb_spec p 0); [lia|reflexivity]. }
    rewrite Hf in E. cbn zeta in E. simpl negb in E. rewrite wrap_small in E by lia.
    apply IH in E; [|lia|lia]. rewrite mark_rows_cons by lia. exact E.
Qed.

Lemma write_granules_ok ser g io m size s s' fuel :
  0 < g -> 0 <= io < 2 ^ 64 -> 0 < size -> size + g < 2 ^ 64 ->
  write_granules fuel ser g io m size 0 s = Ok s' ->
  s' = foldl (granule_iteration ser m) s (granule_iterations g io size).
Proof.
  intros Hg Hio Hsize Hbound E. unfold granule_iterations.
  destruct (Z.eqb_spec io 0) as [->|Hne].
  - simpl. eapply write_granules_marked_ok in E; eauto; lia.
  - destruct fuel as [|fuel]; [simpl in E; destruct (Z.ltb_spec 0 size); [discriminate|lia]|].
    rewrite write_granules_step in E by lia.
    assert ((0 =? 0) && negb (io =? 0) = true) as Hf.
    { destruct (Z.eqb_spec io 0); [lia|reflexivity]. }
    rewrite Hf in E. cbn zeta in E. simpl negb in E. rewrite Z.add_0_l, wrap_small in E by lia.
    eapply write_granules_marked_ok in E; eauto; lia.
Qed.

Lemma write_granules_marks_count ser g io m size s s' fuel :
  0 < g -> 0 <= io < 2 ^ 64 -> 0 <= size -> size + g < 2 ^ 64 ->
  write_granules fuel ser g io m size 0 s = Ok s' ->
  Z.of_nat (length (marks s')) = Z.of_nat (length (marks s)) + 2 * count_of_marks_in_block size io g.
Proof.
  intros Hg Hio Hsize Hbound E.
  destruct (Z.eq_dec size 0) as [->|Hne].
  - rewrite write_granules_done in E by lia. inversion E; subst.
    rewrite count_of_marks_zero by lia. lia.
  - apply write_granules_ok in E; try lia. subst s'.
    rewrite marks_foldl_iterations. unfold granule_iterations.
    rewrite filter_app.
    assert (filter (fun it : Z * Z * bool => it.2 = true) (if io =? 0 then [] else [(0, io, false)]) = []) as ->.
    { destruct (io =? 0); [reflexivity|]. rewrite filter_cons.
      rewrite decide_False by done. reflexivity. }
    simpl app.
    assert (forall l : list Z, filter (fun it : Z * Z * bool => it.2 = true) (map (fun i => (i, g, true)) l)
             = map (fun i => (i, g, true)) l) as ->.
    { induction l as [|x l IH]; [reflexivity|]. cbn [map]. rewrite filter_cons.
      rewrite decide_True by done. by rewrite IH. }
    rewrite length_map. pose proof (mark_rows_length g io size Hg). lia.
Qed.

Lemma granule_iterations_length g io size :
  0 < g -> 0 <= io -> 0 <= size ->
  Z.of_nat (length (granule_iterations g io size)) <= 1 + size.
Proof.
  intros Hg Hio Hsize. unfold granule_iterations. rewrite length_app, length_map.
  pose proof (mark_rows_length g io size Hg).
  pose proof (count_of_marks_le_rows size io g Hg Hio Hsize).
  destruct (io =? 0); simpl length; lia.
Qed.

(** With fuel above its row count the loop returns. *)
Lemma write_granules_fed fuel ser g io m size s :
  0 < g -> 0 <= io < g -> 0 <= size -> size + g < 2 ^ 64 -> size < Z.of_nat fuel ->
  exists s', write_granules fuel ser g io m size 0 s = Ok s'.
Proof.
  intros Hg Hio Hsize Hbound Hfuel. destruct (Z.eq_dec size 0) as [->|Hne].
  - exists s. apply write_granules_done. lia.
  - eexists. apply write_granules_iterations; try lia.
    pose proof (granule_iterations_length g io size Hg ltac:(lia) Hsize). lia.
Qed.

End GranularityLoop.

(** ** What the operations leave alone *)

#[global] Instance same_settings_refl : Reflexive same_settings.
Proof. intros b. split; reflexivity. Qed.

#[global] Instance same_settings_trans : Transitive same_settings.
Proof.
  intros a b c [] []. split; etransitivity; eassumption.
Qed.

#[global] Instance same_place_refl : Reflexive same_place.
Proof. intros w. split; reflexivity. Qed.

#[global] Instance same_place_trans : Transitive same_place.
Proof. intros a b c [] []. split; etransitivity; eassumption. Qed.

#[global] Instance same_marks_refl : Reflexive same_marks.
Proof. intros w. split; reflexivity. Qed.

#[global] Instance same_marks_trans : Transitive same_marks.
Proof. intros a b c [] []. split; etransitivity; eassumption. Qed.

#[global] Instance same_part_refl : Reflexive same_part.
Proof. intros w. split; reflexivity. Qed.

#[global] Instance same_part_trans : Transitive same_part.
Proof. intros a b c [] []. split; etransitivity; eassumption. Qed.

Lemma same_marks_part w w' : same_marks w w' -> same_part w w'.
Proof. intros []. split; congruence || assumption. Qed.

#[global] Instance only_settings_refl : Reflexive only_settings.
Proof. intros w. unfold only_settings. reflexivity. Qed.

#[global] Instance only_settings_trans : Transitive only_settings.
Proof. intros a b c. unfold only_settings. apply transitivity. Qed.

#[global] Instance same_but_streams_refl : Reflexive same_but_streams.
Proof. intros w. split; reflexivity. Qed.

#[global] Instance same_but_streams_trans : Transitive same_but_streams.
Proof. intros a b c [] []. split; etransitivity; eassumption. Qed.

Section StreamTables.
Context `{Collaborators}.

Lemma put_column_stream_settings key s : preserves same_settings (put_column_stream key s).
Proof. apply preserves_modify. intros b. split; reflexivity. Qed.

Lemma put_null_stream_settings key s : preserves same_settings (put_null_stream key s).
Proof. apply preserves_modify. intros b. split; reflexivity. Qed.

Lemma addNullStream_settings path n e f : preserves same_settings (addNullStream path n e f).
Proof.
  unfold addNullStream. apply preserves_bind; try apply _.
  - apply preserves_get. apply _.
  - intros w. apply put_null_stream_settings.
Qed.

Lemma addStream_settings path n t e l f : preserves same_settings (addStream path n t e l f).
Proof.
  revert l f. induction t as [p|t IH|t IH]; intros l f; simpl.
  - apply preserves_bind; try apply _; [apply preserves_get; apply _|].
    intros w. apply put_column_stream_settings.
  - apply preserves_bind; try apply _; [apply addNullStream_settings|]. intros _. apply IH.
  - apply preserves_bind; try apply _; [apply preserves_get; apply _|]. intros w.
    apply preserves_bind; try apply _; [apply put_column_stream_settings|]. intros _. apply IH.
Qed.

Lemma addStream_total path n t e l f : total (addStream path n t e l f).
Proof.
  revert l f. induction t as [p|t IH|t IH]; intros l f; simpl.
  - apply total_bind; [apply total_get | intros w; apply total_modify].
  - apply total_bind; [|intros _; apply IH].
    unfold addNullStream. apply total_bind; [apply total_get | intros w; apply total_modify].
  - apply total_bind; [apply total_get|]. intros w.
    apply total_bind; [apply total_modify | intros _; apply IH].
Qed.

Lemma write_column_stream_settings fuel key ser size :
  preserves same_settings (write_column_stream fuel key ser size).
Proof.
  intros b r b'. unfold write_column_stream.
  destruct (column_streams b !! key); [|intros E; inversion E; reflexivity].
  destruct (write_granules _ _ _ _ _ _ _ _); intros E; inversion E; subst; [split|]; reflexivity.
Qed.

Lemma write_null_stream_settings fuel key ser size :
  preserves same_settings (write_null_stream fuel key ser size).
Proof.
  intros b r b'. unfold write_null_stream.
  destruct (null_streams b !! key); [|intros E; inversion E; reflexivity].
  destruct (write_granules _ _ _ _ _ _ _ _); intros E; inversion E; subst; [split|]; reflexivity.
Qed.



Lemma writeData_settings fuel n t c oc l : preserves same_settings (writeData fuel n t c oc l).
Proof.
  revert c oc l. induction t as [p|t IH|t IH]; intros c oc l; simpl.
  - apply preserves_bind; try apply _; [apply write_column_stream_settings|].
    intros _. apply preserves_ret, _.
  - destruct c; try (apply preserves_undefined, _).
    apply preserves_bind; try apply _; [apply write_null_stream_settings|]. intros _. apply IH.
  - apply preserves_bind; try apply _.
    + destruct (decide _); [apply preserves_ret, _|].
      apply preserves_bind; try apply _; [apply write_column_stream_settings|].
      intros _. apply preserves_ret, _.
    + intros oc'. apply preserves_bind; try apply _; [apply write_column_stream_settings|].
      intros _. apply preserves_ret, _.
Qed.

Lemma write_columns_settings fuel cols block perm pcs pos oc :
  preserves same_settings (write_columns fuel cols block perm pcs pos oc).
Proof.
  revert oc. induction cols as [|it cols IH]; intros oc; simpl.
  - apply preserves_ret, _.
  - apply preserves_bind; try apply _; [apply preserves_lift_res, _|]. intros c.
    apply preserves_bind; try apply _.
    + destruct perm; [|apply preserves_ret, _].
      destruct (pos !! nt_name it); [|apply preserves_lift_res, _].
      destruct (pcs !! _); [apply preserves_ret, _ | apply preserves_undefined, _].
    + intros d. apply preserves_bind; try apply _; [apply writeData_settings|]. intros oc'. apply IH.
Qed.

Lemma write_block_columns_settings fuel cols oc :
  preserves same_settings (write_block_columns fuel cols oc).
Proof.
  revert oc. induction cols as [|c cols IH]; intros oc; simpl.
  - apply preserves_ret, _.
  - apply preserves_bind; try apply _; [apply writeData_settings|]. intros oc'. apply IH.
Qed.

Lemma same_settings_place b b' : same_settings b b' -> same_place b b'.
Proof. intros []. split; assumption. Qed.


Lemma within_granule_settings g b b' :
  same_settings b b' -> within_granule g b -> within_granule g b'.
Proof. intros [Hs Hio _ _ _] [Hg Hi]. split; congruence. Qed.

Lemma in_base_part {A} (m : M IMergedBlockOutputStream A) :
  preserves same_place m -> preserves same_part (in_base m).
Proof.
  apply preserves_zoom. intros w b [Hs Hd]. split; simpl; auto; reflexivity.
Qed.

Lemma in_base_but_streams {A} (m : M IMergedBlockOutputStream A) :
  preserves same_settings m -> preserves same_but_streams (in_base m).
Proof. apply preserves_zoom. intros w b Hs. split; simpl; auto. Qed.

Lemma in_only_base_settings {A} (m : M IMergedBlockOutputStream A) :
  preserves same_settings m -> preserves only_settings (in_only_base m).
Proof. apply preserves_zoom. intros w b Hs. exact Hs. Qed.

End StreamTables.

(** ** The index loop and the carried offset *)

Section IndexLoop.
Context `{Collaborators}.

Lemma advance_index_offset_run rows_ b :
  let g := index_granularity (storage b) in
  0 < g -> 0 <= index_offset b <= g -> 0 <= rows_ -> g + rows_ < 2 ^ 64 ->
  advance_index_offset rows_ b
  = (Ok tt, set_index_offset (next_index_offset g (index_offset b) rows_) b).
Proof.
  intros g Hg Hio Hrows Hbound. unfold advance_index_offset, bind, get, size_mod.
  fold g. destruct (Z.eqb_spec g 0); [lia|]. unfold ret, modify.
  destruct (Z.eqb_spec g 0); [lia|].
  rewrite (wrap_small (g - index_offset b)) by lia.
  rewrite (wrap_small (g - index_offset b + rows_)) by lia.
  pose proof (Z.mod_pos_bound (g - index_offset b + rows_) g Hg).
  rewrite wrap_small by lia. reflexivity.
Qed.

Lemma advance_index_offset_place rows_ : preserves same_place (advance_index_offset rows_).
Proof.
  unfold advance_index_offset.
  apply preserves_bind; try apply _; [apply preserves_get, _|]. intros w.
  apply preserves_bind; try apply _.
  { unfold size_mod. destruct (_ =? 0); [apply preserves_undefined, _ | apply preserves_ret, _]. }
  intros x. apply preserves_bind; try apply _.
  { unfold size_mod. destruct (_ =? 0); [apply preserves_undefined, _ | apply preserves_ret, _]. }
  intros y. apply preserves_modify. intros s. split; reflexivity.
Qed.

(** With zero granularity no write returns: the offset update divides by it. *)
Lemma advance_index_offset_zero rows_ b :
  index_granularity (storage b) = 0 ->
  advance_index_offset rows_ b = (Fail (UndefinedBehaviour DivisionByZero), b).
Proof. intros Hg. unfold advance_index_offset, bind, get, size_mod. rewrite Hg. reflexivity. Qed.

Lemma advance_index_offset_fed g rows_ : 0 < g ->
  fed (within_granule g) (advance_index_offset rows_).
Proof.
  intros Hg b r b' [Hgb Hio]. unfold advance_index_offset, bind, get, size_mod.
  rewrite Hgb. destruct (Z.eqb_spec g 0); [lia|]. unfold ret, modify.
  destruct (Z.eqb_spec g 0); [lia|]. intros E. inversion E as [[Hr Hb]].
  split; [intros []|]. split; [exact Hgb|]. simpl. apply Z.mod_pos_bound. exact Hg.
Qed.

Lemma write_index_entry_marks i j pc : preserves same_marks (write_index_entry i j pc).
Proof.
  intros w r w'. unfold write_index_entry, bind, get, modify, undefined.
  destruct (index_columns w !! j); [|intros E; inversion E; reflexivity].
  destruct (column_row _ _); [|intros E; inversion E; reflexivity].
  simpl. destruct (index_stream w) eqn:Ei; intros E; inversion E; subst; clear E.
  - split; try reflexivity. simpl. rewrite Ei. split; eauto.
  - split; reflexivity.
Qed.

Lemma write_index_entries_marks i pcs : forall j, preserves same_marks (write_index_entries i j pcs).
Proof.
  induction pcs as [|pc pcs IH]; intros j; simpl.
  - apply preserves_ret, _.
  - apply preserves_bind; try apply _; [apply write_index_entry_marks|]. intros _. apply IH.
Qed.

Lemma write_index_entry_fed i j pc w r w' :
  write_index_entry i j pc w = (r, w') -> ~ starved r.
Proof.
  unfold write_index_entry, bind, get, modify, undefined.
  destruct (index_columns w !! j); [|intros E; inversion E; intros []].
  destruct (column_row _ _); [|intros E; inversion E; intros []].
  simpl. destruct (index_stream w); intros E; inversion E; intros [].
Qed.

Lemma write_index_entries_fed i pcs : forall j w r w',
  write_index_entries i j pcs w = (r, w') -> ~ starved r.
Proof.
  induction pcs as [|pc pcs IH]; intros j w r w'; simpl.
  - intros E. inversion E. intros [].
  - unfold bind. destruct (write_index_entry i j pc w) as [[[]|f] w1] eqn:E1.
    + apply IH.
    + intros E. inversion E; subst. exact (write_index_entry_fed _ _ _ _ _ _ E1).
Qed.

Lemma write_index_done fuel g rows_ pcs i w :
  rows_ <= i -> write_index fuel g rows_ pcs i w = (Ok tt, w).
Proof.
  intros Hi. destruct fuel; simpl; destruct (Z.ltb_spec i rows_); (lia || reflexivity).
Qed.

(** The index loop adds one mark per granule boundary of the block. *)
Lemma write_index_marks fuel g rows_ pcs :
  0 < g -> rows_ + g < 2 ^ 64 ->
  forall i w w',
    0 <= i -> 0 <= marks_count w ->
    marks_count w + count_of_marks_in_block rows_ i g < 2 ^ 64 ->
    write_index fuel g rows_ pcs i w = (Ok tt, w') ->
    base w' = base w /\ marks_count w' = marks_count w + count_of_marks_in_block rows_ i g.
Proof.
  intros Hg Hbound. induction fuel as [|fuel IH]; intros i w w' Hi Hm Hmb; simpl.
  - destruct (Z.ltb_spec i rows_); [discriminate|].
    intros E; inversion E; subst. rewrite count_of_marks_zero by lia. split; [done|lia].
  - destruct (Z.ltb_spec i rows_) as [Hlt|Hge].
    2:{ intros E; inversion E; subst. rewrite count_of_marks_zero by lia. split; [done|lia]. }
    rewrite count_of_marks_step in Hmb |- * by lia.
    pose proof (count_of_marks_nonneg rows_ (i + g) g Hg) as Hc.
    intros E. apply bind_ok in E as (w0 & s0 & E0 & E). inversion E0; subst; clear E0.
    apply bind_ok in E as ([] & w1 & E1 & E).
    assert (same_marks s0 w1) as [Hb1 Hm1 _ _ _].
    { destruct (negb _); [exact (write_index_entries_marks _ _ _ _ _ _ E1)|].
      inversion E1; subst; reflexivity. }
    apply bind_ok in E as ([] & w2 & E2 & E). inversion E2; subst; clear E2.
    rewrite (wrap_small (i + g)) in E by lia.
    apply IH in E; simpl; rewrite ?Hm1, ?wrap_small by lia; try lia.
    destruct E as [Eb Em]. simpl in Eb, Em. rewrite Hm1, wrap_small in Em by lia.
    split; [congruence|lia].
Qed.

Lemma write_index_part fuel g rows_ pcs :
  forall i, preserves same_part (write_index fuel g rows_ pcs i).
Proof.
  induction fuel as [|fuel IH]; intros i; simpl.
  - destruct (i <? rows_); [apply preserves_fail, _ | apply preserves_ret, _].
  - destruct (i <? rows_); [|apply preserves_ret, _].
    apply preserves_bind; try apply _; [apply preserves_get, _|]. intros w.
    apply preserves_bind; try apply _.
    + destruct (negb _); [|apply preserves_ret, _].
      eapply preserves_weaken; [apply same_marks_part | apply write_index_entries_marks].
    + intros _. apply preserves_bind; try apply _; [|intros _; apply IH].
      apply preserves_modify. intros s. split; reflexivity.
Qed.

Lemma write_index_unsorted fuel g rows_ pcs : forall i w w',
  is_unsorted (merging_mode (storage (base w))) = true ->
  write_index fuel g rows_ pcs i w = (Ok tt, w') ->
  index_stream w' = index_stream w /\ index_columns w' = index_columns w.
Proof.
  induction fuel as [|fuel IH]; intros i w w' Hmode; simpl.
  - destruct (i <? rows_); [discriminate|]. intros E; inversion E; done.
  - destruct (i <? rows_); [|intros E; inversion E; done].
    unfold bind at 1. unfold get at 1. rewrite Hmode. simpl.
    unfold bind at 1. unfold ret at 1.
    unfold bind at 1. unfold modify at 1.
    intros E. apply IH in E; [|exact Hmode]. exact E.
Qed.

Lemma write_index_fed g rows_ pcs : 0 < g -> rows_ + g < 2 ^ 64 ->
  forall fuel i w r w',
    0 <= i -> count_of_marks_in_block rows_ i g <= Z.of_nat fuel ->
    write_index fuel g rows_ pcs i w = (r, w') ->
    ~ starved r /\ base w' = base w.
Proof.
  intros Hg Hbound. induction fuel as [|fuel IH]; intros i w r w' Hi Hfuel; simpl.
  - destruct (Z.ltb_spec i rows_) as [Hlt|Hge].
    + rewrite count_of_marks_step in Hfuel by lia.
      pose proof (count_of_marks_nonneg rows_ (i + g) g Hg). lia.
    + intros E. inversion E; subst. split; [intros [] | reflexivity].
  - destruct (Z.ltb_spec i rows_) as [Hlt|Hge].
    2:{ intros E. inversion E; subst. split; [intros [] | reflexivity]. }
    rewrite count_of_marks_step in Hfuel by lia.
    unfold bind at 1. unfold get at 1.
    unfold bind at 1.
    match goal with |- context [match ?entries w with _ => _ end] =>
      destruct (entries w) as [r1 w1] eqn:E1 end.
    assert (same_marks w w1 /\ ~ starved r1) as [[Hb1 _ _ _ _] Hr1].
    { destruct (negb _).
      - split; [exact (write_index_entries_marks _ _ _ _ _ _ E1)|].
        exact (write_index_entries_fed _ _ _ _ _ _ E1).
      - inversion E1; subst. split; [reflexivity | intros []]. }
    destruct r1 as [[]|f].
    + unfold bind at 1. unfold modify at 1. rewrite (wrap_small (i + g)) by lia.
      intros E. apply IH in E; [|lia|lia]. destruct E as [Hr Hb]. split; [exact Hr|].
      rewrite Hb. simpl. exact Hb1.
    + intros E. inversion E; subst. split; [exact Hr1 | exact Hb1].
Qed.

End IndexLoop.

(** ** One write *)

Section OneWrite.
Context `{Collaborators}.

Lemma writeImpl_part fuel block perm : preserves same_part (writeImpl fuel block perm).
Proof.
  unfold writeImpl.
  apply preserves_bind; try apply _; [apply preserves_get, _|]. intros w.
  apply preserves_bind; try apply _; [apply preserves_lift_res, _|]. intros [pcs pos].
  apply preserves_bind; try apply _.
  { destruct (index_columns w); [|apply preserves_ret, _].
    apply preserves_modify. intros s. split; reflexivity. }
  intros _. apply preserves_bind; try apply _.
  { apply in_base_part. eapply preserves_weaken; [apply same_settings_place|].
    apply write_columns_settings. }
  intros _. apply preserves_bind; try apply _; [apply write_index_part|].
  intros _. apply in_base_part, advance_index_offset_place.
Qed.

(** One successful [write]: the carried offset and the marks counter. *)
Lemma writeImpl_marks fuel block perm w w' :
  let g := index_granularity (storage (base w)) in
  let io := index_offset (base w) in
  let rows_ := block_rows block in
  0 < g -> 0 <= io < g -> 0 <= marks_count w ->
  marks_count w + rows_ + g < 2 ^ 64 ->
  writeImpl fuel block perm w = (Ok tt, w') ->
  index_offset (base w') = next_index_offset g io rows_
  /\ marks_count w' = marks_count w + count_of_marks_in_block rows_ io g.
Proof.
  intros g io rows_ Hg Hio Hm Hbound E. unfold writeImpl in E.
  pose proof (block_rows_nonneg block) as Hrows. fold rows_ in Hrows, E.
  apply bind_ok in E as (w0 & s0 & E0 & E). inversion E0; subst; clear E0.
  apply bind_ok in E as ([pcs pos] & s1 & E1 & E).
  unfold lift_res in E1. inversion E1; subst; clear E1.
  apply bind_ok in E as ([] & s2 & E2 & E).
  assert (base s2 = base s1 /\ marks_count s2 = marks_count s1) as [Hb2 Hm2].
  { destruct (index_columns s1); inversion E2; subst; split; reflexivity. }
  apply bind_ok in E as (oc & s3 & E3 & E).
  apply zoom_run in E3 as (b3 & E3 & ->).
  apply write_columns_settings in E3 as [Hs3 Hio3 _ _ _].
  apply bind_ok in E as ([] & s4 & E4 & E).
  pose proof (count_of_marks_le_rows rows_ io g Hg ltac:(lia) Hrows) as Hle.
  apply write_index_marks in E4.
  all: swap 1 6.
  all: simpl; rewrite ?Hm2; fold g io; try lia.
  destruct E4 as [Hb4 Hm4]. simpl in Hb4, Hm4.
  apply zoom_run in E as (b5 & E & ->). rewrite Hb4 in E.
  rewrite advance_index_offset_run in E; rewrite ?Hs3, ?Hio3, ?Hb2; fold g io; try lia.
  inversion E; subst; clear E. simpl. rewrite Hs3, Hio3, Hb2. fold g io.
  split; [reflexivity|]. rewrite Hm4, Hm2. reflexivity.
Qed.

Lemma writeImpl_unsorted fuel block perm w w' :
  is_unsorted (merging_mode (storage (base w))) = true ->
  writeImpl fuel block perm w = (Ok tt, w') ->
  index_stream w' = index_stream w
  /\ (Forall (fun c => c = []) (index_columns w) -> Forall (fun c => c = []) (index_columns w')).
Proof.
  intros Hmode E. unfold writeImpl in E.
  apply bind_ok in E as (w0 & s0 & E0 & E). inversion E0; subst; clear E0.
  apply bind_ok in E as ([pcs pos] & s1 & E1 & E).
  unfold lift_res in E1. inversion E1; subst; clear E1.
  apply bind_ok in E as ([] & s2 & E2 & E).
  assert (base s2 = base s1 /\ index_stream s2 = index_stream s1
          /\ (Forall (fun c => c = []) (index_columns s1) ->
              Forall (fun c => c = []) (index_columns s2))) as (Hb2 & Hi2 & Hc2).
  { destruct (index_columns s1) eqn:Ec; inversion E2; subst; simpl.
    - repeat split. intros _. apply Forall_forall. intros c Hc.
      apply list_elem_of_fmap in Hc as (? & -> & _). reflexivity.
    - rewrite Ec. repeat split; auto. }
  apply bind_ok in E as (oc & s3 & E3 & E).
  apply zoom_run in E3 as (b3 & E3 & ->).
  apply write_columns_settings in E3 as [Hs3 _ _ _ _].
  apply bind_ok in E as ([] & s4 & E4 & E).
  apply write_index_unsorted in E4 as [Hi4 Hc4]; [|simpl; rewrite Hs3, Hb2; exact Hmode].
  apply zoom_run in E as (b5 & E & ->). simpl in *.
  rewrite Hi4, Hc4, Hi2. split; [reflexivity | exact Hc2].
Qed.

Lemma writeImpl_zero_granularity fuel block perm w :
  index_granularity (storage (base w)) = 0 ->
  is_ok (writeImpl fuel block perm w).1 = false.
Proof.
  intros Hg. destruct (writeImpl fuel block perm w) as [[[]|f] w'] eqn:E; [|reflexivity].
  exfalso. pose proof (writeImpl_part _ _ _ _ _ _ E) as [Hst _ _ _ _].
  unfold writeImpl in E.
  apply bind_ok in E as (w0 & s0 & E0 & E). inversion E0; subst; clear E0.
  apply bind_ok in E as ([pcs pos] & s1 & E1 & E).
  apply bind_ok in E as ([] & s2 & E2 & E).
  apply bind_ok in E as (oc & s3 & E3 & E).
  apply bind_ok in E as ([] & s4 & E4 & E).
  apply zoom_run in E as (b5 & E & ->).
  rewrite advance_index_offset_zero in E; [discriminate|].
  inversion E1; subst.
  pose proof (writeImpl_part fuel block perm) as Hp.
  assert (same_part s1 s4) as [Hs _ _ _ _]; [|congruence].
  etransitivity; [|exact (write_index_part _ _ _ _ _ _ _ _ E4)].
  etransitivity; [|refine (in_base_part _ _ _ _ _ E3);
                   eapply preserves_weaken; [apply same_settings_place | apply write_columns_settings]].
  destruct (index_columns s1); inversion E2; subst; split; reflexivity.
Qed.

Lemma only_write_offset fuel block w w' :
  let g := index_granularity (storage (only_base w)) in
  let io := index_offset (only_base w) in
  0 < g -> 0 <= io < g -> block_rows block + g < 2 ^ 64 ->
  only_write fuel block w = (Ok tt, w') ->
  index_offset (only_base w') = next_index_offset g io (block_rows block)
  /\ storage (only_base w') = storage (only_base w).
Proof.
  intros g io Hg Hio Hbound E. unfold only_write in E.
  pose proof (block_rows_nonneg block) as Hrows.
  apply bind_ok in E as (w0 & s0 & E0 & E). inversion E0; subst; clear E0.
  apply bind_ok in E as ([] & s1 & E1 & E).
  assert (only_settings s0 s1) as [Hs1 Hio1 _ _ _].
  { revert E1. apply (fun m (Hm : preserves only_settings m) => Hm s0 (Ok tt) s1).
    destruct (negb (initialized s0)); [|apply preserves_ret, _].
    apply preserves_bind; try apply _.
    { apply in_only_base_settings, preserves_modify. intros b. split; reflexivity. }
    intros _. apply preserves_bind; try apply _.
    { apply preserves_for_each; try apply _. intros c.
      apply in_only_base_settings, addStream_settings. }
    intros _. apply preserves_modify. intros s. unfold only_settings. simpl. reflexivity. }
  apply bind_ok in E as (oc & s2 & E2 & E).
  apply zoom_run in E2 as (b2 & E2 & ->).
  apply write_block_columns_settings in E2 as [Hs2 Hio2 _ _ _].
  apply zoom_run in E as (b3 & E & ->). simpl in E.
  rewrite advance_index_offset_run in E; rewrite ?Hs2, ?Hio2, ?Hs1, ?Hio1; fold g io; try lia.
  inversion E; subst; clear E. simpl. rewrite Hs2, Hio2, Hs1, Hio1. fold g io. done.
Qed.

Lemma only_write_zero_granularity fuel block w :
  index_granularity (storage (only_base w)) = 0 ->
  is_ok (only_write fuel block w).1 = false.
Proof.
  intros Hg. destruct (only_write fuel block w) as [[[]|f] w'] eqn:E; [|reflexivity].
  exfalso. unfold only_write in E.
  apply bind_ok in E as (w0 & s0 & E0 & E). inversion E0; subst; clear E0.
  apply bind_ok in E as ([] & s1 & E1 & E).
  assert (only_settings s0 s1) as [Hs1 _ _ _ _].
  { revert E1. apply (fun m (Hm : preserves only_settings m) => Hm s0 (Ok tt) s1).
    destruct (negb (initialized s0)); [|apply preserves_ret, _].
    apply preserves_bind; try apply _.
    { apply in_only_base_settings, preserves_modify. intros b. split; reflexivity. }
    intros _. apply preserves_bind; try apply _.
    { apply preserves_for_each; try apply _. intros c.
      apply in_only_base_settings, addStream_settings. }
    intros _. apply preserves_modify. intros s. unfold only_settings. simpl. reflexivity. }
  apply bind_ok in E as (oc & s2 & E2 & E).
  apply zoom_run in E2 as (b2 & E2 & ->).
  apply write_block_columns_settings in E2 as [Hs2 _ _ _ _].
  apply zoom_run in E as (b3 & E & ->). simpl in E.
  rewrite advance_index_offset_zero in E; [discriminate|congruence].
Qed.

End OneWrite.

(** ** Sequences of writes *)

Section RunsOfWrites.
Context `{Collaborators}.

Lemma writes_part fuel blocks : preserves same_part (writes fuel blocks).
Proof. apply preserves_for_each; try apply _. intros [b p]. apply writeImpl_part. Qed.

Lemma writes_marks fuel :
  forall blocks w w',
    let g := index_granularity (storage (base w)) in
    let rs := map (fun bp : Block * option Permutation => block_rows bp.1) blocks in
    0 < g -> 0 <= index_offset (base w) < g -> 0 <= marks_count w ->
    marks_count w + total_rows rs + g < 2 ^ 64 ->
    writes fuel blocks w = (Ok tt, w') ->
    index_offset (base w') = carried_index_offset g (index_offset (base w)) rs
    /\ marks_count w' = marks_count w + total_marks g (index_offset (base w)) rs.
Proof.
  induction blocks as [|[b p] bs IH]; intros w w' g rs Hg Hio Hm Hbound E.
  - inversion E; subst. simpl. split; [reflexivity|lia].
  - unfold writes in E. simpl in E. apply bind_ok in E as ([] & w1 & E1 & E).
    unfold writeWithPermutation in E1. simpl in E1.
    subst rs. simpl map in *. unfold total_rows in Hbound. simpl in Hbound.
    assert (0 <= total_rows (map (fun bp : Block * option Permutation => block_rows bp.1) bs)) as Hrest.
    { replace (map (fun bp : Block * option Permutation => block_rows bp.1) bs)
        with (map block_rows (map fst bs)) by (rewrite map_map; reflexivity).
      apply total_rows_nonneg. }
    unfold total_rows in Hrest.
    pose proof (block_rows_nonneg b) as Hb.
    pose proof (writeImpl_part _ _ _ _ _ _ E1) as [Hst _ _ _ _].
    apply writeImpl_marks in E1 as [Hio1 Hm1]; fold g; try lia.
    fold g in Hio1, Hm1.
    pose proof (count_of_marks_le_rows (block_rows b) (index_offset (base w)) g Hg ltac:(lia) Hb).
    pose proof (count_of_marks_nonneg (block_rows b) (index_offset (base w)) g Hg).
    pose proof (next_index_offset_range g (index_offset (base w)) (block_rows b) Hg).
    apply IH in E; rewrite ?Hst; fold g; rewrite ?Hio1, ?Hm1; unfold total_rows; try lia.
    rewrite Hst, Hio1, Hm1 in E. fold g in E. simpl. destruct E as [-> ->]. split; [reflexivity|lia].
Qed.

Lemma writes_unsorted fuel : forall blocks w w',
  is_unsorted (merging_mode (storage (base w))) = true ->
  writes fuel blocks w = (Ok tt, w') ->
  index_stream w' = index_stream w
  /\ (Forall (fun c => c = []) (index_columns w) -> Forall (fun c => c = []) (index_columns w')).
Proof.
  induction blocks as [|[b p] bs IH]; intros w w' Hmode E.
  - inversion E; subst. done.
  - unfold writes in E. simpl in E. apply bind_ok in E as ([] & w1 & E1 & E).
    unfold writeWithPermutation in E1. simpl in E1.
    pose proof (writeImpl_part _ _ _ _ _ _ E1) as [Hst _ _ _ _].
    apply writeImpl_unsorted in E1 as [Hi1 Hc1]; [|exact Hmode].
    apply IH in E as [Hi Hc]; [|rewrite Hst; exact Hmode].
    rewrite Hi, Hi1. split; auto.
Qed.

Lemma only_writes_offset fuel :
  forall blocks w w',
    let g := index_granularity (storage (only_base w)) in
    let rs := map block_rows blocks in
    0 < g -> 0 <= index_offset (only_base w) < g ->
    total_rows rs + g < 2 ^ 64 ->
    only_writes fuel blocks w = (Ok tt, w') ->
    index_offset (only_base w') = carried_index_offset g (index_offset (only_base w)) rs.
Proof.
  induction blocks as [|b bs IH]; intros w w' g rs Hg Hio Hbound E.
  - inversion E; subst. reflexivity.
  - unfold only_writes in E. simpl in E. apply bind_ok in E as ([] & w1 & E1 & E).
    subst rs. simpl map in *. unfold total_rows in Hbound. simpl in Hbound.
    pose proof (total_rows_nonneg bs) as Hrest. unfold total_rows in Hrest.
    pose proof (block_rows_nonneg b) as Hb.
    apply only_write_offset in E1 as [Hio1 Hst]; fold g; try lia.
    fold g in Hio1.
    pose proof (next_index_offset_range g (index_offset (only_base w)) (block_rows b) Hg).
    apply IH in E; rewrite ?Hst; fold g; rewrite ?Hio1; unfold total_rows; try lia.
    rewrite Hst, Hio1 in E. fold g in E. simpl. exact E.
Qed.

End RunsOfWrites.

(** ** Fuel *)

Section Fuel.
Context `{Collaborators}.

Lemma write_column_stream_fed fuel g key ser size :
  0 < g -> 0 <= size -> size + g < 2 ^ 64 -> size < Z.of_nat fuel ->
  fed (within_granule g) (write_column_stream fuel key ser size).
Proof.
  intros Hg Hsize Hbound Hfuel b r b' HP E.
  split; [|exact (within_granule_settings _ _ _ (write_column_stream_settings _ _ _ _ _ _ _ E) HP)].
  destruct HP as [Hgb Hio]. unfold write_column_stream in E.
  destruct (column_streams b !! key) as [s|]; [|inversion E; intros []].
  destruct (write_granules_fed fuel ser g (index_offset b) (min_compress_block_size b) size s
              Hg Hio Hsize Hbound Hfuel) as [s' Hs'].
  rewrite Hgb, Hs' in E. inversion E; intros [].
Qed.

Lemma write_null_stream_fed fuel g key ser size :
  0 < g -> 0 <= size -> size + g < 2 ^ 64 -> size < Z.of_nat fuel ->
  fed (within_granule g) (write_null_stream fuel key ser size).
Proof.
  intros Hg Hsize Hbound Hfuel b r b' HP E.
  split; [|exact (within_granule_settings _ _ _ (write_null_stream_settings _ _ _ _ _ _ _ E) HP)].
  destruct HP as [Hgb Hio]. unfold write_null_stream in E.
  destruct (null_streams b !! key) as [s|]; [|inversion E; intros []].
  destruct (write_granules_fed fuel ser g (index_offset b) (min_compress_block_size b) size s
              Hg Hio Hsize Hbound Hfuel) as [s' Hs'].
  rewrite Hgb, Hs' in E. inversion E; intros [].
Qed.

Lemma writeData_fed fuel g : 0 < g -> forall t name_ c oc level,
  walkable fuel g c -> fed (within_granule g) (writeData fuel name_ t c oc level).
Proof.
  intros Hg. induction t as [p|t IH|t IH]; intros name_ c oc level [Hbound Hfuel]; simpl;
    pose proof (column_size_nonneg c) as Hsize.
  - apply fed_bind; [by apply write_column_stream_fed | intros _; apply fed_ret].
  - destruct c as [|nested_col null_map_|]; try apply fed_undefined.
    apply fed_bind; [by apply write_null_stream_fed|]. intros _. apply IH. by split.
  - apply fed_bind.
    + destruct (decide _); [apply fed_ret|].
      apply fed_bind; [by apply write_column_stream_fed | intros _; apply fed_ret].
    + intros oc'. apply fed_bind; [by apply write_column_stream_fed | intros _; apply fed_ret].
Qed.

(** The column that [write_columns] hands to [writeData]. *)
Lemma written_column_walkable fuel g perm pcs (pos : gmap string Z) n c
    (b : IMergedBlockOutputStream) r b' :
  Forall (fun c => walkable fuel g (column c)) pcs ->
  walkable fuel g (column c) ->
  match perm with
  | Some p =>
      match pos !! n with
      | Some position =>
          match pcs !! Z.to_nat position with
          | Some pc => ret (column pc)
          | None => undefined OutOfRange
          end
      | None => lift_res (permute (column c) p)
      end
  | None => ret (column c)
  end b = (r, b') ->
  b' = b /\ ~ starved r /\ forall d, r = Ok d -> walkable fuel g d.
Proof.
  intros Hpcs Hc. rewrite Forall_forall in Hpcs. destruct perm as [p|].
  - destruct (pos !! n) as [position|].
    + destruct (pcs !! Z.to_nat position) as [pc|] eqn:Epc; intros E; inversion E; subst.
      * split; [done|]. split; [intros []|]. intros d Ed. inversion Ed; subst.
        apply Hpcs. eapply list_elem_of_lookup_2. exact Epc.
      * split; [done|]. split; [intros [] | discriminate].
    + unfold lift_res. intros E. inversion E; subst. split; [done|].
      split; [apply permute_fed|]. intros d Ed. unfold walkable.
      rewrite (permute_size _ _ _ Ed). exact Hc.
  - intros E. inversion E; subst. split; [done|]. split; [intros []|].
    intros d Ed. inversion Ed; subst. exact Hc.
Qed.

Lemma write_columns_fed fuel g block perm pcs pos : 0 < g ->
  Forall (fun c => walkable fuel g (column c)) block ->
  Forall (fun c => walkable fuel g (column c)) pcs ->
  forall cols oc, fed (within_granule g) (write_columns fuel cols block perm pcs pos oc).
Proof.
  intros Hg Hblock Hpcs.
  induction cols as [|it cols IH]; intros oc; simpl; [apply fed_ret|].
  intros b r b' HP. unfold bind at 1. unfold lift_res at 1.
  pose proof (getByName_fed block (nt_name it)) as Hget.
  destruct (getByName block (nt_name it)) as [c|f] eqn:Ec.
  2:{ intros E. inversion E; subst. split; [exact Hget | exact HP]. }
  apply getByName_elem in Ec.
  assert (walkable fuel g (column c)) as Hc by (rewrite Forall_forall in Hblock; auto).
  unfold bind at 1.
  match goal with |- context [match ?sel b with _ => _ end] =>
    destruct (sel b) as [rd bd] eqn:Esel end.
  apply (written_column_walkable fuel g perm pcs pos (nt_name it) c b rd bd Hpcs Hc)
    in Esel as (-> & Hrd & Hd).
  destruct rd as [d|f]; [|intros E; inversion E; subst; split; [exact Hrd | exact HP]].
  revert r b'.
  refine (fun r b' => fed_bind (within_granule g) (writeData fuel (name c) (type c) d oc 0)
           (fun oc' => write_columns fuel cols block perm pcs pos oc') _ IH b r b' HP).
  apply writeData_fed; [exact Hg | apply Hd; reflexivity].
Qed.

Lemma write_block_columns_fed fuel g : 0 < g -> forall cols oc,
  Forall (fun c => walkable fuel g (column c)) cols ->
  fed (within_granule g) (write_block_columns fuel cols oc).
Proof.
  intros Hg. induction cols as [|c cols IH]; intros oc Hcols; simpl; [apply fed_ret|].
  inversion Hcols; subst.
  apply fed_bind; [by apply writeData_fed | intros oc'; by apply IH].
Qed.

Lemma writeImpl_fed fuel g block perm : 0 < g ->
  Forall (fun c => walkable fuel g (column c)) block ->
  fed (within_granule_full g) (writeImpl fuel block perm).
Proof.
  intros Hg Hblock w r w' HP. unfold writeImpl.
  unfold bind at 1. unfold get at 1. unfold bind at 1. unfold lift_res at 1.
  destruct (resolve_primary_columns_walkable fuel g block perm
              (sort_description (storage (base w))) 0 [] ∅ Hblock ltac:(constructor))
    as [Hres Hpcs].
  destruct (resolve_primary_columns _ _ _ _ _ _) as [[pcs pos]|f];
    [|intros E; inversion E; subst; split; [exact Hres | exact HP]].
  specialize (Hpcs pcs pos eq_refl).
  unfold bind at 1.
  match goal with |- context [match ?ic w with _ => _ end] =>
    destruct (ic w) as [r1 w1] eqn:E1 end.
  assert (r1 = Ok tt /\ base w1 = base w) as [-> Hb1].
  { destruct (index_columns w); inversion E1; subst; done. }
  unfold bind at 1.
  destruct (in_base (write_columns fuel (columns_list w) block perm pcs pos ∅) w1)
    as [r2 w2] eqn:E2.
  apply zoom_run in E2 as (b2 & E2 & ->).
  assert (within_granule g (base w1)) as HP1 by (rewrite Hb1; exact HP).
  destruct (write_columns_fed fuel g block perm pcs pos Hg Hblock Hpcs _ _ _ _ _ HP1 E2)
    as [Hr2 HP2].
  destruct r2 as [oc|f]; [|intros E; inversion E; subst; split; [exact Hr2 | exact HP2]].
  unfold bind at 1.
  destruct (write_index fuel (index_granularity (storage (base w))) (block_rows block) pcs
              (index_offset (base w)) (set_base b2 w1)) as [r3 w3] eqn:E3.
  destruct HP as [Hgw Hio].
  assert (block_rows block + g < 2 ^ 64 /\ block_rows block < Z.of_nat fuel
          \/ block_rows block = 0) as Hrows.
  { destruct block as [|c block']; [right; reflexivity|]. left.
    inversion Hblock; subst. assumption. }
  pose proof (block_rows_nonneg block) as Hnn.
  pose proof (count_of_marks_le_rows (block_rows block) (index_offset (base w)) g Hg
                ltac:(lia) Hnn) as Hle.
  rewrite Hgw in E3.
  assert (~ starved r3 /\ base w3 = base (set_base b2 w1)) as [Hr3 Hb3].
  { destruct Hrows as [[Hbound Hfuel]|Hzero].
    - apply write_index_fed in E3; [exact E3|exact Hg|lia|lia|lia].
    - rewrite write_index_done in E3 by lia. inversion E3; subst.
      split; [intros [] | reflexivity]. }
  destruct r3 as [[]|f].
  - intros E. apply zoom_run in E as (b4 & E & ->).
    rewrite Hb3 in E. simpl in E.
    destruct (advance_index_offset_fed g (block_rows block) Hg _ _ _ HP2 E) as [Hr4 HP4].
    split; [exact Hr4 | exact HP4].
  - intros E; inversion E; subst. split; [exact Hr3|].
    unfold within_granule_full. rewrite Hb3. exact HP2.
Qed.

(** With fuel above the row count of every column, no sequence of writes to
    the full assembler runs out of fuel: it returns, or it fails for a
    reason of the code's own. *)
Lemma writes_fed fuel g blocks : 0 < g ->
  Forall (fun bp : Block * option Permutation =>
            Forall (fun c => walkable fuel g (column c)) bp.1) blocks ->
  fed (within_granule_full g) (writes fuel blocks).
Proof.
  intros Hg Hblocks. rewrite Forall_forall in Hblocks.
  apply fed_for_each. intros [b p] Hin. apply writeImpl_fed; [exact Hg|].
  exact (Hblocks _ Hin).
Qed.

Lemma only_write_fed fuel g block : 0 < g ->
  Forall (fun c => walkable fuel g (column c)) block ->
  fed (within_granule_only g) (only_write fuel block).
Proof.
  intros Hg Hblock. unfold only_write.
  assert (forall A (m : M IMergedBlockOutputStream A),
            fed (within_granule g) m -> fed (within_granule_only g) (in_only_base m)) as Hzoom.
  { intros A m. apply fed_zoom; [auto | intros s c _ Hc; exact Hc]. }
  assert (forall A (m : M IMergedBlockOutputStream A),
            preserves same_settings m -> total m -> fed (within_granule g) m) as Htot.
  { intros A m Hpre Ht b r b' HP E. destruct (Ht b) as (a & b1 & E1).
    rewrite E1 in E. inversion E; subst.
    split; [intros [] | exact (within_granule_settings _ _ _ (Hpre _ _ _ E1) HP)]. }
  apply fed_bind; [apply fed_get|]. intros w.
  apply fed_bind.
  { destruct (negb (initialized w)); [|apply fed_ret].
    apply fed_bind.
    { apply Hzoom, Htot; [|apply total_modify].
      apply preserves_modify. intros b. split; reflexivity. }
    intros _. apply fed_bind.
    { apply fed_for_each. intros c _. apply Hzoom, Htot;
        [apply addStream_settings | apply addStream_total]. }
    intros _. apply fed_modify. intros s Hs. exact Hs. }
  intros _. apply fed_bind.
  { apply Hzoom, write_block_columns_fed; assumption. }
  intros _. apply Hzoom, advance_index_offset_fed. exact Hg.
Qed.

(** The same for the append-only assembler. *)
Lemma only_writes_fed fuel g blocks : 0 < g ->
  Forall (fun b : Block => Forall (fun c => walkable fuel g (column c)) b) blocks ->
  fed (within_granule_only g) (only_writes fuel blocks).
Proof.
  intros Hg Hblocks. rewrite Forall_forall in Hblocks.
  apply fed_for_each. intros b Hin. apply only_write_fed; [exact Hg|].
  exact (Hblocks _ Hin).
Qed.

End Fuel.

(** ** Construction *)

Section Construction.
Context `{Collaborators}.

Lemma init_run w :
  init w =
  (Ok tt,
   if negb (is_unsorted (merging_mode (storage (base w))))
   then set_index_stream (Some [])
          (set_base (set_disk (open_truncate (part_path w +:+ "primary.idx")
                                 (createDirectories (part_path w) (disk (base w)))) (base w)) w)
   else set_base (set_disk (createDirectories (part_path w) (disk (base w))) (base w)) w).
Proof.
  unfold init, bind, get, on_disk, in_base, zoom, modify. simpl.
  destruct (negb _); reflexivity.
Qed.

(** What the body of both constructors builds. *)
Lemma construction_run (w0 : MergedBlockOutputStream) (cols : NamesAndTypesList)
    (estimated : NameAndTypePair -> Z) :
  exists w,
    constructed
      ((init ;;;
        for_each cols (fun it =>
          in_base (addStream (part_path w0) (nt_name it) (nt_type it) (estimated it) 0 "")))%writer w0)
    = Ok w
    /\ storage (base w) = storage (base w0)
    /\ min_compress_block_size (base w) = min_compress_block_size (base w0)
    /\ max_compress_block_size (base w) = max_compress_block_size (base w0)
    /\ index_offset (base w) = index_offset (base w0)
    /\ marks_count w = marks_count w0
    /\ part_path w = part_path w0
    /\ columns_list w = columns_list w0
    /\ index_columns w = index_columns w0
    /\ part_path w0 ∈ directories (disk (base w))
    /\ index_stream w
       = (if is_unsorted (merging_mode (storage (base w0))) then index_stream w0 else Some []).
Proof.
  set (body := fun it : NameAndTypePair =>
         in_base (addStream (part_path w0) (nt_name it) (nt_type it) (estimated it) 0 "")).
  assert (total (for_each cols body)) as Htot.
  { apply total_for_each. intros it. apply total_zoom, addStream_total. }
  assert (preserves same_but_streams (for_each cols body)) as Hpre.
  { apply preserves_for_each; try apply _. intros it.
    apply in_base_but_streams, addStream_settings. }
  unfold bind. rewrite init_run.
  match goal with |- context [for_each cols body ?s] => set (w1 := s) end.
  destruct (Htot w1) as ([] & w & E). exists w. rewrite E. simpl.
  destruct (Hpre _ _ _ E) as [[Hs Hio Hmin Hmax Hdir] Hp Hc Hm Hi Hic].
  assert (part_path w0 ∈ directories (disk (base w))) as Hin.
  { rewrite Hdir. subst w1.
    destruct (is_unsorted (merging_mode (storage (base w0)))); simpl;
      apply elem_of_union_l, elem_of_singleton; reflexivity. }
  subst w1. destruct (is_unsorted (merging_mode (storage (base w0)))); simpl in *;
    rewrite ?Hs, ?Hio, ?Hmin, ?Hmax, ?Hp, ?Hc, ?Hm, ?Hi, ?Hic;
    repeat split; exact Hin.
Qed.

Lemma MergedBlockOutputStream_new_run storage_ path cols method fs :
  exists w,
    MergedBlockOutputStream_new storage_ path cols method fs = Ok w
    /\ storage (base w) = storage_
    /\ min_compress_block_size (base w)
       = settings_min_compress_block_size (context_settings storage_)
    /\ max_compress_block_size (base w)
       = settings_max_compress_block_size (context_settings storage_)
    /\ index_offset (base w) = 0
    /\ marks_count w = 0
    /\ part_path w = path
    /\ columns_list w = cols
    /\ index_columns w = []
    /\ path ∈ directories (disk (base w))
    /\ index_stream w = (if is_unsorted (merging_mode storage_) then None else Some []).
Proof.
  unfold MergedBlockOutputStream_new.
  match goal with |- context [constructed (_ ?w0)] =>
    destruct (construction_run w0 cols (fun _ => 0)) as (w & E & Hw) end.
  exists w. split; [exact E | exact Hw].
Qed.

Lemma MergedBlockOutputStream_new_sized_run storage_ path cols method sizes aio fs :
  exists w,
    MergedBlockOutputStream_new_sized storage_ path cols method sizes aio fs = Ok w
    /\ storage (base w) = storage_
    /\ min_compress_block_size (base w)
       = settings_min_compress_block_size (context_settings storage_)
    /\ max_compress_block_size (base w)
       = settings_max_compress_block_size (context_settings storage_)
    /\ index_offset (base w) = 0
    /\ marks_count w = 0
    /\ part_path w = path
    /\ columns_list w = cols
    /\ index_columns w = []
    /\ path ∈ directories (disk (base w))
    /\ index_stream w = (if is_unsorted (merging_mode storage_) then None else Some []).
Proof.
  unfold MergedBlockOutputStream_new_sized.
  match goal with |- context [constructed (_ ?w0)] =>
    destruct (construction_run w0 cols
                (fun it => if 0 <? aio then default 0 (sizes !! nt_name it) else 0))
      as (w & E & Hw) end.
  exists w. split; [exact E | exact Hw].
Qed.

End Construction.

(** ** The commit *)

Section Commit.
Context `{Collaborators}.

Lemma finalize_streams_disk streams : forall checksums fs,
  directories (finalize_streams streams checksums fs).2 = directories fs
  /\ opened (finalize_streams streams checksums fs).2 = opened fs.
Proof.
  induction streams as [|[k s] streams IH]; intros checksums fs; simpl; [done|].
  destruct (IH (ColumnStream_addToChecksums (compressed_next s) checksums "")
              (store (marks_file (compressed_next s)) (marks_bytes (compressed_next s))
                 (store (plain_file (compressed_next s)) (plain_hashing (compressed_next s)) fs)))
    as [Hd Ho].
  rewrite Hd, Ho. done.
Qed.

Lemma writeSuffixAndGetChecksums_run w :
  (is_unsorted (merging_mode (storage (base w))) = false -> is_Some (index_stream w)) ->
  let indexed :=
    if is_unsorted (merging_mode (storage (base w))) then None else index_stream w in
  let '(checksums, fs) := flushed w indexed in
  writeSuffixAndGetChecksums w =
  if marks_count w =? 0
  then (Ok ∅, committed w (remove_recursive (part_path w) fs))
  else (Ok checksums,
        committed w
          (store (part_path w +:+ "checksums.txt") (writeChecksums checksums)
             (open_truncate (part_path w +:+ "checksums.txt")
                (store (part_path w +:+ "columns.txt") (writeText (columns_list w))
                   (open_truncate (part_path w +:+ "columns.txt") fs))))).
Proof.
  intros Hopen. unfold flushed, writeSuffixAndGetChecksums, committed.
  destruct w as [b cols path mc idx icols]. simpl in *.
  destruct (is_unsorted (merging_mode (storage b))) eqn:Hmode; simpl.
  - unfold bind, get, ret, on_disk, in_base, zoom, modify. simpl. rewrite Hmode. simpl.
    destruct (finalize_streams (in_key_order (column_streams b)) ∅ (disk b)) as [c1 fs1] eqn:E1.
    simpl. destruct (finalize_streams (in_key_order (null_streams b)) c1 fs1) as [c2 fs2] eqn:E2.
    simpl. destruct (mc =? 0); reflexivity.
  - destruct (Hopen eq_refl) as [bytes ->].
    unfold bind, get, ret, on_disk, in_base, zoom, modify. simpl. rewrite Hmode. simpl.
    match goal with |- context [finalize_streams (in_key_order (column_streams b)) ?c ?fs] =>
      destruct (finalize_streams (in_key_order (column_streams b)) c fs) as [c1 fs1] eqn:E1 end.
    simpl. destruct (finalize_streams (in_key_order (null_streams b)) c1 fs1) as [c2 fs2] eqn:E2.
    simpl. destruct (mc =? 0); reflexivity.
Qed.

Lemma flushed_disk w indexed :
  directories (flushed w indexed).2 = directories (disk (base w))
  /\ opened (flushed w indexed).2 = opened (disk (base w)).
Proof.
  unfold flushed.
  destruct indexed as [bytes|];
    match goal with |- context [finalize_streams (in_key_order (column_streams (base w))) ?c ?fs] =>
      pose proof (finalize_streams_disk (in_key_order (column_streams (base w))) c fs) as [Hd1 Ho1];
      destruct (finalize_streams (in_key_order (column_streams (base w))) c fs) as [c1 fs1]
    end;
    pose proof (finalize_streams_disk (in_key_order (null_streams (base w))) c1 fs1) as [Hd2 Ho2];
    simpl in *; rewrite Hd2, Ho2, Hd1, Ho1; done.
Qed.

End Commit.

(** ** The sizes streams of a block *)

Section SizesOfBlock.
Context `{Collaborators}.







End SizesOfBlock.

(** ** The null map *)

Section NullMap.
Context `{Collaborators}.

Lemma writeData_null_map fuel name_ nested_type_ nested_col null_map_ oc level w s :
  let g := index_granularity (storage w) in
  let size := column_size nested_col in
  let whole := serializeBinary DataTypeUInt8 null_map_ 0 0 in
  let its := granule_iterations g (index_offset w) size in
  let s' := foldl (granule_iteration (fun _ _ => whole) (min_compress_block_size w)) s its in
  0 < g -> 0 <= index_offset w < 2 ^ 64 -> 0 < size -> size + g < 2 ^ 64 ->
  (length its <= fuel)%nat ->
  null_streams w !! name_ = Some s ->
  writeData fuel name_ (DataTypeNullable nested_type_) (ColumnNullable nested_col null_map_)
    oc level w
  = writeData fuel name_ nested_type_ nested_col oc level
      (set_null_streams (<[name_ := s']> (null_streams w)) w)
  /\ compressed_count s'
     = compressed_count s + Z.of_nat (length its) * Z.of_nat (length whole).
Proof.
  intros g size whole its s' Hg Hio Hsize Hbound Hfuel Hs. split.
  - simpl. unfold bind at 1. unfold write_null_stream. rewrite Hs.
    fold g size whole.
    rewrite (write_granules_iterations (fun _ _ => whole) g (index_offset w)
               (min_compress_block_size w) size s fuel Hg Hio Hsize Hbound Hfuel).
    reflexivity.
  - apply null_map_bytes.
Qed.

End NullMap.

(** * The claims *)

(** ** C1: mark arithmetic *)

Section MarkArithmetic.
Context `{Collaborators}.

(** C1. For every sequence of blocks written to an assembler that starts at
    [index_offset = 0] (and, for the full assembler, [marks_count = 0]),
    with a positive granularity and row counts that fit [size_t]: the
    carried [index_offset] follows
    [(g - ((g - index_offset + rows) mod g)) mod g] block after block, in
    the full assembler ([write] / [writeWithPermutation]) and in the
    append-only assembler ([write]); [marks_count] of the full assembler is
    the sum over the blocks of the per-block mark counts under this
    recurrence; and every granularity loop of [writeData], in either
    assembler, appends that per-block count of marks to its stream. *)
Theorem mark_arithmetic (g : Z) :
  0 < g ->
  (forall fuel blocks w w',
     let rs := map (fun bp : Block * option Permutation => block_rows bp.1) blocks in
     index_granularity (storage (base w)) = g ->
     index_offset (base w) = 0 -> marks_count w = 0 ->
     g + total_rows rs < 2 ^ 64 ->
     writes fuel blocks w = (Ok tt, w') ->
     index_offset (base w') = carried_index_offset g 0 rs
     /\ marks_count w' = total_marks g 0 rs)
  /\ (forall fuel blocks w w',
        let rs := map block_rows blocks in
        index_granularity (storage (only_base w)) = g ->
        index_offset (only_base w) = 0 ->
        g + total_rows rs < 2 ^ 64 ->
        only_writes fuel blocks w = (Ok tt, w') ->
        index_offset (only_base w') = carried_index_offset g 0 rs)
  /\ (forall fuel serialize io m size s s',
        0 <= io < g -> 0 <= size -> size + g < 2 ^ 64 ->
        write_granules fuel serialize g io m size 0 s = Ok s' ->
        Z.of_nat (length (marks s'))
        = Z.of_nat (length (marks s)) + 2 * count_of_marks_in_block size io g).
Proof.
  intros Hg. split; [|split].
  - intros fuel blocks w w' rs Hgw Hio Hm Hbound E.
    apply writes_marks in E; rewrite ?Hgw, ?Hio, ?Hm in *; try lia.
    fold rs in E. destruct E as [-> ->]. split; [reflexivity|lia].
    fold rs. lia.
  - intros fuel blocks w w' rs Hgw Hio Hbound E.
    apply only_writes_offset in E; rewrite ?Hgw, ?Hio in *; try lia.
    exact E. fold rs. lia.
  - intros fuel ser io m size s s' Hio Hsize Hbound E.
    eapply write_granules_marks_count; eauto. 
    assert (size < 2 ^ 64) by lia. lia.
Qed.

End MarkArithmetic.

Section MarkArithmeticWitness.
Import Reference Sample.
#[local] Existing Instance Reference.collaborators.

Lemma mark_arithmetic_witness :
  0 < 8
  /\ (index_offset (base (writes 9 [(five_rows, None); (five_rows, Some [4; 3; 2; 1; 0])] full8).2) = 6
      /\ marks_count (writes 9 [(five_rows, None); (five_rows, Some [4; 3; 2; 1; 0])] full8).2 = 2)
  /\ index_offset (only_base (only_writes 9 [five_rows; five_rows] only8).2) = 6
  /\ Z.of_nat (length (marks (from_ok
        (write_granules 9 (write_range DataTypeUInt8 (ColumnVector [1; 2; 3; 4; 5]))
           8 3 65536 5 0 n_stream) n_stream))) = 2.
Proof.
  destruct (mark_arithmetic (H := Reference.collaborators) 8 ltac:(lia)) as (Hfull & Honly & Hloop).
  split; [lia|]. split; [|split].
  - apply (Hfull 9%nat [(five_rows, None); (five_rows, Some [4; 3; 2; 1; 0])] full8);
      [reflexivity | reflexivity | reflexivity | vm_compute; reflexivity | vm_compute; reflexivity].
  - apply (Honly 9%nat [five_rows; five_rows] only8);
      [reflexivity | reflexivity | vm_compute; reflexivity | vm_compute; reflexivity].
  - apply (Hloop 9%nat (write_range DataTypeUInt8 (ColumnVector [1; 2; 3; 4; 5])) 3 65536 5 n_stream);
      [lia | lia | vm_compute; reflexivity | vm_compute; reflexivity].
Defined.

End MarkArithmeticWitness.

(** ** C2: marks at granule boundaries *)

Section GranuleBoundaries.
Context `{Collaborators}.


End GranuleBoundaries.

Section GranuleBoundariesWitness.
Import Reference Sample.
#[local] Existing Instance Reference.collaborators.


End GranuleBoundariesWitness.

(** ** C3: the empty part *)

Section EmptyPart.
Context `{Collaborators}.

(** C3. When [writeSuffixAndGetChecksums] of the full assembler runs with
    [marks_count = 0] (and its index stream still open, which holds from
    construction to the commit), it returns an empty manifest; the part
    directory and everything below it is gone, [columns.txt] and
    [checksums.txt] included, and no file has been opened for writing.  In
    particular, after construction and the writing of blocks whose rows add
    up to 0, the directory does not exist when the commit returns. *)
Theorem empty_part_erased :
  (forall w : MergedBlockOutputStream,
     marks_count w = 0 ->
     (is_unsorted (merging_mode (storage (base w))) = false -> is_Some (index_stream w)) ->
     exists w',
       writeSuffixAndGetChecksums w = (Ok ∅, w')
       /\ ~ exists_on_disk (part_path w) (disk (base w'))
       /\ (forall name_, ~ exists_on_disk (part_path w +:+ name_) (disk (base w')))
       /\ ~ exists_on_disk (part_path w +:+ "columns.txt") (disk (base w'))
       /\ ~ exists_on_disk (part_path w +:+ "checksums.txt") (disk (base w'))
       /\ opened (disk (base w')) = opened (disk (base w)))
  /\ (forall storage_ path cols method fs fuel blocks w0 w,
        0 < index_granularity storage_ < 2 ^ 64 ->
        MergedBlockOutputStream_new storage_ path cols method fs = Ok w0 ->
        writes fuel blocks w0 = (Ok tt, w) ->
        total_rows (map (fun bp : Block * option Permutation => block_rows bp.1) blocks) = 0 ->
        exists w',
          writeSuffixAndGetChecksums w = (Ok ∅, w')
          /\ ~ exists_on_disk path (disk (base w'))).
Proof.
  assert (forall w : MergedBlockOutputStream,
     marks_count w = 0 ->
     (is_unsorted (merging_mode (storage (base w))) = false -> is_Some (index_stream w)) ->
     exists w',
       writeSuffixAndGetChecksums w = (Ok ∅, w')
       /\ ~ exists_on_disk (part_path w) (disk (base w'))
       /\ (forall name_, ~ exists_on_disk (part_path w +:+ name_) (disk (base w')))
       /\ ~ exists_on_disk (part_path w +:+ "columns.txt") (disk (base w'))
       /\ ~ exists_on_disk (part_path w +:+ "checksums.txt") (disk (base w'))
       /\ opened (disk (base w')) = opened (disk (base w))) as Hempty.
  { intros w Hm Hopen.
    pose proof (writeSuffixAndGetChecksums_run w Hopen) as Hrun. cbn zeta in Hrun.
    pose proof (flushed_disk w
      (if is_unsorted (merging_mode (storage (base w))) then None else index_stream w))
      as [_ Ho].
    destruct (flushed w _) as [checksums fs]. rewrite Hm in Hrun. simpl in Hrun, Ho.
    eexists. split; [exact Hrun|]. simpl.
    destruct (remove_recursive_erases (part_path w) fs) as [Hdir Hbelow].
    repeat split; auto. }
  split; [exact Hempty|].
  intros storage_ path cols method fs fuel blocks w0 w Hg Hnew Hwrites Hrows.
  destruct (MergedBlockOutputStream_new_run storage_ path cols method fs)
    as (w0' & E & Hs & _ & _ & Hio & Hm & Hp & _ & _ & _ & Hidx).
  rewrite Hnew in E. inversion E; subst w0'; clear E.
  pose proof (writes_part _ _ _ _ _ Hwrites) as [Hst _ Hpath _ Hopen].
  pose proof (writes_marks fuel blocks w0 w) as Hmarks. cbn zeta in Hmarks.
  rewrite Hs, Hio, Hm, Hrows in Hmarks.
  destruct (Hmarks ltac:(lia) ltac:(lia) ltac:(lia) ltac:(lia) Hwrites) as [_ Hmc].
  pose proof (total_marks_bounds (index_granularity storage_) ltac:(lia) _ 0 ltac:(lia)
                (rows_nonneg blocks)) as Hb.
  rewrite Hrows in Hb.
  destruct (Hempty w ltac:(lia)) as (w' & Hc & Hdir & _).
  { rewrite Hst, Hs. intros Hmode. apply Hopen. rewrite Hidx, Hmode. eauto. }
  exists w'. split; [exact Hc|]. rewrite <- Hp, <- Hpath. exact Hdir.
Qed.

End EmptyPart.

Section EmptyPartWitness.
Import Reference Sample.
#[local] Existing Instance Reference.collaborators.

Lemma empty_part_erased_witness :
  (exists w',
     writeSuffixAndGetChecksums full8 = (Ok ∅, w')
     /\ ~ exists_on_disk "part/" (disk (base w')))
  /\ (exists w',
        writeSuffixAndGetChecksums (writes 9 [(no_rows, None); (no_rows, None)] full8).2 = (Ok ∅, w')
        /\ ~ exists_on_disk "part/" (disk (base w'))).
Proof.
  destruct empty_part_erased as [Hstate Hrun]. split.
  - destruct (Hstate full8) as (w' & Hc & Hdir & _);
      [reflexivity | intros _; vm_compute; eauto |].
    exists w'. split; [exact Hc | exact Hdir].
  - apply (Hrun t8 "part/" n_columns LZ4 empty_fs 9%nat [(no_rows, None); (no_rows, None)] full8);
      [vm_compute; split; reflexivity | vm_compute; reflexivity | vm_compute; reflexivity
      | reflexivity].
Defined.

End EmptyPartWitness.

(** ** C4: the shared sizes stream *)

Section SharedSizes.
Context `{Collaborators}.


End SharedSizes.

Section SharedSizesWitness.
Import Reference Sample.
#[local] Existing Instance Reference.collaborators.



(** Scenario 5 of the specification: writing both siblings leaves one pair
    of sizes files, and the sizes stream holds the offsets of [t.x] only. *)
Example sibling_arrays_share_sizes_files :
  let w := (write 9 siblings_block siblings_full).2 in
  compressed_buffer <$> column_streams (base w) !! "t%size0"
  = Some (le_bytes 8 2 ++ le_bytes 8 3)
  /\ elements (dom (files (disk (base (writeSuffixAndGetChecksums w).2))))
     = ["part/columns.txt"; "part/checksums.txt"; "part/t%size0.mrk"; "part/t%size0.bin";
        "part/t%2Ey.mrk"; "part/t%2Ey.bin"; "part/t%2Ex.mrk"; "part/t%2Ex.bin"].
Proof. vm_compute. split; reflexivity. Qed.

End SharedSizesWitness.

(** ** C5: closing the frame before a mark *)

Section FrameThreshold.
Context `{Collaborators}.

(** C5 (as the code has it). At each mark emission the current frame is
    closed before the mark is written if and only if the frame's buffered
    uncompressed byte count is at least [min_compress_block_size] (it need
    not exceed it); the mark is then the pair of the data file's byte count
    after the flush and offset 0.  Otherwise the stream is left as it is and
    the mark is the pair of [plain_hashing.count()] and the current offset
    within the open frame. *)
Theorem frame_closed_at_threshold (m : Z) (s : ColumnStream) :
  (m <= compressed_offset s ->
     write_mark m s
     = marks_write 0 (marks_write (plain_count (compressed_next s)) (compressed_next s)))
  /\ (compressed_offset s < m ->
        write_mark m s = marks_write (compressed_offset s) (marks_write (plain_count s) s))
  /\ (frame_closed_before_mark m s <-> m <= compressed_offset s /\ compressed_buffer s <> []).
Proof.
  assert (m <= compressed_offset s ->
          write_mark m s
          = marks_write 0 (marks_write (plain_count (compressed_next s)) (compressed_next s)))
    as Hclosed.
  { intros Hm. unfold write_mark. destruct (Z.leb_spec m (compressed_offset s)); [|lia].
    unfold compressed_offset at 1. rewrite compressed_buffer_next. reflexivity. }
  assert (compressed_offset s < m ->
          write_mark m s = marks_write (compressed_offset s) (marks_write (plain_count s) s))
    as Hopen.
  { intros Hm. unfold write_mark. destruct (Z.leb_spec m (compressed_offset s)); [lia|].
    reflexivity. }
  split; [exact Hclosed|]. split; [exact Hopen|].
  unfold frame_closed_before_mark. split.
  - intros (Hne & Hempty & _). split; [|exact Hne].
    destruct (Z.le_gt_cases m (compressed_offset s)) as [Hle|Hgt]; [exact Hle|].
    rewrite (Hopen ltac:(lia)) in Hempty. simpl in Hempty. contradiction.
  - intros (Hle & Hne). split; [exact Hne|]. rewrite (Hclosed Hle). simpl.
    split; [apply compressed_buffer_next|].
    rewrite last_snoc. reflexivity.
Qed.

End FrameThreshold.

Section FrameThresholdWitness.
Import Reference Sample.
#[local] Existing Instance Reference.collaborators.

(** C5, as stated, fails when the buffered byte count equals the threshold:
    four bytes are buffered and [min_compress_block_size] is 4, so the count
    does not exceed the threshold, and yet the frame is closed before the
    mark, which records offset 0 of a new frame instead of offset 4. *)
Lemma frame_closed_at_threshold_counterexample :
  ~ (frame_closed_before_mark 4 four_buffered -> 4 < compressed_offset four_buffered)
  /\ marks (write_mark 4 four_buffered) = [5; 0].
Proof.
  split; [|vm_compute; reflexivity].
  intros Hstrict.
  assert (frame_closed_before_mark 4 four_buffered) as Hc.
  { unfold frame_closed_before_mark. split; [vm_compute; discriminate|].
    split; vm_compute; reflexivity. }
  apply Hstrict in Hc. vm_compute in Hc. discriminate.
Qed.

Lemma frame_closed_at_threshold_witness :
  (4 <= compressed_offset four_buffered /\ marks (write_mark 4 four_buffered) = [5; 0])
  /\ (compressed_offset four_buffered < 5 /\ marks (write_mark 5 four_buffered) = [0; 4]).
Proof.
  destruct (frame_closed_at_threshold 4 four_buffered) as (Hclosed & _ & _).
  destruct (frame_closed_at_threshold 5 four_buffered) as (_ & Hopen & _).
  split; (split; [vm_compute; congruence|]).
  - rewrite Hclosed; [vm_compute; reflexivity | vm_compute; congruence].
  - rewrite Hopen; [vm_compute; reflexivity | vm_compute; congruence].
Defined.

End FrameThresholdWitness.

(** ** C6: the null-map loop *)

Section NullMapRun.
Import Reference Sample.
#[local] Existing Instance Reference.collaborators.

(** C6 does not hold on the code.  A [Nullable(UInt8)] column of three rows
    with null map [0, 1, 0], written with granularity 2: the loop has two
    iterations and each one serializes the whole map, so the null stream
    receives six bytes, the map twice, where three bytes are expected, those
    of rows [0, 2) and [2, 3); the loop of the values, in the same call,
    passes the cursor and the limit and writes the three values once. *)
Theorem null_map_written_in_every_iteration :
  let w := (write 9 nullable_block nullable_full).2 in
  (write 9 nullable_block nullable_full).1 = Ok tt
  /\ compressed_buffer <$> null_streams (base w) !! "a"
     = Some [Byte.x00; Byte.x01; Byte.x00; Byte.x00; Byte.x01; Byte.x00]
  /\ compressed_buffer <$> column_streams (base w) !! "a"
     = Some [Byte.x07; Byte.x08; Byte.x09].
Proof. vm_compute. repeat split; reflexivity. Qed.

End NullMapRun.

(** ** C7: duplicate sort-key columns *)

Section DuplicateSortKey.
Context `{Collaborators}.

(** C7. When the sort description resolves a column name that an earlier
    entry of it already resolved (the sort-key columns before the repeated
    entry being columns of the block that the permutation, if any, can
    permute), [write] and [writeWithPermutation] throw [BAD_ARGUMENTS], and
    the writer is in the state it was in before the call: nothing of the
    block has been serialized to any stream. *)
Theorem duplicate_sort_key_rejected
    (fuel : nat) (block : Block) (permutation : option Permutation)
    (w : MergedBlockOutputStream) (pre post : SortDescription)
    (d d' : SortColumnDescription) (n : string) :
  sort_description (storage (base w)) = pre ++ d :: post ->
  d' ∈ pre -> descr_name block d' = Ok n -> descr_name block d = Ok n ->
  (forall a, a ∈ pre ->
     is_ok (descr_name block a) = true /\ is_ok (primary_column block permutation a) = true) ->
  writeWithPermutation fuel block permutation w
  = (Fail (Exception BAD_ARGUMENTS "Primary key contains duplicate columns"), w)
  /\ (permutation = None ->
      write fuel block w
      = (Fail (Exception BAD_ARGUMENTS "Primary key contains duplicate columns"), w)).
Proof.
  intros Hsd Hin Hd' Hd Hpre.
  assert (writeImpl fuel block permutation w
          = (Fail (Exception BAD_ARGUMENTS "Primary key contains duplicate columns"), w)) as E.
  { unfold writeImpl, bind, get, lift_res. rewrite Hsd.
    rewrite (resolve_duplicate block permutation n d post pre 0 [] ∅ Hpre Hd); [reflexivity|].
    left. eauto. }
  split; [exact E|]. intros ->. exact E.
Qed.

End DuplicateSortKey.

Section DuplicateSortKeyWitness.
Import Reference Sample.
#[local] Existing Instance Reference.collaborators.

Lemma duplicate_sort_key_rejected_witness :
  writeWithPermutation 9 two_columns_block (Some [2; 1; 0]) repeated_key_full
  = (Fail (Exception BAD_ARGUMENTS "Primary key contains duplicate columns"), repeated_key_full).
Proof.
  destruct (duplicate_sort_key_rejected 9 two_columns_block (Some [2; 1; 0]) repeated_key_full
           [ {| column_name := "n"; column_number := 0 |};
             {| column_name := "k"; column_number := 0 |} ] []
           {| column_name := "n"; column_number := 0 |}
           {| column_name := "n"; column_number := 0 |} "n") as [E _]; [| | | | |exact E].
  - vm_compute. reflexivity.
  - left.
  - reflexivity.
  - reflexivity.
  - intros a Ha. apply elem_of_cons in Ha as [->|Ha]; [split; vm_compute; reflexivity|].
    apply elem_of_cons in Ha as [->|Ha]; [split; vm_compute; reflexivity|].
    by apply elem_of_nil in Ha.
Defined.

End DuplicateSortKeyWitness.

(** ** C8: writeSuffix *)

Section WriteSuffix.
Context `{Collaborators}.

(** C8. [writeSuffix] of either assembler throws [NOT_IMPLEMENTED] and
    leaves the writer as it was.  The commit is [writeSuffixAndGetChecksums]:
    it returns a manifest from every state of the append-only assembler, and
    from every state of the full assembler whose index stream is open (or
    whose mode is [Unsorted]). *)
Theorem writeSuffix_not_implemented :
  (forall w : MergedBlockOutputStream,
     exists message, writeSuffix w = (Fail (Exception NOT_IMPLEMENTED message), w))
  /\ (forall w : MergedColumnOnlyOutputStream,
        exists message, only_writeSuffix w = (Fail (Exception NOT_IMPLEMENTED message), w))
  /\ (forall w : MergedBlockOutputStream,
        (is_unsorted (merging_mode (storage (base w))) = false -> is_Some (index_stream w)) ->
        is_ok (writeSuffixAndGetChecksums w).1 = true)
  /\ (forall w : MergedColumnOnlyOutputStream,
        is_ok (only_writeSuffixAndGetChecksums w).1 = true).
Proof.
  split; [|split; [|split]].
  - intros w. eexists. reflexivity.
  - intros w. eexists. reflexivity.
  - intros w Hopen. pose proof (writeSuffixAndGetChecksums_run w Hopen) as Hrun.
    cbn zeta in Hrun. destruct (flushed w _) as [c fs]. rewrite Hrun.
    destruct (marks_count w =? 0); reflexivity.
  - intros w. unfold only_writeSuffixAndGetChecksums, bind, get. simpl.
    destruct (finalize_streams_only _ _ _ _) as [c1 fs1].
    destruct (finalize_streams_only _ _ _ _) as [c2 fs2]. reflexivity.
Qed.

End WriteSuffix.

Section WriteSuffixWitness.
Import Reference Sample.
#[local] Existing Instance Reference.collaborators.

Lemma writeSuffix_not_implemented_witness :
  (writeSuffix full8).2 = full8
  /\ is_ok (writeSuffixAndGetChecksums full8).1 = true.
Proof.
  destruct writeSuffix_not_implemented as (Hfull & _ & Hcommit & _). split.
  - destruct (Hfull full8) as [message E]. rewrite E. reflexivity.
  - apply Hcommit. intros _. vm_compute. eauto.
Defined.

End WriteSuffixWitness.

(** ** C9: construction *)

Section AnyConfiguration.
Context `{Collaborators}.

(** C9 (as the code has it). Construction validates nothing: for every
    storage, whatever its [index_granularity] (zero included) and whatever
    the two frame-size thresholds of its settings (a minimum above the
    maximum included), both constructors of the full assembler and the
    constructor of the append-only assembler return an assembler that holds
    these values as given, with [index_offset = 0] (and [marks_count = 0]).
    A zero granularity shows only later: no write on such an assembler
    returns. *)
Theorem construction_accepts_any_configuration
    (storage_ : MergeTreeData) (path : string) (cols : NamesAndTypesList)
    (method : CompressionMethod) (sizes : gmap string Z) (aio : Z) (sync_ : bool)
    (fs : FileSystem) :
  (exists w,
     MergedBlockOutputStream_new storage_ path cols method fs = Ok w
     /\ storage (base w) = storage_
     /\ min_compress_block_size (base w)
        = settings_min_compress_block_size (context_settings storage_)
     /\ max_compress_block_size (base w)
        = settings_max_compress_block_size (context_settings storage_)
     /\ index_offset (base w) = 0 /\ marks_count w = 0)
  /\ (exists w,
        MergedBlockOutputStream_new_sized storage_ path cols method sizes aio fs = Ok w
        /\ storage (base w) = storage_
        /\ min_compress_block_size (base w)
           = settings_min_compress_block_size (context_settings storage_)
        /\ max_compress_block_size (base w)
           = settings_max_compress_block_size (context_settings storage_)
        /\ index_offset (base w) = 0 /\ marks_count w = 0)
  /\ (let w := MergedColumnOnlyOutputStream_new storage_ path sync_ method fs in
      storage (only_base w) = storage_
      /\ min_compress_block_size (only_base w)
         = settings_min_compress_block_size (context_settings storage_)
      /\ max_compress_block_size (only_base w)
         = settings_max_compress_block_size (context_settings storage_)
      /\ index_offset (only_base w) = 0)
  /\ (forall fuel block perm (w : MergedBlockOutputStream),
        index_granularity (storage (base w)) = 0 ->
        is_ok (writeImpl fuel block perm w).1 = false)
  /\ (forall fuel block (w : MergedColumnOnlyOutputStream),
        index_granularity (storage (only_base w)) = 0 ->
        is_ok (only_write fuel block w).1 = false).
Proof.
  split; [|split; [|split; [|split]]].
  - destruct (MergedBlockOutputStream_new_run storage_ path cols method fs)
      as (w & E & Hs & Hmin & Hmax & Hio & Hm & _).
    exists w. auto 10.
  - destruct (MergedBlockOutputStream_new_sized_run storage_ path cols method sizes aio fs)
      as (w & E & Hs & Hmin & Hmax & Hio & Hm & _).
    exists w. auto 10.
  - simpl. auto.
  - intros. by apply writeImpl_zero_granularity.
  - intros. by apply only_write_zero_granularity.
Qed.

End AnyConfiguration.

Section AnyConfigurationWitness.
Import Reference Sample.
#[local] Existing Instance Reference.collaborators.

(** C9, as stated, fails: a storage with [index_granularity = 0] and a
    minimum frame size above the maximum is not rejected; the constructor
    returns an assembler holding exactly these values. *)
Lemma construction_rejects_misconfiguration_counterexample :
  exists w,
    MergedBlockOutputStream_new misconfigured "part/" n_columns LZ4 empty_fs = Ok w
    /\ index_granularity (storage (base w)) = 0
    /\ max_compress_block_size (base w) < min_compress_block_size (base w).
Proof.
  eexists. split; [vm_compute; reflexivity|]. split; [reflexivity | vm_compute; reflexivity].
Qed.

Lemma construction_accepts_any_configuration_witness :
  index_granularity (storage (base (from_ok
     (MergedBlockOutputStream_new misconfigured "part/" n_columns LZ4 empty_fs)
     (blank misconfigured)))) = 0
  /\ is_ok (writeImpl 9 five_rows None (from_ok
       (MergedBlockOutputStream_new misconfigured "part/" n_columns LZ4 empty_fs)
       (blank misconfigured))).1 = false
  /\ is_ok (only_write 9 five_rows
       (MergedColumnOnlyOutputStream_new misconfigured "part/" false LZ4 empty_fs)).1 = false.
Proof.
  destruct (construction_accepts_any_configuration misconfigured "part/" n_columns LZ4 ∅ 0
              false empty_fs) as (_ & _ & _ & Hfull & Honly).
  split; [vm_compute; reflexivity|]. split.
  - apply Hfull. vm_compute; reflexivity.
  - apply Honly. vm_compute; reflexivity.
Defined.

End AnyConfigurationWitness.

(** ** C10: the unsorted part *)

Section UnsortedPart.
Context `{Collaborators}.

(** C10. In the [Unsorted] merging mode (positive granularity, row counts
    within [size_t]) the full assembler never opens an index stream and
    inserts nothing into [index_columns], and still counts one mark per
    granule boundary of every written block: after the blocks are written,
    [marks_count] is the sum of the per-block mark counts.  When the blocks
    hold at least one row in total, [marks_count] is at least 1 and the
    commit keeps the part: the directory stays, and [columns.txt] and
    [checksums.txt] are written with the column list and the returned
    manifest. *)
Theorem unsorted_part_persisted
    (storage_ : MergeTreeData) (path : string) (cols : NamesAndTypesList)
    (method : CompressionMethod) (fs : FileSystem) (fuel : nat)
    (blocks : list (Block * option Permutation)) (w0 w : MergedBlockOutputStream) :
  let g := index_granularity storage_ in
  let rs := map (fun bp : Block * option Permutation => block_rows bp.1) blocks in
  merging_mode storage_ = Unsorted ->
  0 < g -> g + total_rows rs < 2 ^ 64 ->
  MergedBlockOutputStream_new storage_ path cols method fs = Ok w0 ->
  writes fuel blocks w0 = (Ok tt, w) ->
  1 <= total_rows rs ->
  index_stream w0 = None /\ index_stream w = None
  /\ Forall (fun c => c = []) (index_columns w)
  /\ marks_count w = total_marks g 0 rs
  /\ 1 <= marks_count w
  /\ exists checksums w',
       writeSuffixAndGetChecksums w = (Ok checksums, w')
       /\ path ∈ directories (disk (base w'))
       /\ files (disk (base w')) !! (path +:+ "columns.txt") = Some (writeText cols)
       /\ files (disk (base w')) !! (path +:+ "checksums.txt") = Some (writeChecksums checksums).
Proof.
  intros g rs Hmode Hg Hbound Hnew Hwrites Hrows.
  destruct (MergedBlockOutputStream_new_run storage_ path cols method fs)
    as (w0' & E & Hs & _ & _ & Hio & Hm & Hp & Hcols & Hic & Hdir & Hidx).
  rewrite Hnew in E. inversion E; subst w0'; clear E.
  rewrite Hmode in Hidx. simpl in Hidx.
  pose proof (writes_part _ _ _ _ _ Hwrites) as [Hst Hdirs Hpath Hcl _].
  assert (is_unsorted (merging_mode (storage (base w0))) = true) as Hu
    by (rewrite Hs, Hmode; reflexivity).
  destruct (writes_unsorted fuel blocks w0 w Hu Hwrites) as [Hi Hc].
  pose proof (writes_marks fuel blocks w0 w) as Hmarks. cbn zeta in Hmarks.
  rewrite Hs, Hio, Hm in Hmarks. fold g rs in Hmarks.
  destruct (Hmarks Hg ltac:(lia) ltac:(lia) ltac:(lia) Hwrites) as [_ Hmc].
  pose proof (total_marks_positive g Hg rs (rows_nonneg blocks) Hrows) as Hpos.
  split; [exact Hidx|]. split; [congruence|].
  split; [apply Hc; rewrite Hic; constructor|].
  split; [lia|]. split; [lia|].
  pose proof (writeSuffixAndGetChecksums_run w) as Hrun. cbn zeta in Hrun.
  rewrite Hst, Hu in Hrun. specialize (Hrun ltac:(discriminate)).
  pose proof (flushed_disk w None) as [Hd _].
  destruct (flushed w None) as [checksums fs'].
  destruct (Z.eqb_spec (marks_count w) 0) as [Hz|_]; [lia|].
  exists checksums. eexists. split; [exact Hrun|]. simpl in *.
  rewrite Hpath, Hp, Hcl, Hcols.
  split; [rewrite Hd, Hdirs; exact Hdir|]. split.
  - rewrite lookup_insert_ne, lookup_insert_ne, lookup_insert_eq; [reflexivity| |];
      intros Heq; apply append_inj_r in Heq; discriminate.
  - apply lookup_insert_eq.
Qed.

End UnsortedPart.

Section UnsortedPartWitness.
Import Reference Sample.
#[local] Existing Instance Reference.collaborators.

Lemma unsorted_part_persisted_witness :
  marks_count (writes 9 [(no_rows, None); (five_rows, None)] unsorted_full8).2 = 1
  /\ exists checksums w',
       writeSuffixAndGetChecksums (writes 9 [(no_rows, None); (five_rows, None)] unsorted_full8).2
       = (Ok checksums, w')
       /\ "part/" ∈ directories (disk (base w'))
       /\ files (disk (base w')) !! "part/columns.txt" = Some (columns_text n_columns)
       /\ files (disk (base w')) !! "part/checksums.txt" = Some (checksums_text checksums).
Proof.
  destruct (unsorted_part_persisted unsorted8 "part/" n_columns LZ4 empty_fs 9
              [(no_rows, None); (five_rows, None)] unsorted_full8
              (writes 9 [(no_rows, None); (five_rows, None)] unsorted_full8).2)
    as (_ & _ & _ & Hm & _ & Hcommit);
    [reflexivity | reflexivity | vm_compute; reflexivity | vm_compute; reflexivity
    | vm_compute; reflexivity | vm_compute; discriminate |].
  split; [rewrite Hm; vm_compute; reflexivity | exact Hcommit].
Defined.

End UnsortedPartWitness.

(** * Further properties *)

(** ** The carried offset stays below the granularity *)

#[global] Instance stays_within_refl g : Reflexive (stays_within g).
Proof. intros b Hb. exact Hb. Qed.
#[global] Instance stays_within_trans g : Transitive (stays_within g).
Proof. intros a b c Hab Hbc Ha. auto. Qed.
#[global] Instance stays_within_full_refl g : Reflexive (stays_within_full g).
Proof. intros b Hb. exact Hb. Qed.
#[global] Instance stays_within_full_trans g : Transitive (stays_within_full g).
Proof. intros a b c Hab Hbc Ha. auto. Qed.
#[global] Instance stays_within_only_refl g : Reflexive (stays_within_only g).
Proof. intros b Hb. exact Hb. Qed.
#[global] Instance stays_within_only_trans g : Transitive (stays_within_only g).
Proof. intros a b c Hab Hbc Ha. auto. Qed.
#[global] Instance same_base_refl : Reflexive same_base.
Proof. intros w. reflexivity. Qed.
#[global] Instance same_base_trans : Transitive same_base.
Proof. intros a b c Hab Hbc. unfold same_base in *. congruence. Qed.

Section OffsetInvariant.
Context `{Collaborators}.

Lemma settings_stay_within g b b' : same_settings b b' -> stays_within g b b'.
Proof. intros Hs Hb. exact (within_granule_settings g b b' Hs Hb). Qed.

Lemma advance_index_offset_within g rows_ :
  0 < g -> preserves (stays_within g) (advance_index_offset rows_).
Proof.
  intros Hg b r b' E Hb. destruct Hb as [<- Hio].
  unfold advance_index_offset, bind, get, size_mod, modify, undefined, ret in E.
  destruct (Z.eqb_spec (index_granularity (storage b)) 0) as [|_]; [lia|]. simpl in E.
  inversion E; subst; clear E. split; [reflexivity|]. simpl.
  apply Z.mod_pos_bound. exact Hg.
Qed.

Lemma write_index_base fuel g rows_ pcs :
  forall i, preserves same_base (write_index fuel g rows_ pcs i).
Proof.
  induction fuel as [|fuel IH]; intros i; simpl.
  - destruct (i <? rows_); [apply preserves_fail, _ | apply preserves_ret, _].
  - destruct (i <? rows_); [|apply preserves_ret, _].
    apply preserves_bind; try apply _; [apply preserves_get, _|]. intros w.
    apply preserves_bind; try apply _.
    + destruct (negb _); [|apply preserves_ret, _].
      eapply preserves_weaken; [|apply write_index_entries_marks].
      intros s s' [Hb _ _ _ _]. exact Hb.
    + intros _. apply preserves_bind; try apply _; [|intros _; apply IH].
      apply preserves_modify. intros s. reflexivity.
Qed.

Lemma in_base_within {A} g (m : M IMergedBlockOutputStream A) :
  preserves (stays_within g) m -> preserves (stays_within_full g) (in_base m).
Proof.
  apply preserves_zoom. intros s c Hc Hs. apply Hc. exact Hs.
Qed.

Lemma in_only_base_within {A} g (m : M IMergedBlockOutputStream A) :
  preserves (stays_within g) m -> preserves (stays_within_only g) (in_only_base m).
Proof.
  apply preserves_zoom. intros s c Hc Hs. apply Hc. exact Hs.
Qed.

Lemma same_base_within g w w' : same_base w w' -> stays_within_full g w w'.
Proof. unfold same_base, stays_within_full, within_granule_full. intros ->. auto. Qed.

Lemma writeImpl_within fuel g block perm :
  0 < g -> preserves (stays_within_full g) (writeImpl fuel block perm).
Proof.
  intros Hg. unfold writeImpl.
  apply preserves_bind; try apply _; [apply preserves_get, _|]. intros w.
  apply preserves_bind; try apply _; [apply preserves_lift_res, _|]. intros [pcs pos].
  apply preserves_bind; try apply _.
  { destruct (index_columns w); [|apply preserves_ret, _].
    apply preserves_modify. intros s. apply same_base_within. reflexivity. }
  intros _. apply preserves_bind; try apply _.
  { apply in_base_within. eapply preserves_weaken; [apply settings_stay_within|].
    apply write_columns_settings. }
  intros _. apply preserves_bind; try apply _.
  { eapply preserves_weaken; [apply same_base_within | apply write_index_base]. }
  intros _. apply in_base_within, advance_index_offset_within, Hg.
Qed.

Lemma only_write_within fuel g block :
  0 < g -> preserves (stays_within_only g) (only_write fuel block).
Proof.
  intros Hg. unfold only_write.
  apply preserves_bind; try apply _; [apply preserves_get, _|]. intros w.
  apply preserves_bind; try apply _.
  { destruct (negb (initialized w)); [|apply preserves_ret, _].
    apply preserves_bind; try apply _.
    { apply in_only_base_within, preserves_modify. intros b Hb. exact Hb. }
    intros _. apply preserves_bind; try apply _.
    { apply preserves_for_each; try apply _. intros c.
      apply in_only_base_within. eapply preserves_weaken; [apply settings_stay_within|].
      apply addStream_settings. }
    intros _. apply preserves_modify. intros s Hs. exact Hs. }
  intros _. apply preserves_bind; try apply _.
  { apply in_only_base_within. eapply preserves_weaken; [apply settings_stay_within|].
    apply write_block_columns_settings. }
  intros _. apply in_only_base_within, advance_index_offset_within, Hg.
Qed.

End OffsetInvariant.

Section OffsetBelowGranularity.
Context `{Collaborators}.

(** X1. With a positive granularity [g], the carried [index_offset] of both
    assemblers is always in [0, g): it is so after construction and after
    every sequence of [write] calls, whether the calls return or fail and
    whatever the row counts of the blocks. *)
Theorem index_offset_below_granularity (g : Z) :
  0 < g ->
  (forall storage_ path cols method fs fuel blocks w0 r w,
     index_granularity storage_ = g ->
     MergedBlockOutputStream_new storage_ path cols method fs = Ok w0 ->
     writes fuel blocks w0 = (r, w) ->
     0 <= index_offset (base w) < g)
  /\ (forall storage_ path sync_ method fs fuel blocks r w,
        index_granularity storage_ = g ->
        only_writes fuel blocks
          (MergedColumnOnlyOutputStream_new storage_ path sync_ method fs) = (r, w) ->
        0 <= index_offset (only_base w) < g).
Proof.
  intros Hg. split.
  - intros storage_ path cols method fs fuel blocks w0 r w Hgs Hnew E.
    destruct (MergedBlockOutputStream_new_run storage_ path cols method fs)
      as (w0' & E' & Hs & _ & _ & Hio & _).
    rewrite Hnew in E'. inversion E'; subst w0'; clear E'.
    assert (preserves (stays_within_full g) (writes fuel blocks)) as Hp.
    { apply preserves_for_each; try apply _. intros [b p]. apply writeImpl_within, Hg. }
    apply (Hp _ _ _ E). split; [rewrite Hs; exact Hgs | rewrite Hio; lia].
  - intros storage_ path sync_ method fs fuel blocks r w Hgs E.
    assert (preserves (stays_within_only g) (only_writes fuel blocks)) as Hp.
    { apply preserves_for_each; try apply _. intros b. apply only_write_within, Hg. }
    apply (Hp _ _ _ E). split; [exact Hgs | simpl; unfold initial_index_offset; lia].
Qed.

End OffsetBelowGranularity.

Section OffsetBelowGranularityWitness.
Import Reference Sample.
#[local] Existing Instance Reference.collaborators.

Lemma index_offset_below_granularity_witness :
  0 <= index_offset (base (writes 9 [(five_rows, None); (five_rows, None)] full8).2) < 8
  /\ 0 <= index_offset (only_base (only_writes 9 [five_rows; five_rows] only8).2) < 8.
Proof.
  destruct (index_offset_below_granularity 8 ltac:(lia)) as [Hfull Honly]. split.
  - apply (Hfull t8 "part/" n_columns LZ4 empty_fs 9%nat
             [(five_rows, None); (five_rows, None)] full8
             (writes 9 [(five_rows, None); (five_rows, None)] full8).1);
      [reflexivity | vm_compute; reflexivity | apply surjective_pairing].
  - apply (Honly t8 "part/" false LZ4 empty_fs 9%nat [five_rows; five_rows]
             (only_writes 9 [five_rows; five_rows] only8).1);
      [reflexivity | apply surjective_pairing].
Defined.

End OffsetBelowGranularityWitness.

(** ** No null stream is dereferenced *)

Section Guarded.
Context {S : Type} (P : S -> Prop).

Lemma guarded_bind {A B} (m : M S A) (k : A -> M S B) :
  guarded P m -> (forall a, guarded P (k a)) -> guarded P (bind m k).
Proof.
  intros Hm Hk s r s' HP. unfold bind.
  destruct (m s) as [[a|f] s1] eqn:E; intros E'.
  - destruct (Hm _ _ _ HP E) as [_ HP1]. exact (Hk a _ _ _ HP1 E').
  - inversion E'; subst. exact (Hm _ _ _ HP E).
Qed.

Lemma guarded_ret {A} (a : A) : guarded P (ret a).
Proof. intros s r s' HP E. inversion E; subst. split; [intros [] | exact HP]. Qed.

Lemma guarded_get : guarded P get.
Proof. intros s r s' HP E. inversion E; subst. split; [intros [] | exact HP]. Qed.

Lemma guarded_lift_res {A} (x : Res A) : ~ null_dereferenced x -> guarded P (lift_res x).
Proof. intros Hx s r s' HP E. inversion E; subst. split; [exact Hx | exact HP]. Qed.

Lemma guarded_modify (f : S -> S) : (forall s, P s -> P (f s)) -> guarded P (modify f).
Proof. intros Hf s r s' HP E. inversion E; subst. split; [intros [] | auto]. Qed.

Lemma guarded_for_each {A} (l : list A) (body : A -> M S unit) :
  (forall x, x ∈ l -> guarded P (body x)) -> guarded P (for_each l body).
Proof.
  induction l as [|x l IH]; intros Hb; simpl; [apply guarded_ret|].
  apply guarded_bind; [apply Hb; left | intros _; apply IH; intros y Hy; apply Hb; by right].
Qed.

End Guarded.

Lemma guarded_zoom {S C A} (P : S -> Prop) (PC : C -> Prop)
    (get_c : S -> C) (set_c : C -> S -> S) (m : M C A) :
  (forall s, P s -> PC (get_c s)) ->
  (forall s c, P s -> PC c -> P (set_c c s)) ->
  guarded PC m -> guarded P (zoom get_c set_c m).
Proof.
  intros Hget Hset Hm s r s' HP. unfold zoom.
  destruct (m (get_c s)) as [r1 c] eqn:E. intros E'. inversion E'; subst.
  destruct (Hm _ _ _ (Hget _ HP) E) as [Hr HPC]. split; [exact Hr | auto].
Qed.

Lemma select_no_null {A} (l : list A) perm : ~ null_dereferenced (select l perm).
Proof.
  unfold select. destruct (_ <? _)%nat; [intros []|]. destruct (mapM _ _); intros [].
Qed.

Lemma permute_no_null c : forall perm, ~ null_dereferenced (permute c perm).
Proof.
  induction c as [d|n IHn m IHm|rows_]; intros perm; simpl.
  - pose proof (select_no_null d perm). destruct (select d perm); [intros []|exact H].
  - specialize (IHn perm). specialize (IHm perm).
    destruct (permute n perm); [|exact IHn]. destruct (permute m perm); [intros []|exact IHm].
  - pose proof (select_no_null rows_ perm). destruct (select rows_ perm); [intros []|exact H].
Qed.

Lemma getByName_no_null block n : ~ null_dereferenced (getByName block n).
Proof. unfold getByName. destruct (List.find _ _); intros []. Qed.

Lemma getByPosition_no_null block i : ~ null_dereferenced (getByPosition block i).
Proof. unfold getByPosition. destruct (_ !! _); intros []. Qed.

Section NoNullStream.
Context `{Collaborators}.

Lemma write_granules_fail fuel ser g io m size : forall p s f,
  write_granules fuel ser g io m size p s = Fail f -> f = OutOfFuel.
Proof.
  induction fuel as [|fuel IH]; intros p s f; simpl.
  - destruct (p <? size); [|discriminate]. intros E. inversion E. reflexivity.
  - destruct (p <? size); [|discriminate].
    destruct ((p =? 0) && negb (io =? 0)); apply IH.
Qed.

Lemma covered_mono cs ns cs' ns' n t level :
  cs ⊆ cs' -> ns ⊆ ns' -> covered cs ns n t level -> covered cs' ns' n t level.
Proof.
  intros Hcs Hns. induction t as [p|t IH|t IH]; simpl.
  - apply Hcs.
  - intros [Hn Ht]. split; [apply Hns, Hn | apply IH, Ht].
  - intros [Hs Hn]. split; apply Hcs; assumption.
Qed.

Lemma write_column_stream_guarded st cs ns fuel key ser size :
  key ∈ cs -> guarded (tabled st cs ns) (write_column_stream fuel key ser size).
Proof.
  intros Hkey w r w' (Hst & Hc & Hn). unfold write_column_stream.
  destruct (column_streams w !! key) as [s|] eqn:Es.
  2:{ apply not_elem_of_dom in Es. rewrite Hc in Es. contradiction. }
  destruct (write_granules _ _ _ _ _ _ _ _) as [s'|f] eqn:Eg; intros E; injection E as <- <-.
  - split; [intros []|]. split; [exact Hst|]. split; [|exact Hn]. simpl.
    rewrite dom_insert_L, <- Hc.
    apply subseteq_union_1_L, singleton_subseteq_l. apply elem_of_dom_2 in Es. exact Es.
  - apply write_granules_fail in Eg as ->. split; [intros [] | repeat split; assumption].
Qed.

Lemma write_null_stream_guarded st cs ns fuel key ser size :
  key ∈ ns -> guarded (tabled st cs ns) (write_null_stream fuel key ser size).
Proof.
  intros Hkey w r w' (Hst & Hc & Hn). unfold write_null_stream.
  destruct (null_streams w !! key) as [s|] eqn:Es.
  2:{ apply not_elem_of_dom in Es. rewrite Hn in Es. contradiction. }
  destruct (write_granules _ _ _ _ _ _ _ _) as [s'|f] eqn:Eg; intros E; injection E as <- <-.
  - split; [intros []|]. split; [exact Hst|]. split; [exact Hc|]. simpl.
    rewrite dom_insert_L, <- Hn.
    apply subseteq_union_1_L, singleton_subseteq_l. apply elem_of_dom_2 in Es. exact Es.
  - apply write_granules_fail in Eg as ->. split; [intros [] | repeat split; assumption].
Qed.

Lemma guarded_undefined_cast {S A} (P : S -> Prop) : guarded P (@undefined S A BadStaticCast).
Proof. intros s r s' HP E. inversion E; subst. split; [intros [] | exact HP]. Qed.

Lemma guarded_undefined_range {S A} (P : S -> Prop) : guarded P (@undefined S A OutOfRange).
Proof. intros s r s' HP E. inversion E; subst. split; [intros [] | exact HP]. Qed.

Lemma writeData_guarded st cs ns fuel : forall t name_ c oc level,
  covered cs ns name_ t level ->
  guarded (tabled st cs ns) (writeData fuel name_ t c oc level).
Proof.
  induction t as [p|t IH|t IH]; intros name_ c oc level Hcov; simpl in *.
  - apply guarded_bind; [apply write_column_stream_guarded, Hcov|].
    intros _. apply guarded_ret.
  - destruct Hcov as [Hn Ht].
    destruct c; try apply guarded_undefined_cast.
    apply guarded_bind; [apply write_null_stream_guarded, Hn|].
    intros _. apply IH, Ht.
  - destruct Hcov as [Hs Hn]. apply guarded_bind.
    + destruct (decide _); [apply guarded_ret|].
      apply guarded_bind; [apply write_column_stream_guarded, Hs|].
      intros _. apply guarded_ret.
    + intros oc'. apply guarded_bind; [apply write_column_stream_guarded, Hn|].
      intros _. apply guarded_ret.
Qed.

Lemma addStream_covers : forall t path n e l f b r b',
  addStream path n t e l f b = (r, b') ->
  dom (column_streams b) ⊆ dom (column_streams b')
  /\ dom (null_streams b) ⊆ dom (null_streams b')
  /\ n ∈ dom (column_streams b')
  /\ covered (dom (column_streams b')) (dom (null_streams b')) n t l.
Proof.
  induction t as [p|t IH|t IH]; intros path n e l f b r b' E; simpl in E.
  - unfold bind, get, put_column_stream, modify in E. simpl in E. injection E as <- <-.
    simpl. rewrite dom_insert_L. split; [|split; [|split]].
    + apply union_subseteq_r.
    + reflexivity.
    + apply elem_of_union_l, elem_of_singleton. reflexivity.
    + apply elem_of_union_l, elem_of_singleton. reflexivity.
  - unfold bind at 1 in E. unfold addNullStream, bind, get, put_null_stream, modify in E.
    simpl in E. apply IH in E as (Hc & Hn & Hin & Hcov). simpl in Hc, Hn.
    rewrite dom_insert_L in Hn. split; [|split; [|split; [|split]]]; try assumption.
    + etransitivity; [apply union_subseteq_r | exact Hn].
    + apply Hn, elem_of_union_l, elem_of_singleton. reflexivity.
  - unfold bind at 1 in E. unfold get at 1 in E. unfold bind at 1 in E.
    unfold put_column_stream, modify in E. simpl in E.
    apply IH in E as (Hc & Hn & Hin & Hcov). simpl in Hc, Hn.
    rewrite dom_insert_L in Hc. split; [|split; [|split; [|split]]]; try assumption.
    + etransitivity; [apply union_subseteq_r | exact Hc].
    + apply Hc, elem_of_union_l, elem_of_singleton. reflexivity.
Qed.

Lemma guarded_bind_res {S A B} (P : S -> Prop) (x : Res A) (k : A -> M S B) :
  ~ null_dereferenced x -> (forall a, x = Ok a -> guarded P (k a)) ->
  guarded P (bind (lift_res x) k).
Proof.
  intros Hx Hk s r s' HP. unfold bind, lift_res. destruct x as [a|f].
  - apply (Hk a eq_refl), HP.
  - intros E. injection E as <- <-. split; [exact Hx | exact HP].
Qed.

Lemma res_bind_no_null {A B} (x : Res A) (k : A -> Res B) :
  ~ null_dereferenced x -> (forall a, ~ null_dereferenced (k a)) ->
  ~ null_dereferenced (res_bind x k).
Proof. intros Hx Hk. destruct x; simpl; auto. Qed.

Lemma descr_name_no_null block d : ~ null_dereferenced (descr_name block d).
Proof.
  unfold descr_name. destruct (nonempty _); [intros []|].
  apply res_bind_no_null; [apply getByPosition_no_null | intros a []].
Qed.

Lemma primary_column_no_null block perm d : ~ null_dereferenced (primary_column block perm d).
Proof.
  unfold primary_column. apply res_bind_no_null.
  - destruct (nonempty _); [apply getByName_no_null | apply getByPosition_no_null].
  - intros c. destruct perm as [p|]; [|intros []].
    apply res_bind_no_null; [apply permute_no_null | intros a []].
Qed.

Lemma resolve_primary_columns_no_null block perm : forall descrs i pcs pos,
  ~ null_dereferenced (resolve_primary_columns descrs block perm i pcs pos).
Proof.
  induction descrs as [|d descrs IH]; intros i pcs pos; simpl; [intros []|].
  apply res_bind_no_null; [apply descr_name_no_null|]. intros n.
  destruct (pos !! n); [intros []|].
  apply res_bind_no_null; [apply primary_column_no_null|]. intros c. apply IH.
Qed.

Lemma write_columns_guarded st cs ns fuel block perm pcs pos : forall cols oc,
  (forall it c, it ∈ cols -> getByName block (nt_name it) = Ok c ->
     covered cs ns (name c) (type c) 0) ->
  guarded (tabled st cs ns) (write_columns fuel cols block perm pcs pos oc).
Proof.
  induction cols as [|it cols IH]; intros oc Hcov; simpl; [apply guarded_ret|].
  apply guarded_bind_res; [apply getByName_no_null|]. intros c Hc.
  apply guarded_bind.
  { destruct perm as [p|]; [|apply guarded_ret].
    destruct (pos !! nt_name it) as [position|].
    - destruct (pcs !! Z.to_nat position); [apply guarded_ret | apply guarded_undefined_range].
    - apply guarded_lift_res, permute_no_null. }
  intros data. apply guarded_bind.
  { apply writeData_guarded. apply (Hcov it c); [left | exact Hc]. }
  intros oc'. apply IH. intros it' c' Hit'. apply Hcov. right. exact Hit'.
Qed.

Lemma write_block_columns_guarded st cs ns fuel : forall cols oc,
  (forall c, c ∈ cols -> covered cs ns (name c) (type c) 0) ->
  guarded (tabled st cs ns) (write_block_columns fuel cols oc).
Proof.
  induction cols as [|c cols IH]; intros oc Hcov; simpl; [apply guarded_ret|].
  apply guarded_bind; [apply writeData_guarded, Hcov; left|].
  intros oc'. apply IH. intros c' Hc'. apply Hcov. right. exact Hc'.
Qed.

Lemma advance_index_offset_guarded st cs ns rows_ :
  guarded (tabled st cs ns) (advance_index_offset rows_).
Proof.
  intros b r b' Hb. unfold advance_index_offset, bind, get, size_mod, undefined, ret, modify.
  destruct (_ =? 0); simpl.
  - intros E. injection E as <- <-. split; [intros [] | exact Hb].
  - intros E. injection E as <- <-. split; [intros [] | exact Hb].
Qed.

Lemma write_index_entry_guarded st cols cs ns i j pc :
  is_unsorted (merging_mode st) = false ->
  guarded (full_tabled st cols cs ns) (write_index_entry i j pc).
Proof.
  intros Hmode w r w' Hw. pose proof Hw as (Hb & Hcols & Hidx).
  unfold write_index_entry, bind, get, modify, undefined.
  destruct (index_columns w !! j); [|intros E; injection E as <- <-; split; [intros []|exact Hw]].
  destruct (column_row _ _); [|intros E; injection E as <- <-; split; [intros []|exact Hw]].
  destruct (Hidx Hmode) as [bytes Hbytes]. rewrite Hbytes. simpl.
  intros E. injection E as <- <-. split; [intros []|].
  split; [exact Hb|]. split; [exact Hcols|]. intros _. simpl. eauto.
Qed.

Lemma write_index_entries_guarded st cols cs ns i pcs :
  is_unsorted (merging_mode st) = false ->
  forall j, guarded (full_tabled st cols cs ns) (write_index_entries i j pcs).
Proof.
  intros Hmode. induction pcs as [|pc pcs IH]; intros j; simpl; [apply guarded_ret|].
  apply guarded_bind; [apply write_index_entry_guarded, Hmode | intros _; apply IH].
Qed.

Lemma write_index_guarded st cols cs ns fuel g rows_ pcs :
  forall i, guarded (full_tabled st cols cs ns) (write_index fuel g rows_ pcs i).
Proof.
  induction fuel as [|fuel IH]; intros i; simpl.
  - destruct (i <? rows_); [|apply guarded_ret].
    intros w r w' Hw E. injection E as <- <-. split; [intros [] | exact Hw].
  - destruct (i <? rows_); [|apply guarded_ret].
    intros w r w' Hw. pose proof Hw as ((Hst & _) & _).
    unfold bind at 1, get at 1. revert r w' Hw. 
    apply (fun Hm Hk => guarded_bind (full_tabled st cols cs ns) _ _ Hm Hk w).
    + destruct (is_unsorted (merging_mode (storage (base w)))) eqn:Hmode; simpl;
        [apply guarded_ret|].
      apply write_index_entries_guarded. rewrite <- Hst. exact Hmode.
    + intros _. apply guarded_bind; [|intros _; apply IH].
      apply guarded_modify. intros s Hs. exact Hs.
Qed.


Lemma in_base_guarded {A} st cols cs ns (m : M IMergedBlockOutputStream A) :
  guarded (tabled st cs ns) m -> guarded (full_tabled st cols cs ns) (in_base m).
Proof.
  apply guarded_zoom.
  - intros s (Hb & _). exact Hb.
  - intros s c (_ & Hcols & Hidx) Hc. split; [exact Hc|]. split; assumption.
Qed.

Lemma in_only_base_guarded {A} st cs ns (m : M IMergedBlockOutputStream A) :
  guarded (tabled st cs ns) m -> guarded (only_tabled st cs ns) (in_only_base m).
Proof.
  apply guarded_zoom.
  - intros s (Hb & _). exact Hb.
  - intros s c (_ & Hi) Hc. split; assumption.
Qed.

Lemma writeImpl_guarded st cols cs ns fuel block perm :
  (forall it, it ∈ cols -> covered cs ns (nt_name it) (nt_type it) 0) ->
  typed_as cols block ->
  guarded (full_tabled st cols cs ns) (writeImpl fuel block perm).
Proof.
  intros Hcov Htyped w r w' Hw. pose proof Hw as (_ & Hcols & _).
  unfold writeImpl. unfold bind at 1, get at 1. revert r w' Hw.
  apply (fun Hm Hk => guarded_bind (full_tabled st cols cs ns) _ _ Hm Hk w).
  { apply guarded_lift_res, resolve_primary_columns_no_null. }
  intros [pcs pos]. apply guarded_bind.
  { destruct (index_columns w); [|apply guarded_ret].
    apply guarded_modify. intros s Hs. exact Hs. }
  intros _. apply guarded_bind.
  { apply in_base_guarded, write_columns_guarded. rewrite Hcols.
    intros it c Hit Hc. rewrite (getByName_name _ _ _ Hc), (Htyped it c Hit Hc).
    apply Hcov, Hit. }
  intros _. apply guarded_bind; [apply write_index_guarded|].
  intros _. apply in_base_guarded, advance_index_offset_guarded.
Qed.

Lemma add_streams_cover path (estimated : NameAndTypePair -> Z) : forall cols w r w',
  for_each cols (fun it =>
    in_base (addStream path (nt_name it) (nt_type it) (estimated it) 0 "")) w = (r, w') ->
  dom (column_streams (base w)) ⊆ dom (column_streams (base w'))
  /\ dom (null_streams (base w)) ⊆ dom (null_streams (base w'))
  /\ forall it, it ∈ cols ->
       covered (dom (column_streams (base w'))) (dom (null_streams (base w')))
         (nt_name it) (nt_type it) 0.
Proof.
  induction cols as [|it cols IH]; intros w r w' E; simpl in E.
  - injection E as <- <-. split; [reflexivity|]. split; [reflexivity|].
    intros it Hit. by apply elem_of_nil in Hit.
  - unfold bind in E.
    destruct (in_base _ w) as [r1 w1] eqn:E1.
    apply zoom_run in E1 as (b1 & E1 & ->).
    pose proof (addStream_total path (nt_name it) (nt_type it) (estimated it) 0 "" (base w))
      as ([] & b1' & Et).
    rewrite Et in E1. injection E1 as <- <-.
    apply addStream_covers in Et as (Hc & Hn & _ & Hcov).
    apply IH in E as (Hc' & Hn' & Hcov'). simpl in Hc', Hn'.
    split; [etransitivity; eassumption|]. split; [etransitivity; eassumption|].
    intros it' Hit'. apply elem_of_cons in Hit' as [->|Hit']; [|apply Hcov', Hit'].
    eapply covered_mono; [exact Hc' | exact Hn' | exact Hcov].
Qed.

Lemma add_block_streams_cover path : forall (cols : Block) w r w',
  for_each cols (fun c => in_only_base (addStream path (name c) (type c) 0 0 (name c))) w
  = (r, w') ->
  r = Ok tt
  /\ initialized w' = initialized w
  /\ storage (only_base w') = storage (only_base w)
  /\ dom (column_streams (only_base w)) ⊆ dom (column_streams (only_base w'))
  /\ dom (null_streams (only_base w)) ⊆ dom (null_streams (only_base w'))
  /\ forall c, c ∈ cols ->
       covered (dom (column_streams (only_base w'))) (dom (null_streams (only_base w')))
         (name c) (type c) 0.
Proof.
  induction cols as [|c cols IH]; intros w r w' E; simpl in E.
  - injection E as <- <-. repeat split; try reflexivity.
    intros c Hc. by apply elem_of_nil in Hc.
  - unfold bind in E.
    destruct (in_only_base _ w) as [r1 w1] eqn:E1.
    apply zoom_run in E1 as (b1 & E1 & ->).
    pose proof (addStream_total path (name c) (type c) 0 0 (name c) (only_base w))
      as ([] & b1' & Et).
    rewrite Et in E1. injection E1 as <- <-.
    pose proof (addStream_settings _ _ _ _ _ _ _ _ _ Et) as [Hst _ _ _ _].
    apply addStream_covers in Et as (Hc & Hn & _ & Hcov).
    apply IH in E as (-> & Hi & Hst' & Hc' & Hn' & Hcov'). simpl in Hc', Hn', Hi, Hst'.
    split; [reflexivity|]. split; [exact Hi|]. split; [congruence|].
    split; [etransitivity; eassumption|]. split; [etransitivity; eassumption|].
    intros c' Hc0. apply elem_of_cons in Hc0 as [->|Hc0]; [|apply Hcov', Hc0].
    eapply covered_mono; [exact Hc' | exact Hn' | exact Hcov].
Qed.

Lemma constructed_ok {S} (x : Res unit * S) w : constructed x = Ok w -> x = (Ok tt, w).
Proof. destruct x as [[[]|f] s]; simpl; intros E; inversion E; reflexivity. Qed.

Lemma MergedBlockOutputStream_new_covers storage_ path cols method fs w0 :
  MergedBlockOutputStream_new storage_ path cols method fs = Ok w0 ->
  forall it, it ∈ cols ->
    covered (dom (column_streams (base w0))) (dom (null_streams (base w0)))
      (nt_name it) (nt_type it) 0.
Proof.
  intros E. unfold MergedBlockOutputStream_new in E. apply constructed_ok in E.
  apply bind_ok in E as ([] & w1 & _ & E).
  apply (add_streams_cover path (fun _ => 0)) in E as (_ & _ & Hcov). exact Hcov.
Qed.

Lemma only_write_guarded st cs ns fuel block :
  (forall c, c ∈ block -> covered cs ns (name c) (type c) 0) ->
  guarded (only_tabled st cs ns) (only_write fuel block).
Proof.
  intros Hcov w r w' Hw. pose proof Hw as (_ & Hi).
  unfold only_write. unfold bind at 1, get at 1. rewrite Hi. simpl.
  revert r w' Hw. apply (fun Hm Hk => guarded_bind (only_tabled st cs ns) _ _ Hm Hk w).
  { apply guarded_ret. }
  intros _. apply guarded_bind.
  { apply in_only_base_guarded, write_block_columns_guarded, Hcov. }
  intros _. apply in_only_base_guarded, advance_index_offset_guarded.
Qed.

Lemma only_write_first fuel block w r w' :
  initialized w = false ->
  only_write fuel block w = (r, w') ->
  ~ null_dereferenced r
  /\ exists cs ns,
       only_tabled (storage (only_base w)) cs ns w'
       /\ forall c, c ∈ block -> covered cs ns (name c) (type c) 0.
Proof.
  intros Hi. unfold only_write. unfold bind at 1, get at 1. rewrite Hi. simpl.
  unfold bind at 1. unfold bind at 1.
  destruct (in_only_base (modify _) w) as [r0 w0] eqn:E0.
  apply zoom_run in E0 as (b0 & E0 & ->). injection E0 as <- <-.
  unfold bind at 1.
  destruct (for_each block _ _) as [r1 w1] eqn:E1.
  apply add_block_streams_cover in E1 as (-> & _ & Hst & _ & _ & Hcov). simpl in Hst.
  unfold modify at 1.
  set (cs := dom (column_streams (only_base w1))) in *.
  set (ns := dom (null_streams (only_base w1))) in *.
  intros E.
  assert (only_tabled (storage (only_base w)) cs ns (set_initialized true w1)) as Hw.
  { split; [|reflexivity]. split; [exact Hst|]. split; reflexivity. }
  assert (guarded (only_tabled (storage (only_base w)) cs ns)
            (bind (in_only_base (write_block_columns fuel block ∅))
               (fun _ => in_only_base (advance_index_offset (block_rows block))))) as Hg.
  { apply guarded_bind.
    - apply in_only_base_guarded, write_block_columns_guarded, Hcov.
    - intros _. apply in_only_base_guarded, advance_index_offset_guarded. }
  destruct (Hg _ _ _ Hw E) as [Hr Hw']. split; [exact Hr|]. exists cs, ns. split; assumption.
Qed.

End NoNullStream.

Section NoNullStreamDereferenced.
Context `{Collaborators}.

(** X2. A null stream pointer is never dereferenced by the writes that
    follow a construction, successful or not, provided the blocks hold the
    columns under the types they were declared with: for the full
    assembler, every listed column that a block holds has the type of the
    column list; for the append-only assembler, whose streams are those of
    the first block, every column of a later block has the name and type of
    a column of the first one. *)
Theorem writes_dereference_no_null_stream :
  (forall storage_ path cols method fs fuel blocks w0 r w,
     MergedBlockOutputStream_new storage_ path cols method fs = Ok w0 ->
     (forall bp, bp ∈ blocks -> typed_as cols bp.1) ->
     writes fuel blocks w0 = (r, w) ->
     ~ null_dereferenced r)
  /\ (forall storage_ path sync_ method fs fuel first rest r w,
        (forall b c, b ∈ rest -> c ∈ b ->
           exists c0, c0 ∈ first /\ name c0 = name c /\ type c0 = type c) ->
        only_writes fuel (first :: rest)
          (MergedColumnOnlyOutputStream_new storage_ path sync_ method fs) = (r, w) ->
        ~ null_dereferenced r).
Proof.
  split.
  - intros storage_ path cols method fs fuel blocks w0 r w Hnew Htyped E.
    pose proof (MergedBlockOutputStream_new_covers _ _ _ _ _ _ Hnew) as Hcov.
    destruct (MergedBlockOutputStream_new_run storage_ path cols method fs)
      as (w0' & E' & Hs & _ & _ & _ & _ & _ & Hcols & _ & _ & Hidx).
    rewrite Hnew in E'. inversion E'; subst w0'; clear E'.
    set (cs := dom (column_streams (base w0))) in *.
    set (ns := dom (null_streams (base w0))) in *.
    assert (guarded (full_tabled storage_ cols cs ns) (writes fuel blocks)) as Hg.
    { apply guarded_for_each. intros bp Hbp. apply writeImpl_guarded; [exact Hcov|].
      apply Htyped, Hbp. }
    refine (proj1 (Hg _ _ _ _ E)). split; [|split; [exact Hcols|]].
    + split; [exact Hs|]. split; reflexivity.
    + intros Hmode. rewrite Hidx, Hmode. eauto.
  - intros storage_ path sync_ method fs fuel first rest r w Hsame E.
    unfold only_writes in E. simpl in E. unfold bind in E.
    destruct (only_write fuel first _) as [r1 w1] eqn:E1.
    apply only_write_first in E1 as (Hr1 & cs & ns & Hw1 & Hcov); [|reflexivity].
    destruct r1 as [[]|f]; [|injection E as <- <-; exact Hr1].
    assert (guarded (only_tabled storage_ cs ns) (for_each rest (only_write fuel))) as Hg.
    { apply guarded_for_each. intros b Hb. apply only_write_guarded.
      intros c Hc. destruct (Hsame b c Hb Hc) as (c0 & Hc0 & <- & <-). apply Hcov, Hc0. }
    exact (proj1 (Hg _ _ _ Hw1 E)).
Qed.

End NoNullStreamDereferenced.

Section NoNullStreamDereferencedWitness.
Import Reference Sample.
#[local] Existing Instance Reference.collaborators.

Lemma writes_dereference_no_null_stream_witness :
  ~ null_dereferenced (writes 9 [(five_rows, None); (no_rows, None)] full8).1
  /\ ~ null_dereferenced (only_writes 9 [five_rows; no_rows] only8).1.
Proof.
  destruct writes_dereference_no_null_stream as [Hfull Honly]. split.
  - apply (Hfull t8 "part/" n_columns LZ4 empty_fs 9%nat [(five_rows, None); (no_rows, None)]
             full8 _ (writes 9 [(five_rows, None); (no_rows, None)] full8).2).
    + vm_compute. reflexivity.
    + intros bp Hbp it c Hit Hc.
      apply elem_of_cons in Hit as [->|Hit]; [|by apply elem_of_nil in Hit].
      apply elem_of_cons in Hbp as [->|Hbp].
      { vm_compute in Hc. injection Hc as <-. reflexivity. }
      apply elem_of_cons in Hbp as [->|Hbp]; [|by apply elem_of_nil in Hbp].
      vm_compute in Hc. injection Hc as <-. reflexivity.
    + apply surjective_pairing.
  - apply (Honly t8 "part/" false LZ4 empty_fs 9%nat five_rows [no_rows] _
             (only_writes 9 [five_rows; no_rows] only8).2).
    + intros b c Hb Hc.
      apply elem_of_cons in Hb as [->|Hb]; [|by apply elem_of_nil in Hb].
      apply elem_of_cons in Hc as [->|Hc]; [|by apply elem_of_nil in Hc].
      exists (uint8 "n" [1; 2; 3; 4; 5]). split; [left|]. split; reflexivity.
    + apply surjective_pairing.
Defined.

(** The types matter: a block that holds [n] as a nullable column, in a
    part whose column list declares [n : UInt8], sends [writeData] to the
    null-map stream of [n], which was never created. *)
Example mistyped_block_dereferences_null :
  (write 9 [ {| column := ColumnNullable (ColumnVector [1]) (ColumnVector [0]);
                type := DataTypeNullable DataTypeUInt8; name := "n" |} ] full8).1
  = Fail (UndefinedBehaviour NullDereference).
Proof. vm_compute. reflexivity. Qed.

End NoNullStreamDereferencedWitness.

(** ** The full assembler after its commit *)

Section AfterCommit.
Context `{Collaborators}.

Lemma writeData_without_streams fuel : forall t name_ c oc level b oc' b',
  column_streams b = ∅ -> null_streams b = ∅ ->
  writeData fuel name_ t c oc level b <> (Ok oc', b').
Proof.
  intros t name_ c oc level b oc' b' Hc Hn E.
  destruct t as [p|t|t]; simpl in E.
  - apply bind_ok in E as ([] & b1 & E & _).
    unfold write_column_stream in E. rewrite Hc, lookup_empty in E. discriminate.
  - destruct c; try discriminate.
    apply bind_ok in E as ([] & b1 & E & _).
    unfold write_null_stream in E. rewrite Hn, lookup_empty in E. discriminate.
  - apply bind_ok in E as (oc1 & b1 & E1 & E).
    destruct (decide _).
    + injection E1 as <- <-. apply bind_ok in E as ([] & b2 & E & _).
      unfold write_column_stream in E. rewrite Hc, lookup_empty in E. discriminate.
    + apply bind_ok in E1 as ([] & b2 & E1 & _).
      unfold write_column_stream in E1. rewrite Hc, lookup_empty in E1. discriminate.
Qed.

Lemma writeImpl_without_streams fuel block perm w :
  column_streams (base w) = ∅ -> null_streams (base w) = ∅ -> columns_list w <> [] ->
  is_ok (writeImpl fuel block perm w).1 = false.
Proof.
  intros Hc Hn Hcols.
  destruct (writeImpl fuel block perm w) as [[[]|f] w'] eqn:E; [|reflexivity].
  exfalso. unfold writeImpl in E.
  apply bind_ok in E as (w0 & s0 & E0 & E). injection E0 as <- <-.
  apply bind_ok in E as ([pcs pos] & s1 & E1 & E).
  unfold lift_res in E1. injection E1 as _ <-.
  apply bind_ok in E as ([] & s2 & E2 & E).
  assert (base s2 = base w) as Hb2.
  { destruct (index_columns w); injection E2 as <-; reflexivity. }
  apply bind_ok in E as (oc & s3 & E3 & _).
  apply zoom_run in E3 as (b3 & E3 & _). rewrite Hb2 in E3.
  destruct (columns_list w) as [|it cols]; [congruence|]. simpl in E3.
  apply bind_ok in E3 as (c & b4 & E4 & E3).
  unfold lift_res in E4. injection E4 as _ <-.
  apply bind_ok in E3 as (data & b5 & E5 & E3).
  assert (b5 = base w) as ->.
  { destruct perm as [p|]; [|injection E5 as _ <-; reflexivity].
    destruct (pos !! nt_name it).
    - destruct (pcs !! _); [injection E5 as _ <-; reflexivity | discriminate].
    - unfold lift_res in E5. injection E5 as _ <-. reflexivity. }
  apply bind_ok in E3 as (oc' & b6 & E6 & _).
  exact (writeData_without_streams _ _ _ _ _ _ _ _ _ Hc Hn E6).
Qed.

Lemma commit_opened_index w checksums w' :
  writeSuffixAndGetChecksums w = (Ok checksums, w') ->
  is_unsorted (merging_mode (storage (base w))) = false -> is_Some (index_stream w).
Proof.
  intros E Hmode. destruct (index_stream w) as [bytes|] eqn:Ei; [eauto|].
  exfalso. unfold writeSuffixAndGetChecksums in E.
  unfold bind at 1, get at 1 in E. rewrite Hmode, Ei in E. discriminate.
Qed.

Lemma commit_state w checksums w' :
  writeSuffixAndGetChecksums w = (Ok checksums, w') ->
  exists fs, w' = committed w fs.
Proof.
  intros E. pose proof (writeSuffixAndGetChecksums_run w (commit_opened_index _ _ _ E)) as Hrun.
  cbn zeta in Hrun. destruct (flushed w _) as [c fs]. rewrite Hrun in E.
  destruct (marks_count w =? 0); injection E as _ <-; eauto.
Qed.

(** X3. The full assembler is used up by its commit.  When
    [writeSuffixAndGetChecksums] returns, both stream tables are empty and,
    in a sorted mode, the index stream is null: from then on no [write] (or
    [writeWithPermutation]) of a part with at least one listed column
    returns, and in a sorted mode a second commit dereferences the null
    index stream, leaving the state as it is. *)
Theorem full_assembler_is_used_up_by_commit
    (w w' : MergedBlockOutputStream) (checksums : Checksums) :
  writeSuffixAndGetChecksums w = (Ok checksums, w') ->
  column_streams (base w') = ∅ /\ null_streams (base w') = ∅
  /\ (columns_list w <> [] ->
      forall fuel block permutation,
        is_ok (writeWithPermutation fuel block permutation w').1 = false
        /\ is_ok (write fuel block w').1 = false)
  /\ (is_unsorted (merging_mode (storage (base w))) = false ->
      index_stream w' = None
      /\ writeSuffixAndGetChecksums w' = (Fail (UndefinedBehaviour NullDereference), w')).
Proof.
  intros E. destruct (commit_state _ _ _ E) as [fs ->].
  split; [reflexivity|]. split; [reflexivity|]. split.
  - intros Hcols fuel block perm.
    split; apply writeImpl_without_streams; try reflexivity; exact Hcols.
  - intros Hmode. unfold committed. simpl. rewrite Hmode. split; [reflexivity|].
    unfold writeSuffixAndGetChecksums. unfold bind at 1, get at 1. simpl.
    rewrite Hmode. reflexivity.
Qed.

End AfterCommit.

Section AfterCommitWitness.
Import Reference Sample.
#[local] Existing Instance Reference.collaborators.

Lemma full_assembler_is_used_up_by_commit_witness :
  let w := (write 9 five_rows full8).2 in
  let w' := (writeSuffixAndGetChecksums w).2 in
  is_ok (write 9 five_rows w').1 = false
  /\ writeSuffixAndGetChecksums w' = (Fail (UndefinedBehaviour NullDereference), w').
Proof.
  intros w w'.
  destruct (full_assembler_is_used_up_by_commit w w'
              (from_ok (writeSuffixAndGetChecksums w).1 ∅)) as (_ & _ & Hwrite & Hcommit).
  - vm_compute. reflexivity.
  - split.
    + refine (proj2 (Hwrite _ 9%nat five_rows None)). vm_compute. intros ?. discriminate.
    + apply Hcommit. vm_compute. reflexivity.
Defined.

End AfterCommitWitness.

(** ** Blocks without rows *)

Section EmptyBlock.
Context `{Collaborators}.

Lemma set_column_streams_id key s (b : IMergedBlockOutputStream) :
  column_streams b !! key = Some s ->
  set_column_streams (<[key := s]> (column_streams b)) b = b.
Proof. intros E. destruct b. unfold set_column_streams. simpl in *. by rewrite insert_id. Qed.

Lemma set_null_streams_id key s (b : IMergedBlockOutputStream) :
  null_streams b !! key = Some s ->
  set_null_streams (<[key := s]> (null_streams b)) b = b.
Proof. intros E. destruct b. unfold set_null_streams. simpl in *. by rewrite insert_id. Qed.

Lemma write_column_stream_empty fuel key ser size b b' :
  size <= 0 -> write_column_stream fuel key ser size b = (Ok tt, b') -> b' = b.
Proof.
  intros Hsize. unfold write_column_stream.
  destruct (column_streams b !! key) as [s|] eqn:Es; [|discriminate].
  rewrite write_granules_done by exact Hsize. intros E. injection E as <-.
  apply set_column_streams_id, Es.
Qed.

Lemma write_null_stream_empty fuel key ser size b b' :
  size <= 0 -> write_null_stream fuel key ser size b = (Ok tt, b') -> b' = b.
Proof.
  intros Hsize. unfold write_null_stream.
  destruct (null_streams b !! key) as [s|] eqn:Es; [|discriminate].
  rewrite write_granules_done by exact Hsize. intros E. injection E as <-.
  apply set_null_streams_id, Es.
Qed.

Lemma writeData_empty fuel : forall t name_ c oc level b oc' b',
  column_size c = 0 ->
  writeData fuel name_ t c oc level b = (Ok oc', b') -> b' = b.
Proof.
  induction t as [p|t IH|t IH]; intros name_ c oc level b oc' b' Hsize E; simpl in E.
  - apply bind_ok in E as ([] & b1 & E1 & E). injection E as _ <-.
    apply write_column_stream_empty in E1; [exact E1 | lia].
  - destruct c as [|nested null_map_|]; try discriminate.
    apply bind_ok in E as ([] & b1 & E1 & E).
    apply write_null_stream_empty in E1 as ->; [|lia].
    apply IH in E; [exact E | exact Hsize].
  - apply bind_ok in E as (oc1 & b1 & E1 & E).
    apply bind_ok in E as ([] & b2 & E2 & E). injection E as _ <-.
    apply write_column_stream_empty in E2 as ->; [|lia].
    destruct (decide _); [injection E1 as _ <-; reflexivity|].
    apply bind_ok in E1 as ([] & b3 & E1 & E). injection E as _ <-.
    apply write_column_stream_empty in E1; [exact E1 | lia].
Qed.

Lemma write_block_columns_empty fuel : forall cols oc b oc' b',
  Forall (fun c => column_size (column c) = 0) cols ->
  write_block_columns fuel cols oc b = (Ok oc', b') -> b' = b.
Proof.
  induction cols as [|c cols IH]; intros oc b oc' b' Hcols E; simpl in E.
  - injection E as _ <-. reflexivity.
  - apply Forall_cons in Hcols as [Hc Hcols].
    apply bind_ok in E as (oc1 & b1 & E1 & E).
    apply writeData_empty in E1 as ->; [|exact Hc]. apply IH in E; assumption.
Qed.

Lemma primary_column_size (Q : Z -> Prop) block perm d c :
  Forall (fun c => Q (column_size (column c))) block ->
  primary_column block perm d = Ok c -> Q (column_size (column c)).
Proof.
  intros Hblock. rewrite Forall_forall in Hblock. unfold primary_column.
  assert (forall r, (forall c0, r = Ok c0 -> c0 ∈ block) ->
          res_bind r
            (fun c0 => match perm with
                       | Some p => res_bind (permute (column c0) p)
                                     (fun col => Ok (with_column c0 col))
                       | None => Ok c0
                       end) = Ok c -> Q (column_size (column c))) as Hgen.
  { intros [c0|f] Hc0; simpl; [|discriminate]. specialize (Hc0 c0 eq_refl).
    destruct perm as [p|].
    - destruct (permute (column c0) p) as [col|] eqn:Ep; simpl; [|discriminate].
      intros E. injection E as <-. simpl. rewrite (permute_size _ _ _ Ep). apply Hblock, Hc0.
    - intros E. injection E as <-. apply Hblock, Hc0. }
  destruct (nonempty (column_name d)).
  - apply Hgen, getByName_elem.
  - apply Hgen, getByPosition_elem.
Qed.

Lemma resolve_primary_columns_sizes (Q : Z -> Prop) block perm :
  Forall (fun c => Q (column_size (column c))) block ->
  forall descrs i pcs pos pcs' pos',
    Forall (fun c => Q (column_size (column c))) pcs ->
    resolve_primary_columns descrs block perm i pcs pos = Ok (pcs', pos') ->
    Forall (fun c => Q (column_size (column c))) pcs'
    /\ length pcs' = (length pcs + length descrs)%nat.
Proof.
  intros Hblock. induction descrs as [|d descrs IH]; intros i pcs pos pcs' pos' Hpcs E;
    simpl in E.
  - injection E as <- <-. split; [exact Hpcs | simpl; lia].
  - destruct (descr_name block d) as [n|]; simpl in E; [|discriminate].
    destruct (pos !! n); [discriminate|].
    destruct (primary_column block perm d) as [c|] eqn:Ec; simpl in E; [|discriminate].
    apply IH in E as [HQ Hlen].
    + split; [exact HQ|]. rewrite Hlen, length_app. simpl. lia.
    + apply Forall_app. split; [exact Hpcs|]. constructor; [|constructor].
      exact (primary_column_size Q block perm d c Hblock Ec).
Qed.

Lemma write_columns_empty fuel block perm pcs pos : forall cols oc b oc' b',
  Forall (fun c => column_size (column c) = 0) block ->
  Forall (fun c => column_size (column c) = 0) pcs ->
  write_columns fuel cols block perm pcs pos oc b = (Ok oc', b') -> b' = b.
Proof.
  intros cols oc b oc' b' Hblock Hpcs. revert oc b.
  induction cols as [|it cols IH]; intros oc b E; simpl in E.
  - injection E as _ <-. reflexivity.
  - apply bind_ok in E as (c & b1 & E1 & E).
    unfold lift_res in E1. injection E1 as Ec <-.
    apply bind_ok in E as (data & b2 & E2 & E).
    assert (b2 = b /\ column_size data = 0) as [-> Hdata].
    { rewrite Forall_forall in Hblock, Hpcs. apply getByName_elem in Ec.
      destruct perm as [p|]; [|injection E2 as <- <-; split; [reflexivity | apply Hblock, Ec]].
      destruct (pos !! nt_name it) as [position|].
      - destruct (pcs !! Z.to_nat position) as [pc|] eqn:Epc; [|discriminate].
        injection E2 as <- <-. split; [reflexivity|].
        apply Hpcs. eapply list_elem_of_lookup_2, Epc.
      - unfold lift_res in E2. injection E2 as Ep <-. split; [reflexivity|].
        rewrite (permute_size _ _ _ Ep). apply Hblock, Ec. }
    apply bind_ok in E as (oc1 & b3 & E3 & E).
    apply writeData_empty in E3 as ->; [|exact Hdata]. apply IH in E. exact E.
Qed.

Lemma map_const_length {A B C} (c : C) : forall (l : list A) (l' : list B),
  length l = length l' -> map (fun _ => c) l = map (fun _ => c) l'.
Proof.
  induction l as [|a l IH]; intros [|b l'] Hlen; simpl in *; try discriminate; [reflexivity|].
  f_equal. apply IH. lia.
Qed.

Lemma block_rows_empty block :
  Forall (fun c => column_size (column c) = 0) block -> block_rows block = 0.
Proof. destruct block as [|c block]; [reflexivity|]. intros Hb. by inversion Hb. Qed.

Lemma next_index_offset_same g io : 0 < g -> 0 <= io < g -> next_index_offset g io 0 = io.
Proof.
  intros Hg Hio. unfold next_index_offset. rewrite Z.add_0_r.
  destruct (Z.eq_dec io 0) as [->|Hne].
  - rewrite Z.sub_0_r, Z.mod_same, Z.sub_0_r, Z.mod_same by lia. reflexivity.
  - rewrite (Z.mod_small (g - io)) by lia. rewrite Z.mod_small by lia. lia.
Qed.

Lemma set_index_offset_id (b : IMergedBlockOutputStream) :
  set_index_offset (index_offset b) b = b.
Proof. destruct b. reflexivity. Qed.

Lemma advance_index_offset_empty b :
  0 < index_granularity (storage b) < 2 ^ 64 ->
  0 <= index_offset b < index_granularity (storage b) ->
  advance_index_offset 0 b = (Ok tt, b).
Proof.
  intros Hg Hio. rewrite advance_index_offset_run by lia.
  rewrite next_index_offset_same by lia. rewrite set_index_offset_id. reflexivity.
Qed.

(** X4. A block without rows changes nothing that is written.  When every
    column of the block is empty, the granularity is positive and the
    carried offset is below it, a [write] or [writeWithPermutation] of the
    full assembler that returns leaves the streams, the file system, the
    carried offset, the marks counter and the index stream as they were: the
    only change is that [index_columns], if still unsized, gets one empty
    column per sort-key column.  A [write] of the append-only assembler
    whose streams exist already leaves the whole object as it was. *)
Theorem empty_block_changes_nothing :
  (forall fuel block permutation (w w' : MergedBlockOutputStream),
     0 < index_granularity (storage (base w)) < 2 ^ 64 ->
     0 <= index_offset (base w) < index_granularity (storage (base w)) ->
     Forall (fun c => column_size (column c) = 0) block ->
     writeWithPermutation fuel block permutation w = (Ok tt, w') ->
     w' = set_index_columns
            (match index_columns w with
             | [] => map (fun _ => []) (sort_description (storage (base w)))
             | index_columns_ => index_columns_
             end) w)
  /\ (forall fuel block (w w' : MergedColumnOnlyOutputStream),
        0 < index_granularity (storage (only_base w)) < 2 ^ 64 ->
        0 <= index_offset (only_base w) < index_granularity (storage (only_base w)) ->
        initialized w = true ->
        Forall (fun c => column_size (column c) = 0) block ->
        only_write fuel block w = (Ok tt, w') ->
        w' = w).
Proof.
  split.
  - intros fuel block perm w w' Hg Hio Hblock E.
    unfold writeWithPermutation, writeImpl in E.
    apply bind_ok in E as (w0 & s0 & E0 & E). injection E0 as <- <-.
    apply bind_ok in E as ([pcs pos] & s1 & E1 & E).
    unfold lift_res in E1. injection E1 as Er <-.
    apply (resolve_primary_columns_sizes (fun z => z = 0) block perm Hblock) in Er
      as [Hpcs Hlen]; [|constructor]. simpl in Hlen.
    apply bind_ok in E as ([] & s2 & E2 & E).
    assert (s2 = set_index_columns
                   (match index_columns w with
                    | [] => map (fun _ => []) (sort_description (storage (base w)))
                    | index_columns_ => index_columns_
                    end) w) as ->.
    { destruct (index_columns w) eqn:Eic.
      - injection E2 as <-. f_equal. apply map_const_length, Hlen.
      - injection E2 as <-. destruct w. simpl in *. subst. reflexivity. }
    apply bind_ok in E as (oc & s3 & E3 & E).
    apply zoom_run in E3 as (b3 & E3 & ->).
    apply write_columns_empty in E3 as ->; [|exact Hblock|exact Hpcs]. simpl in E.
    rewrite block_rows_empty in E by exact Hblock.
    apply bind_ok in E as ([] & s4 & E4 & E).
    rewrite write_index_done in E4 by lia. injection E4 as <-.
    apply zoom_run in E as (b5 & E & ->). simpl in E.
    rewrite advance_index_offset_empty in E by assumption. injection E as <-.
    destruct w. reflexivity.
  - intros fuel block w w' Hg Hio Hinit Hblock E. unfold only_write in E.
    apply bind_ok in E as (w0 & s0 & E0 & E). injection E0 as <- <-.
    rewrite Hinit in E. simpl in E.
    apply bind_ok in E as ([] & s1 & E1 & E). injection E1 as <-.
    apply bind_ok in E as (oc & s2 & E2 & E).
    apply zoom_run in E2 as (b2 & E2 & ->).
    apply write_block_columns_empty in E2 as ->; [|exact Hblock].
    rewrite block_rows_empty in E by exact Hblock.
    apply zoom_run in E as (b3 & E & ->). simpl in E.
    rewrite advance_index_offset_empty in E by assumption. injection E as <-.
    destruct w. reflexivity.
Qed.

End EmptyBlock.

Section EmptyBlockWitness.
Import Reference Sample.
#[local] Existing Instance Reference.collaborators.

Lemma empty_block_changes_nothing_witness :
  (write 9 no_rows full8).2 = set_index_columns [[]] full8
  /\ (only_write 9 no_rows (only_write 9 five_rows only8).2).2 = (only_write 9 five_rows only8).2.
Proof.
  destruct empty_block_changes_nothing as [Hfull Honly]. split.
  - apply (Hfull 9%nat no_rows None full8 (write 9 no_rows full8).2).
    + vm_compute. split; reflexivity.
    + vm_compute. split; [discriminate | reflexivity].
    + repeat constructor.
    + vm_compute. reflexivity.
  - apply (Honly 9%nat no_rows).
    + vm_compute. split; reflexivity.
    + vm_compute. split; [discriminate | reflexivity].
    + vm_compute. reflexivity.
    + repeat constructor.
    + vm_compute. reflexivity.
Defined.

End EmptyBlockWitness.

(** ** The primary index *)

Section IndexContent.
Context `{Collaborators}.

Lemma write_index_entry_run i j pc w w' :
  write_index_entry i j pc w = (Ok tt, w') ->
  exists rows_ row bytes,
    index_columns w !! j = Some rows_
    /\ column_row (column pc) i = Some row
    /\ index_stream w = Some bytes
    /\ w' = set_index_stream (Some (bytes ++ serializeBinaryValue (type pc) (column pc) i))
              (set_index_columns (<[j := rows_ ++ [row]]> (index_columns w)) w).
Proof.
  unfold write_index_entry, bind, get, modify, undefined.
  destruct (index_columns w !! j) as [rows_|]; [|discriminate].
  destruct (column_row _ _) as [row|]; [|discriminate]. simpl.
  destruct (index_stream w) as [bytes|]; [|discriminate].
  intros E. injection E as <-. eauto 10.
Qed.

Lemma write_index_entries_stream i : forall pcs j w w',
  write_index_entries i j pcs w = (Ok tt, w') ->
  index_stream w' = (fun bytes => bytes ++ index_entry_bytes pcs i) <$> index_stream w.
Proof.
  induction pcs as [|pc pcs IH]; intros j w w' E; simpl in E.
  - injection E as <-. unfold index_entry_bytes. simpl.
    destruct (index_stream w); simpl; [rewrite app_nil_r|]; reflexivity.
  - apply bind_ok in E as ([] & w1 & E1 & E).
    apply write_index_entry_run in E1 as (rows_ & row & bytes & _ & _ & Hb & ->).
    apply IH in E. rewrite E, Hb. simpl. unfold index_entry_bytes. simpl.
    rewrite app_assoc. reflexivity.
Qed.

Lemma write_index_entries_rows i : forall pcs j w w',
  write_index_entries i j pcs w = (Ok tt, w') ->
  length (index_columns w') = length (index_columns w)
  /\ forall k c', index_columns w' !! k = Some c' ->
       exists c, index_columns w !! k = Some c
         /\ length c' = if decide (j <= k < j + length pcs)%nat then S (length c) else length c.
Proof.
  induction pcs as [|pc pcs IH]; intros j w w' E; simpl in E.
  - injection E as <-. simpl. split; [reflexivity|].
    intros k c' Hk. exists c'. split; [exact Hk|]. destruct (decide _); [lia | reflexivity].
  - apply bind_ok in E as ([] & w1 & E1 & E).
    apply write_index_entry_run in E1 as (rows_ & row & bytes & Hj & _ & _ & ->).
    apply IH in E as (Hlen & Hrows). simpl in Hlen, Hrows.
    rewrite length_insert in Hlen.
    split; [exact Hlen|].
    intros k c' Hk. destruct (Hrows k c' Hk) as (c & Hc & Hlc).
    destruct (decide (k = j)) as [->|Hne].
    + rewrite list_lookup_insert_eq in Hc by (apply lookup_lt_Some in Hj; exact Hj).
      injection Hc as <-. exists rows_. split; [exact Hj|]. rewrite Hlc.
      rewrite length_app. simpl.
      destruct (decide _); [lia|]. destruct (decide _); [lia|]. simpl in *. lia.
    + rewrite list_lookup_insert_ne in Hc by congruence.
      exists c. split; [exact Hc|]. rewrite Hlc. simpl.
      destruct (decide _); destruct (decide _); try reflexivity; lia.
Qed.

Lemma write_index_entries_all_rows i pcs w w' n :
  length (index_columns w) = length pcs ->
  Forall (fun c => Z.of_nat (length c) = n) (index_columns w) ->
  write_index_entries i 0 pcs w = (Ok tt, w') ->
  length (index_columns w') = length pcs
  /\ Forall (fun c => Z.of_nat (length c) = n + 1) (index_columns w').
Proof.
  intros Hlen Hall E. apply write_index_entries_rows in E as (Hlen' & Hrows).
  split; [congruence|]. apply Forall_forall. intros c' Hc'.
  apply list_elem_of_lookup in Hc' as (k & Hk).
  destruct (Hrows k c' Hk) as (c & Hc & Hlc).
  pose proof (lookup_lt_Some _ _ _ Hc) as Hlt.
  rewrite Forall_forall in Hall. specialize (Hall c (list_elem_of_lookup_2 _ _ _ Hc)).
  destruct (decide _); lia.
Qed.

Lemma write_index_sorted fuel g rows_ pcs :
  0 < g -> rows_ + g < 2 ^ 64 ->
  forall i w w' n,
    0 <= i ->
    is_unsorted (merging_mode (storage (base w))) = false ->
    length (index_columns w) = length pcs ->
    Forall (fun c => Z.of_nat (length c) = n) (index_columns w) ->
    write_index fuel g rows_ pcs i w = (Ok tt, w') ->
    index_stream w'
    = (fun bytes => bytes ++ flat_map (index_entry_bytes pcs) (mark_rows g i rows_))
        <$> index_stream w
    /\ length (index_columns w') = length pcs
    /\ Forall (fun c => Z.of_nat (length c) = n + count_of_marks_in_block rows_ i g)
         (index_columns w').
Proof.
  intros Hg Hbound. induction fuel as [|fuel IH]; intros i w w' n Hi Hmode Hlen Hall; simpl.
  - destruct (Z.ltb_spec i rows_); [discriminate|].
    intros E; injection E as <-. rewrite mark_rows_nil, count_of_marks_zero by lia. simpl.
    split; [|split; [exact Hlen|]].
    + destruct (index_stream w); simpl; [rewrite app_nil_r|]; reflexivity.
    + eapply Forall_impl; [exact Hall|]. intros c Hc. simpl in Hc. lia.
  - destruct (Z.ltb_spec i rows_) as [Hlt|Hge].
    2:{ intros E; injection E as <-. rewrite mark_rows_nil, count_of_marks_zero by lia. simpl.
        split; [|split; [exact Hlen|]].
        + destruct (index_stream w); simpl; [rewrite app_nil_r|]; reflexivity.
        + eapply Forall_impl; [exact Hall|]. intros c Hc. simpl in Hc. lia. }
    rewrite mark_rows_cons, count_of_marks_step by lia.
    intros E. apply bind_ok in E as (w0 & s0 & E0 & E). injection E0 as <- <-.
    rewrite Hmode in E. simpl in E.
    apply bind_ok in E as ([] & w1 & E1 & E).
    pose proof (write_index_entries_marks _ _ _ _ _ _ E1) as [Hb1 _ _ _ _].
    pose proof (write_index_entries_stream _ _ _ _ _ E1) as Hs1.
    apply (write_index_entries_all_rows _ _ _ _ n Hlen Hall) in E1 as [Hlen1 Hall1].
    apply bind_ok in E as ([] & w2 & E2 & E). injection E2 as <-.
    rewrite (wrap_small (i + g)) in E by lia.
    apply (IH _ _ _ (n + 1)) in E; simpl; rewrite ?Hb1; try assumption; try lia.
    simpl in E. destruct E as (Hs & Hl & Ha). split; [|split; [exact Hl|]].
    + rewrite Hs, Hs1. destruct (index_stream w); simpl; [|reflexivity].
      rewrite <- app_assoc. reflexivity.
    + eapply Forall_impl; [exact Ha|]. intros c Hc. simpl in Hc. lia.
Qed.

Lemma write_index_stream fuel g rows_ pcs :
  0 < g -> rows_ + g < 2 ^ 64 ->
  forall i w w',
    0 <= i ->
    is_unsorted (merging_mode (storage (base w))) = false ->
    write_index fuel g rows_ pcs i w = (Ok tt, w') ->
    index_stream w'
    = (fun bytes => bytes ++ flat_map (index_entry_bytes pcs) (mark_rows g i rows_))
        <$> index_stream w.
Proof.
  intros Hg Hbound. induction fuel as [|fuel IH]; intros i w w' Hi Hmode; simpl.
  - destruct (Z.ltb_spec i rows_); [discriminate|].
    intros E; injection E as <-. rewrite mark_rows_nil by lia. simpl.
    destruct (index_stream w); simpl; [rewrite app_nil_r|]; reflexivity.
  - destruct (Z.ltb_spec i rows_) as [Hlt|Hge].
    2:{ intros E; injection E as <-. rewrite mark_rows_nil by lia. simpl.
        destruct (index_stream w); simpl; [rewrite app_nil_r|]; reflexivity. }
    rewrite mark_rows_cons by lia.
    intros E. apply bind_ok in E as (w0 & s0 & E0 & E). injection E0 as <- <-.
    rewrite Hmode in E. simpl in E.
    apply bind_ok in E as ([] & w1 & E1 & E).
    pose proof (write_index_entries_marks _ _ _ _ _ _ E1) as [Hb1 _ _ _ _].
    pose proof (write_index_entries_stream _ _ _ _ _ E1) as Hs1.
    apply bind_ok in E as ([] & w2 & E2 & E). injection E2 as <-.
    rewrite (wrap_small (i + g)) in E by lia.
    apply IH in E; simpl; rewrite ?Hb1; try assumption; try lia.
    simpl in E. rewrite E, Hs1. destruct (index_stream w); simpl; [|reflexivity].
    rewrite <- app_assoc. reflexivity.
Qed.

Lemma resolve_primary_columns_each block perm : forall descrs i pcs pos pcs' pos',
  resolve_primary_columns descrs block perm i pcs pos = Ok (pcs', pos') ->
  exists new,
    pcs' = pcs ++ new
    /\ Forall2 (fun d pc => primary_column block perm d = Ok pc) descrs new.
Proof.
  induction descrs as [|d descrs IH]; intros i pcs pos pcs' pos' E; simpl in E.
  - injection E as <- <-. exists []. split; [by rewrite app_nil_r | constructor].
  - destruct (descr_name block d) as [n|]; simpl in E; [|discriminate].
    destruct (pos !! n); [discriminate|].
    destruct (primary_column block perm d) as [c|] eqn:Ec; simpl in E; [|discriminate].
    apply IH in E as (new & -> & Hnew). exists (c :: new).
    split; [by rewrite <- app_assoc | constructor; assumption].
Qed.

(** What one [write] does to the index, under the invariant of the index
    columns. *)
Lemma writeImpl_index fuel block perm w w' :
  let g := index_granularity (storage (base w)) in
  let io := index_offset (base w) in
  let rows_ := block_rows block in
  0 < g -> 0 <= io < g -> 0 <= marks_count w ->
  marks_count w + rows_ + g < 2 ^ 64 ->
  is_unsorted (merging_mode (storage (base w))) = false ->
  writeImpl fuel block perm w = (Ok tt, w') ->
  (exists pcs,
     Forall2 (fun d pc => primary_column block perm d = Ok pc)
       (sort_description (storage (base w))) pcs
     /\ index_stream w'
        = (fun bytes => bytes ++ flat_map (index_entry_bytes pcs) (mark_rows g io rows_))
            <$> index_stream w)
  /\ (index_rows_match_marks w ->
      index_rows_match_marks w'
      /\ length (index_columns w') = length (sort_description (storage (base w')))).
Proof.
  intros g io rows_ Hg Hio Hm Hbound Hmode E.
  pose proof (writeImpl_marks _ _ _ _ _ Hg Hio Hm Hbound E) as [_ Hmc].
  pose proof (writeImpl_part _ _ _ _ _ _ E) as [Hst' _ _ _ _].
  fold g io rows_ in Hmc. unfold writeImpl in E.
  pose proof (block_rows_nonneg block) as Hrows. fold rows_ in Hrows, E.
  apply bind_ok in E as (w0 & s0 & E0 & E). injection E0 as <- <-.
  apply bind_ok in E as ([pcs pos] & s1 & E1 & E).
  unfold lift_res in E1. injection E1 as Er <-.
  apply resolve_primary_columns_each in Er as (new & -> & Hpcs). simpl in *.
  apply bind_ok in E as ([] & s2 & E2 & E).
  assert (base s2 = base w /\ index_stream s2 = index_stream w
          /\ index_columns s2
             = match index_columns w with [] => map (fun _ => []) new | ic => ic end)
    as (Hb2 & Hi2 & Hc2).
  { destruct (index_columns w) eqn:Eic; injection E2 as <-; simpl; rewrite ?Eic;
      repeat split; reflexivity. }
  apply bind_ok in E as (oc & s3 & E3 & E).
  apply zoom_run in E3 as (b3 & E3 & ->).
  apply write_columns_settings in E3 as [Hs3 Hio3 _ _ _].
  apply bind_ok in E as ([] & s4 & E4 & E).
  apply zoom_run in E as (b5 & _ & ->). simpl.
  fold g io in E4.
  assert (is_unsorted (merging_mode (storage (base (set_base b3 s2)))) = false) as Hmode3.
  { simpl. rewrite Hs3, Hb2. exact Hmode. }
  split.
  - exists new. split; [exact Hpcs|].
    apply write_index_stream in E4; try assumption; try lia.
    simpl in E4. rewrite E4, Hi2. reflexivity.
  - intros [Hlen Hall]. unfold sized_index_columns in Hlen, Hall.
    pose proof (Forall2_length _ _ _ Hpcs) as Hnew.
    apply (write_index_sorted fuel g rows_ new Hg ltac:(lia) _ _ _ (marks_count w)) in E4;
      try assumption; try lia.
    + destruct E4 as (_ & Hl & Ha). simpl in Hl, Ha.
      assert (length (index_columns s4) = length (sort_description (storage (base w)))) as Hl'
        by congruence.
      simpl in Hst'. split; [|simpl; rewrite Hst'; exact Hl'].
      unfold index_rows_match_marks, sized_index_columns. simpl. rewrite Hst'.
      destruct (index_columns s4) eqn:Ei.
      * simpl in Hl'. destruct (sort_description (storage (base w))); [|discriminate].
        split; [reflexivity | constructor].
      * split; [exact Hl'|]. simpl in Hmc. rewrite Hmc. exact Ha.
    + simpl. rewrite Hc2. destruct (index_columns w); [|congruence].
      rewrite length_map. reflexivity.
    + simpl. rewrite Hc2. destruct (index_columns w) eqn:Eic; [|exact Hall].
      apply Forall_forall. intros c Hc. apply list_elem_of_fmap in Hc as (x & -> & Hx).
      rewrite Forall_forall in Hall.
      destruct (sort_description (storage (base w))) as [|d sd] eqn:Esd.
      { inversion Hpcs; subst. by apply elem_of_nil in Hx. }
      specialize (Hall [] ltac:(left)). simpl in *. lia.
Qed.

End IndexContent.

Section IndexOfPart.
Context `{Collaborators}.

Lemma writeImpl_index_stream fuel block perm w w' :
  let g := index_granularity (storage (base w)) in
  let io := index_offset (base w) in
  let rows_ := block_rows block in
  0 < g -> 0 <= io -> rows_ + g < 2 ^ 64 ->
  is_unsorted (merging_mode (storage (base w))) = false ->
  writeImpl fuel block perm w = (Ok tt, w') ->
  exists pcs,
    Forall2 (fun d pc => primary_column block perm d = Ok pc)
      (sort_description (storage (base w))) pcs
    /\ index_stream w'
       = (fun bytes => bytes ++ flat_map (index_entry_bytes pcs) (mark_rows g io rows_))
           <$> index_stream w.
Proof.
  intros g io rows_ Hg Hio Hbound Hmode E. unfold writeImpl in E. fold rows_ in E.
  apply bind_ok in E as (w0 & s0 & E0 & E). injection E0 as <- <-.
  apply bind_ok in E as ([pcs pos] & s1 & E1 & E).
  unfold lift_res in E1. injection E1 as Er <-.
  apply resolve_primary_columns_each in Er as (new & -> & Hpcs). simpl in *.
  apply bind_ok in E as ([] & s2 & E2 & E).
  assert (base s2 = base w /\ index_stream s2 = index_stream w) as (Hb2 & Hi2).
  { destruct (index_columns w) eqn:Eic; injection E2 as <-; split; reflexivity. }
  apply bind_ok in E as (oc & s3 & E3 & E).
  apply zoom_run in E3 as (b3 & E3 & ->).
  apply write_columns_settings in E3 as [Hs3 Hio3 _ _ _].
  apply bind_ok in E as ([] & s4 & E4 & E).
  apply zoom_run in E as (b5 & _ & ->). simpl.
  fold g io in E4. exists new. split; [exact Hpcs|].
  apply write_index_stream in E4; try assumption; try lia.
  - simpl in E4. rewrite E4, Hi2. reflexivity.
  - simpl. rewrite Hs3, Hb2. exact Hmode.
Qed.

Lemma writes_index_rows fuel : forall blocks w w',
  let g := index_granularity (storage (base w)) in
  let rs := map (fun bp : Block * option Permutation => block_rows bp.1) blocks in
  0 < g -> 0 <= index_offset (base w) < g -> 0 <= marks_count w ->
  marks_count w + total_rows rs + g < 2 ^ 64 ->
  is_unsorted (merging_mode (storage (base w))) = false ->
  index_rows_match_marks w ->
  writes fuel blocks w = (Ok tt, w') ->
  index_rows_match_marks w'
  /\ (blocks <> [] ->
      length (index_columns w') = length (sort_description (storage (base w')))).
Proof.
  induction blocks as [|[b p] bs IH]; intros w w' g rs Hg Hio Hm Hbound Hmode Hinv E.
  - injection E as <-. split; [exact Hinv | congruence].
  - unfold writes in E. simpl in E. apply bind_ok in E as ([] & w1 & E1 & E).
    unfold writeWithPermutation in E1. simpl in E1.
    subst rs. simpl map in *. unfold total_rows in Hbound. simpl in Hbound.
    assert (0 <= total_rows (map (fun bp : Block * option Permutation => block_rows bp.1) bs))
      as Hrest.
    { replace (map (fun bp : Block * option Permutation => block_rows bp.1) bs)
        with (map block_rows (map fst bs)) by (rewrite map_map; reflexivity).
      apply total_rows_nonneg. }
    unfold total_rows in Hrest.
    pose proof (block_rows_nonneg b) as Hb.
    pose proof (writeImpl_part _ _ _ _ _ _ E1) as [Hst _ _ _ _].
    assert (marks_count w + block_rows b + g < 2 ^ 64) as Hbound1 by lia.
    pose proof (writeImpl_marks fuel b p w w1 Hg Hio Hm Hbound1 E1) as [Hio1 Hm1].
    fold g in Hio1, Hm1.
    pose proof (writeImpl_index fuel b p w w1 Hg Hio Hm Hbound1 Hmode E1) as [_ Hrows].
    destruct (Hrows Hinv) as [Hinv1 Hlen1].
    pose proof (count_of_marks_le_rows (block_rows b) (index_offset (base w)) g Hg
                  ltac:(lia) Hb).
    pose proof (count_of_marks_nonneg (block_rows b) (index_offset (base w)) g Hg).
    pose proof (next_index_offset_range g (index_offset (base w)) (block_rows b) Hg).
    assert (bs = [] -> w' = w1) as Hnil.
    { intros ->. injection E as <-. reflexivity. }
    apply IH in E; rewrite ?Hst; fold g; rewrite ?Hio1, ?Hm1; unfold total_rows;
      try assumption; try lia.
    destruct E as [Hinv2 Hlen2]. split; [exact Hinv2|]. intros _.
    destruct bs as [|b' bs]; [rewrite (Hnil eq_refl); exact Hlen1 | apply Hlen2; discriminate].
Qed.

(** X5. In a sorted mode, one [write] or [writeWithPermutation] that
    returns appends to the index stream ([primary.idx]), for every mark row
    [index_offset, index_offset + g, ...] of the block in this order, the
    binary values at that row of the sort-key columns, in the order of the
    sort key; the sort-key columns are those of the block, permuted first
    when a permutation is given. *)
Theorem index_holds_sort_key_at_marks
    (fuel : nat) (block : Block) (permutation : option Permutation)
    (w w' : MergedBlockOutputStream) :
  let g := index_granularity (storage (base w)) in
  let io := index_offset (base w) in
  0 < g -> 0 <= io -> block_rows block + g < 2 ^ 64 ->
  is_unsorted (merging_mode (storage (base w))) = false ->
  writeWithPermutation fuel block permutation w = (Ok tt, w') ->
  exists primary_columns,
    Forall2 (fun d pc => primary_column block permutation d = Ok pc)
      (sort_description (storage (base w))) primary_columns
    /\ index_stream w'
       = (fun bytes =>
            bytes ++ flat_map (index_entry_bytes primary_columns)
                       (mark_rows g io (block_rows block)))
           <$> index_stream w.
Proof. intros g io. apply writeImpl_index_stream. Qed.

(** X6. In a sorted mode the index in memory keeps step with the marks
    counter: after construction and any sequence of writes that return,
    every column of [getIndex()] has exactly [marksCount()] rows, and once a
    block has been written there is one such column per sort-key column. *)
Theorem index_has_one_row_per_mark
    (storage_ : MergeTreeData) (path : string) (cols : NamesAndTypesList)
    (method : CompressionMethod) (fs : FileSystem) (fuel : nat)
    (blocks : list (Block * option Permutation)) (w0 w : MergedBlockOutputStream) :
  let g := index_granularity storage_ in
  let rs := map (fun bp : Block * option Permutation => block_rows bp.1) blocks in
  0 < g -> total_rows rs + g < 2 ^ 64 ->
  is_unsorted (merging_mode storage_) = false ->
  MergedBlockOutputStream_new storage_ path cols method fs = Ok w0 ->
  writes fuel blocks w0 = (Ok tt, w) ->
  Forall (fun c => Z.of_nat (length c) = marksCount w) (getIndex w)
  /\ (blocks <> [] -> length (getIndex w) = length (sort_description storage_)).
Proof.
  intros g rs Hg Hbound Hmode Hnew E.
  destruct (MergedBlockOutputStream_new_run storage_ path cols method fs)
    as (w0' & E' & Hs & _ & _ & Hio & Hm & _ & _ & Hic & _).
  rewrite Hnew in E'. inversion E'; subst w0'; clear E'.
  pose proof (writes_part _ _ _ _ _ E) as [Hst _ _ _ _].
  apply writes_index_rows in E; rewrite ?Hs, ?Hio, ?Hm; fold g rs; try assumption; try lia.
  - destruct E as [[Hlen Hall] Hsized]. unfold getIndex, marksCount.
    rewrite Hst, Hs in Hsized. split; [|exact Hsized].
    unfold sized_index_columns in Hall.
    destruct (index_columns w) eqn:Ei; [constructor | exact Hall].
  - unfold index_rows_match_marks, sized_index_columns. rewrite Hic, Hm, Hs.
    split; [apply length_map|]. apply Forall_forall.
    intros c Hc. apply list_elem_of_fmap in Hc as (x & -> & _). reflexivity.
Qed.

End IndexOfPart.

Section IndexOfPartWitness.
Import Reference Sample Scenario.
#[local] Existing Instance Reference.collaborators.

Lemma index_holds_sort_key_at_marks_witness :
  index_stream (writeWithPermutation 9 two_columns_block (Some [2; 0; 1]) keyed_full).2
  = Some [Byte.x06; Byte.x03; Byte.x05; Byte.x02].
Proof.
  destruct (index_holds_sort_key_at_marks 9 two_columns_block (Some [2; 0; 1]) keyed_full
              (writeWithPermutation 9 two_columns_block (Some [2; 0; 1]) keyed_full).2)
    as (pcs & Hpcs & Hidx).
  - vm_compute. reflexivity.
  - vm_compute. discriminate.
  - vm_compute. reflexivity.
  - reflexivity.
  - vm_compute. reflexivity.
  - rewrite Hidx.
    apply Forall2_cons_inv_l in Hpcs as (pc1 & rest & E1 & Hpcs & ->).
    apply Forall2_cons_inv_l in Hpcs as (pc2 & rest' & E2 & Hpcs & ->).
    apply Forall2_nil_inv_l in Hpcs as ->.
    vm_compute in E1. injection E1 as <-. vm_compute in E2. injection E2 as <-.
    vm_compute. reflexivity.
Defined.

Lemma index_has_one_row_per_mark_witness :
  let w := (writes 9 [(two_columns_block, None); (two_columns_block, None)] keyed_full).2 in
  marksCount w = 3
  /\ Forall (fun c => Z.of_nat (length c) = marksCount w) (getIndex w)
  /\ length (getIndex w) = 2%nat.
Proof.
  intros w.
  destruct (index_has_one_row_per_mark keyed "part/" two_columns LZ4 empty_fs 9
              [(two_columns_block, None); (two_columns_block, None)] keyed_full w)
    as [Hall Hlen].
  - reflexivity.
  - vm_compute. reflexivity.
  - reflexivity.
  - vm_compute. reflexivity.
  - vm_compute. reflexivity.
  - split; [vm_compute; reflexivity|]. split; [exact Hall|]. apply Hlen. discriminate.
Defined.

End IndexOfPartWitness.

(** ** The manifest and the files of the part *)

#[global] Instance keeps_refl {S} (P : S -> Prop) : Reflexive (keeps P).
Proof. intros s Hs. exact Hs. Qed.
#[global] Instance keeps_trans {S} (P : S -> Prop) : Transitive (keeps P).
Proof. intros a b c Hab Hbc Ha. auto. Qed.
#[global] Instance same_files_refl : Reflexive same_files.
Proof. intros s. repeat split. Qed.
#[global] Instance same_files_trans : Transitive same_files.
Proof.
  unfold same_files. intros a b c (E1 & E2 & E3 & E4 & E5) (F1 & F2 & F3 & F4 & F5).
  rewrite F1, F2, F3, F4, F5. repeat split; assumption.
Qed.

Lemma append_assoc (a b c : string) : (a +:+ b) +:+ c = a +:+ (b +:+ c).
Proof.
  induction a as [|x a IH]; [reflexivity|].
  change ((String x (a +:+ b)) +:+ c = String x (a +:+ (b +:+ c))).
  change (String x ((a +:+ b) +:+ c) = String x (a +:+ (b +:+ c))). by rewrite IH.
Qed.

Lemma last_char_append (a b : string) : b <> "" -> last_char (a +:+ b) = last_char b.
Proof.
  intros Hb. induction a as [|x a IH]; [reflexivity|].
  change (last_char (String x (a +:+ b)) = last_char b). simpl.
  destruct (a +:+ b) eqn:E; [|exact IH].
  destruct a; [change (b = "") in E; contradiction | discriminate].
Qed.

Lemma placed_same_files path s s' : same_files s s' -> placed path s -> placed path s'.
Proof.
  intros (He & Hd & Hm & Hp & Hk) (Hplain & Hmarks & Hext). unfold placed.
  rewrite He, Hd, Hm, Hp, Hk. repeat split; assumption.
Qed.

Section Placed.
Context `{Collaborators}.

Lemma compressed_next_files s : same_files s (compressed_next s).
Proof. unfold compressed_next. destruct (compressed_buffer s); repeat split. Qed.

Lemma compressed_nextIfAtEnd_files s : same_files s (compressed_nextIfAtEnd s).
Proof.
  unfold compressed_nextIfAtEnd. destruct (_ =? _); [apply compressed_next_files | reflexivity].
Qed.

Lemma compressed_write_files bs : forall s, same_files s (compressed_write bs s).
Proof.
  induction bs as [|b bs IH]; intros s; simpl; [reflexivity|].
  etransitivity; [|apply IH]. etransitivity; [apply compressed_nextIfAtEnd_files|].
  repeat split.
Qed.

Lemma write_mark_files m s : same_files s (write_mark m s).
Proof.
  unfold write_mark. destruct (_ <=? _).
  - etransitivity; [apply compressed_next_files | repeat split].
  - repeat split.
Qed.

Lemma write_granules_files fuel ser g io m size : forall p s s',
  write_granules fuel ser g io m size p s = Ok s' -> same_files s s'.
Proof.
  induction fuel as [|fuel IH]; intros p s s'; simpl.
  - destruct (p <? size); [discriminate|]. intros E. injection E as <-. reflexivity.
  - destruct (p <? size); [|intros E; injection E as <-; reflexivity].
    destruct ((p =? 0) && negb (io =? 0)); intros E; apply IH in E.
    + etransitivity; [|exact E]. etransitivity; [apply compressed_write_files|].
      apply compressed_nextIfAtEnd_files.
    + etransitivity; [|exact E]. etransitivity; [apply write_mark_files|].
      etransitivity; [apply compressed_write_files|]. apply compressed_nextIfAtEnd_files.
Qed.

Lemma ColumnStream_new_placed path escaped max method est aio :
  placed path (ColumnStream_new escaped (path +:+ escaped) DATA_FILE_EXTENSION
                 (path +:+ escaped) MARKS_FILE_EXTENSION max method est aio)
  /\ placed path (ColumnStream_new escaped (path +:+ escaped) NULL_MAP_EXTENSION
                    (path +:+ escaped) NULL_MARKS_FILE_EXTENSION max method est aio).
Proof. split; (split; [reflexivity|]; split; [reflexivity|]); [left|right]; split; reflexivity. Qed.

Lemma put_column_stream_placed path key s :
  placed path s -> preserves (keeps (all_placed path)) (put_column_stream key s).
Proof.
  intros Hs. apply preserves_modify. intros b [Hc Hn]. split; [|exact Hn]. simpl.
  apply map_Forall_insert_2; assumption.
Qed.

Lemma put_null_stream_placed path key s :
  placed path s -> preserves (keeps (all_placed path)) (put_null_stream key s).
Proof.
  intros Hs. apply preserves_modify. intros b [Hc Hn]. split; [exact Hc|]. simpl.
  apply map_Forall_insert_2; assumption.
Qed.

Lemma addStream_placed path : forall t n e l f,
  preserves (keeps (all_placed path)) (addStream path n t e l f).
Proof.
  induction t as [p|t IH|t IH]; intros n e l f; simpl.
  - apply preserves_bind; try apply _; [apply preserves_get, _|]. intros w.
    apply put_column_stream_placed, ColumnStream_new_placed.
  - apply preserves_bind; try apply _; [|intros _; apply IH].
    unfold addNullStream.
    apply preserves_bind; try apply _; [apply preserves_get, _|]. intros w.
    apply put_null_stream_placed, ColumnStream_new_placed.
  - apply preserves_bind; try apply _; [apply preserves_get, _|]. intros w.
    apply preserves_bind; try apply _; [|intros _; apply IH].
    apply put_column_stream_placed, ColumnStream_new_placed.
Qed.

End Placed.

Section PlacedWrites.
Context `{Collaborators}.

Lemma write_column_stream_placed path fuel key ser size :
  preserves (keeps (all_placed path)) (write_column_stream fuel key ser size).
Proof.
  intros b r b'. unfold write_column_stream.
  destruct (column_streams b !! key) as [s|] eqn:Es; [|intros E; injection E as _ <-; reflexivity].
  destruct (write_granules _ _ _ _ _ _ _ _) as [s'|f] eqn:Eg; intros E; injection E as _ <-;
    [|reflexivity].
  intros [Hc Hn]. split; [|exact Hn]. simpl. apply map_Forall_insert_2; [|exact Hc].
  apply write_granules_files in Eg. eapply placed_same_files; [exact Eg|]. exact (Hc _ _ Es).
Qed.

Lemma write_null_stream_placed path fuel key ser size :
  preserves (keeps (all_placed path)) (write_null_stream fuel key ser size).
Proof.
  intros b r b'. unfold write_null_stream.
  destruct (null_streams b !! key) as [s|] eqn:Es; [|intros E; injection E as _ <-; reflexivity].
  destruct (write_granules _ _ _ _ _ _ _ _) as [s'|f] eqn:Eg; intros E; injection E as _ <-;
    [|reflexivity].
  intros [Hc Hn]. split; [exact Hc|]. simpl. apply map_Forall_insert_2; [|exact Hn].
  apply write_granules_files in Eg. eapply placed_same_files; [exact Eg|]. exact (Hn _ _ Es).
Qed.

Lemma writeData_placed path fuel : forall t n c oc l,
  preserves (keeps (all_placed path)) (writeData fuel n t c oc l).
Proof.
  induction t as [p|t IH|t IH]; intros n c oc l; simpl.
  - apply preserves_bind; try apply _; [apply write_column_stream_placed|].
    intros _. apply preserves_ret, _.
  - destruct c; try apply preserves_undefined, _.
    apply preserves_bind; try apply _; [apply write_null_stream_placed|]. intros _. apply IH.
  - apply preserves_bind; try apply _.
    + destruct (decide _); [apply preserves_ret, _|].
      apply preserves_bind; try apply _; [apply write_column_stream_placed|].
      intros _. apply preserves_ret, _.
    + intros oc'. apply preserves_bind; try apply _; [apply write_column_stream_placed|].
      intros _. apply preserves_ret, _.
Qed.

Lemma write_columns_placed path fuel block perm pcs pos : forall cols oc,
  preserves (keeps (all_placed path)) (write_columns fuel cols block perm pcs pos oc).
Proof.
  induction cols as [|it cols IH]; intros oc; simpl; [apply preserves_ret, _|].
  apply preserves_bind; try apply _; [apply preserves_lift_res, _|]. intros c.
  apply preserves_bind; try apply _.
  { destruct perm as [p|]; [|apply preserves_ret, _].
    destruct (pos !! nt_name it).
    - destruct (pcs !! _); [apply preserves_ret, _ | apply preserves_undefined, _].
    - apply preserves_lift_res, _. }
  intros data. apply preserves_bind; try apply _; [apply writeData_placed|].
  intros oc'. apply IH.
Qed.

Lemma advance_index_offset_placed path rows_ :
  preserves (keeps (all_placed path)) (advance_index_offset rows_).
Proof.
  unfold advance_index_offset, size_mod.
  apply preserves_bind; try apply _; [apply preserves_get, _|]. intros w.
  apply preserves_bind; try apply _.
  { destruct (_ =? 0); [apply preserves_undefined, _ | apply preserves_ret, _]. }
  intros x. apply preserves_bind; try apply _.
  { destruct (_ =? 0); [apply preserves_undefined, _ | apply preserves_ret, _]. }
  intros y. apply preserves_modify. intros s Hs. exact Hs.
Qed.

Lemma in_base_placed {A} path (m : M IMergedBlockOutputStream A) :
  preserves (keeps (all_placed path)) m -> preserves (keeps (part_placed path)) (in_base m).
Proof.
  apply preserves_zoom. intros s c Hc [Hp Hs]. split; [exact Hp | exact (Hc Hs)].
Qed.

Lemma write_index_same_marks_but_count fuel g rows_ pcs :
  forall i, preserves (fun w w' => base w' = base w /\ part_path w' = part_path w)
              (write_index fuel g rows_ pcs i).
Proof.
  assert (Reflexive (fun w w' : MergedBlockOutputStream =>
                       base w' = base w /\ part_path w' = part_path w)) as Hr
    by (intros w; split; reflexivity).
  assert (Transitive (fun w w' : MergedBlockOutputStream =>
                        base w' = base w /\ part_path w' = part_path w)) as Ht
    by (intros a b c [? ?] [? ?]; split; congruence).
  induction fuel as [|fuel IH]; intros i; simpl.
  - destruct (i <? rows_); [apply preserves_fail, _ | apply preserves_ret, _].
  - destruct (i <? rows_); [|apply preserves_ret, _].
    apply preserves_bind; try apply _; [apply preserves_get, _|]. intros w.
    apply preserves_bind; try apply _.
    + destruct (negb _); [|apply preserves_ret, _].
      eapply preserves_weaken; [|apply write_index_entries_marks].
      intros s s' [Hb _ Hp _ _]. split; assumption.
    + intros _. apply preserves_bind; try apply _; [|intros _; apply IH].
      apply preserves_modify. intros s. split; reflexivity.
Qed.

Lemma writeImpl_placed path fuel block perm :
  preserves (keeps (part_placed path)) (writeImpl fuel block perm).
Proof.
  unfold writeImpl.
  apply preserves_bind; try apply _; [apply preserves_get, _|]. intros w.
  apply preserves_bind; try apply _; [apply preserves_lift_res, _|]. intros [pcs pos].
  apply preserves_bind; try apply _.
  { destruct (index_columns w); [|apply preserves_ret, _].
    apply preserves_modify. intros s Hs. exact Hs. }
  intros _. apply preserves_bind; try apply _.
  { apply in_base_placed, write_columns_placed. }
  intros _. apply preserves_bind; try apply _.
  { eapply preserves_weaken; [|apply write_index_same_marks_but_count].
    intros s s' [Hb Hp] [Hpath Hall]. split; [congruence | rewrite Hb; exact Hall]. }
  intros _. apply in_base_placed, advance_index_offset_placed.
Qed.

Lemma MergedBlockOutputStream_new_placed storage_ path cols method fs w0 :
  MergedBlockOutputStream_new storage_ path cols method fs = Ok w0 -> part_placed path w0.
Proof.
  intros E. unfold MergedBlockOutputStream_new in E. apply constructed_ok in E.
  apply bind_ok in E as ([] & w1 & E1 & E).
  rewrite init_run in E1. injection E1 as <-.
  assert (preserves (keeps (part_placed path))
            (for_each cols (fun it =>
               in_base (addStream path (nt_name it) (nt_type it) 0 0 "")))) as Hp.
  { apply preserves_for_each; try apply _. intros it. apply in_base_placed, addStream_placed. }
  apply (Hp _ _ _ E).
  destruct (negb _); (split; [reflexivity|]; split; simpl; apply map_Forall_empty).
Qed.

End PlacedWrites.

Section Manifest.
Context `{Collaborators}.

Lemma ColumnStream_finalize_described path s checksums fs :
  placed path s -> described path checksums fs ->
  described path
    (ColumnStream_addToChecksums (ColumnStream_finalize s fs).1 checksums "")
    (ColumnStream_finalize s fs).2.
Proof.
  intros Hs Hd. unfold ColumnStream_finalize. simpl.
  pose proof (placed_same_files path _ _ (compressed_next_files s) Hs) as (Hplain & Hmarks & Hext).
  set (s1 := compressed_next s) in *.
  unfold ColumnStream_addToChecksums. simpl.
  rewrite Hplain, Hmarks, !append_assoc.
  set (bin := escaped_column_name s1 +:+ data_file_extension s1).
  set (mrk := escaped_column_name s1 +:+ marks_file_extension s1).
  intros key c Hkey. unfold Checksums in *.
  destruct (decide (key = mrk)) as [->|Hmrk].
  - rewrite lookup_insert_eq in Hkey. injection Hkey as <-. split.
    + unfold mrk. destruct Hext as [[_ ->]|[_ ->]];
        rewrite last_char_append by discriminate; discriminate.
    + exists (marks_bytes s1). simpl. rewrite lookup_insert_eq. repeat split.
  - rewrite lookup_insert_ne in Hkey by congruence.
    assert (path +:+ mrk <> path +:+ key) as Hne1.
    { intros E. apply append_inj_r in E. congruence. }
    destruct (decide (key = bin)) as [->|Hbin].
    + rewrite lookup_insert_eq in Hkey. injection Hkey as <-. split.
      * unfold bin. destruct Hext as [[-> _]|[-> _]];
          rewrite last_char_append by discriminate; discriminate.
      * exists (plain_hashing s1). simpl.
        rewrite lookup_insert_ne by exact Hne1. rewrite lookup_insert_eq. repeat split.
    + rewrite lookup_insert_ne in Hkey by congruence.
      destruct (Hd key c Hkey) as (Hlast & content & Hfile & Hsize & Hhash).
      split; [exact Hlast|]. exists content. simpl.
      rewrite lookup_insert_ne by exact Hne1.
      rewrite lookup_insert_ne; [repeat split; assumption|].
      intros E. apply append_inj_r in E. congruence.
Qed.

Lemma finalize_streams_described path : forall streams checksums fs,
  Forall (fun ks : string * ColumnStream => placed path ks.2) streams ->
  described path checksums fs ->
  described path (finalize_streams streams checksums fs).1
    (finalize_streams streams checksums fs).2.
Proof.
  induction streams as [|[k s] streams IH]; intros checksums fs Hall Hd;
    cbn [finalize_streams]; [exact Hd|].
  apply Forall_cons in Hall as [Hs Hall]. simpl in Hs.
  pose proof (ColumnStream_finalize_described path s checksums fs Hs Hd) as Hd1.
  destruct (ColumnStream_finalize s fs) as [s1 fs1]. simpl in Hd1.
  apply IH; assumption.
Qed.

Lemma in_key_order_placed path (m : gmap string ColumnStream) :
  map_Forall (fun _ s => placed path s) m ->
  Forall (fun ks : string * ColumnStream => placed path ks.2) (in_key_order m).
Proof.
  intros Hm. apply Forall_forall. intros [k s] Hks. unfold in_key_order in Hks.
  rewrite merge_sort_Permutation in Hks. apply elem_of_map_to_list in Hks.
  exact (Hm k s Hks).
Qed.

Lemma flushed_described path w indexed :
  part_placed path w -> described path (flushed w indexed).1 (flushed w indexed).2.
Proof.
  intros [Hpath [Hc Hn]]. unfold flushed.
  assert (described path
            (match indexed with
             | Some bytes =>
                 (<["primary.idx" :=
                      {| file_size := Z.of_nat (length bytes); file_hash := getHash bytes;
                         is_compressed := false; uncompressed_size := 0;
                         uncompressed_hash := 0 |}]> (∅ : Checksums),
                  store (part_path w +:+ "primary.idx") bytes (disk (base w)))
             | None => (∅, disk (base w))
             end).1
            (match indexed with
             | Some bytes =>
                 (<["primary.idx" :=
                      {| file_size := Z.of_nat (length bytes); file_hash := getHash bytes;
                         is_compressed := false; uncompressed_size := 0;
                         uncompressed_hash := 0 |}]> (∅ : Checksums),
                  store (part_path w +:+ "primary.idx") bytes (disk (base w)))
             | None => (∅, disk (base w))
             end).2) as Hd0.
  { unfold described. destruct indexed as [bytes|]; simpl; unfold Checksums in *.
    - intros key c Hkey. destruct (decide (key = "primary.idx")) as [->|Hne].
      + rewrite lookup_insert_eq in Hkey. injection Hkey as <-.
        split; [discriminate|]. exists bytes. rewrite Hpath, lookup_insert_eq. repeat split.
      + rewrite lookup_insert_ne, lookup_empty in Hkey by congruence. discriminate.
    - intros key c Hkey. rewrite lookup_empty in Hkey. discriminate. }
  destruct (match indexed with Some _ => _ | None => _ end) as [c0 fs0]. simpl in Hd0.
  pose proof (finalize_streams_described path _ c0 fs0 (in_key_order_placed _ _ Hc) Hd0) as Hd1.
  destruct (finalize_streams (in_key_order (column_streams (base w))) c0 fs0) as [c1 fs1].
  simpl in Hd1.
  exact (finalize_streams_described path _ c1 fs1 (in_key_order_placed _ _ Hn) Hd1).
Qed.

Lemma last_char_text_file key :
  last_char key <> Some "t"%char -> key <> "columns.txt" /\ key <> "checksums.txt".
Proof. intros Hk. split; intros ->; apply Hk; reflexivity. Qed.

(** X7. The manifest of the full assembler agrees with the files of the
    part.  After construction, any sequence of writes that return and a
    commit that returns, every entry [key] of the returned manifest names a
    file that exists under the part directory at [path + key], and records
    the length of that file as [file_size] and its hash as [file_hash]. *)
Theorem manifest_describes_the_files
    (storage_ : MergeTreeData) (path : string) (cols : NamesAndTypesList)
    (method : CompressionMethod) (fs : FileSystem) (fuel : nat)
    (blocks : list (Block * option Permutation))
    (w0 w w' : MergedBlockOutputStream) (checksums : Checksums) :
  MergedBlockOutputStream_new storage_ path cols method fs = Ok w0 ->
  writes fuel blocks w0 = (Ok tt, w) ->
  writeSuffixAndGetChecksums w = (Ok checksums, w') ->
  forall key c, checksums !! key = Some c ->
    exists content,
      files (disk (base w')) !! (path +:+ key) = Some content
      /\ file_size c = Z.of_nat (length content)
      /\ file_hash c = getHash content.
Proof.
  intros Hnew Hwrites Hcommit key c Hkey.
  pose proof (MergedBlockOutputStream_new_placed _ _ _ _ _ _ Hnew) as Hw0.
  assert (part_placed path w) as Hw.
  { revert Hw0. refine (preserves_for_each (keeps (part_placed path)) _ _ _ _ _ _ Hwrites).
    intros [b p]. apply writeImpl_placed. }
  pose proof Hw as [Hpath _].
  pose proof (writeSuffixAndGetChecksums_run w (commit_opened_index _ _ _ Hcommit)) as Hrun.
  cbn zeta in Hrun.
  pose proof (flushed_described path w
                (if is_unsorted (merging_mode (storage (base w))) then None else index_stream w)
                Hw) as Hd.
  destruct (flushed w _) as [c1 fs1]. simpl in Hd. rewrite Hrun in Hcommit.
  destruct (marks_count w =? 0).
  - injection Hcommit as <- <-. unfold Checksums in *. rewrite lookup_empty in Hkey.
    discriminate.
  - injection Hcommit as <- <-.
    destruct (Hd key c Hkey) as (Hlast & content & Hfile & Hsize & Hhash).
    apply last_char_text_file in Hlast as [Hcol Hchk].
    exists content. split; [|split; assumption]. simpl. rewrite Hpath.
    rewrite lookup_insert_ne by (intros E; apply append_inj_r in E; congruence).
    rewrite lookup_insert_ne by (intros E; apply append_inj_r in E; congruence).
    rewrite lookup_insert_ne by (intros E; apply append_inj_r in E; congruence).
    rewrite lookup_insert_ne by (intros E; apply append_inj_r in E; congruence).
    exact Hfile.
Qed.

End Manifest.

Section ManifestWitness.
Import Reference Sample.
#[local] Existing Instance Reference.collaborators.

Lemma manifest_describes_the_files_witness :
  let w := (writes 9 [(five_rows, None)] full8).2 in
  let checksums := from_ok (writeSuffixAndGetChecksums w).1 ∅ in
  let w' := (writeSuffixAndGetChecksums w).2 in
  dom checksums = {["primary.idx"; "n.bin"; "n.mrk"]}
  /\ forall key c, checksums !! key = Some c ->
       exists content,
         files (disk (base w')) !! ("part/" +:+ key) = Some content
         /\ file_size c = Z.of_nat (length content)
         /\ file_hash c = getHash content.
Proof.
  intros w checksums w'. split; [vm_compute; reflexivity|].
  apply (manifest_describes_the_files t8 "part/" n_columns LZ4 empty_fs 9
           [(five_rows, None)] full8 w w' checksums).
  - vm_compute. reflexivity.
  - vm_compute. reflexivity.
  - vm_compute. reflexivity.
Defined.

End ManifestWitness.

(** ** The streams that a column reaches *)

Section TouchedStreams.
Context `{Collaborators}.

#[global] Instance only_streams_of_refl name_ level : Reflexive (only_streams_of name_ level).
Proof. intros b. split; reflexivity. Qed.
#[global] Instance only_streams_of_trans name_ level : Transitive (only_streams_of name_ level).
Proof.
  intros a b c [Hc1 Hn1] [Hc2 Hn2]. split.
  - intros key H1 H2. rewrite Hc2, Hc1 by assumption. reflexivity.
  - intros key H1. rewrite Hn2, Hn1 by assumption. reflexivity.
Qed.

Lemma write_column_stream_touches n level fuel key ser size :
  key = n \/ key = size_stream_name n level ->
  preserves (only_streams_of n level) (write_column_stream fuel key ser size).
Proof.
  intros Hkey b r b'. unfold write_column_stream.
  destruct (column_streams b !! key) as [s|]; [|intros E; injection E as _ <-; reflexivity].
  destruct (write_granules _ _ _ _ _ _ _ _); intros E; injection E as _ <-; [|reflexivity].
  split; [|reflexivity]. simpl. intros k H1 H2.
  apply lookup_insert_ne. destruct Hkey; congruence.
Qed.

Lemma write_null_stream_touches n level fuel ser size :
  preserves (only_streams_of n level) (write_null_stream fuel n ser size).
Proof.
  intros b r b'. unfold write_null_stream.
  destruct (null_streams b !! n) as [s|]; [|intros E; injection E as _ <-; reflexivity].
  destruct (write_granules _ _ _ _ _ _ _ _); intros E; injection E as _ <-; [|reflexivity].
  split; [reflexivity|]. simpl. intros k H1. apply lookup_insert_ne. congruence.
Qed.

Lemma writeData_touches (fuel : nat) : forall t n c oc level,
  preserves (only_streams_of n level) (writeData fuel n t c oc level).
Proof.
  induction t as [p|t IH|t IH]; intros n c oc level; simpl.
  - apply preserves_bind; try apply _; [|intros _; apply preserves_ret, _].
    apply write_column_stream_touches. by left.
  - destruct c; try apply preserves_undefined, _.
    apply preserves_bind; try apply _; [apply write_null_stream_touches | intros _; apply IH].
  - apply preserves_bind; try apply _.
    + destruct (decide _); [apply preserves_ret, _|].
      apply preserves_bind; try apply _; [|intros _; apply preserves_ret, _].
      apply write_column_stream_touches. by right.
    + intros oc'. apply preserves_bind; try apply _; [|intros _; apply preserves_ret, _].
      apply write_column_stream_touches. by left.
Qed.

(** X8. [writeData] of a column reaches only the streams of that column:
    whatever the type, the data and the outcome, every data stream other
    than the one under the column's name and the sizes stream of its level,
    and every null-map stream other than the one under the column's name, is
    left as it was.  In particular, for a column of arrays of arrays the
    sizes stream of the inner level, which [addStream] creates, is never
    written. *)
Theorem writeData_touches_only_its_streams
    (fuel : nat) (type_ : IDataType) (name_ : string) (column_ : IColumn)
    (offset_columns : OffsetColumns) (level : Z)
    (b b' : IMergedBlockOutputStream) (r : Res OffsetColumns) :
  writeData fuel name_ type_ column_ offset_columns level b = (r, b') ->
  (forall key, key <> name_ -> key <> size_stream_name name_ level ->
     column_streams b' !! key = column_streams b !! key)
  /\ (forall key, key <> name_ -> null_streams b' !! key = null_streams b !! key).
Proof. intros E. exact (writeData_touches fuel _ _ _ _ _ _ _ _ E). Qed.

End TouchedStreams.

Section TouchedStreamsWitness.
Import Reference Sample Scenario2.
#[local] Existing Instance Reference.collaborators.

(** A column of arrays of arrays: [addStream] creates the sizes streams of
    both levels, the write reaches the one of the outer level only, and the
    committed part holds empty files for the inner one. *)
Example inner_sizes_stream_stays_empty :
  let w := (write 9 matrix_block matrix_full).2 in
  (write 9 matrix_block matrix_full).1 = Ok tt
  /\ dom (column_streams (base w)) = {["m"; "m%size0"; "m%size1"]}
  /\ compressed_buffer <$> column_streams (base w) !! "m%size0" = Some (le_bytes 8 2 ++ le_bytes 8 3)
  /\ compressed_buffer <$> column_streams (base w) !! "m%size1" = Some []
  /\ marks <$> column_streams (base w) !! "m%size1" = Some []
  /\ files (disk (base (writeSuffixAndGetChecksums w).2)) !! "part/m%size1.bin" = Some [].
Proof. vm_compute. repeat split; reflexivity. Qed.

Lemma writeData_touches_only_its_streams_witness :
  let column_ := ColumnArray [ColumnArray [ColumnVector [1; 2]; ColumnVector [3]];
                              ColumnArray [ColumnVector [4]]] in
  column_streams (writeData 9 "m" matrix_type column_ ∅ 0 (base matrix_full)).2 !! "m%size1"
  = column_streams (base matrix_full) !! "m%size1".
Proof.
  intros column_.
  destruct (writeData_touches_only_its_streams 9 matrix_type "m" column_ ∅ 0
              (base matrix_full)
              (writeData 9 "m" matrix_type column_ ∅ 0 (base matrix_full)).2
              (writeData 9 "m" matrix_type column_ ∅ 0 (base matrix_full)).1) as [Hc _].
  - apply surjective_pairing.
  - apply Hc; [discriminate | vm_compute; discriminate].
Defined.

End TouchedStreamsWitness.

(** ** Writing with a permutation *)

Lemma permute_block_each perm : forall block block',
  permute_block block perm = Ok block' -> Forall2 (permuted_as perm) block block'.
Proof.
  induction block as [|c block IH]; intros block' E; simpl in E.
  - injection E as <-. constructor.
  - destruct (permute (column c) perm) as [col|] eqn:Ec; simpl in E; [|discriminate].
    destruct (permute_block block perm) as [rest|] eqn:Er; simpl in E; [|discriminate].
    injection E as <-. constructor; [exists col; split; [exact Ec | reflexivity] | apply IH, eq_refl].
Qed.

Lemma getByPosition_permuted perm block block' k :
  Forall2 (permuted_as perm) block block' ->
  getByPosition block' k = then_permuted perm (getByPosition block k).
Proof.
  intros Hb. unfold getByPosition, then_permuted, Block in *.
  destruct (block !! Z.to_nat k) as [c|] eqn:Ec.
  - destruct (Forall2_lookup_l _ _ _ _ _ Hb Ec) as (c' & Ec' & col & Hcol & ->).
    rewrite Ec'. simpl. rewrite Hcol. reflexivity.
  - apply Forall2_length in Hb. apply lookup_ge_None in Ec.
    rewrite (proj2 (lookup_ge_None block' (Z.to_nat k))) by lia. reflexivity.
Qed.

Lemma getByName_permuted perm block block' n :
  Forall2 (permuted_as perm) block block' ->
  getByName block' n = then_permuted perm (getByName block n).
Proof.
  intros Hb. unfold getByName, then_permuted.
  induction Hb as [|c c' block block' (col & Hcol & ->) Hb IH]; [reflexivity|].
  simpl. destruct (String.eqb (name c) n); [simpl; rewrite Hcol; reflexivity | exact IH].
Qed.

Lemma block_rows_permuted perm block block' :
  Forall2 (permuted_as perm) block block' -> block_rows block' = block_rows block.
Proof.
  intros Hb. destruct Hb as [|c c' block block' (col & Hcol & ->) Hb]; [reflexivity|].
  simpl. apply (permute_size _ _ _ Hcol).
Qed.

Lemma descr_name_permuted perm block block' d :
  Forall2 (permuted_as perm) block block' -> descr_name block' d = descr_name block d.
Proof.
  intros Hb. unfold descr_name. destruct (nonempty _); [reflexivity|].
  rewrite (getByPosition_permuted perm block block' _ Hb). unfold then_permuted.
  destruct (getByPosition block (column_number d)) as [c|] eqn:Ec; [|reflexivity]. simpl.
  unfold getByPosition, Block in *.
  destruct (block !! Z.to_nat (column_number d)) as [c0|] eqn:E0; [|discriminate].
  injection Ec as ->.
  destruct (Forall2_lookup_l _ _ _ _ _ Hb E0) as (c' & _ & col & Hcol & _).
  rewrite Hcol. reflexivity.
Qed.

Lemma primary_column_permuted perm block block' d :
  Forall2 (permuted_as perm) block block' ->
  primary_column block' None d = primary_column block (Some perm) d.
Proof.
  intros Hb. unfold primary_column. destruct (nonempty _).
  - rewrite (getByName_permuted perm block block' _ Hb). unfold then_permuted.
    destruct (getByName block _) as [c|]; [|reflexivity]. simpl.
    destruct (permute (column c) perm); reflexivity.
  - rewrite (getByPosition_permuted perm block block' _ Hb). unfold then_permuted.
    destruct (getByPosition block _) as [c|]; [|reflexivity]. simpl.
    destruct (permute (column c) perm); reflexivity.
Qed.

Lemma resolve_primary_columns_permuted perm block block' :
  Forall2 (permuted_as perm) block block' ->
  forall descrs i pcs pos,
    resolve_primary_columns descrs block' None i pcs pos
    = resolve_primary_columns descrs block (Some perm) i pcs pos.
Proof.
  intros Hb. induction descrs as [|d descrs IH]; intros i pcs pos; simpl; [reflexivity|].
  rewrite (descr_name_permuted perm block block' d Hb).
  destruct (descr_name block d) as [n|]; [|reflexivity]. simpl.
  destruct (pos !! n); [reflexivity|].
  rewrite (primary_column_permuted perm block block' d Hb).
  destruct (primary_column block (Some perm) d); [|reflexivity]. simpl. apply IH.
Qed.

Lemma getByName_of_position block k c :
  NoDup (map name block) -> block !! k = Some c -> getByName block (name c) = Ok c.
Proof.
  unfold getByName. revert k. induction block as [|c0 block IH]; intros k Hnd Hk; [discriminate|].
  apply NoDup_cons in Hnd as [Hnotin Hnd]. simpl.
  destruct k as [|k]; simpl in Hk.
  - injection Hk as ->. rewrite String.eqb_refl. reflexivity.
  - destruct (String.eqb_spec (name c0) (name c)) as [Heq|Hne].
    + exfalso. apply Hnotin. rewrite Heq. apply list_elem_of_fmap.
      exists c. split; [reflexivity|]. eapply list_elem_of_lookup_2, Hk.
    + apply (IH k Hnd Hk).
Qed.

Lemma resolve_primary_columns_positions perm block :
  NoDup (map name block) ->
  forall descrs i pcs pos pcs' pos',
    i = Z.of_nat (length pcs) ->
    Z.of_nat (length pcs) + Z.of_nat (length descrs) < 2 ^ 64 ->
    positions_resolved perm block pcs pos ->
    resolve_primary_columns descrs block (Some perm) i pcs pos = Ok (pcs', pos') ->
    positions_resolved perm block pcs' pos'.
Proof.
  intros Hnd. induction descrs as [|d descrs IH]; intros i pcs pos pcs' pos' Hi Hlen Hinv E;
    simpl in E.
  - injection E as <- <-. exact Hinv.
  - destruct (descr_name block d) as [n|] eqn:En; simpl in E; [|discriminate].
    destruct (pos !! n) eqn:Epos; [discriminate|].
    destruct (primary_column block (Some perm) d) as [pc|] eqn:Epc; simpl in E; [|discriminate].
    simpl in Hlen.
    apply IH in E; [exact E| | |].
    + rewrite length_app, wrap_small by lia. simpl. lia.
    + rewrite length_app. simpl. lia.
    + intros m k Hm. destruct (decide (m = n)) as [->|Hne].
      * rewrite lookup_insert_eq in Hm. injection Hm as <-. exists pc. subst i.
        rewrite Nat2Z.id. split; [apply list_lookup_middle; reflexivity|].
        unfold primary_column in Epc. unfold descr_name in En. unfold then_permuted.
        destruct (nonempty (column_name d)).
        { injection En as <-. exact Epc. }
        destruct (getByPosition block (column_number d)) as [c|] eqn:Ec; [|discriminate].
        simpl in En. injection En as <-.
        unfold getByPosition, Block in *.
  destruct (block !! Z.to_nat (column_number d)) as [c0|] eqn:E0; [|discriminate].
        injection Ec as ->. rewrite (getByName_of_position _ _ _ Hnd E0). exact Epc.
      * rewrite lookup_insert_ne in Hm by congruence.
        destruct (Hinv m k Hm) as (pc0 & Hpc0 & Hres). exists pc0. split; [|exact Hres].
        apply lookup_app_l_Some. exact Hpc0.
Qed.

Section WithPermutation.
Context `{Collaborators}.

Lemma write_columns_permuted perm block block' pcs pos fuel :
  Forall2 (permuted_as perm) block block' ->
  positions_resolved perm block pcs pos ->
  forall cols oc b,
    write_columns fuel cols block (Some perm) pcs pos oc b
    = write_columns fuel cols block' None pcs pos oc b.
Proof.
  intros Hb Hpos. induction cols as [|it cols IH]; intros oc b; simpl; [reflexivity|].
  unfold bind, lift_res, ret.
  rewrite (getByName_permuted perm block block' _ Hb).
  destruct (getByName block (nt_name it)) as [c|f] eqn:Ec; [|reflexivity].
  pose proof (getByName_elem _ _ _ Ec) as Hin.
  apply list_elem_of_lookup in Hin as (k & Hk).
  destruct (Forall2_lookup_l _ _ _ _ _ Hb Hk) as (c' & _ & col & Hcol & _).
  unfold then_permuted. simpl. rewrite Hcol. simpl.
  destruct (pos !! nt_name it) as [position|] eqn:Ep.
  - destruct (Hpos _ _ Ep) as (pc & Hpc & Hres). rewrite Hpc.
    rewrite Ec in Hres. unfold then_permuted in Hres. simpl in Hres.
    rewrite Hcol in Hres. simpl in Hres. injection Hres as <-. simpl.
    destruct (writeData fuel (name c) (type c) col oc 0 b) as [[oc'|f] b1];
      [apply IH | reflexivity].
  - destruct (writeData fuel (name c) (type c) col oc 0 b) as [[oc'|f] b1];
      [apply IH | reflexivity].
Qed.

(** X9. Writing with a permutation is writing the permuted block.  When the
    columns of the block have distinct names and every one of them can be
    permuted by [perm], [writeWithPermutation(block, perm)] has the outcome
    and the final state of [write] on the block whose columns are the
    permuted columns: the same bytes in the same streams, the same index
    entries and marks, the same failure if it fails. *)
Theorem writeWithPermutation_writes_the_permuted_block
    (fuel : nat) (block block' : Block) (perm : Permutation) (w : MergedBlockOutputStream) :
  NoDup (map name block) ->
  Z.of_nat (length (sort_description (storage (base w)))) < 2 ^ 64 ->
  permute_block block perm = Ok block' ->
  writeWithPermutation fuel block (Some perm) w = write fuel block' w.
Proof.
  intros Hnd Hlen Hperm. apply permute_block_each in Hperm as Hb.
  unfold writeWithPermutation, write, writeImpl.
  rewrite (block_rows_permuted perm block block' Hb).
  unfold bind at 1 6. unfold get at 1 2.
  rewrite (resolve_primary_columns_permuted perm block block' Hb).
  unfold bind at 1 5. unfold lift_res at 1 2.
  destruct (resolve_primary_columns _ block (Some perm) 0 [] ∅) as [[pcs pos]|f] eqn:Er;
    [|reflexivity].
  apply (resolve_primary_columns_positions perm block Hnd) in Er;
    [|reflexivity|simpl; lia|intros n k Hn; rewrite lookup_empty in Hn; discriminate].
  destruct (index_columns w) as [|ic ics].
  - unfold bind, modify, in_base, zoom.
    rewrite (write_columns_permuted perm block block' pcs pos fuel Hb Er). reflexivity.
  - unfold bind, ret, in_base, zoom.
    rewrite (write_columns_permuted perm block block' pcs pos fuel Hb Er). reflexivity.
Qed.

End WithPermutation.

Section WithPermutationWitness.
Import Reference Sample Scenario.
#[local] Existing Instance Reference.collaborators.

Lemma writeWithPermutation_writes_the_permuted_block_witness :
  writeWithPermutation 9 two_columns_block (Some [2; 0; 1]) keyed_full
  = write 9 [uint8 "n" [3; 1; 2]; uint8 "k" [6; 4; 5]] keyed_full.
Proof.
  apply writeWithPermutation_writes_the_permuted_block.
  - apply NoDup_cons_2; [|apply NoDup_singleton].
    intros Hin. apply list_elem_of_singleton in Hin. discriminate.
  - vm_compute. reflexivity.
  - vm_compute. reflexivity.
Defined.

End WithPermutationWitness.

(** ** The commit of the append-only assembler *)

Section OnlyCommitFacts.
Context `{Collaborators}.

Lemma finalize_streams_only_run sync_ : forall streams checksums fs,
  let r := finalize_streams_only sync_ streams checksums fs in
  (forall k, is_Some (checksums !! k) -> is_Some (r.1 !! k))
  /\ (forall k s, (k, s) ∈ streams ->
        is_Some (r.1 !! (manifest_name k s +:+ data_file_extension s))
        /\ is_Some (r.1 !! (manifest_name k s +:+ marks_file_extension s)))
  /\ synced r.2 = synced fs ++ (if sync_ then flat_map files_of streams else [])
  /\ directories r.2 = directories fs.
Proof.
  induction streams as [|[k s] streams IH]; intros checksums fs; cbn [finalize_streams_only].
  - simpl. split; [auto|]. split; [intros k s Hin; by apply elem_of_nil in Hin|].
    split; [destruct sync_; by rewrite app_nil_r | reflexivity].
  - unfold ColumnStream_finalize. cbn zeta.
    pose proof (compressed_next_files s) as (He & Hd & Hm & Hp & Hk).
    set (s1 := compressed_next s) in *.
    set (fs1 := store (marks_file s1) (marks_bytes s1) (store (plain_file s1) (plain_hashing s1) fs)).
    set (c1 := ColumnStream_addToChecksums s1 checksums (escapeForFileName k)).
    specialize (IH c1 (if sync_ then ColumnStream_sync s1 fs1 else fs1)).
    cbn zeta in IH. destruct IH as (Hkeep & Hall & Hsync & Hdir).
    assert (forall k', is_Some (checksums !! k') -> is_Some (c1 !! k')) as Hkeep1.
    { intros k' Hk'. unfold c1, ColumnStream_addToChecksums. cbn zeta.
      unfold Checksums in *.
      rewrite lookup_insert_is_Some', lookup_insert_is_Some'. tauto. }
    assert (is_Some (c1 !! (manifest_name k s +:+ data_file_extension s))
            /\ is_Some (c1 !! (manifest_name k s +:+ marks_file_extension s))) as [Hbin Hmrk].
    { unfold c1, ColumnStream_addToChecksums, manifest_name. cbn zeta.
      rewrite He, Hd, Hm. unfold Checksums in *.
      split; rewrite lookup_insert_is_Some', lookup_insert_is_Some'; tauto. }
    split; [auto|]. split; [|split].
    + intros k' s' Hin. apply elem_of_cons in Hin as [Heq|Hin]; [|apply Hall, Hin].
      injection Heq as -> ->. split; apply Hkeep; assumption.
    + rewrite Hsync. destruct sync_; simpl; [|reflexivity].
      rewrite Hp, Hk, <- !app_assoc. reflexivity.
    + rewrite Hdir. destruct sync_; reflexivity.
Qed.

End OnlyCommitFacts.

Section OnlyCommitTheorems.
Context `{Collaborators}.

Lemma elem_of_in_key_order {A} (m : gmap string A) k a :
  m !! k = Some a -> (k, a) ∈ in_key_order m.
Proof.
  intros Hk. unfold in_key_order. rewrite merge_sort_Permutation.
  apply elem_of_map_to_list. exact Hk.
Qed.

Lemma only_commit_run w :
  let b := only_base w in
  let r1 := finalize_streams_only (sync w) (in_key_order (null_streams b)) ∅ (disk b) in
  let r2 := finalize_streams_only (sync w) (in_key_order (column_streams b)) r1.1 r1.2 in
  only_writeSuffixAndGetChecksums w
  = (Ok r2.1,
     set_initialized false
       (set_only_base (set_null_streams ∅ (set_column_streams ∅ (set_disk r2.2 b))) w)).
Proof.
  cbn zeta. unfold only_writeSuffixAndGetChecksums, bind, get. cbn zeta.
  destruct (finalize_streams_only (sync w) (in_key_order (null_streams (only_base w))) ∅ _)
    as [c1 fs1].
  simpl. destruct (finalize_streams_only (sync w) _ c1 fs1) as [c2 fs2]. reflexivity.
Qed.

(** X10. The commit of the append-only assembler lists the two files of
    every stream under the escaped key of the stream table
    ([escapeForFileName(key)], or the stream's own escaped name when that is
    empty), not under the name the files were created with: for every
    stream of either table the returned manifest has an entry
    [name + extension] for the data file and one for the marks file. *)
Theorem only_commit_lists_streams_by_table_key (w : MergedColumnOnlyOutputStream) :
  exists checksums w',
    only_writeSuffixAndGetChecksums w = (Ok checksums, w')
    /\ forall key s,
         column_streams (only_base w) !! key = Some s
         \/ null_streams (only_base w) !! key = Some s ->
         is_Some (checksums !! (manifest_name key s +:+ data_file_extension s))
         /\ is_Some (checksums !! (manifest_name key s +:+ marks_file_extension s)).
Proof.
  eexists _, _. split; [apply only_commit_run|]. cbn zeta.
  set (b := only_base w).
  pose proof (finalize_streams_only_run (sync w) (in_key_order (null_streams b)) ∅ (disk b))
    as (_ & Hnull & _). cbn zeta in Hnull.
  set (r1 := finalize_streams_only (sync w) (in_key_order (null_streams b)) ∅ (disk b)) in *.
  pose proof (finalize_streams_only_run (sync w) (in_key_order (column_streams b)) r1.1 r1.2)
    as (Hkeep & Hcol & _). cbn zeta in Hkeep, Hcol.
  intros key s [Hs|Hs].
  - apply Hcol, elem_of_in_key_order, Hs.
  - destruct (Hnull key s (elem_of_in_key_order _ _ _ Hs)) as [H1 H2].
    split; apply Hkeep; assumption.
Qed.

Lemma finalize_streams_synced streams : forall checksums fs,
  synced (finalize_streams streams checksums fs).2 = synced fs.
Proof.
  induction streams as [|[k s] streams IH]; intros checksums fs; simpl; [reflexivity|].
  rewrite IH. reflexivity.
Qed.

(** X11. Only the append-only assembler built with [sync] forces its files
    to disk at the commit: then [sync] is called on the data file and the
    marks file of every stream, the null maps first, each table in the
    order of its keys; without the flag, and in the commit of the full
    assembler, no file is synced.  The commit of the append-only assembler
    always returns, empties both stream tables and clears [initialized], so
    that the next [write] builds the streams anew, and it leaves the carried
    [index_offset] as it is. *)
Theorem only_commit_syncs_and_resets :
  (forall w : MergedColumnOnlyOutputStream,
     let b := only_base w in
     exists checksums w',
       only_writeSuffixAndGetChecksums w = (Ok checksums, w')
       /\ column_streams (only_base w') = ∅
       /\ null_streams (only_base w') = ∅
       /\ initialized w' = false
       /\ index_offset (only_base w') = index_offset b
       /\ synced (disk (only_base w'))
          = synced (disk b)
              ++ (if sync w
                  then flat_map files_of
                         (in_key_order (null_streams b) ++ in_key_order (column_streams b))
                  else []))
  /\ (forall (w w' : MergedBlockOutputStream) checksums,
        writeSuffixAndGetChecksums w = (Ok checksums, w') ->
        synced (disk (base w')) = synced (disk (base w))).
Proof.
  split.
  - intros w b. eexists _, _. split; [apply only_commit_run|]. cbn zeta. fold b. simpl.
    repeat (split; [reflexivity|]).
    pose proof (finalize_streams_only_run (sync w) (in_key_order (null_streams b)) ∅ (disk b))
      as (_ & _ & Hs1 & _). cbn zeta in Hs1.
    set (r1 := finalize_streams_only (sync w) (in_key_order (null_streams b)) ∅ (disk b)) in *.
    pose proof (finalize_streams_only_run (sync w) (in_key_order (column_streams b)) r1.1 r1.2)
      as (_ & _ & Hs2 & _). cbn zeta in Hs2.
    rewrite Hs2, Hs1. destruct (sync w); [|by rewrite !app_nil_r].
    rewrite flat_map_app, app_assoc. reflexivity.
  - intros w w' checksums E.
    pose proof (writeSuffixAndGetChecksums_run w (commit_opened_index _ _ _ E)) as Hrun.
    cbn zeta in Hrun.
    assert (synced (flushed w (if is_unsorted (merging_mode (storage (base w)))
                               then None else index_stream w)).2
            = synced (disk (base w))) as Hs.
    { unfold flushed. destruct (if is_unsorted _ then None else index_stream w) as [bytes|].
      - destruct (finalize_streams (in_key_order (column_streams (base w))) _ _) as [c1 fs1] eqn:E1.
        rewrite finalize_streams_synced.
        change fs1 with (c1, fs1).2. rewrite <- E1, finalize_streams_synced. reflexivity.
      - destruct (finalize_streams (in_key_order (column_streams (base w))) _ _) as [c1 fs1] eqn:E1.
        rewrite finalize_streams_synced.
        change fs1 with (c1, fs1).2. rewrite <- E1, finalize_streams_synced. reflexivity. }
    destruct (flushed w _) as [c fs]. simpl in Hs. rewrite Hrun in E.
    destruct (marks_count w =? 0); injection E as _ <-; simpl; exact Hs.
Qed.

End OnlyCommitTheorems.

Section OnlyCommitWitness.
Import Reference Sample Scenario3.
#[local] Existing Instance Reference.collaborators.

(** The sizes stream of an array column: its files are created as
    [escape(t) + "%size0"], the commit lists them as [escape("t%size0")],
    and the manifest names files that the part does not hold. *)
Example sizes_files_listed_under_another_name :
  let w := (only_write 9 array_block only_synced).2 in
  let r := only_writeSuffixAndGetChecksums w in
  elements (dom (from_ok r.1 ∅))
  = ["t%25size0.mrk"; "t%25size0.bin"; "t%2Ex.mrk"; "t%2Ex.bin"]
  /\ elements (dom (files (disk (only_base r.2))))
     = ["part/t%size0.mrk"; "part/t%size0.bin"; "part/t%2Ex.mrk"; "part/t%2Ex.bin"]
  /\ synced (disk (only_base r.2))
     = ["part/t%size0.bin"; "part/t%size0.mrk"; "part/t%2Ex.bin"; "part/t%2Ex.mrk"].
Proof. vm_compute. repeat split; reflexivity. Qed.

Lemma only_commit_lists_streams_by_table_key_witness :
  let w := (only_write 9 array_block only_synced).2 in
  is_Some (from_ok (only_writeSuffixAndGetChecksums w).1 ∅ !! "t%25size0.bin").
Proof.
  intros w. destruct (only_commit_lists_streams_by_table_key w) as (checksums & w' & E & Hall).
  rewrite E. simpl.
  assert (exists s, column_streams (only_base w) !! "t%size0" = Some s
                    /\ manifest_name "t%size0" s = "t%25size0"
                    /\ data_file_extension s = ".bin") as (s & Hs & Hname & Hext).
  { eexists. split; [vm_compute; reflexivity|]. split; vm_compute; reflexivity. }
  destruct (Hall "t%size0" s (or_introl Hs)) as [Hbin _].
  rewrite Hname, Hext in Hbin. exact Hbin.
Defined.

Lemma only_commit_syncs_and_resets_witness :
  let w := (only_write 9 array_block only_synced).2 in
  synced (disk (only_base (only_writeSuffixAndGetChecksums w).2))
  = ["part/t%size0.bin"; "part/t%size0.mrk"; "part/t%2Ex.bin"; "part/t%2Ex.mrk"]
  /\ initialized (only_writeSuffixAndGetChecksums w).2 = false.
Proof.
  intros w. destruct only_commit_syncs_and_resets as [Honly _].
  destruct (Honly w) as (checksums & w' & E & _ & _ & Hinit & _ & Hsync).
  rewrite E. simpl. split; [|exact Hinit]. rewrite Hsync. vm_compute. reflexivity.
Defined.

End OnlyCommitWitness.

(** * Properties of the numbers tables *)

Section NumbersFacts.
Import Numbers.

Lemma wrap_wrap z : wrap (wrap z) = wrap z.
Proof. unfold wrap. apply Z.mod_mod. lia. Qed.

Lemma wrap_add_l a b : wrap (wrap a + b) = wrap (a + b).
Proof. unfold wrap. apply Zplus_mod_idemp_l. Qed.

Lemma wrap_add_r a b : wrap (a + wrap b) = wrap (a + b).
Proof. unfold wrap. apply Zplus_mod_idemp_r. Qed.

Lemma wrap_mul_l a b : wrap (wrap a * b) = wrap (a * b).
Proof. unfold wrap. apply Zmult_mod_idemp_l. Qed.

Lemma wrap_mul_r a b : wrap (a * wrap b) = wrap (a * b).
Proof. unfold wrap. apply Zmult_mod_idemp_r. Qed.

Lemma fill_length n curr : length (fill n curr) = n.
Proof. revert curr. induction n as [|n IH]; intros curr; simpl; [reflexivity|]. by rewrite IH. Qed.

Lemma fill_lookup n : forall curr j,
  (j < n)%nat -> fill n (wrap curr) !! j = Some (wrap (curr + Z.of_nat j)).
Proof.
  induction n as [|n IH]; intros curr j Hj; [lia|]. simpl.
  destruct j as [|j]; simpl.
  - rewrite Z.add_0_r. reflexivity.
  - rewrite wrap_add_l, IH by lia. f_equal. f_equal. lia.
Qed.

Lemma fill_seqZ n : forall curr,
  0 <= curr -> curr + Z.of_nat n <= 2 ^ 64 -> fill n curr = seqZ curr (Z.of_nat n).
Proof.
  induction n as [|n IH]; intros curr H0 Hb; [reflexivity|].
  rewrite seqZ_cons by lia. simpl. f_equal.
  destruct (Z.eq_dec (Z.of_nat n) 0) as [Hn|Hn].
  - assert (n = 0%nat) as -> by lia. reflexivity.
  - rewrite wrap_small by lia. rewrite IH by lia. f_equal; lia.
Qed.

Lemma generate_next s :
  next (generate s).2 = wrap (next s + step s)
  /\ step (generate s).2 = step s /\ block_size (generate s).2 = block_size s.
Proof. repeat split. Qed.

Lemma nth_chunk_numbers : forall k s,
  numbers (nth_chunk k s)
  = fill (Z.to_nat (block_size s)) (if k is O then next s else wrap (next s + Z.of_nat k * step s))
  /\ num_rows (nth_chunk k s) = block_size s.
Proof.
  induction k as [|k IH]; intros s.
  - simpl. unfold numbers. simpl. rewrite app_nil_r. split; reflexivity.
  - cbn [nth_chunk]. destruct (IH (generate s).2) as [-> ->].
    split; [|reflexivity]. simpl. f_equal. destruct k as [|k].
    + f_equal. lia.
    + rewrite wrap_add_l. f_equal. lia.
Qed.

Lemma wrap_congr_add a a' b b' :
  wrap a = wrap a' -> wrap b = wrap b' -> wrap (a + b) = wrap (a' + b').
Proof.
  intros Ha Hb. rewrite <- wrap_add_l, <- wrap_add_r, Ha, Hb, wrap_add_l, wrap_add_r.
  reflexivity.
Qed.

Lemma plain_pipe_numbers limit_ offset_ b n i k j :
  0 <= j < b ->
  numbers (nth_chunk k (source (plain_pipe limit_ offset_ b n i))) !! Z.to_nat j
  = Some (wrap (offset_ + ((Z.of_nat k * n + i) * b + j))).
Proof.
  intros Hj. destruct (nth_chunk_numbers k (source (plain_pipe limit_ offset_ b n i))) as [-> _].
  simpl. destruct k as [|k].
  - rewrite fill_lookup by lia. f_equal. rewrite Z2Nat.id by lia.
    replace (offset_ + ((Z.of_nat 0 * n + i) * b + j)) with (offset_ + (i * b) + j) by lia.
    apply wrap_congr_add; [|reflexivity]. rewrite wrap_add_r. reflexivity.
  - rewrite fill_lookup by lia. f_equal. rewrite Z2Nat.id by lia.
    replace (offset_ + ((Z.of_nat (S k) * n + i) * b + j))
      with (offset_ + i * b + Z.of_nat (S k) * (n * b) + j) by lia.
    apply wrap_congr_add; [|reflexivity].
    apply wrap_congr_add; [rewrite wrap_wrap, wrap_add_r; reflexivity|].
    rewrite wrap_mul_r. reflexivity.
Qed.

Lemma seqZ_lookup_nat (n : Z) (i : Z) :
  0 <= i < n -> seqZ 0 n !! Z.to_nat i = Some i.
Proof. intros Hi. rewrite lookup_seqZ. split; lia. Qed.

(** X12. Without a limit, the streams of [system.numbers] enumerate the
    numbers from [offset] on, each at exactly one place.  A read with block
    size [b] and [n] streams ([n = 1] when the table is not multithreaded)
    returns [n] pipes without a limit transform, and the number at position
    [j] of the chunk that the call [k] of [generate] returns on stream [i]
    is [offset + (k * n + i) * b + j] modulo 2^64; every natural number [m]
    is [(k * n + i) * b + j] for some such place. *)
Theorem numbers_streams_enumerate
    (check : list string -> option string) (column_names : list string)
    (b n : Z) (storage : StorageSystemNumbers) :
  check column_names = None ->
  limit storage = None -> even_distribution storage = true ->
  0 < b -> 0 < n ->
  let n' := if multithreaded storage then n else 1 in
  exists pipes,
    readWithProcessors check column_names b n storage = (Returned (Plain pipes), storage)
    /\ length pipes = Z.to_nat n'
    /\ (forall i k j, 0 <= i < n' -> 0 <= j < b ->
          exists pipe,
            pipes !! Z.to_nat i = Some pipe
            /\ limit_transform pipe = None
            /\ num_rows (nth_chunk k (source pipe)) = b
            /\ numbers (nth_chunk k (source pipe)) !! Z.to_nat j
               = Some (wrap (offset storage + ((Z.of_nat k * n' + i) * b + j))))
    /\ (forall m, 0 <= m ->
          exists i k j, 0 <= i < n' /\ 0 <= j < b /\ m = (Z.of_nat k * n' + i) * b + j).
Proof.
  intros Hcheck Hlimit Heven Hb Hn n'.
  assert (0 < n') as Hn' by (unfold n'; destruct (multithreaded storage); lia).
  exists (map (plain_pipe None (offset storage) b n') (seqZ 0 n')).
  split; [|split; [|split]].
  - unfold readWithProcessors. rewrite Hcheck, Hlimit, Heven. fold n'.
    rewrite andb_false_r, Hlimit. reflexivity.
  - rewrite length_map, length_seqZ. reflexivity.
  - intros i k j Hi Hj. exists (plain_pipe None (offset storage) b n' i).
    split; [|split; [reflexivity|split]].
    + rewrite list_lookup_fmap, seqZ_lookup_nat by exact Hi. reflexivity.
    + apply nth_chunk_numbers.
    + apply plain_pipe_numbers, Hj.
  - intros m Hm. exists ((m / b) mod n'), (Z.to_nat (m / b / n')), (m mod b).
    pose proof (Z.mod_pos_bound (m / b) n' Hn').
    pose proof (Z.mod_pos_bound m b Hb).
    split; [lia|]. split; [lia|].
    rewrite Z2Nat.id by (apply Z.div_pos; [apply Z.div_pos|]; lia).
    rewrite (Z.mul_comm (m / b / n')), <- Z.div_mod by lia.
    rewrite (Z.mul_comm (m / b)), <- Z.div_mod by lia. reflexivity.
Qed.

Lemma numbers_streams_enumerate_witness :
  let storage :=
    {| multithreaded := true; even_distribution := true; limit := None; offset := 7 |} in
  exists pipes,
    readWithProcessors (fun _ => None) ["number"] 4 3 storage
    = (Returned (Plain pipes), storage)
    /\ length pipes = 3%nat
    /\ (forall i k j, 0 <= i < 3 -> 0 <= j < 4 ->
          exists pipe,
            pipes !! Z.to_nat i = Some pipe
            /\ limit_transform pipe = None
            /\ num_rows (nth_chunk k (source pipe)) = 4
            /\ numbers (nth_chunk k (source pipe)) !! Z.to_nat j
               = Some (wrap (7 + ((Z.of_nat k * 3 + i) * 4 + j))))
    /\ (forall m, 0 <= m ->
          exists i k j, 0 <= i < 3 /\ 0 <= j < 4 /\ m = (Z.of_nat k * 3 + i) * 4 + j).
Proof.
  intros storage.
  refine (numbers_streams_enumerate (fun _ => None) ["number"] 4 3 storage _ _ _ _ _);
    try reflexivity.
Defined.

Lemma telescope (f : Z -> Z) : forall (len : nat) (start : Z),
  foldr Z.add 0 (map (fun i => f (i + 1) - f i) (seqZ start (Z.of_nat len)))
  = f (start + Z.of_nat len) - f start.
Proof.
  induction len as [|len IH]; intros start.
  - simpl. rewrite Z.add_0_r. lia.
  - rewrite seqZ_cons by lia. cbn [map foldr].
    replace (Z.pred (Z.of_nat (S len))) with (Z.of_nat len) by lia.
    rewrite IH. replace (Z.succ start + Z.of_nat len) with (start + Z.of_nat (S len)) by lia.
    replace (Z.succ start) with (start + 1) by lia. lia.
Qed.

Lemma share_bounds l n a :
  0 < n -> 0 <= l -> 0 <= a ->
  l / n <= (a + l) / n - a / n <= l / n + 1.
Proof.
  intros Hn Hl Ha.
  pose proof (Z.div_mod a n ltac:(lia)) as Ea.
  pose proof (Z.div_mod l n ltac:(lia)) as El.
  pose proof (Z.mod_pos_bound a n Hn) as Ba.
  pose proof (Z.mod_pos_bound l n Hn) as Bl.
  replace (a + l) with ((a / n + l / n) * n + (a mod n + l mod n)) by lia.
  rewrite Z.div_add_l by lia.
  assert (0 <= (a mod n + l mod n) / n) by (apply Z.div_pos; lia).
  assert ((a mod n + l mod n) / n < 2) by (apply Z.div_lt_upper_bound; lia).
  lia.
Qed.

(** X13. With a limit [l] and even distribution, the read splits the limit
    between its streams.  The call returns [n'] plain pipes, where [n'] is
    [num_streams] for a multithreaded table whose limit is not below the
    block size and 1 otherwise; when [l * n'] does not overflow, every pipe
    carries a limit transform of [l / n'] or [l / n' + 1] rows (the pipe
    [i] one of [l * (i + 1) / n' - l * i / n'] rows), the limits add up to
    [l], and the first pipe, and no other, announces [l] as the approximate
    total. *)
Theorem limit_is_split_between_streams
    (check : list string -> option string) (column_names : list string)
    (b n l : Z) (storage : StorageSystemNumbers) :
  check column_names = None ->
  limit storage = Some l -> even_distribution storage = true ->
  0 <= l -> 0 < n < 2 ^ 32 ->
  let n' := if multithreaded storage && negb (l <? b) then n else 1 in
  l * n' < 2 ^ 64 ->
  exists pipes storage',
    readWithProcessors check column_names b n storage = (Returned (Plain pipes), storage')
    /\ length pipes = Z.to_nat n'
    /\ (forall i, 0 <= i < n' ->
          exists pipe,
            pipes !! Z.to_nat i = Some pipe
            /\ limit_transform pipe = Some (l * (i + 1) / n' - l * i / n')
            /\ total_rows_approx pipe = if i =? 0 then Some l else None)
    /\ Forall (fun pipe =>
                 exists share,
                   limit_transform pipe = Some share /\ l / n' <= share <= l / n' + 1) pipes
    /\ Forall (fun share => l / n' <= share <= l / n' + 1) (shares pipes)
    /\ length (shares pipes) = Z.to_nat n'
    /\ foldr Z.add 0 (shares pipes) = l
    /\ total_rows_approx <$> head pipes = Some (Some l)
    /\ Forall (fun pipe => total_rows_approx pipe = None) (tail pipes).
Proof.
  intros Hcheck Hlimit Heven Hl Hn n' Hbound.
  assert (0 < n' < 2 ^ 32) as Hn' by (unfold n'; destruct (_ && _); lia).
  unfold readWithProcessors. rewrite Hcheck, Hlimit.
  set (b' := if l <? b then l else b).
  set (storage' := if l <? b then _ else storage).
  assert (even_distribution storage' = true /\ limit storage' = Some l
          /\ offset storage' = offset storage
          /\ (if multithreaded storage' then n else 1) = n') as (He & Hl' & Ho & Hn'').
  { unfold storage', n'. destruct (l <? b); simpl.
    - rewrite andb_false_r. repeat split; assumption.
    - rewrite andb_true_r. repeat split; assumption. }
  rewrite He, Hn'', andb_false_r, Hl'.
  eexists _, storage'. split; [reflexivity|].
  assert (forall i, 0 <= i < n' ->
            limit_transform (plain_pipe (Some l) (offset storage') b' n' i)
            = Some ((l * (i + 1)) / n' - (l * i) / n')) as Hshare.
  { intros i Hi. simpl. f_equal.
    assert (0 <= l * i <= l * (i + 1) /\ l * (i + 1) <= l * n') as [H1 H2] by nia.
    rewrite (wrap_small (i + 1)) by lia.
    rewrite (wrap_small (l * (i + 1))), (wrap_small (l * i)) by lia.
    apply wrap_small.
    assert (l * i / n' <= l * (i + 1) / n') by (apply Z.div_le_mono; lia).
    assert (l * (i + 1) / n' <= l * (i + 1)) by (apply Z.div_le_upper_bound; nia).
    assert (0 <= l * i / n') by (apply Z.div_pos; lia). lia. }
  assert (shares (map (plain_pipe (Some l) (offset storage') b' n') (seqZ 0 n'))
          = map (fun i => (fun i => l * i / n') (i + 1) - (fun i => l * i / n') i) (seqZ 0 n'))
    as Hshares.
  { unfold shares. rewrite map_map. apply list_fmap_ext. intros k i Hi.
    apply list_elem_of_lookup_2, elem_of_seqZ in Hi. rewrite Hshare by lia. reflexivity. }
  split; [by rewrite length_map, length_seqZ|].
  split; [|split; [|split; [|split; [|split; [|split]]]]].
  - intros i Hi. eexists. rewrite list_lookup_fmap, seqZ_lookup_nat by lia.
    split; [reflexivity|]. split; [apply Hshare; exact Hi | reflexivity].
  - apply Forall_forall. intros pipe Hpipe.
    apply list_elem_of_fmap in Hpipe as (i & -> & Hi). apply elem_of_seqZ in Hi.
    eexists. split; [apply Hshare; lia|].
    replace (l * (i + 1)) with (l * i + l) by lia. apply share_bounds; nia.
  - rewrite Hshares. apply Forall_forall. intros x Hx.
    apply list_elem_of_fmap in Hx as (i & -> & Hi). apply elem_of_seqZ in Hi.
    replace (l * (i + 1)) with (l * i + l) by lia. apply share_bounds; nia.
  - unfold shares. rewrite !length_map, length_seqZ. reflexivity.
  - rewrite Hshares.
    pose proof (telescope (fun i => l * i / n') (Z.to_nat n') 0) as Ht.
    rewrite Z2Nat.id in Ht by lia. rewrite Ht. simpl.
    rewrite Z.mul_0_r, Z.div_0_l, Z.sub_0_r by lia. apply Z.div_mul. lia.
  - rewrite seqZ_cons by lia. reflexivity.
  - rewrite seqZ_cons by lia. cbn [map tail]. apply Forall_forall. intros pipe Hpipe.
    apply list_elem_of_fmap in Hpipe as (i & -> & Hi). apply elem_of_seqZ in Hi.
    cbn [total_rows_approx plain_pipe]. destruct (Z.eqb_spec i 0); [lia | reflexivity].
Qed.

Lemma limit_is_split_between_streams_witness :
  let storage :=
    {| multithreaded := true; even_distribution := true; limit := Some 10; offset := 0 |} in
  exists pipes storage',
    readWithProcessors (fun _ => None) ["number"] 2 3 storage
    = (Returned (Plain pipes), storage')
    /\ length pipes = 3%nat
    /\ (forall i, 0 <= i < 3 ->
          exists pipe,
            pipes !! Z.to_nat i = Some pipe
            /\ limit_transform pipe = Some (10 * (i + 1) / 3 - 10 * i / 3)
            /\ total_rows_approx pipe = if i =? 0 then Some 10 else None)
    /\ Forall (fun pipe =>
                 exists share, limit_transform pipe = Some share /\ 3 <= share <= 4) pipes
    /\ Forall (fun share => 3 <= share <= 4) (shares pipes)
    /\ length (shares pipes) = 3%nat
    /\ foldr Z.add 0 (shares pipes) = 10
    /\ total_rows_approx <$> head pipes = Some (Some 10)
    /\ Forall (fun pipe => total_rows_approx pipe = None) (tail pipes).
Proof.
  intros storage.
  refine (limit_is_split_between_streams (fun _ => None) ["number"] 2 3 10 storage
            _ _ _ _ _ _); try reflexivity; simpl; lia.
Defined.

Lemma numbers_empty_chunk : numbers empty_chunk = [].
Proof. reflexivity. Qed.

Lemma pool_generate_hands_out b max offset_ t p i :
  0 < b -> 0 <= offset_ <= max -> 0 <= t -> max + b < 2 ^ 64 ->
  offset_ + b * (t + 1) < 2 ^ 64 ->
  (i < length (sources p))%nat ->
  handing_out b max offset_ t p ->
  exists chunk p',
    pool_generate i p = Some (chunk, p')
    /\ numbers chunk
       = seqZ (Z.min max (counter p)) (Z.min max (counter p') - Z.min max (counter p))
    /\ length (sources p') = length (sources p)
    /\ counter p <= counter p'
    /\ handing_out b max offset_ (t + 1) p'.
Proof.
  intros Hb Hmax Ht Hbound Hbound' Hi (Hall & Hc & Hact & Hdone).
  destruct (lookup_lt_is_Some_2 _ _ Hi) as [s Hs].
  pose proof (proj1 (Forall_forall _ _) Hall s (list_elem_of_lookup_2 _ _ _ Hs)) as [Hm Hbs].
  unfold pool_generate. rewrite Hs. unfold mt_generate.
  destruct (Z.eqb_spec (mt_block_size s) 0) as [|_]; [lia|]. rewrite Hm.
  destruct (Z.leb_spec max (counter p)) as [Hge|Hlt].
  - (* every number has been handed out *)
    eexists _, _. split; [reflexivity|]. simpl.
    rewrite (wrap_small (counter p + mt_block_size s)) by nia.
    rewrite !Z.min_l by lia. rewrite Z.sub_diag. split; [reflexivity|].
    rewrite length_insert. split; [reflexivity|]. split; [lia|].
    rewrite list_insert_id by exact Hs.
    split; [exact Hall|]. unfold handing_out; cbn [counter sources].
    split; [nia|]. split; [lia|]. intros _. specialize (Hdone Hge). nia.
  - destruct (Hact Hlt) as [Hcount Hsame].
    pose proof (proj1 (Forall_forall _ _) Hsame s (list_elem_of_lookup_2 _ _ _ Hs)) as Hsb.
    rewrite Hsb. rewrite (wrap_small (counter p + b)) by lia.
    destruct (Z.ltb_spec max (counter p + b)) as [Hcut|Hfull].
    + (* the last chunk is cut at [max] *)
      eexists _, _. split; [reflexivity|]. simpl.
      rewrite (wrap_small (max - counter p)) by lia.
      unfold numbers. simpl. rewrite app_nil_r.
      rewrite fill_seqZ by lia. rewrite Z2Nat.id by lia.
      rewrite Z.min_r, Z.min_l by lia. split; [reflexivity|].
      rewrite length_insert. split; [reflexivity|]. split; [lia|].
      unfold handing_out; cbn [counter sources].
      split; [|split; [nia|split; [intros; nia|intros _; nia]]].
      apply Forall_insert; [exact Hall|]. simpl. split; [reflexivity | lia].
    + eexists _, _. split; [reflexivity|]. simpl.
      unfold numbers. simpl. rewrite app_nil_r.
      rewrite fill_seqZ by lia. rewrite Z2Nat.id by lia.
      rewrite (Z.min_r max (counter p)) by lia.
      replace (Z.min max (counter p + b) - counter p) with b by lia. split; [reflexivity|].
      rewrite length_insert. split; [reflexivity|]. split; [lia|].
      unfold handing_out; cbn [counter sources].
      split; [|split; [nia|split; [|intros; nia]]].
      * apply Forall_insert; [exact Hall|]. simpl. split; [reflexivity | lia].
      * intros _. split; [nia|]. apply Forall_insert; [exact Hsame | reflexivity].
Qed.

Lemma pool_run_hands_out b max offset_ : forall schedule t p,
  0 < b -> 0 <= offset_ <= max -> 0 <= t -> max + b < 2 ^ 64 ->
  offset_ + b * (t + Z.of_nat (length schedule) + 1) < 2 ^ 64 ->
  Forall (fun i => (i < length (sources p))%nat) schedule ->
  handing_out b max offset_ t p ->
  exists chunks p',
    pool_run schedule p = Some (chunks, p')
    /\ concat (map numbers chunks)
       = seqZ (Z.min max (counter p)) (Z.min max (counter p') - Z.min max (counter p))
    /\ counter p <= counter p'
    /\ handing_out b max offset_ (t + Z.of_nat (length schedule)) p'.
Proof.
  induction schedule as [|i schedule IH]; intros t p Hb Hmax Ht Hbound Hbound' Hsched Hinv.
  - exists [], p. split; [reflexivity|]. rewrite Z.sub_diag. split; [reflexivity|].
    split; [lia|]. simpl. rewrite Z.add_0_r. exact Hinv.
  - apply Forall_cons in Hsched as [Hi Hsched]. simpl length in Hbound'.
    destruct (pool_generate_hands_out b max offset_ t p i Hb Hmax Ht Hbound ltac:(nia) Hi Hinv)
      as (chunk & p1 & E1 & Hnum & Hlen & Hmono1 & Hinv1).
    destruct (IH (t + 1) p1 Hb Hmax ltac:(lia) Hbound ltac:(nia)
                ltac:(rewrite Hlen; exact Hsched) Hinv1)
      as (chunks & p' & E & Hnums & Hmono & Hinv').
    exists (chunk :: chunks), p'. simpl. rewrite E1, E. split; [reflexivity|].
    split; [|split; [lia|]].
    + rewrite Hnum, Hnums.
      replace (Z.min max (counter p') - Z.min max (counter p))
        with ((Z.min max (counter p1) - Z.min max (counter p))
              + (Z.min max (counter p') - Z.min max (counter p1))) by lia.
      rewrite seqZ_app by lia. do 2 f_equal. lia.
    + replace (t + Z.of_nat (S (length schedule))) with (t + 1 + Z.of_nat (length schedule))
        by lia. exact Hinv'.
Qed.

(** X14. The sources of [numbers_mt] that share one counter hand out the
    range of the limit without a gap or a repetition.  A read of a
    multithreaded table without even distribution, with the limit [l] at
    least the block size [b] and more than one stream, returns sources of one
    shared state; whatever the order [schedule] in which the sources are
    asked for a chunk, the numbers of the chunks in the order of the calls
    are [offset, offset + 1, ...], as many as [b] per call and [l] at most
    (the counter is assumed not to pass 2^64). *)
Theorem shared_counter_hands_out_the_range
    (check : list string -> option string) (column_names : list string)
    (b n l : Z) (storage : StorageSystemNumbers) (schedule : list nat) :
  check column_names = None ->
  multithreaded storage = true -> even_distribution storage = false ->
  limit storage = Some l ->
  0 < b <= l -> 1 < n -> 0 <= offset storage ->
  offset storage + l + b < 2 ^ 64 ->
  offset storage + b * (Z.of_nat (length schedule) + 1) < 2 ^ 64 ->
  Forall (fun i => (i < Z.to_nat n)%nat) schedule ->
  exists pool chunks pool',
    readWithProcessors check column_names b n storage = (Returned (Shared pool), storage)
    /\ length (sources pool) = Z.to_nat n
    /\ pool_run schedule pool = Some (chunks, pool')
    /\ concat (map numbers chunks)
       = seqZ (offset storage) (Z.min l (b * Z.of_nat (length schedule))).
Proof.
  intros Hcheck Hmt Heven Hlimit Hb Hn Hoff Hbound Hbound' Hsched.
  unfold readWithProcessors. rewrite Hcheck, Hlimit.
  destruct (Z.ltb_spec l b) as [|_]; [lia|]. rewrite Hmt, Heven, Hlimit.
  destruct (Z.ltb_spec 1 n) as [_|]; [|lia].
  destruct (Z.eqb_spec l 0) as [|_]; [lia|]. simpl.
  rewrite (wrap_small (offset storage + l)) by lia.
  set (pool := {| counter := offset storage; sources := _ |}).
  assert (length (sources pool) = Z.to_nat n) as Hlen.
  { subst pool. simpl. rewrite length_map, length_seqZ. reflexivity. }
  assert (handing_out b (offset storage + l) (offset storage) 0 pool) as Hinv.
  { unfold handing_out. subst pool. cbn [counter sources].
    split; [|split; [lia|split; [|intros; lia]]].
    - apply Forall_forall. intros s Hs. apply list_elem_of_fmap in Hs as (? & -> & _).
      simpl. lia.
    - intros _. split; [lia|]. apply Forall_forall. intros s Hs.
      apply list_elem_of_fmap in Hs as (? & -> & _). reflexivity. }
  destruct (pool_run_hands_out b (offset storage + l) (offset storage) schedule 0 pool)
    as (chunks & pool' & E & Hnums & _ & Hinv'); try lia.
  { rewrite Hlen. exact Hsched. }
  { exact Hinv. }
  exists pool, chunks, pool'. split; [reflexivity|]. split; [exact Hlen|].
  split; [exact E|]. rewrite Hnums. replace (counter pool) with (offset storage) by reflexivity.
  destruct Hinv' as (_ & Hc & Hact & Hdone). f_equal; [lia|].
  destruct (Z.lt_ge_cases (counter pool') (offset storage + l)) as [Hlt|Hge].
  - destruct (Hact Hlt) as [-> _]. lia.
  - specialize (Hdone Hge). lia.
Qed.

Lemma shared_counter_hands_out_the_range_witness :
  let storage :=
    {| multithreaded := true; even_distribution := false; limit := Some 5; offset := 10 |} in
  exists pool chunks pool',
    readWithProcessors (fun _ => None) ["number"] 2 2 storage
    = (Returned (Shared pool), storage)
    /\ length (sources pool) = 2%nat
    /\ pool_run [0; 1; 1; 0]%nat pool = Some (chunks, pool')
    /\ concat (map numbers chunks) = [10; 11; 12; 13; 14].
Proof.
  intros storage.
  refine (shared_counter_hands_out_the_range (fun _ => None) ["number"] 2 2 5 storage
            [0; 1; 1; 0]%nat _ _ _ _ _ _ _ _ _ _); try reflexivity; simpl; try lia.
  repeat constructor.
Defined.

(** X15. A read whose limit is below the block size turns the table
    single-threaded for good: the storage it leaves behind answers every
    later read, whatever the block size and the number of streams asked for,
    with exactly one pipe. *)
Theorem small_limit_read_clears_multithreaded
    (check : list string -> option string) (column_names column_names' : list string)
    (b n b' n' l : Z) (storage : StorageSystemNumbers) :
  check column_names = None -> check column_names' = None ->
  limit storage = Some l -> l < b ->
  let storage' := (readWithProcessors check column_names b n storage).2 in
  multithreaded storage' = false
  /\ exists pipe storage'',
       readWithProcessors check column_names' b' n' storage'
       = (Returned (Plain [pipe]), storage'')
       /\ multithreaded storage'' = false.
Proof.
  intros Hcheck Hcheck' Hlimit Hsmall storage'.
  assert (storage'
          = {| multithreaded := false; even_distribution := even_distribution storage;
               limit := limit storage; offset := offset storage |}) as ->.
  { subst storage'. unfold readWithProcessors. rewrite Hcheck, Hlimit.
    destruct (Z.ltb_spec l b) as [_|]; [|lia]. cbn [multithreaded].
    replace (1 <? 1) with false by reflexivity. reflexivity. }
  split; [reflexivity|].
  unfold readWithProcessors. rewrite Hcheck'. cbn [limit multithreaded]. rewrite Hlimit.
  destruct (l <? b'); cbn [multithreaded]; replace (1 <? 1) with false by reflexivity;
    simpl; eexists _, _; (split; [reflexivity|reflexivity]).
Qed.

Lemma small_limit_read_clears_multithreaded_witness :
  let storage :=
    {| multithreaded := true; even_distribution := true; limit := Some 3; offset := 0 |} in
  let storage' := (readWithProcessors (fun _ => None) ["number"] 8 4 storage).2 in
  multithreaded storage' = false
  /\ exists pipe storage'',
       readWithProcessors (fun _ => None) ["number"] 2 4 storage'
       = (Returned (Plain [pipe]), storage'')
       /\ multithreaded storage'' = false.
Proof.
  intros storage.
  refine (small_limit_read_clears_multithreaded (fun _ => None) ["number"] ["number"]
            8 4 2 4 3 storage _ _ _ _); try reflexivity.
Defined.

(** X16. A read dereferences the empty [limit] exactly when it passes the
    column check on a multithreaded table without a limit and without even
    distribution, and is asked for more than one stream. *)
Theorem read_dereferences_empty_limit
    (check : list string -> option string) (column_names : list string)
    (b n : Z) (storage : StorageSystemNumbers) :
  (exists what, (readWithProcessors check column_names b n storage).1 = UndefinedCall what)
  <-> check column_names = None /\ limit storage = None /\ multithreaded storage = true
      /\ even_distribution storage = false /\ 1 < n.
Proof.
  unfold readWithProcessors. split.
  - intros [what H]. destruct (check column_names); [discriminate|].
    destruct (limit storage) as [l|] eqn:El.
    + destruct (l <? b); cbn [multithreaded even_distribution limit] in H;
        [replace (1 <? 1) with false in H by reflexivity; discriminate|].
      rewrite El in H.
      destruct ((1 <? (if multithreaded storage then n else 1))
                && negb (even_distribution storage)); [|discriminate].
      destruct (negb (l =? 0)); discriminate.
    + rewrite El in H. destruct (multithreaded storage).
      * destruct (Z.ltb_spec 1 n); [|discriminate].
        destruct (even_distribution storage); [discriminate|]. repeat split; lia.
      * replace (1 <? 1) with false in H by reflexivity. discriminate.
  - intros (-> & Hl & Hm & He & Hn). rewrite Hl, Hm, He, Hl.
    destruct (Z.ltb_spec 1 n); [|lia]. eexists. reflexivity.
Qed.

End NumbersFacts.

Section FileReads.
Import File.
Context `{Collaborators} {World Method : Type} `{!Environment World Method}.

Lemma enrich_flags info info' path block :
  need_path_column info' = need_path_column info ->
  need_file_column info' = need_file_column info ->
  enrich info' path block = enrich info path block.
Proof. intros Hp Hf. unfold enrich. rewrite Hp, Hf. reflexivity. Qed.

Lemma unread_of_flags info info' src :
  need_path_column info' = need_path_column info ->
  need_file_column info' = need_file_column info ->
  unread_of info' src = unread_of info src.
Proof.
  intros Hp Hf. unfold unread_of. destruct (reader src); [|reflexivity].
  apply map_ext. intros block. apply enrich_flags; assumption.
Qed.

Lemma chunks_of_files_flags storage w info info' l :
  need_path_column info' = need_path_column info ->
  need_file_column info' = need_file_column info ->
  chunks_of_files storage w info' l = chunks_of_files storage w info l.
Proof.
  intros Hp Hf. unfold chunks_of_files. induction l as [|path l IH]; [reflexivity|].
  cbn [flat_map]. rewrite IH. f_equal. apply map_ext. intros block.
  apply enrich_flags; assumption.
Qed.

Lemma is_data_enrich info path block : block <> [] -> is_data (enrich info path block) = true.
Proof.
  intros Hb. destruct block as [|c block]; [contradiction|].
  unfold is_data, enrich. cbn [map chunk_columns].
  destruct (need_path_column info), (need_file_column info); reflexivity.
Qed.

Lemma flat_map_lookup_perm {A B} (f : A -> list B) (l : list A) (i : nat) (x : A) :
  l !! i = Some x ->
  flat_map f l ≡ₚ f x ++ flat_map f (take i l ++ drop (S i) l).
Proof.
  intros Hx. rewrite <- (take_drop_middle l i x Hx) at 1.
  rewrite !flat_map_app. cbn [flat_map]. rewrite (assoc app).
  rewrite (Permutation_app_comm (flat_map f (take i l)) (f x)).
  rewrite <- (assoc app). reflexivity.
Qed.

Lemma flat_map_insert_perm {A B} (f : A -> list B) (l : list A) (i : nat) (x : A) :
  (i < length l)%nat ->
  flat_map f (<[i := x]> l) ≡ₚ f x ++ flat_map f (take i l ++ drop (S i) l).
Proof.
  intros Hi. rewrite (flat_map_lookup_perm f (<[i := x]> l) i x)
    by (apply list_lookup_insert_eq; exact Hi).
  rewrite take_insert_ge, drop_insert_lt by lia. reflexivity.
Qed.

Ltac fields :=
  cbn [files next_file_to_read need_path_column need_file_column
       current_path reader max_block_size finished_generate
       set_next_file_to_read set_reader set_current_path set_finished_generate].

Ltac fields_in_all :=
  cbn [files next_file_to_read need_path_column need_file_column
       current_path reader max_block_size finished_generate
       set_next_file_to_read set_reader set_current_path set_finished_generate] in *.

Section OneTable.
Variables (storage : StorageFile) (w : World).
Hypothesis Hfd : use_table_fd storage = false.

(** One call of [generate] takes the first of the chunks that its source
    and the files not yet opened have still to deliver, or finds none. *)
Lemma generate_delivers : forall fuel info src,
  Forall (fun path => blocks_have_columns (file_blocks storage w path)) (files info) ->
  reading src ->
  0 <= next_file_to_read info ->
  Z.max (next_file_to_read info) (Z.of_nat (length (files info))) + 1 < 2 ^ 64 ->
  (2 * (length (files info) - Z.to_nat (next_file_to_read info))
   + match reader src with Some _ => 1 | None => 0 end + 1 <= fuel)%nat ->
  exists c info' src',
    generate fuel storage w info src = Some (c, info', src')
    /\ files info' = files info
    /\ need_path_column info' = need_path_column info
    /\ need_file_column info' = need_file_column info
    /\ reading src'
    /\ next_file_to_read info <= next_file_to_read info'
    /\ Z.max (next_file_to_read info') (Z.of_nat (length (files info)))
       <= Z.max (next_file_to_read info) (Z.of_nat (length (files info))) + 1
    /\ unread_of info src
         ++ chunks_of_files storage w info
              (drop (Z.to_nat (next_file_to_read info)) (files info))
       = (if is_data c then [c] else [])
         ++ unread_of info src'
         ++ chunks_of_files storage w info
              (drop (Z.to_nat (next_file_to_read info')) (files info))
    /\ (is_data c = false ->
        reader src' = None /\ Z.of_nat (length (files info)) <= next_file_to_read info').
Proof.
  induction fuel as [|fuel IH]; intros info src Hfiles [Hfin Hrd] Hn Hb Hfuel; [lia|].
  cbn [generate]. rewrite Hfin. unfold open_reader.
  destruct (reader src) as [blocks|] eqn:Er.
  - rewrite Er. destruct blocks as [|res rest].
    + (* the reader has ended *)
      rewrite Hfd.
      destruct (IH info (set_reader None src)) as (c & info' & src' & E & Hrest); auto.
      { split; [exact Hfin|]. intros blocks. discriminate. }
      { fields. lia. }
      exists c, info', src'. split; [exact E|].
      unfold unread_of in *. rewrite Er. exact Hrest.
    + exists (enrich info (current_path src) res), info, (set_reader (Some rest) src).
      split; [reflexivity|]. repeat (split; [reflexivity|]).
      pose proof (Hrd _ eq_refl) as Hcols. apply Forall_cons in Hcols as [Hres Hcols].
      split. { split; [exact Hfin|]. intros blocks [= <-]. exact Hcols. }
      split; [lia|]. split; [lia|].
      rewrite is_data_enrich by exact Hres. split; [|discriminate].
      unfold unread_of. rewrite Er. reflexivity.
  - rewrite Hfd. cbn [negb]. cbn [files set_next_file_to_read].
    rewrite (wrap_small (next_file_to_read info + 1)) by lia.
    destruct (Z.leb_spec (Z.of_nat (length (files info))) (next_file_to_read info)) as [Hend|Hmore].
    + (* no file is left *)
      eexists empty_chunk, _, src. split; [reflexivity|]. repeat (split; [reflexivity|]).
      split; [split; [exact Hfin | intros blocks Hb'; rewrite Er in Hb'; discriminate]|].
      cbn [next_file_to_read set_next_file_to_read].
      split; [lia|]. split; [lia|]. split; [|intros _; split; [exact Er | lia]].
      rewrite !drop_ge by lia. reflexivity.
    + destruct (lookup_lt_is_Some_2 (files info) (Z.to_nat (next_file_to_read info)))
        as [path Epath]; [lia|].
      rewrite Epath. cbn [default current_path set_current_path]. unfold id.
      pose proof (proj1 (Forall_forall _ _) Hfiles path (list_elem_of_lookup_2 _ _ _ Epath))
        as Hcols.
      assert (unread_of info src
              ++ chunks_of_files storage w info
                   (drop (Z.to_nat (next_file_to_read info)) (files info))
              = map (enrich info path) (file_blocks storage w path)
                ++ chunks_of_files storage w info
                     (drop (Z.to_nat (next_file_to_read info + 1)) (files info))) as Hopen.
      { unfold unread_of. rewrite Er. rewrite (drop_S _ _ _ Epath).
        replace (Z.to_nat (next_file_to_read info + 1))
          with (S (Z.to_nat (next_file_to_read info))) by lia.
        reflexivity. }
      rewrite Hopen. unfold file_blocks in Hcols, Hopen |- *.
      destruct (String.eqb (format_name storage) "Distributed").
      * (* [continue] *)
        match goal with
        | |- context [generate fuel storage w ?i ?s] =>
            destruct (IH i s) as (c & info' & src' & E & Hf & Hp & Hfc & Hrd' & Hle & Hmax
                                  & Hun & Hnone)
        end.
        { exact Hfiles. }
        { split; [exact Hfin|]. intros blocks [= <-]. exact Hcols. }
        { fields. lia. }
        { fields. lia. }
        { fields. lia. }
        fields_in_all.
        rewrite ?(unread_of_flags info (set_next_file_to_read _ info)),
          ?(chunks_of_files_flags storage w info (set_next_file_to_read _ info)) in Hun
          by reflexivity.
        exists c, info', src'. split; [exact E|]. split; [exact Hf|].
        split; [exact Hp|]. split; [exact Hfc|]. split; [exact Hrd'|].
        split; [lia|]. split; [lia|]. split; [|exact Hnone].
        rewrite <- Hun. reflexivity.
      * cbn [reader set_reader current_path set_current_path].
        destruct (input_blocks storage (Some path) w) as [|res rest] eqn:Eb.
        -- (* an empty file *)
           match goal with
           | |- context [generate fuel storage w ?i ?s] =>
               destruct (IH i s) as (c & info' & src' & E & Hf & Hp & Hfc & Hrd' & Hle & Hmax
                                     & Hun & Hnone)
           end.
           { exact Hfiles. }
           { split; [exact Hfin|]. intros blocks. discriminate. }
           { fields. lia. }
           { fields. lia. }
           { fields. lia. }
           fields_in_all.
        rewrite ?(unread_of_flags info (set_next_file_to_read _ info)),
          ?(chunks_of_files_flags storage w info (set_next_file_to_read _ info)) in Hun
          by reflexivity.
           exists c, info', src'. split; [exact E|]. split; [exact Hf|].
           split; [exact Hp|]. split; [exact Hfc|]. split; [exact Hrd'|].
           split; [lia|]. split; [lia|]. split; [|exact Hnone].
           rewrite <- Hun. reflexivity.
        -- apply Forall_cons in Hcols as [Hres Hcols].
           eexists _, _, _. split; [reflexivity|]. repeat (split; [reflexivity|]).
           split. { split; [exact Hfin|]. intros blocks [= <-]. exact Hcols. }
           fields. split; [lia|]. split; [lia|].
           rewrite is_data_enrich by exact Hres. split; [|discriminate].
           reflexivity.
Qed.

(** The calls of [generate] by the sources of one read, in any order,
    deliver chunks that were still to deliver, and leave the others. *)
Lemma generate_all_delivers fuel : forall schedule p,
  Forall (fun path => blocks_have_columns (file_blocks storage w path))
    (files (files_info p)) ->
  Forall reading (sources p) ->
  0 <= next_file_to_read (files_info p) ->
  Z.max (next_file_to_read (files_info p)) (Z.of_nat (length (files (files_info p))))
  + Z.of_nat (length schedule) < 2 ^ 64 ->
  (2 * length (files (files_info p)) + 2 <= fuel)%nat ->
  Forall (fun i => (i < length (sources p))%nat) schedule ->
  exists chunks p',
    generate_all fuel storage w schedule p = Some (chunks, p')
    /\ files (files_info p') = files (files_info p)
    /\ need_path_column (files_info p') = need_path_column (files_info p)
    /\ need_file_column (files_info p') = need_file_column (files_info p)
    /\ length (sources p') = length (sources p)
    /\ unread storage w p ≡ₚ delivered chunks ++ unread storage w p'
    /\ (forall j,
          settled j p
          \/ (exists k, schedule !! k = Some j /\ is_data <$> chunks !! k = Some false) ->
          settled j p').
Proof.
  induction schedule as [|i schedule IH]; intros p Hfiles Hrd Hn Hb Hfuel Hsched.
  - exists [], p. split; [reflexivity|]. do 4 (split; [reflexivity|]).
    split; [reflexivity|]. intros j [Hj|(k & Hk & _)]; [exact Hj|]. discriminate.
  - apply Forall_cons in Hsched as [Hi Hsched]. cbn [length] in Hb.
    destruct (lookup_lt_is_Some_2 _ _ Hi) as [src Hsrc].
    pose proof (proj1 (Forall_forall _ _) Hrd src (list_elem_of_lookup_2 _ _ _ Hsrc)) as Hr.
    destruct (generate_delivers fuel (files_info p) src Hfiles Hr Hn)
      as (c & info' & src' & E & Hf & Hp & Hfc & Hr' & Hle & Hmax & Hun & Hnone);
      [lia | destruct (reader src); lia |].
    set (p1 := {| files_info := info'; sources := <[i := src']> (sources p) |}).
    destruct (IH p1) as (chunks & p' & E' & Hf' & Hp' & Hfc' & Hlen' & Hun' & Hset').
    { cbn [p1 files_info]. rewrite Hf. exact Hfiles. }
    { cbn [p1 sources]. apply Forall_insert; assumption. }
    { cbn [p1 files_info]. lia. }
    { cbn [p1 files_info]. rewrite Hf. lia. }
    { cbn [p1 files_info]. rewrite Hf. exact Hfuel. }
    { cbn [p1 sources]. rewrite length_insert. exact Hsched. }
    cbn [p1 files_info sources] in Hf', Hp', Hfc', Hlen'. rewrite length_insert in Hlen'.
    assert (unread storage w p
            ≡ₚ (if is_data c then [c] else []) ++ unread storage w p1) as Hstep.
    { unfold unread. cbn [p1 files_info sources].
      rewrite Hf, (chunks_of_files_flags storage w (files_info p) info') by assumption.
      rewrite (flat_map_lookup_perm _ _ _ _ Hsrc), (flat_map_insert_perm _ _ _ _ Hi).
      rewrite (unread_of_flags (files_info p) info') by assumption.
      set (others := flat_map _ (take i (sources p) ++ drop (S i) (sources p))).
      assert (flat_map (unread_of info') (take i (sources p) ++ drop (S i) (sources p))
              = others) as ->.
      { subst others. apply flat_map_ext. intros a. apply unread_of_flags; assumption. }
      rewrite <- !(assoc app).
      rewrite (Permutation_app_swap_app (unread_of (files_info p) src) others), Hun.
      rewrite <- ?(assoc app).
      rewrite (Permutation_app_swap_app (unread_of (files_info p) src') others).
      apply Permutation_app_swap_app. }
    assert (forall j, settled j p -> settled j p1) as Hstable.
    { intros j (Hend & srcj & Hj & Hnoj). split.
      { cbn [p1 files_info]. rewrite Hf. lia. }
      cbn [p1 sources]. destruct (decide (i = j)) as [<-|Hij].
      - exists src'. split; [apply list_lookup_insert_eq; exact Hi|].
        rewrite Hsrc in Hj. injection Hj as <-.
        destruct (is_data c) eqn:Ec; [|apply Hnone; reflexivity].
        unfold unread_of at 1 in Hun. rewrite Hnoj, drop_ge in Hun by lia.
        discriminate.
      - exists srcj. split; [|exact Hnoj]. rewrite list_lookup_insert_ne by exact Hij.
        exact Hj. }
    exists (c :: chunks), p'. cbn [generate_all]. rewrite Hsrc, E. fold p1. rewrite E'.
    split; [reflexivity|]. split; [congruence|]. split; [congruence|]. split; [congruence|].
    split; [exact Hlen'|]. split.
    + rewrite Hstep, Hun'. unfold delivered. cbn [List.filter].
      destruct (is_data c); reflexivity.
    + intros j [Hj|(k & Hk & Hck)]; apply Hset'.
      * left. apply Hstable, Hj.
      * destruct k as [|k]; [left | right; exists k; split; assumption].
        cbn in Hk, Hck. injection Hk as <-. injection Hck as Hc.
        destruct (Hnone Hc) as [Hno Hend]. split.
        { cbn [p1 files_info]. rewrite Hf. exact Hend. }
        exists src'. split; [|exact Hno]. cbn [p1 sources].
        apply list_lookup_insert_eq. exact Hi.
Qed.

End OneTable.

Lemma set_rwlock_same (s : StorageFile) : set_rwlock (rwlock s) s = s.
Proof. destruct s. reflexivity. Qed.

Lemma make_sources_of_files (b : Z) : forall k made (s s' : StorageFile) (w w' : World) l,
  use_table_fd s = false ->
  make_sources k b made s w = (Returns l, s', w') ->
  w' = w
  /\ l = made ++ replicate k {| current_path := ""; reader := None; max_block_size := b;
                                finished_generate := false;
                                shared_lock := true; unique_lock := false |}
  /\ s' = set_rwlock (rwlock s') s
  /\ shared_holders (rwlock s') = (k + shared_holders (rwlock s))%nat
  /\ unique_holder (rwlock s') = unique_holder (rwlock s).
Proof.
  induction k as [|k IH]; intros made s s' w w' l Hfd; cbn [make_sources replicate].
  - intros [= <- <- <-]. rewrite app_nil_r, set_rwlock_same. repeat split.
  - unfold StorageFileSource_new. rewrite Hfd. unfold lock_shared.
    destruct (unique_holder (rwlock s)) eqn:Eu; [discriminate|].
    intros Hk. apply IH in Hk; [|exact Hfd].
    destruct Hk as (-> & -> & Hs & Hh & Hu). cbn [rwlock set_rwlock shared_holders unique_holder] in Hh, Hu.
    split; [reflexivity|]. split; [rewrite <- (assoc app); reflexivity|].
    split; [exact Hs|]. split; [lia | congruence].
Qed.

Lemma destroy_shared_sources (src : StorageFileSource) :
  shared_lock src = true -> unique_lock src = false ->
  forall k (s : StorageFile) h u,
    destroy_sources (replicate k src)
      (set_rwlock {| shared_holders := k + h; unique_holder := u |} s)
    = set_rwlock {| shared_holders := h; unique_holder := u |} s.
Proof.
  intros Hshared Hunique. induction k as [|k IH]; intros s h u; [reflexivity|].
  cbn [replicate]. unfold destroy_sources in *. cbn [foldr].
  replace (S k + h)%nat with (k + S h)%nat by lia. rewrite IH.
  unfold StorageFileSource_destroy. rewrite Hshared, Hunique. reflexivity.
Qed.

Lemma read_of_files column_names b n (s s' : StorageFile) (w w' : World) pipes :
  use_table_fd s = false ->
  read column_names b n s w = (Returns pipes, s', w') ->
  w' = w
  /\ s' = set_rwlock (rwlock s') s
  /\ shared_holders (rwlock s') = (length (sources pipes) + shared_holders (rwlock s))%nat
  /\ unique_holder (rwlock s') = unique_holder (rwlock s)
  /\ files (files_info pipes) = paths s
  /\ next_file_to_read (files_info pipes) = 0
  /\ sources pipes
     = replicate (Z.to_nat (Z.min n (Z.of_nat (length (paths s)))))
         {| current_path := ""; reader := None; max_block_size := b;
            finished_generate := false; shared_lock := true; unique_lock := false |}.
Proof.
  intros Hfd. unfold read. rewrite Hfd. cbn [negb andb]. rewrite Hfd. cbn [negb andb].
  destruct (_ && _); [discriminate|].
  destruct (make_sources _ b [] s w) as [[r s1] w1] eqn:E.
  destruct r as [l| | | |]; try discriminate. intros [= <- <- <-].
  destruct (make_sources_of_files _ _ _ _ _ _ _ _ Hfd E) as (-> & -> & Hs & Hh & Hu).
  cbn [files_info sources files next_file_to_read app].
  assert ((if Z.of_nat (length (paths s)) <? n then Z.of_nat (length (paths s)) else n)
          = Z.min n (Z.of_nat (length (paths s)))) as Hmin
    by (destruct (Z.ltb_spec (Z.of_nat (length (paths s))) n); lia).
  rewrite Hmin in Hh |- *. rewrite length_replicate.
  split; [reflexivity|]. split; [exact Hs|]. split; [exact Hh|]. split; [exact Hu|].
  repeat split.
Qed.

(** X17. The sources of one read of a table of files deliver every block of
    every file exactly once.  Whatever the order in which the sources are
    asked for chunks, the chunks with columns that they return are among the
    chunks of the blocks of the files of the table, each at most as often as
    it is there; once every source has returned the empty chunk, they are
    all of them.  The read makes one source per stream asked for, at most
    one per file; it leaves the world as it is and changes nothing of the
    table but the lock, which every source holds shared until it is
    destroyed. *)
Theorem files_are_read_exactly_once
    (column_names : list string) (b n : Z) (storage storage' : StorageFile) (w w' : World)
    (pipes : Pipes) (fuel : nat) (schedule : list nat) :
  use_table_fd storage = false ->
  0 < n ->
  read column_names b n storage w = (Returns pipes, storage', w') ->
  Forall (fun path => blocks_have_columns (file_blocks storage' w path)) (paths storage) ->
  (2 * length (paths storage) + 2 <= fuel)%nat ->
  Z.of_nat (length (paths storage)) + Z.of_nat (length schedule) < 2 ^ 64 ->
  Forall (fun i => (i < length (sources pipes))%nat) schedule ->
  w' = w
  /\ storage' = set_rwlock (rwlock storage') storage
  /\ shared_holders (rwlock storage')
     = (length (sources pipes) + shared_holders (rwlock storage))%nat
  /\ Pipes_destroy pipes storage' = storage
  /\ length (sources pipes) = Z.to_nat (Z.min n (Z.of_nat (length (paths storage))))
  /\ exists chunks pipes',
       generate_all fuel storage' w schedule pipes = Some (chunks, pipes')
       /\ delivered chunks ⊆+ chunks_of_files storage' w (files_info pipes) (paths storage)
       /\ ((forall i, (i < length (sources pipes))%nat ->
              exists k, schedule !! k = Some i /\ is_data <$> chunks !! k = Some false) ->
           delivered chunks
           ≡ₚ chunks_of_files storage' w (files_info pipes) (paths storage)).
Proof.
  intros Hfd Hn Hread Hcols Hfuel Hbound Hsched.
  destruct (read_of_files _ _ _ _ _ _ _ _ Hfd Hread)
    as (-> & Hs & Hh & Hu & Hfiles & Hnext & Hsources).
  assert (use_table_fd storage' = false) as Hfd' by (rewrite Hs; exact Hfd).
  split; [reflexivity|]. split; [exact Hs|]. split; [exact Hh|].
  split.
  { unfold Pipes_destroy. rewrite Hs, Hsources.
    rewrite Hsources, length_replicate in Hh.
    destruct (rwlock storage') as [h' u'] eqn:El. cbn [shared_holders unique_holder] in Hh, Hu.
    subst h' u'. rewrite destroy_shared_sources by reflexivity.
    destruct storage as [? ? ? ? ? ? ? ? ? ? ? ? [h u]]. reflexivity. }
  split; [rewrite Hsources; apply length_replicate|].
  destruct (generate_all_delivers storage' w Hfd' fuel schedule pipes)
    as (chunks & pipes' & E & Hf & Hp & Hfc & Hlen & Hun & Hset).
  { rewrite Hfiles. exact Hcols. }
  { rewrite Hsources. apply Forall_replicate. split; [reflexivity|]. intros blocks. discriminate. }
  { lia. }
  { rewrite Hfiles, Hnext. lia. }
  { rewrite Hfiles. exact Hfuel. }
  { exact Hsched. }
  assert (unread storage' w pipes
          = chunks_of_files storage' w (files_info pipes) (paths storage)) as Hstart.
  { unfold unread. rewrite Hnext, Hfiles, Hsources. cbn [Z.to_nat drop].
    generalize (Z.to_nat (Z.min n (Z.of_nat (length (paths storage))))).
    intros k. induction k as [|k IH]; [reflexivity|]. exact IH. }
  rewrite Hstart in Hun.
  exists chunks, pipes'. split; [exact E|]. split.
  - rewrite Hun. apply submseteq_inserts_r. reflexivity.
  - intros Hall. rewrite Hun.
    assert (forall j, (j < length (sources pipes))%nat -> settled j pipes') as Hsettled.
    { intros j Hj. apply Hset. right. apply Hall, Hj. }
    assert (unread storage' w pipes' = []) as ->; [|rewrite app_nil_r; reflexivity].
    unfold unread. apply app_nil. split.
    + assert (Forall (fun src => reader src = None) (sources pipes')) as Hnone.
      { apply Forall_lookup. intros j src Hsrc.
        destruct (Hsettled j) as (_ & src0 & Hsrc0 & Hno).
        { rewrite <- Hlen. apply lookup_lt_is_Some_1. eexists. exact Hsrc. }
        congruence. }
      clear -Hnone. induction Hnone as [|src l Hno _ IH]; [reflexivity|].
      cbn [flat_map]. unfold unread_of at 1. rewrite Hno. exact IH.
    + destruct (paths storage) as [|path l] eqn:Epaths.
      * rewrite Hf, Hfiles, drop_nil. reflexivity.
      * destruct (Hsettled O) as (Hend & _).
        { rewrite Hsources, length_replicate. cbn [length]. lia. }
        rewrite drop_ge; [reflexivity|]. lia.
Qed.

End FileReads.

Section FileTable.
Import File.
Context `{Collaborators} {World Method : Type} `{!Environment World Method}.

Lemma StorageFile_fd_made d fd args (w w0 : World) s :
  StorageFile_fd d fd args w = (Returns s, w0) ->
  s = {| storage_id := table_id args;
         virtuals := [ {| nt_name := "_path"; nt_type := DataTypePrimitive "String" |};
                       {| nt_name := "_file"; nt_type := DataTypePrimitive "String" |} ];
         columns := if String.eqb (args_format_name args) "Distributed" then []
                    else args_columns args;
         format_name := args_format_name args;
         compression_method := args_compression_method args;
         base_path := getPath (context args);
         paths := []; is_db_table := false; use_table_fd := true; table_fd := fd;
         table_fd_was_used := default_table_fd_was_used d;
         table_fd_init_offset := (lseek fd 0 SEEK_CUR w).1;
         rwlock := unlocked |}.
Proof.
  unfold StorageFile_fd. destruct (server (context args)); [discriminate|].
  destruct (lseek fd 0 SEEK_CUR w) as [position w1]. intros [= <- <-]. reflexivity.
Qed.

Lemma read_of_descriptor column_names b n (s : StorageFile) (w : World) :
  use_table_fd s = true -> 0 < n ->
  read column_names b n s w
  = match StorageFileSource_new b (set_paths [""] s) w with
    | (Returns source, s, w) =>
        (Returns {| files_info :=
                      {| files := [""]; next_file_to_read := 0;
                         need_path_column := existsb (String.eqb "_path") column_names;
                         need_file_column := existsb (String.eqb "_file") column_names |};
                    sources := [source] |}, s, w)
    | (Throws code message, s, w) => (Throws code message, s, w)
    | (Passes exception, s, w) => (Passes exception, s, w)
    | (Undefined what, s, w) => (Undefined what, s, w)
    | (Waits, s, w) => (Waits, s, w)
    end.
Proof.
  intros Hfd Hn. unfold read. rewrite Hfd.
  change (use_table_fd (set_paths [""] s)) with (use_table_fd s). rewrite Hfd.
  change (paths (set_paths [""] s)) with [""].
  cbn [negb andb length].
  replace (if Z.of_nat 1 <? n then Z.of_nat 1 else n) with 1
    by (destruct (Z.ltb_spec (Z.of_nat 1) n); lia).
  change (Z.to_nat 1) with 1%nat. cbn [make_sources app].
  destruct (StorageFileSource_new b _ w) as [[[source|code message|exception|what|] s1] w1];
    reflexivity.
Qed.


(** X19. A descriptor that could not be sought when the table was made is
    read once.  The first read of the table returns; while its pipes live,
    another read waits for the lock that their source holds; once they are
    destroyed, every read, also after writes to the table whose streams are
    destroyed in turn, throws CANNOT_SEEK_THROUGH_FILE and leaves the table
    and the world as they are. *)
Theorem unseekable_descriptor_is_read_once
    (d : Defaults) (fd : Z) (args : CommonArguments) (w w0 : World) (s : StorageFile)
    (column_names : list string) (b n : Z) (w1 : World) :
  StorageFile_fd d fd args w = (Returns s, w0) ->
  (lseek fd 0 SEEK_CUR w).1 < 0 ->
  String.eqb (args_format_name args) "Distributed" = false ->
  default_table_fd_was_used d = false ->
  0 < n ->
  exists pipes s1,
    read column_names b n s w1 = (Returns pipes, s1, w1)
    /\ (forall column_names' b' n' w2, 0 < n' ->
          read column_names' b' n' s1 w2 = (Waits, s1, w2))
    /\ forall (writes : nat) w2 s2 w3,
         calls (replicate writes CallWrite) (Pipes_destroy pipes s1) w2 = Some (s2, w3) ->
         s2 = Pipes_destroy pipes s1 /\ w3 = w2
         /\ forall column_names' b' n', 0 < n' ->
              exists message,
                read column_names' b' n' s2 w3
                = (Throws CANNOT_SEEK_THROUGH_FILE message, s2, w3).
Proof.
  intros Hmade Hseek Hformat Hunused Hn.
  apply StorageFile_fd_made in Hmade. rewrite Hunused in Hmade.
  assert (use_table_fd s = true) as Hfd by (rewrite Hmade; reflexivity).
  rewrite (read_of_descriptor _ _ _ _ _ Hfd Hn). clear Hfd. subst s.
  eexists _, _. split; [reflexivity|]. split.
  { intros column_names' b' n' w2 Hn'.
    match goal with
    | |- read _ _ _ ?s1 _ = _ => rewrite (read_of_descriptor _ _ _ s1 _ eq_refl Hn')
    end.
    reflexivity. }
  cbn [Pipes_destroy sources destroy_sources foldr StorageFileSource_destroy
       unique_lock shared_lock].
  set (s1 := set_rwlock _ _).
  assert (forall w2, call CallWrite s1 w2 = Some (s1, w2)) as Hwrite.
  { intros w2. cbn [call]. unfold write, StorageFileBlockOutputStream_new, make_writer.
    subst s1. cbn. rewrite Hformat. cbn.
    destruct (wrapWriteBufferWithCompressionMethod _); cbn; [|reflexivity].
    destruct (getOutput _); reflexivity. }
  intros writes. induction writes as [|writes IH]; intros w2 s2 w3 Hcalls.
  - cbn in Hcalls. injection Hcalls as <- <-. split; [reflexivity|]. split; [reflexivity|].
    intros column_names' b' n' Hn'.
    rewrite (read_of_descriptor _ _ _ s1 _ eq_refl Hn').
    unfold StorageFileSource_new. subst s1. cbn.
    destruct (Z.ltb_spec (lseek fd 0 SEEK_CUR w).1 0); [|lia].
    eexists. reflexivity.
  - cbn [replicate calls] in Hcalls. rewrite Hwrite in Hcalls.
    apply IH. exact Hcalls.
Qed.

Lemma check_paths_allowed (context_global : Context) (dir : string) (w : World) :
  forall l, check_paths context_global dir l w = Returns tt ->
  server context_global = true ->
  Forall (fun path =>
            (String.prefix dir path = true \/ path = "/dev/null")
            /\ (poco_exists path w = true -> poco_isDirectory path w = false)) l.
Proof.
  induction l as [|path l IH]; intros Hcheck Hserver; [constructor|].
  cbn [check_paths] in Hcheck.
  destruct (checkCreationIsAllowed context_global dir path w) as [[]| | | |] eqn:E;
    try discriminate.
  constructor; [|apply IH; assumption].
  unfold checkCreationIsAllowed in E. rewrite Hserver in E. cbn [negb] in E.
  destruct (String.prefix dir path) eqn:Ep; cbn [negb andb] in E.
  - split; [left; reflexivity|].
    destruct (poco_exists path w), (poco_isDirectory path w); try discriminate; auto.
  - destruct (String.eqb_spec path "/dev/null") as [->|]; cbn [negb] in E; [|discriminate].
    split; [right; reflexivity|].
    destruct (poco_exists "/dev/null" w), (poco_isDirectory "/dev/null" w);
      try discriminate; auto.
Qed.

(** X20. On a server, a table made from a path has its files inside the
    directory of user files.  When the constructor returns, every path of
    the table starts with the absolute path of that directory or is
    [/dev/null], none is a directory that exists, and the table is not a
    table of a database. *)
Theorem server_table_files_are_inside_user_files
    (d : Defaults) (table_path user_files_path : string) (args : CommonArguments)
    (w : World) (s : StorageFile) :
  server (context args) = true ->
  StorageFile_path d table_path user_files_path args w = Returns s ->
  is_db_table s = false
  /\ Forall (fun path =>
               (String.prefix (makeAbsoluteDirectory user_files_path) path = true
                \/ path = "/dev/null")
               /\ (poco_exists path w = true -> poco_isDirectory path w = false))
       (paths s).
Proof.
  intros Hserver. unfold StorageFile_path.
  set (s0 := match find_first_of globs _ with Some _ => _ | None => _ end).
  assert (is_db_table s0 = false) as Hdb by (subst s0; destruct (find_first_of _ _); reflexivity).
  destruct (check_paths _ _ (paths s0) w) as [[]| | | |] eqn:Echeck; try discriminate.
  pose proof (check_paths_allowed _ _ _ _ Echeck Hserver) as Hall.
  destruct (String.eqb (args_format_name args) "Distributed").
  - destruct (paths s0) as [|first_path l] eqn:Ep; intros [= <-].
    + rewrite Ep. split; [exact Hdb | constructor].
    + cbn [is_db_table paths setColumns]. rewrite Ep. split; [exact Hdb | exact Hall].
  - intros [= <-]. split; [exact Hdb | exact Hall].
Qed.

Lemma StorageFileSource_destroy_keeps_is_db_table src (s : StorageFile) :
  is_db_table (StorageFileSource_destroy src s) = is_db_table s.
Proof.
  unfold StorageFileSource_destroy. destruct (unique_lock src), (shared_lock src); reflexivity.
Qed.

Lemma destroy_sources_keeps_is_db_table l (s : StorageFile) :
  is_db_table (destroy_sources l s) = is_db_table s.
Proof.
  induction l as [|src l IH]; [reflexivity|].
  unfold destroy_sources in *. cbn [foldr].
  rewrite StorageFileSource_destroy_keeps_is_db_table. exact IH.
Qed.

Lemma StorageFileSource_new_keeps_is_db_table b (s s' : StorageFile) (w w' : World) r :
  StorageFileSource_new b s w = (r, s', w') -> is_db_table s' = is_db_table s.
Proof.
  unfold StorageFileSource_new.
  destruct (use_table_fd s).
  - destruct (lock_unique (rwlock s)); [|intros [= _ <- _]; reflexivity].
    cbn [table_fd_was_used table_fd_init_offset table_fd set_rwlock].
    destruct (table_fd_was_used s); [|intros [= _ <- _]; reflexivity].
    destruct (table_fd_init_offset s <? 0); [intros [= _ <- _]; reflexivity|].
    destruct (lseek _ _ _ w) as [position w1].
    destruct (position <? 0); intros [= _ <- _]; reflexivity.
  - destruct (lock_shared (rwlock s)); intros [= _ <- _]; reflexivity.
Qed.

Lemma make_sources_keeps_is_db_table b : forall k made (s s' : StorageFile) (w w' : World) r,
  make_sources k b made s w = (r, s', w') -> is_db_table s' = is_db_table s.
Proof.
  induction k as [|k IH]; intros made s s' w w' r; cbn [make_sources].
  - intros [= _ <- _]. reflexivity.
  - destruct (StorageFileSource_new b s w) as [[r1 s1] w1] eqn:E1.
    apply StorageFileSource_new_keeps_is_db_table in E1.
    destruct r1 as [source|code message|exception|what|].
    + intros Hk. rewrite (IH _ _ _ _ _ _ Hk). exact E1.
    + intros [= _ <- _]. rewrite destroy_sources_keeps_is_db_table. exact E1.
    + intros [= _ <- _]. rewrite destroy_sources_keeps_is_db_table. exact E1.
    + intros [= _ <- _]. exact E1.
    + intros [= _ <- _]. exact E1.
Qed.

Lemma read_keeps_is_db_table column_names b n (s s' : StorageFile) (w w' : World) r :
  read column_names b n s w = (r, s', w') -> is_db_table s' = is_db_table s.
Proof.
  unfold read.
  set (s0 := if use_table_fd s then set_paths [""] s else s).
  assert (is_db_table s0 = is_db_table s) as <-
    by (subst s0; destruct (use_table_fd s); reflexivity).
  clearbody s0. destruct (_ && _); [intros [= _ <- _]; reflexivity|].
  destruct (make_sources _ b [] s0 w) as [[r1 s1] w1] eqn:E1.
  apply make_sources_keeps_is_db_table in E1.
  destruct r1; intros [= _ <- _]; exact E1.
Qed.

Lemma make_writer_keeps_is_db_table target_ method_ (s s' : StorageFile) (w w' : World) r :
  make_writer target_ s method_ w = (r, s', w') -> is_db_table s' = is_db_table s.
Proof.
  unfold make_writer.
  destruct (wrapWriteBufferWithCompressionMethod method_); cbn [negb];
    [|intros [= _ <- _]; reflexivity].
  destruct (getOutput _); intros [= _ <- _]; reflexivity.
Qed.

Lemma write_keeps_is_db_table (s s' : StorageFile) (w w' : World) r :
  write s w = (r, s', w') -> is_db_table s' = is_db_table s.
Proof.
  unfold write. destruct (String.eqb _ _); [intros [= _ <- _]; reflexivity|].
  destruct (paths s) as [|path l] eqn:Ep; [intros [= _ <- _]; reflexivity|].
  unfold StorageFileBlockOutputStream_new.
  destruct (lock_unique (rwlock s)) as [m|]; [|intros [= _ <- _]; reflexivity].
  cbn [use_table_fd paths set_rwlock]. rewrite Ep.
  destruct (use_table_fd s).
  - intros Hw. apply make_writer_keeps_is_db_table in Hw. exact Hw.
  - destruct l; [|intros [= _ <- _]; reflexivity].
    destruct (open_for_append path w); [|intros [= _ <- _]; reflexivity].
    intros Hw. apply make_writer_keeps_is_db_table in Hw. exact Hw.
Qed.

Lemma rename_keeps_is_db_table a b c (s s' : StorageFile) (w w' : World) r :
  rename a b c s w = (r, s', w') -> is_db_table s' = is_db_table s.
Proof.
  unfold rename. destruct (is_db_table s) eqn:Edb; cbn [negb];
    [|intros [= _ <- _]; exact Edb].
  destruct (paths s) as [|path [|]]; try (intros [= _ <- _]; exact Edb).
  destruct (lock_unique (rwlock s)); [|intros [= _ <- _]; exact Edb].
  destruct (poco_createDirectories _ w); [|intros [= _ <- _]; exact Edb].
  destruct (poco_renameTo _ _ _); intros [= _ <- _]; exact Edb.
Qed.

Lemma call_keeps_is_db_table (c : Call) (s s' : StorageFile) (w w' : World) :
  call c s w = Some (s', w') -> is_db_table s' = is_db_table s.
Proof.
  destruct c as [column_names b n| | |a b c]; cbn [call].
  - destruct (read column_names b n s w) as [[r s1] w1] eqn:E.
    apply read_keeps_is_db_table in E. destruct r; intros [= <- <-]; try exact E.
    unfold Pipes_destroy. rewrite destroy_sources_keeps_is_db_table. exact E.
  - destruct (write s w) as [[r s1] w1] eqn:E.
    apply write_keeps_is_db_table in E. destruct r; intros [= <- <-]; exact E.
  - destruct (truncate s w) as [[?|? ?|?|?|] ?]; try discriminate;
      intros [= <- <-]; reflexivity.
  - destruct (rename a b c s w) as [[r s1] w1] eqn:E.
    apply rename_keeps_is_db_table in E. destruct r; intros [= <- <-]; exact E.
Qed.

(** X21. A table on a user's file or on a descriptor is never renamed.
    After any calls of [read], [write], [truncate] and [rename] on a table
    that the constructor for a path or the one for a descriptor made,
    [rename] throws DATABASE_ACCESS_DENIED and changes neither the table nor
    the world. *)
Theorem user_file_table_is_never_renamed
    (d : Defaults) (args : CommonArguments) (w w0 : World) (s : StorageFile)
    (l : list Call) (w1 : World) (s' : StorageFile) (w' : World)
    (new_path_to_table_data new_database_name new_table_name : string) :
  (exists table_path user_files_path,
     StorageFile_path d table_path user_files_path args w = Returns s)
  \/ (exists fd, StorageFile_fd d fd args w = (Returns s, w0)) ->
  calls l s w1 = Some (s', w') ->
  exists message,
    rename new_path_to_table_data new_database_name new_table_name s' w'
    = (Throws DATABASE_ACCESS_DENIED message, s', w').
Proof.
  intros Hmade Hcalls.
  assert (is_db_table s = false) as Hdb.
  { destruct Hmade as [(table_path & user_files_path & Hmade)|(fd & Hmade)].
    - unfold StorageFile_path in Hmade.
      set (s0 := match find_first_of globs _ with Some _ => _ | None => _ end) in Hmade.
      assert (is_db_table s0 = false) as Hdb
        by (subst s0; destruct (find_first_of _ _); reflexivity).
      destruct (check_paths _ _ _ _) as [[]| | | |]; try discriminate.
      destruct (String.eqb _ _); [destruct (paths s0)|]; injection Hmade as <-; exact Hdb.
    - apply StorageFile_fd_made in Hmade. rewrite Hmade. reflexivity. }
  assert (is_db_table s' = false) as Hdb'.
  { clear Hmade. revert s w1 Hdb Hcalls. induction l as [|c l IH]; intros s w1 Hdb Hcalls.
    - injection Hcalls as <- <-. exact Hdb.
    - cbn [calls] in Hcalls. destruct (call c s w1) as [[s1 w2]|] eqn:Ec; [|discriminate].
      apply (IH s1 w2); [|exact Hcalls].
      rewrite (call_keeps_is_db_table _ _ _ _ _ Ec). exact Hdb. }
  unfold rename. rewrite Hdb'. eexists. reflexivity.
Qed.

End FileTable.

Section FileExamples.
Import File FileScenario.
#[local] Existing Instance environment.
#[local] Existing Instance Reference.collaborators.

Lemma files_are_read_exactly_once_witness :
  let pipes :=
    {| files_info :=
         {| files := ["/user_files/a.tsv"; "/user_files/b.tsv"]; next_file_to_read := 0;
            need_path_column := false; need_file_column := true |};
       sources :=
         replicate 2 {| current_path := ""; reader := None; max_block_size := 8192;
                        finished_generate := false;
                        shared_lock := true; unique_lock := false |} |} in
  let read_by_two :=
    set_rwlock {| shared_holders := 2; unique_holder := false |} table_of_two_files in
  two_files = two_files
  /\ read_by_two = set_rwlock (rwlock read_by_two) table_of_two_files
  /\ shared_holders (rwlock read_by_two)
     = (length (sources pipes) + shared_holders (rwlock table_of_two_files))%nat
  /\ Pipes_destroy pipes read_by_two = table_of_two_files
  /\ length (sources pipes) = 2%nat
  /\ exists chunks pipes',
       generate_all 6 read_by_two two_files [0; 1; 0; 1; 0; 1]%nat pipes
       = Some (chunks, pipes')
       /\ delivered chunks
          ⊆+ chunks_of_files read_by_two two_files (files_info pipes)
               (paths table_of_two_files)
       /\ ((forall i, (i < length (sources pipes))%nat ->
              exists k, [0; 1; 0; 1; 0; 1]%nat !! k = Some i
                        /\ is_data <$> chunks !! k = Some false) ->
           delivered chunks
           ≡ₚ chunks_of_files read_by_two two_files (files_info pipes)
                (paths table_of_two_files)).
Proof.
  intros pipes read_by_two.
  refine (files_are_read_exactly_once ["x"; "_file"] 8192 2 table_of_two_files
            read_by_two two_files two_files pipes 6 [0; 1; 0; 1; 0; 1]%nat
            _ _ _ _ _ _ _).
  - reflexivity.
  - lia.
  - reflexivity.
  - repeat constructor; discriminate.
  - simpl. lia.
  - simpl. lia.
  - repeat constructor.
Defined.

Example two_sources_share_the_files :
  let pipes :=
    {| files_info :=
         {| files := ["/user_files/a.tsv"; "/user_files/b.tsv"]; next_file_to_read := 0;
            need_path_column := false; need_file_column := true |};
       sources :=
         replicate 2 {| current_path := ""; reader := None; max_block_size := 8192;
                        finished_generate := false;
                        shared_lock := true; unique_lock := false |} |} in
  let read_by_two :=
    set_rwlock {| shared_holders := 2; unique_holder := false |} table_of_two_files in
  StorageFile_path defaults "*.tsv" "/user_files/" (arguments false) two_files
  = Returns table_of_two_files
  /\ read ["x"; "_file"] 8192 2 table_of_two_files two_files
     = (Returns pipes, read_by_two, two_files)
  /\ write read_by_two two_files = (Waits, read_by_two, two_files)
  /\ fst <$> generate_all 6 read_by_two two_files [0; 1; 0; 1; 0; 1]%nat pipes
     = Some [ {| chunk_columns := [FromBlock (ColumnVector [1; 2]);
                                   ColumnString ["a.tsv"; "a.tsv"]];
                 num_rows := 2 |};
              {| chunk_columns := [FromBlock (ColumnVector [4]); ColumnString ["b.tsv"]];
                 num_rows := 1 |};
              {| chunk_columns := [FromBlock (ColumnVector [3]); ColumnString ["a.tsv"]];
                 num_rows := 1 |};
              empty_chunk; empty_chunk; empty_chunk ].
Proof. repeat split; reflexivity. Qed.


Lemma unseekable_descriptor_is_read_once_witness :
  exists pipes s1,
    read ["x"] 8192 4 table_on_descriptor two_files = (Returns pipes, s1, two_files)
    /\ (forall column_names' b' n' (w2 : World), 0 < n' ->
          read column_names' b' n' s1 w2 = (Waits, s1, w2))
    /\ forall (writes : nat) (w2 : World) s2 w3,
         calls (replicate writes CallWrite) (Pipes_destroy pipes s1) w2 = Some (s2, w3) ->
         s2 = Pipes_destroy pipes s1 /\ w3 = w2
         /\ forall column_names' b' n', 0 < n' ->
              exists message,
                read column_names' b' n' s2 w3
                = (Throws CANNOT_SEEK_THROUGH_FILE message, s2, w3).
Proof.
  refine (unseekable_descriptor_is_read_once defaults 1 (arguments false)
            two_files two_files table_on_descriptor ["x"] 8192 4 two_files _ _ _ _ _);
    reflexivity.
Defined.

Lemma server_table_files_are_inside_user_files_witness :
  is_db_table table_of_one_file = false
  /\ Forall (fun path =>
               (String.prefix "/user_files/" path = true \/ path = "/dev/null")
               /\ (poco_exists path two_files = true
                   -> poco_isDirectory path two_files = false))
       (paths table_of_one_file).
Proof.
  refine (server_table_files_are_inside_user_files defaults "a.tsv" "/user_files/"
            (arguments true) two_files table_of_one_file _ _); reflexivity.
Defined.

Lemma user_file_table_is_never_renamed_witness :
  exists message,
    rename "data/db/u/" "db" "u" table_of_one_file
      [ ("/user_files/a.tsv", []); ("/user_files/b.tsv", [numbers_block [4]]) ]
    = (Throws DATABASE_ACCESS_DENIED message, table_of_one_file,
       [ ("/user_files/a.tsv", []); ("/user_files/b.tsv", [numbers_block [4]]) ]).
Proof.
  refine (user_file_table_is_never_renamed defaults (arguments true) two_files two_files
            table_of_one_file
            [CallRead ["x"] 8192 4; CallWrite; CallTruncate; CallRename "data/db/u/" "db" "u"]
            two_files table_of_one_file _ "data/db/u/" "db" "u" _ _).
  - left. exists "a.tsv", "/user_files/". reflexivity.
  - reflexivity.
Defined.

End FileExamples.
